(** * TIA-SCL: structural scanner ([src/parser.ts]) and rule engine ([src/rules.ts])

    A shallow embedding of the line-oriented SCL scanner and of the
    diagnostic rules that consume its model, followed by the properties
    established about them.

    Modelling conventions
    - A JavaScript string is a list of characters ([str]).  SCL sources are
      keyword-driven ASCII text, so a character is an [ascii]; case mapping
      and character classes are the ASCII ones.
    - [indexOf] returns [option nat]; [None] stands for JavaScript's [-1].
    - Arrays used as stacks or result lists are lists in array order:
      [push x] is [l ++ [x]], the top of a stack is [last].
    - A [BlockDecl] object is shared between [result.blocks] and the local
      [currentBlock]; the model keeps the object in [blocks] and
      [currentBlock] is its index there, so that in-place mutation through
      [currentBlock] is an update of [blocks] at that index.
    - A JavaScript [Map] iterates in insertion order: it is an association
      list whose [set] overwrites in place or appends.
    - Regular expressions are written with backtracking combinators in
      continuation-passing style, in the order the JavaScript engine tries
      the alternatives (greedy: longest first; lazy: shortest first). *)

From Stdlib Require Import String Ascii Bool Arith ZArith Lia DecimalString List
  Permutation.
Import ListNotations.

Set Implicit Arguments.

(** ** JavaScript string primitives *)

Module Js.

Definition str := list ascii.

Definition lit (s : string) : str := list_ascii_of_string s.

Definition dquote : ascii := "034"%char.
Definition squote : ascii := "'"%char.
Definition space : ascii := " "%char.

Fixpoint streq (a b : str) : bool :=
  match a, b with
  | [], [] => true
  | x :: a', y :: b' => Ascii.eqb x y && streq a' b'
  | _, _ => false
  end.

(** [s.startsWith(p)] *)
Fixpoint startsWith (s p : str) {struct p} : bool :=
  match p, s with
  | [], _ => true
  | x :: p', y :: s' => Ascii.eqb x y && startsWith s' p'
  | _ :: _, [] => false
  end.

(** [s.indexOf(sub)], counted from offset [i] of the original string. *)
Fixpoint indexOfFrom (i : nat) (s sub : str) : option nat :=
  if startsWith s sub then Some i
  else match s with
       | [] => None
       | _ :: t => indexOfFrom (S i) t sub
       end.

Definition indexOf (s sub : str) : option nat := indexOfFrom 0 s sub.

Definition indexOfZ (s sub : str) : Z :=
  match indexOf s sub with Some i => Z.of_nat i | None => (-1)%Z end.

(** [s.includes(sub)] *)
Definition includes (s sub : str) : bool :=
  match indexOf s sub with Some _ => true | None => false end.

(** [s.substring(0, n)] and [s.substring(n)] for [0 <= n]. *)
Definition substringTo (n : nat) (s : str) : str := firstn n s.
Definition substringFrom (n : nat) (s : str) : str := skipn n s.

(** A single space repeated [n] times. *)
Definition spaces (n : nat) : str := repeat space n.

Definition isSpace (c : ascii) : bool :=
  let n := nat_of_ascii c in
  ((9 <=? n) && (n <=? 13)) || (n =? 32).

Definition isUpperAZ (c : ascii) : bool :=
  let n := nat_of_ascii c in (65 <=? n) && (n <=? 90).
Definition isLowerAZ (c : ascii) : bool :=
  let n := nat_of_ascii c in (97 <=? n) && (n <=? 122).
Definition isDigit (c : ascii) : bool :=
  let n := nat_of_ascii c in (48 <=? n) && (n <=? 57).

(** The regular-expression classes [\w], [\S], [.] and [[A-Za-z_]]. *)
Definition isWord (c : ascii) : bool :=
  isUpperAZ c || isLowerAZ c || isDigit c || Ascii.eqb c "_"%char.
Definition isNonSpace (c : ascii) : bool := negb (isSpace c).
Definition isDot (c : ascii) : bool :=
  negb ((nat_of_ascii c =? 10) || (nat_of_ascii c =? 13)).
Definition isIdentStart (c : ascii) : bool :=
  isUpperAZ c || isLowerAZ c || Ascii.eqb c "_"%char.

Definition upperChar (c : ascii) : ascii :=
  if isLowerAZ c then ascii_of_nat (nat_of_ascii c - 32) else c.
Definition lowerChar (c : ascii) : ascii :=
  if isUpperAZ c then ascii_of_nat (nat_of_ascii c + 32) else c.

Definition toUpperCase (s : str) : str := map upperChar s.
Definition toLowerCase (s : str) : str := map lowerChar s.

Fixpoint trimStart (s : str) : str :=
  match s with
  | c :: t => if isSpace c then trimStart t else s
  | [] => []
  end.

Definition trimEnd (s : str) : str := rev (trimStart (rev s)).

(** [s.trim()] *)
Definition trim (s : str) : str := trimEnd (trimStart s).

(** [s.replace(pat, by)] with a string pattern: the first occurrence only. *)
Definition replaceFirst (s pat by_ : str) : str :=
  match indexOf s pat with
  | Some i => firstn i s ++ by_ ++ skipn (i + length pat) s
  | None => s
  end.

(** Replacing the pattern [/;$/] by the empty string. *)
Definition dropTrailingSemicolon (s : str) : str :=
  match rev s with
  | c :: t => if Ascii.eqb c ";"%char then rev t else s
  | [] => s
  end.

Fixpoint takeWhile (p : ascii -> bool) (s : str) : str :=
  match s with
  | c :: t => if p c then c :: takeWhile p t else []
  | [] => []
  end.

(** Decimal rendering of a number inside a template string. *)
Definition showNat (n : nat) : str :=
  lit (NilEmpty.string_of_uint (Nat.to_uint n)).

(** [a.join(sep)] over lines, used to write sample texts. *)
Fixpoint join (sep : str) (l : list str) : str :=
  match l with
  | [] => []
  | [x] => x
  | x :: t => x ++ sep ++ join sep t
  end.

Definition nl : str := ["010"%char].
Definition unlines (l : list str) : str := join nl l.

(** [text.split(/\r?\n/)]: [cur] holds the current piece, reversed. *)
Fixpoint splitLinesAux (cur : str) (s : str) : list str :=
  match s with
  | [] => [rev cur]
  | c :: t =>
      if Ascii.eqb c "010"%char then rev cur :: splitLinesAux [] t
      else if Ascii.eqb c "013"%char then
        match t with
        | c' :: t' =>
            if Ascii.eqb c' "010"%char then rev cur :: splitLinesAux [] t'
            else splitLinesAux (c :: cur) t
        | [] => splitLinesAux (c :: cur) t
        end
      else splitLinesAux (c :: cur) t
  end.

Definition splitLines (text : str) : list str := splitLinesAux [] text.

End Js.

(** ** Backtracking regular-expression combinators *)

Module Re.
Import Js.

Section Combinators.
Variable A : Type.

(** [p*] greedy: the longest run first, then shorter ones. *)
Fixpoint starG (p : ascii -> bool) (acc s : str)
         (k : str -> str -> option A) : option A :=
  match s with
  | c :: t =>
      if p c then
        match starG p (acc ++ [c]) t k with
        | Some r => Some r
        | None => k acc s
        end
      else k acc s
  | [] => k acc []
  end.

(** [p+] greedy. *)
Definition plusG (p : ascii -> bool) (s : str)
           (k : str -> str -> option A) : option A :=
  match s with
  | c :: t => if p c then starG p [c] t k else None
  | [] => None
  end.

(** [p*?] lazy: the shortest run first, then longer ones. *)
Fixpoint starL (p : ascii -> bool) (acc s : str)
         (k : str -> str -> option A) : option A :=
  match k acc s with
  | Some r => Some r
  | None =>
      match s with
      | c :: t => if p c then starL p (acc ++ [c]) t k else None
      | [] => None
      end
  end.

(** [p+?] lazy. *)
Definition plusL (p : ascii -> bool) (s : str)
           (k : str -> str -> option A) : option A :=
  match s with
  | c :: t => if p c then starL p [c] t k else None
  | [] => None
  end.

(** A literal character. *)
Definition chr (c : ascii) (s : str) (k : str -> option A) : option A :=
  match s with
  | c' :: t => if Ascii.eqb c c' then k t else None
  | [] => None
  end.

(** [(?: r )?] greedy: with the group first, then without it. *)
Definition optG (r : str -> (str -> option A) -> option A) (s : str)
           (k : str -> option A) : option A :=
  match r s k with
  | Some x => Some x
  | None => k s
  end.

(** An unanchored pattern: the first start position that matches. *)
Fixpoint search (re : str -> option A) (s : str) : option A :=
  match re s with
  | Some r => Some r
  | None =>
      match s with
      | [] => None
      | _ :: t => search re t
      end
  end.
End Combinators.

End Re.

(** ** Data model ([src/parser.ts], lines 13-47) *)

Module StackEntry.
Record t := mk { keyword : Js.str; line : nat; col : Z }.
End StackEntry.

Module VariableDecl.
Record t := mk {
  name : Js.str;
  type : Js.str;
  section : Js.str;
  block : Js.str;
  line : nat;
  col : Z
}.
End VariableDecl.

Module BlockDecl.
Record t := mk {
  type : Js.str;
  name : Js.str;
  line : nat;
  endLine : Z;
  hasVersion : bool;
  hasPragma : bool;
  hasBegin : bool;
  hasCode : bool;
  hasCaseElse : list (nat * bool)
}.

Definition setEndLine (v : Z) (b : t) : t :=
  mk (type b) (name b) (line b) v (hasVersion b) (hasPragma b)
     (hasBegin b) (hasCode b) (hasCaseElse b).
Definition setHasVersion (v : bool) (b : t) : t :=
  mk (type b) (name b) (line b) (endLine b) v (hasPragma b)
     (hasBegin b) (hasCode b) (hasCaseElse b).
Definition setHasPragma (v : bool) (b : t) : t :=
  mk (type b) (name b) (line b) (endLine b) (hasVersion b) v
     (hasBegin b) (hasCode b) (hasCaseElse b).
Definition setHasBegin (v : bool) (b : t) : t :=
  mk (type b) (name b) (line b) (endLine b) (hasVersion b) (hasPragma b)
     v (hasCode b) (hasCaseElse b).
Definition setHasCode (v : bool) (b : t) : t :=
  mk (type b) (name b) (line b) (endLine b) (hasVersion b) (hasPragma b)
     (hasBegin b) v (hasCaseElse b).
Definition setHasCaseElse (v : list (nat * bool)) (b : t) : t :=
  mk (type b) (name b) (line b) (endLine b) (hasVersion b) (hasPragma b)
     (hasBegin b) (hasCode b) v.
End BlockDecl.

Module ParseResult.
Record t := mk {
  blocks : list BlockDecl.t;
  variables : list VariableDecl.t;
  usedVariables : list Js.str;
  unmatchedOpens : list StackEntry.t;
  unmatchedCloses : list StackEntry.t;
  exitOutsideLoop : list StackEntry.t
}.

Definition setBlocks v (r : t) : t :=
  mk v (variables r) (usedVariables r) (unmatchedOpens r)
     (unmatchedCloses r) (exitOutsideLoop r).
Definition setVariables v (r : t) : t :=
  mk (blocks r) v (usedVariables r) (unmatchedOpens r)
     (unmatchedCloses r) (exitOutsideLoop r).
Definition setUsedVariables v (r : t) : t :=
  mk (blocks r) (variables r) v (unmatchedOpens r)
     (unmatchedCloses r) (exitOutsideLoop r).
Definition setUnmatchedOpens v (r : t) : t :=
  mk (blocks r) (variables r) (usedVariables r) v
     (unmatchedCloses r) (exitOutsideLoop r).
Definition setUnmatchedCloses v (r : t) : t :=
  mk (blocks r) (variables r) (usedVariables r) (unmatchedOpens r)
     v (exitOutsideLoop r).
Definition setExitOutsideLoop v (r : t) : t :=
  mk (blocks r) (variables r) (usedVariables r) (unmatchedOpens r)
     (unmatchedCloses r) v.
End ParseResult.

(** ** The scanner ([src/parser.ts]) *)

Module Parser.
Import Js.

(** *** Containers *)

(** [Map.set]: overwrite in place, or append a new key. *)
Fixpoint mapSet (k : nat) (v : bool) (m : list (nat * bool)) : list (nat * bool) :=
  match m with
  | [] => [(k, v)]
  | (k', v') :: t => if k =? k' then (k', v) :: t else (k', v') :: mapSet k v t
  end.

(** [Set.has] and [Set.add] on a set of strings. *)
Definition setHas (x : str) (s : list str) : bool := existsb (streq x) s.
Definition setAdd (x : str) (s : list str) : list str :=
  if setHas x s then s else s ++ [x].

(** [obj[key]] on a string-keyed record. *)
Fixpoint lookup (k : str) (tbl : list (str * str)) : option str :=
  match tbl with
  | [] => None
  | (k', v) :: t => if streq k k' then Some v else lookup k t
  end.

Definition keys (tbl : list (str * str)) : list str := map fst tbl.

(** In-place mutation of the object at index [i] of an array. *)
Fixpoint updAt (A : Type) (i : nat) (f : A -> A) (l : list A) : list A :=
  match l, i with
  | [], _ => []
  | x :: t, O => f x :: t
  | x :: t, S i' => x :: updAt i' f t
  end.

(** [stack[stack.length - 1]] and [stack.pop()]. *)
Fixpoint top (A : Type) (l : list A) : option A :=
  match l with
  | [] => None
  | [x] => Some x
  | _ :: t => top t
  end.

Definition pop (A : Type) (l : list A) : list A := removelast l.

Definition nonEmpty (A : Type) (l : list A) : bool :=
  match l with [] => false | _ :: _ => true end.

Definition isSome (A : Type) (o : option A) : bool :=
  match o with Some _ => true | None => false end.

(** *** Keyword tables (lines 51-83) *)

Definition BLOCK_PAIRS : list (str * str) :=
  [ (lit "FUNCTION_BLOCK", lit "END_FUNCTION_BLOCK");
    (lit "FUNCTION", lit "END_FUNCTION");
    (lit "ORGANIZATION_BLOCK", lit "END_ORGANIZATION_BLOCK");
    (lit "DATA_BLOCK", lit "END_DATA_BLOCK");
    (lit "TYPE", lit "END_TYPE") ].

Definition BLOCK_END_TO_OPEN : list (str * str) :=
  map (fun p => (snd p, fst p)) BLOCK_PAIRS.

Definition VAR_OPENS : list str :=
  [ lit "VAR_INPUT"; lit "VAR_OUTPUT"; lit "VAR_IN_OUT"; lit "VAR_TEMP";
    lit "VAR_GLOBAL"; lit "VAR"; lit "STRUCT" ].

Definition CONTROL_PAIRS : list (str * str) :=
  [ (lit "IF", lit "END_IF");
    (lit "FOR", lit "END_FOR");
    (lit "WHILE", lit "END_WHILE");
    (lit "REPEAT", lit "END_REPEAT");
    (lit "CASE", lit "END_CASE");
    (lit "REGION", lit "END_REGION") ].

Definition CONTROL_END_TO_OPEN : list (str * str) :=
  map (fun p => (snd p, fst p)) CONTROL_PAIRS.

Definition LOOP_KEYWORDS : list str := [ lit "FOR"; lit "WHILE"; lit "REPEAT" ].

Definition KEYWORD_SET : list str :=
  [ lit "IF"; lit "THEN"; lit "ELSIF"; lit "ELSE"; lit "END_IF";
    lit "FOR"; lit "TO"; lit "BY"; lit "DO"; lit "END_FOR";
    lit "WHILE"; lit "END_WHILE"; lit "REPEAT"; lit "UNTIL"; lit "END_REPEAT";
    lit "CASE"; lit "OF"; lit "END_CASE"; lit "RETURN"; lit "EXIT"; lit "CONTINUE";
    lit "BEGIN"; lit "END_VAR"; lit "END_STRUCT"; lit "REGION"; lit "END_REGION";
    lit "TRUE"; lit "FALSE"; lit "AND"; lit "OR"; lit "XOR"; lit "NOT"; lit "MOD" ].

(** *** Helpers (lines 356-407) *)

Definition matchKeyword (upper keyword : str) : bool :=
  streq upper keyword
  || streq upper (keyword ++ lit ";")
  || (startsWith upper (keyword ++ lit " ")
      || startsWith upper (keyword ++ ["009"%char])
      || startsWith upper (keyword ++ lit ";")).

(** The pattern of [extractBlockName]: a double quote, one or more
    characters other than a double quote (the capture), a double quote;
    unanchored, so the first start position that matches wins. *)
Definition extractBlockName (line : str) : str :=
  match Re.search
          (fun s => Re.chr dquote s (fun r =>
                    Re.plusG (fun c => negb (Ascii.eqb c dquote)) r (fun name r' =>
                    Re.chr dquote r' (fun _ => Some name))))
          line with
  | Some name => name
  | None => []
  end.

(** The global replace of [stripBlockComments]: every match of an
    opener, a lazy run of any characters, and a terminator is replaced by
    as many spaces.  [inside] is true between an opener that has a terminator further right
    and that terminator.  An opener with no terminator to its right does not
    match, and neither does anything after it. *)
Fixpoint blankComments (inside : bool) (s : str) : str :=
  match s with
  | [] => []
  | c :: t =>
      if inside then
        match t with
        | c' :: t' =>
            if Ascii.eqb c "*"%char && Ascii.eqb c' ")"%char
            then space :: space :: blankComments false t'
            else space :: blankComments true t
        | [] => space :: blankComments true t
        end
      else
        match t with
        | c' :: t' =>
            if Ascii.eqb c "("%char && Ascii.eqb c' "*"%char
            then if includes t' (lit "*)")
                 then space :: space :: blankComments true t'
                 else c :: t
            else c :: blankComments false t
        | [] => c :: blankComments false t
        end
  end.

Definition stripBlockComments (line : str) : str := blankComments false line.

(** The loop of [lineCommentIndex]: [s] is [line] from offset [i] on; the
    loop stops before the last character. *)
Fixpoint lineCommentLoop (inString : bool) (stringChar : option ascii)
         (i : nat) (s : str) : option nat :=
  match s with
  | [] => None
  | ch :: t =>
      match t with
      | [] => None
      | next :: _ =>
          if inString then
            if match stringChar with Some q => Ascii.eqb ch q | None => false end
            then lineCommentLoop false stringChar (S i) t
            else lineCommentLoop true stringChar (S i) t
          else if Ascii.eqb ch squote || Ascii.eqb ch dquote
          then lineCommentLoop true (Some ch) (S i) t
          else if Ascii.eqb ch "/"%char && Ascii.eqb next "/"%char
          then Some i
          else lineCommentLoop false stringChar (S i) t
      end
  end.

Definition lineCommentIndex (line : str) : option nat :=
  lineCommentLoop false None 0 line.

(** One global replace of [stripStrings], for the quote character [q]:
    every match of [q], a run of characters other than [q], and [q] keeps
    its two quotes and has its interior replaced by as many spaces.
    [inside] is true after an opening quote that has a
    closing quote further right. *)
Fixpoint blankQuoted (q : ascii) (inside : bool) (s : str) : str :=
  match s with
  | [] => []
  | c :: t =>
      if inside then
        if Ascii.eqb c q then q :: blankQuoted q false t
        else space :: blankQuoted q true t
      else if Ascii.eqb c q then
        if existsb (Ascii.eqb q) t then q :: blankQuoted q true t
        else c :: t
      else c :: blankQuoted q false t
  end.

Definition stripStrings (line : str) : str :=
  blankQuoted dquote false (blankQuoted squote false line).

Definition isKeyword (word : str) : bool :=
  setHas (toUpperCase word) KEYWORD_SET.

(** The matches of the global pattern of [hashVarRegex] (a [#], then
    a letter or underscore, then word characters), left to right: the
    capture group, i.e. the identifier after the [#].
    A match holds no [#], so scanning on from the character after the [#]
    finds the same further matches as scanning on from the end of the match. *)
Fixpoint hashVarNames (s : str) : list str :=
  match s with
  | [] => []
  | c :: t =>
      if Ascii.eqb c "#"%char then
        match t with
        | c1 :: _ =>
            if isIdentStart c1 then takeWhile isWord t :: hashVarNames t
            else hashVarNames t
        | [] => []
        end
      else hashVarNames t
  end.

(** [/^(\w+)\s*:\s*(.+?)(?:\s*:=\s*.+?)?\s*;/]: capture groups 1 and 2. *)
Definition varDeclRe (s : str) : option (str * str) :=
  Re.plusG isWord s (fun name r1 =>
  Re.starG isSpace [] r1 (fun _ r2 =>
  Re.chr ":"%char r2 (fun r3 =>
  Re.starG isSpace [] r3 (fun _ r4 =>
  Re.plusL isDot r4 (fun ty r5 =>
  Re.optG (fun r k =>
             Re.starG isSpace [] r (fun _ a1 =>
             Re.chr ":"%char a1 (fun a2 =>
             Re.chr "="%char a2 (fun a3 =>
             Re.starG isSpace [] a3 (fun _ a4 =>
             Re.plusL isDot a4 (fun _ a5 => k a5))))))
          r5 (fun r6 =>
  Re.starG isSpace [] r6 (fun _ r7 =>
  Re.chr ";"%char r7 (fun _ => Some (name, ty))))))))).

(** [/^(\w+)\s*:\s*(\S+)/]: capture groups 1 and 2. *)
Definition simpleDeclRe (s : str) : option (str * str) :=
  Re.plusG isWord s (fun name r1 =>
  Re.starG isSpace [] r1 (fun _ r2 =>
  Re.chr ":"%char r2 (fun r3 =>
  Re.starG isSpace [] r3 (fun _ r4 =>
  Re.plusG isNonSpace r4 (fun ty _ => Some (name, ty)))))).

(** *** Scanner state: the result under construction and the locals of
    [parse] (lines 89-105) *)

Record State := mkState {
  result : ParseResult.t;
  blockStack : list StackEntry.t;
  varStack : list StackEntry.t;
  controlStack : list StackEntry.t;
  currentBlock : option nat;
  currentVarSection : str;
  inBlockComment : bool;
  afterBegin : bool
}.

Definition setResult v (st : State) : State :=
  mkState v (blockStack st) (varStack st) (controlStack st) (currentBlock st)
          (currentVarSection st) (inBlockComment st) (afterBegin st).
Definition setBlockStack v (st : State) : State :=
  mkState (result st) v (varStack st) (controlStack st) (currentBlock st)
          (currentVarSection st) (inBlockComment st) (afterBegin st).
Definition setVarStack v (st : State) : State :=
  mkState (result st) (blockStack st) v (controlStack st) (currentBlock st)
          (currentVarSection st) (inBlockComment st) (afterBegin st).
Definition setControlStack v (st : State) : State :=
  mkState (result st) (blockStack st) (varStack st) v (currentBlock st)
          (currentVarSection st) (inBlockComment st) (afterBegin st).
Definition setCurrentBlock v (st : State) : State :=
  mkState (result st) (blockStack st) (varStack st) (controlStack st) v
          (currentVarSection st) (inBlockComment st) (afterBegin st).
Definition setCurrentVarSection v (st : State) : State :=
  mkState (result st) (blockStack st) (varStack st) (controlStack st)
          (currentBlock st) v (inBlockComment st) (afterBegin st).
Definition setInBlockComment v (st : State) : State :=
  mkState (result st) (blockStack st) (varStack st) (controlStack st)
          (currentBlock st) (currentVarSection st) v (afterBegin st).
Definition setAfterBegin v (st : State) : State :=
  mkState (result st) (blockStack st) (varStack st) (controlStack st)
          (currentBlock st) (currentVarSection st) (inBlockComment st) v.

Definition initState : State :=
  mkState (ParseResult.mk [] [] [] [] [] []) [] [] [] None [] false false.

(** [if (currentBlock) currentBlock.f = v]: the shared object is mutated
    where it lives, in [result.blocks]. *)
Definition mutateCurrent (f : BlockDecl.t -> BlockDecl.t) (st : State) : State :=
  match currentBlock st with
  | Some i =>
      setResult (ParseResult.setBlocks
                   (updAt i f (ParseResult.blocks (result st))) (result st)) st
  | None => st
  end.

(** [currentBlock?.name || ""] *)
Definition currentBlockName (st : State) : str :=
  match currentBlock st with
  | Some i =>
      match nth_error (ParseResult.blocks (result st)) i with
      | Some b => BlockDecl.name b
      | None => []
      end
  | None => []
  end.

Definition pushUnmatchedClose (e : StackEntry.t) (st : State) : State :=
  setResult (ParseResult.setUnmatchedCloses
               (ParseResult.unmatchedCloses (result st) ++ [e]) (result st)) st.

Definition pushVariable (v : VariableDecl.t) (st : State) : State :=
  setResult (ParseResult.setVariables
               (ParseResult.variables (result st) ++ [v]) (result st)) st.

Definition pushExitOutsideLoop (e : StackEntry.t) (st : State) : State :=
  setResult (ParseResult.setExitOutsideLoop
               (ParseResult.exitOutsideLoop (result st) ++ [e]) (result st)) st.

(** *** Preprocessing of a physical line (lines 110-132) *)

(** [None] is the [continue] of a line that lies wholly inside a block
    comment; otherwise the new [inBlockComment] flag and the line with its
    comments removed ([originalLine]). *)
Definition stripComments (inComment : bool) (line : str) : option (bool * str) :=
  (* Handle block comments spanning lines *)
  match (if inComment then
           match indexOf line (lit "*)") with
           | Some endIdx =>
               Some (spaces (endIdx + 2) ++ substringFrom (endIdx + 2) line)
           | None => None
           end
         else Some line) with
  | None => None
  | Some line1 =>
      (* Strip inline block comments *)
      let line2 := stripBlockComments line1 in
      let '(inComment', line3) :=
        match indexOf line2 (lit "(*") with
        | Some openIdx => (true, substringTo openIdx line2)
        | None => (false, line2)
        end in
      (* Strip line comments *)
      let line4 :=
        match lineCommentIndex line3 with
        | Some commentIdx => substringTo commentIdx line3
        | None => line3
        end in
      Some (inComment', line4)
  end.

(** *** Classification of an active line (lines 145-345) *)

(** Track #variable usage (lines 146-150). *)
Definition trackUsage (originalLine : str) (st : State) : State :=
  setResult (ParseResult.setUsedVariables
               (fold_left (fun s n => setAdd (toLowerCase n) s)
                          (hashVarNames originalLine)
                          (ParseResult.usedVariables (result st)))
               (result st)) st.

(** Block declarations (lines 166-187), for the opener [openKw] found. *)
Definition openBlock (lineIdx : nat) (originalLine openKw : str) (st : State) : State :=
  let block := BlockDecl.mk openKw (extractBlockName originalLine) lineIdx (-1)
                            false false false false [] in
  let blocks := ParseResult.blocks (result st) in
  let st := setResult (ParseResult.setBlocks (blocks ++ [block]) (result st)) st in
  let st := setCurrentBlock (Some (length blocks)) st in
  let st := setBlockStack (blockStack st ++ [StackEntry.mk openKw lineIdx 0]) st in
  setAfterBegin false st.

(** Block end keywords (lines 191-209), for the closer [closeKw] found. *)
Definition closeBlock (lineIdx : nat) (closeKw : str) (st : State) : State :=
  match top (blockStack st) with
  | Some t =>
      if match lookup (StackEntry.keyword t) BLOCK_PAIRS with
         | Some c => streq c closeKw
         | None => false
         end
      then
        let st := setBlockStack (pop (blockStack st)) st in
        let st := mutateCurrent (BlockDecl.setEndLine (Z.of_nat lineIdx)) st in
        let st := setCurrentBlock None st in
        setAfterBegin false st
      else pushUnmatchedClose (StackEntry.mk closeKw lineIdx 0) st
  | None => pushUnmatchedClose (StackEntry.mk closeKw lineIdx 0) st
  end.

(** VAR section ends (lines 220-231). *)
Definition closeVarSection (lineIdx : nat) (upper : str) (st : State) : State :=
  if nonEmpty (varStack st) then
    let vs := pop (varStack st) in
    let st := setVarStack vs st in
    setCurrentVarSection
      (match top vs with Some t => StackEntry.keyword t | None => [] end) st
  else
    pushUnmatchedClose
      (StackEntry.mk (if startsWith upper (lit "END_STRUCT")
                      then lit "END_STRUCT" else lit "END_VAR") lineIdx 0) st.

(** A VAR section opener (lines 234-250) pushing the keyword [varKw]. *)
Definition openVarSection (lineIdx : nat) (varKw : str) (st : State) : State :=
  let st := setCurrentVarSection varKw st in
  setVarStack (varStack st ++ [StackEntry.mk varKw lineIdx 0]) st.

(** Variable declarations inside VAR sections (lines 253-285). *)
Definition declareVariable (lineIdx : nat) (originalLine : str) (st : State) : State :=
  let origTrimmed := trim originalLine in
  match varDeclRe origTrimmed with
  | Some (varName, g2) =>
      let varType := trim (dropTrailingSemicolon (trim g2)) in
      if negb (isKeyword varName) then
        pushVariable
          (VariableDecl.mk varName varType (currentVarSection st)
                           (currentBlockName st) lineIdx
                           (indexOfZ origTrimmed varName)) st
      else st
  | None =>
      (* Simple declaration without ; on same line *)
      match simpleDeclRe origTrimmed with
      | Some (n, ty) =>
          if negb (isKeyword n) then
            pushVariable
              (VariableDecl.mk n (trim (dropTrailingSemicolon ty))
                               (currentVarSection st) (currentBlockName st)
                               lineIdx 0) st
          else st
      | None => st
      end
  end.

Definition pushControl (kw : str) (lineIdx : nat) (st : State) : State :=
  setControlStack (controlStack st ++ [StackEntry.mk kw lineIdx 0]) st.

(** Control flow, only in the code section after BEGIN (lines 288-345).
    The steps of that branch, in source order. *)

(** Lines 289-291: any line but a lone semicolon or an END_ line is code. *)
Definition markCode (trimmed upper : str) (st : State) : State :=
  if isSome (currentBlock st) && negb (streq trimmed (lit ";"))
     && negb (startsWith upper (lit "END_"))
  then mutateCurrent (BlockDecl.setHasCode true) st
  else st.

(** Lines 295-296: CASE ... OF *)
Definition caseOpen (lineIdx : nat) (st : State) : State :=
  let st := pushControl (lit "CASE") lineIdx st in
  mutateCurrent (fun b => BlockDecl.setHasCaseElse
                            (mapSet lineIdx false (BlockDecl.hasCaseElse b)) b) st.

(** Lines 302-305: ELSE inside CASE -> mark it *)
Definition elseInCase (st : State) : State :=
  match top (controlStack st) with
  | Some t =>
      if streq (StackEntry.keyword t) (lit "CASE") && isSome (currentBlock st)
      then mutateCurrent
             (fun b => BlockDecl.setHasCaseElse
                         (mapSet (StackEntry.line t) true (BlockDecl.hasCaseElse b)) b) st
      else st
  | None => st
  end.

(** Lines 310-312: IF (but not ELSIF) *)
Definition ifOpen (lineIdx : nat) (upper : str) (st : State) : State :=
  if (streq upper (lit "IF") || startsWith upper (lit "IF "))
     && negb (startsWith upper (lit "ELSIF"))
  then pushControl (lit "IF") lineIdx st
  else st.

(** Lines 315-320: FOR, WHILE, REPEAT, REGION *)
Definition loopOpen (lineIdx : nat) (upper : str) (st : State) : State :=
  match find (matchKeyword upper)
             [lit "FOR"; lit "WHILE"; lit "REPEAT"; lit "REGION"] with
  | Some openKw => pushControl openKw lineIdx st
  | None => st
  end.

(** Lines 323-333: control flow closers *)
Definition controlClose (lineIdx : nat) (upper : str) (st : State) : State :=
  match find (matchKeyword upper) (keys CONTROL_END_TO_OPEN) with
  | Some closeKw =>
      if match top (controlStack st), lookup closeKw CONTROL_END_TO_OPEN with
         | Some t, Some expectedOpen => streq (StackEntry.keyword t) expectedOpen
         | _, _ => false
         end
      then setControlStack (pop (controlStack st)) st
      else pushUnmatchedClose (StackEntry.mk closeKw lineIdx 0) st
  | None => st
  end.

(** Lines 336-344: EXIT / CONTINUE outside loop *)
Definition exitCheck (lineIdx : nat) (upper : str) (st : State) : State :=
  if matchKeyword upper (lit "EXIT") || matchKeyword upper (lit "CONTINUE") then
    let inLoop :=
      existsb (fun e => setHas (StackEntry.keyword e) LOOP_KEYWORDS)
              (controlStack st) in
    if negb inLoop then
      pushExitOutsideLoop
        (StackEntry.mk (if startsWith upper (lit "EXIT")
                        then lit "EXIT" else lit "CONTINUE") lineIdx 0) st
    else st
  else st.

Definition controlFlow (lineIdx : nat) (trimmed upper : str) (st : State) : State :=
  let st := markCode trimmed upper st in
  if matchKeyword upper (lit "CASE") then caseOpen lineIdx st
  else if matchKeyword upper (lit "ELSE") && nonEmpty (controlStack st)
  then elseInCase st
  else exitCheck lineIdx upper
         (controlClose lineIdx upper
            (loopOpen lineIdx upper (ifOpen lineIdx upper st))).

(** The chain of tests on a non-blank active line; every taken branch is
    the [continue] of the source. *)
Definition classify (lineIdx : nat) (originalLine trimmed upper : str)
           (st : State) : State :=
  (* Pragma detection *)
  if startsWith trimmed (lit "{") && isSome (currentBlock st) then
    mutateCurrent (BlockDecl.setHasPragma true) st
  (* VERSION detection *)
  else if startsWith upper (lit "VERSION") && isSome (currentBlock st) then
    mutateCurrent (BlockDecl.setHasVersion true) st
  else
  (* Block declarations *)
  match find (matchKeyword upper) (keys BLOCK_PAIRS) with
  | Some openKw => openBlock lineIdx originalLine openKw st
  | None =>
  (* Block end keywords *)
  match find (matchKeyword upper) (keys BLOCK_END_TO_OPEN) with
  | Some closeKw => closeBlock lineIdx closeKw st
  | None =>
  (* BEGIN *)
  if streq upper (lit "BEGIN") then
    setAfterBegin true (mutateCurrent (BlockDecl.setHasBegin true) st)
  (* VAR section ends *)
  else if matchKeyword upper (lit "END_VAR") || matchKeyword upper (lit "END_STRUCT") then
    closeVarSection lineIdx upper st
  (* VAR CONSTANT special case *)
  else if startsWith upper (lit "VAR") && includes upper (lit "CONSTANT")
          && negb (startsWith upper (lit "VAR_")) then
    openVarSection lineIdx (lit "VAR_CONSTANT") st
  else
  (* VAR section opens *)
  match find (matchKeyword upper) VAR_OPENS with
  | Some varKw => openVarSection lineIdx varKw st
  | None =>
  (* Variable declarations (inside VAR sections) *)
  if nonEmpty (currentVarSection st) && negb (afterBegin st) then
    declareVariable lineIdx originalLine st
  (* Control flow (only in code section after BEGIN) *)
  else if afterBegin st then controlFlow lineIdx trimmed upper st
  else st
  end end end.

(** The body of the loop over the lines (lines 107-346). *)
Definition processLine (lineIdx : nat) (line : str) (st : State) : State :=
  match stripComments (inBlockComment st) line with
  | None => st
  | Some (inComment', originalLine) =>
      let st := setInBlockComment inComment' st in
      (* Strip string literals *)
      let line' := stripStrings originalLine in
      let trimmed := trim line' in
      if nonEmpty trimmed then
        let upper := toUpperCase trimmed in
        classify lineIdx originalLine trimmed upper (trackUsage originalLine st)
      else st
  end.

(** The [for] loop over [lines], from index [lineIdx] on. *)
Fixpoint scanLines (lineIdx : nat) (lines : list str) (st : State) : State :=
  match lines with
  | [] => st
  | l :: rest => scanLines (S lineIdx) rest (processLine lineIdx l st)
  end.

Definition parse (text : str) : ParseResult.t :=
  let st := scanLines 0 (splitLines text) initState in
  (* Remaining unmatched opens *)
  ParseResult.setUnmatchedOpens
    (ParseResult.unmatchedOpens (result st)
       ++ blockStack st ++ varStack st ++ controlStack st)
    (result st).

End Parser.

(** ** The rule engine ([src/rules.ts]) *)

Module Rules.
Import Js.

(** [vscode.DiagnosticSeverity] *)
Inductive DiagnosticSeverity := Error | Warning | Information | Hint.

Module LintDiagnostic.
Record t := mk {
  line : nat;
  col : Z;
  endCol : option Z;
  message : str;
  severity : DiagnosticSeverity;
  code : str
}.
End LintDiagnostic.

Definition diag (line : nat) (col : Z) (message : str)
           (severity : DiagnosticSeverity) (code : str) : LintDiagnostic.t :=
  LintDiagnostic.mk line col None message severity code.

(** [array.includes(x)] on an array of strings. *)
Definition arrayIncludes (x : str) (l : list str) : bool := existsb (streq x) l.

(** [a || b] on strings: [b] when [a] is empty. *)
Definition orElse (a b : str) : str :=
  match a with [] => b | _ :: _ => a end.

(** *** SCL001: unmatched control flow *)

Definition ruleUnmatchedControlFlow (result : ParseResult.t) : list LintDiagnostic.t :=
  flat_map
    (fun entry =>
       let kw := StackEntry.keyword entry in
       if arrayIncludes kw [lit "IF"; lit "FOR"; lit "WHILE"; lit "REPEAT";
                            lit "CASE"; lit "REGION"]
       then [diag (StackEntry.line entry) 0
                  (lit "'" ++ kw ++ lit "' has no matching 'END_" ++ kw ++ lit "'")
                  Error (lit "SCL001")]
       else [])
    (ParseResult.unmatchedOpens result)
  ++
  flat_map
    (fun entry =>
       let kw := StackEntry.keyword entry in
       if startsWith kw (lit "END_") && negb (startsWith kw (lit "END_FUNCTION"))
          && negb (startsWith kw (lit "END_DATA"))
          && negb (startsWith kw (lit "END_ORGANIZATION"))
          && negb (startsWith kw (lit "END_TYPE"))
          && negb (streq kw (lit "END_VAR"))
          && negb (streq kw (lit "END_STRUCT"))
       then
         let openKw := replaceFirst kw (lit "END_") [] in
         [diag (StackEntry.line entry) 0
               (lit "'" ++ kw ++ lit "' without matching '" ++ openKw ++ lit "'")
               Error (lit "SCL001")]
       else [])
    (ParseResult.unmatchedCloses result).

(** *** SCL002: unmatched VAR sections *)

Definition ruleUnmatchedVarSections (result : ParseResult.t) : list LintDiagnostic.t :=
  flat_map
    (fun entry =>
       let kw := StackEntry.keyword entry in
       if startsWith kw (lit "VAR") || streq kw (lit "STRUCT") then
         let endKw := if streq kw (lit "STRUCT") then lit "END_STRUCT" else lit "END_VAR" in
         [diag (StackEntry.line entry) 0
               (lit "'" ++ kw ++ lit "' has no matching '" ++ endKw ++ lit "'")
               Error (lit "SCL002")]
       else [])
    (ParseResult.unmatchedOpens result)
  ++
  flat_map
    (fun entry =>
       let kw := StackEntry.keyword entry in
       if streq kw (lit "END_VAR") || streq kw (lit "END_STRUCT") then
         [diag (StackEntry.line entry) 0
               (lit "'" ++ kw ++ lit "' without matching opening declaration")
               Error (lit "SCL002")]
       else [])
    (ParseResult.unmatchedCloses result).

(** *** SCL003: unmatched block declarations *)

Definition ruleUnmatchedBlocks (result : ParseResult.t) : list LintDiagnostic.t :=
  flat_map
    (fun entry =>
       let kw := StackEntry.keyword entry in
       if arrayIncludes kw [lit "FUNCTION_BLOCK"; lit "FUNCTION";
                            lit "ORGANIZATION_BLOCK"; lit "DATA_BLOCK"; lit "TYPE"]
       then [diag (StackEntry.line entry) 0
                  (lit "'" ++ kw ++ lit "' has no matching 'END_" ++ kw ++ lit "'")
                  Error (lit "SCL003")]
       else [])
    (ParseResult.unmatchedOpens result)
  ++
  flat_map
    (fun entry =>
       let kw := StackEntry.keyword entry in
       if arrayIncludes kw [lit "END_FUNCTION_BLOCK"; lit "END_FUNCTION";
                            lit "END_ORGANIZATION_BLOCK"; lit "END_DATA_BLOCK";
                            lit "END_TYPE"]
       then [diag (StackEntry.line entry) 0
                  (lit "'" ++ kw ++ lit "' without matching block declaration")
                  Error (lit "SCL003")]
       else [])
    (ParseResult.unmatchedCloses result).

(** *** SCL004: duplicate variable names *)

(** A declaration site, the value type of the inner map. *)
Definition Location : Type := (nat * Z)%type.

(** The inner map, from a lower-cased name to its locations: a missing key
    is created with an empty array, then the location is pushed. *)
Fixpoint addLocation (lower : str) (loc : Location)
         (blockVars : list (str * list Location)) : list (str * list Location) :=
  match blockVars with
  | [] => [(lower, [loc])]
  | (n, locs) :: t =>
      if streq lower n then (n, locs ++ [loc]) :: t
      else (n, locs) :: addLocation lower loc t
  end.

(** The outer map, from a block name to its inner map. *)
Fixpoint addToBlock (key lower : str) (loc : Location)
         (byBlock : list (str * list (str * list Location)))
  : list (str * list (str * list Location)) :=
  match byBlock with
  | [] => [(key, addLocation lower loc [])]
  | (k, blockVars) :: t =>
      if streq key k then (k, addLocation lower loc blockVars) :: t
      else (k, blockVars) :: addToBlock key lower loc t
  end.

(** Group by block (lines 152-160). *)
Definition groupByBlock (vars : list VariableDecl.t)
  : list (str * list (str * list Location)) :=
  fold_left
    (fun byBlock v =>
       addToBlock (VariableDecl.block v) (toLowerCase (VariableDecl.name v))
                  (VariableDecl.line v, VariableDecl.col v) byBlock)
    vars [].

(** Mark all duplicates after the first (lines 164-175). *)
Definition duplicatesOf (name : str) (locations : list Location) : list LintDiagnostic.t :=
  match locations with
  | first :: (_ :: _) as later =>
      map (fun loc =>
             diag (fst loc) (snd loc)
                  (lit "Duplicate variable '" ++ name
                     ++ lit "' (first declared on line "
                     ++ showNat (fst first + 1) ++ lit ")")
                  Error (lit "SCL004"))
          later
  | _ => []
  end.

Definition ruleDuplicateVariables (result : ParseResult.t) : list LintDiagnostic.t :=
  flat_map
    (fun entry =>
       flat_map (fun nl => duplicatesOf (fst nl) (snd nl)) (snd entry))
    (groupByBlock (ParseResult.variables result)).

(** *** SCL005: EXIT/CONTINUE outside loop *)

Definition ruleExitOutsideLoop (result : ParseResult.t) : list LintDiagnostic.t :=
  map (fun entry =>
         diag (StackEntry.line entry) 0
              (lit "'" ++ StackEntry.keyword entry
                 ++ lit "' used outside of a FOR/WHILE/REPEAT loop")
              Error (lit "SCL005"))
      (ParseResult.exitOutsideLoop result).

(** *** SCL101: unused variables *)

(** The body of the loop over [result.variables]: the diagnostics pushed
    for the variable [v]. *)
Definition unusedVariable (result : ParseResult.t) (v : VariableDecl.t)
  : list LintDiagnostic.t :=
  (* Skip variables in DATA_BLOCK and TYPE *)
  let block := find (fun b => streq (BlockDecl.name b) (VariableDecl.block v))
                    (ParseResult.blocks result) in
  if match block with
     | Some b => streq (BlockDecl.type b) (lit "DATA_BLOCK")
                 || streq (BlockDecl.type b) (lit "TYPE")
     | None => false
     end
  then []
  (* Skip VAR_OUTPUT *)
  else if streq (VariableDecl.section v) (lit "VAR_OUTPUT") then []
  else
    let lower := toLowerCase (VariableDecl.name v) in
    if negb (Parser.setHas lower (ParseResult.usedVariables result)) then
      [diag (VariableDecl.line v) (VariableDecl.col v)
            (lit "Variable '" ++ VariableDecl.name v
               ++ lit "' is declared but never used")
            Warning (lit "SCL101")]
    else [].

Definition ruleUnusedVariables (result : ParseResult.t) : list LintDiagnostic.t :=
  flat_map (unusedVariable result) (ParseResult.variables result).

(** *** SCL102: missing VERSION *)

Definition ruleMissingVersion (result : ParseResult.t) : list LintDiagnostic.t :=
  flat_map
    (fun block =>
       if negb (BlockDecl.hasVersion block) then
         [diag (BlockDecl.line block) 0
               (lit "Block '" ++ orElse (BlockDecl.name block) (BlockDecl.type block)
                  ++ lit "' has no VERSION declaration")
               Warning (lit "SCL102")]
       else [])
    (ParseResult.blocks result).

(** *** SCL103: missing S7_Optimized_Access pragma *)

Definition ruleMissingPragma (result : ParseResult.t) : list LintDiagnostic.t :=
  flat_map
    (fun block =>
       (* TYPE/UDT don't need pragma *)
       if streq (BlockDecl.type block) (lit "TYPE") then []
       else if negb (BlockDecl.hasPragma block) then
         [diag (BlockDecl.line block) 0
               (lit "Block '" ++ orElse (BlockDecl.name block) (BlockDecl.type block)
                  ++ lit "' has no { S7_Optimized_Access } pragma")
               Warning (lit "SCL103")]
       else [])
    (ParseResult.blocks result).

(** *** SCL104: CASE without ELSE *)

Definition ruleCaseWithoutElse (result : ParseResult.t) : list LintDiagnostic.t :=
  flat_map
    (fun block =>
       flat_map
         (fun entry =>
            if negb (snd entry) then
              [diag (fst entry) 0 (lit "CASE statement has no ELSE branch")
                    Warning (lit "SCL104")]
            else [])
         (BlockDecl.hasCaseElse block))
    (ParseResult.blocks result).

(** *** SCL105: empty block *)

Definition ruleEmptyBlock (result : ParseResult.t) : list LintDiagnostic.t :=
  flat_map
    (fun block =>
       (* DATA_BLOCK and TYPE don't need code after BEGIN *)
       if streq (BlockDecl.type block) (lit "DATA_BLOCK")
          || streq (BlockDecl.type block) (lit "TYPE") then []
       else if BlockDecl.hasBegin block && negb (BlockDecl.hasCode block) then
         [diag (BlockDecl.line block) 0
               (lit "Block '" ++ orElse (BlockDecl.name block) (BlockDecl.type block)
                  ++ lit "' has an empty BEGIN section")
               Warning (lit "SCL105")]
       else [])
    (ParseResult.blocks result).

(** *** SCL201: naming convention *)

Definition prefixMap : list (str * str) :=
  [ (lit "FUNCTION_BLOCK", lit "FB_");
    (lit "FUNCTION", lit "FC_");
    (lit "DATA_BLOCK", lit "DB_") ].

Definition ruleNamingConvention (result : ParseResult.t) : list LintDiagnostic.t :=
  flat_map
    (fun block =>
       match Parser.lookup (BlockDecl.type block) prefixMap with
       | Some expected =>
           if Parser.nonEmpty (BlockDecl.name block)
              && negb (startsWith (BlockDecl.name block) expected)
              && negb (startsWith (BlockDecl.name block) (lit "UDT_"))
           then
             [diag (BlockDecl.line block) 0
                   (lit "Block '" ++ BlockDecl.name block
                      ++ lit "' does not follow naming convention '"
                      ++ expected ++ lit "...'")
                   Hint (lit "SCL201")]
           else []
       | None => []
       end)
    (ParseResult.blocks result).

(** *** Run all rules *)

Definition runRules (result : ParseResult.t) : list LintDiagnostic.t :=
  ruleUnmatchedControlFlow result
  ++ ruleUnmatchedVarSections result
  ++ ruleUnmatchedBlocks result
  ++ ruleDuplicateVariables result
  ++ ruleExitOutsideLoop result
  ++ ruleUnusedVariables result
  ++ ruleMissingVersion result
  ++ ruleMissingPragma result
  ++ ruleCaseWithoutElse result
  ++ ruleEmptyBlock result
  ++ ruleNamingConvention result.

End Rules.


(** ** The consumers of the model

    The providers that call [parse] and [runRules]: the diagnostics
    provider ([src/linter.ts]), go-to-definition
    ([src/definitionProvider.ts]), the outline (the symbol provider) and
    the quick fixes ([src/quickFixes.ts]).  Only their own computations are
    embedded; the editor objects they build are records of the arguments
    passed to the editor's constructors. *)

(** *** Diagnostics provider *)

Module Linter.
Import Js Parser Rules.

(** The four arguments of [new vscode.Range(...)]. *)
Record Range := mkRange {
  startLine : nat;
  startCharacter : Z;
  endLine : nat;
  endCharacter : Z
}.

Record Diagnostic := mkDiagnostic {
  range : Range;
  message : str;
  severity : DiagnosticSeverity;
  code : str;
  source : str
}.

(** [lines[i]], or the empty string for a missing line. *)
Definition lineTextAt (lines : list str) (i : nat) : str := nth i lines [].

(** The range of one diagnostic (the body of the [map] callback). *)
Definition diagnosticRange (lines : list str) (d : LintDiagnostic.t) : Range :=
  let lineText := lineTextAt lines (LintDiagnostic.line d) in
  let startCol := LintDiagnostic.col d in
  let endCol :=
    match LintDiagnostic.endCol d with
    | Some e => e
    | None => Z.of_nat (length (trimEnd lineText))
    end in
  mkRange (LintDiagnostic.line d) startCol
          (LintDiagnostic.line d) (Z.max endCol (startCol + 1)).

Definition toDiagnostic (lines : list str) (d : LintDiagnostic.t) : Diagnostic :=
  mkDiagnostic (diagnosticRange lines d) (LintDiagnostic.message d)
               (LintDiagnostic.severity d) (LintDiagnostic.code d) (lit "SCL").

(** [lintDocument]: the diagnostics set on the document of text [text]. *)
Definition lintDocument (text : str) : list Diagnostic :=
  let lines := splitLines text in
  let parseResult := parse text in
  let lintDiags := runRules parseResult in
  map (toDiagnostic lines) lintDiags.

End Linter.

(** *** Go to definition *)

Module DefinitionProvider.
Import Js Parser.

(** The line and character of a [vscode.Position]. *)
Definition Position : Type := (nat * Z)%type.

Definition findVariable (variables : list VariableDecl.t) (name : str)
  : option Position :=
  let lower := toLowerCase name in
  match find (fun v => streq (toLowerCase (VariableDecl.name v)) lower) variables with
  | Some m => Some (VariableDecl.line m, VariableDecl.col m)
  | None => None
  end.

Definition findBlock (blocks : list BlockDecl.t) (name : str) : option Position :=
  match find (fun b => streq (BlockDecl.name b) name) blocks with
  | Some m => Some (BlockDecl.line m, 0%Z)
  | None => None
  end.

(** Whether [line[i]] is a double quote; false beyond the end of the line. *)
Definition quoteAt (line : str) (i : nat) : bool :=
  match nth_error line i with
  | Some c => Ascii.eqb c dquote
  | None => false
  end.

(** The first loop of [getQuotedName]: from [i] down to 0. *)
Fixpoint quoteAtOrBefore (line : str) (i : nat) : option nat :=
  if quoteAt line i then Some i
  else match i with
       | O => None
       | S j => quoteAtOrBefore line j
       end.

(** The second loop: [s] is the line from offset [i] on. *)
Fixpoint quoteInRest (i : nat) (s : str) : option nat :=
  match s with
  | [] => None
  | c :: t => if Ascii.eqb c dquote then Some i else quoteInRest (S i) t
  end.

Definition quoteAtOrAfter (line : str) (from : nat) : option nat :=
  quoteInRest from (skipn from line).

(** [line.substring(a, b)] for [a <= b]. *)
Definition substring (a b : nat) (line : str) : str := firstn (b - a) (skipn a line).

Definition getQuotedName (line : str) (charPos : nat) : option str :=
  match quoteAtOrBefore line charPos with
  | None => None
  | Some start =>
      match quoteAtOrAfter line (Nat.max charPos (start + 1)) with
      | None => None
      | Some end_ =>
          if end_ <=? start then None
          else Some (substring (start + 1) end_ line)
      end
  end.

End DefinitionProvider.

(** *** Outline *)

Module SymbolProvider.
Import Js Parser.

Inductive SymbolKind :=
| KClass | KFunction | KEvent | KStruct | KModule.

Definition blockKind (type : str) : SymbolKind :=
  if streq type (lit "FUNCTION_BLOCK") then KClass
  else if streq type (lit "FUNCTION") then KFunction
  else if streq type (lit "ORGANIZATION_BLOCK") then KEvent
  else if streq type (lit "DATA_BLOCK") then KStruct
  else if streq type (lit "TYPE") then KStruct
  else KModule.

(** [block.endLine >= 0 ? block.endLine : block.line] *)
Definition blockEndLine (block : BlockDecl.t) : Z :=
  if (0 <=? BlockDecl.endLine block)%Z then BlockDecl.endLine block
  else Z.of_nat (BlockDecl.line block).

(** One step of the grouping loop: a missing section is created with an
    empty array, then the variable is pushed. *)
Fixpoint addToSection (v : VariableDecl.t)
         (sections : list (str * list VariableDecl.t))
  : list (str * list VariableDecl.t) :=
  match sections with
  | [] => [(VariableDecl.section v, [v])]
  | (s, vs) :: t =>
      if streq (VariableDecl.section v) s then (s, vs ++ [v]) :: t
      else (s, vs) :: addToSection v t
  end.

(** Group variables by section: the [Map] after the loop over the
    variables of a block. *)
Definition groupBySection (vars : list VariableDecl.t)
  : list (str * list VariableDecl.t) :=
  fold_left (fun sections v => addToSection v sections) vars [].

End SymbolProvider.

(** *** Quick fixes *)

Module QuickFixes.
Import Js.

(** [/^KW\b/.test(upper)]: the keyword, then the end of the string or a
    character that is no word character. *)
Definition keywordAtStart (kw upper : str) : bool :=
  startsWith upper kw
  && match skipn (length kw) upper with
     | [] => true
     | c :: _ => negb (isWord c)
     end.

Definition upperOf (lineText : str) : str := toUpperCase (trim lineText).

(** The loop of [findEndCase]: [lines] are the lines of the document from
    line [i] on; [None] when the loop runs off the end of the document. *)
Fixpoint findEndCaseLoop (depth : Z) (i : nat) (lines : list str) : option nat :=
  match lines with
  | [] => None
  | l :: rest =>
      let upper := upperOf l in
      let depth := if keywordAtStart (lit "CASE") upper then (depth + 1)%Z else depth in
      if keywordAtStart (lit "END_CASE") upper then
        let depth := (depth - 1)%Z in
        if (depth =? 0)%Z then Some i
        else findEndCaseLoop depth (S i) rest
      else findEndCaseLoop depth (S i) rest
  end.

Definition findEndCase (document : list str) (caseLine : nat) : nat :=
  match findEndCaseLoop 0 caseLine (skipn caseLine document) with
  | Some i => i
  | None => caseLine
  end.

(** The loop of [fixMissingVersion]: [lines] are the lines from line [i]
    on, [bound] is [Math.min(blockLine + 5, lineCount)]. *)
Fixpoint versionInsertLoop (insertLine : nat) (i bound : nat) (lines : list str) : nat :=
  match lines with
  | [] => insertLine
  | l :: rest =>
      if i <? bound then
        if startsWith (trim l) (lit "{")
        then versionInsertLoop (i + 1) (S i) bound rest
        else insertLine
      else insertLine
  end.

(** The line in front of which [fixMissingVersion] inserts the VERSION
    declaration. *)
Definition versionInsertLine (document : list str) (blockLine : nat) : nat :=
  versionInsertLoop (blockLine + 1) (blockLine + 1)
                    (Nat.min (blockLine + 5) (length document))
                    (skipn (blockLine + 1) document).

End QuickFixes.

(** ** Notions used to state the properties *)

Module Spec.
Import Js Parser Rules.

(** *** Active lines *)

(** The upper-cased, trimmed active form of a physical line scanned with
    the block-comment flag [inComment]; [None] for a line the scanner skips
    (inside a comment, or blank once comments and strings are removed). *)
Definition activeUpper (inComment : bool) (line : str) : option str :=
  match stripComments inComment line with
  | None => None
  | Some (_, originalLine) =>
      let trimmed := trim (stripStrings originalLine) in
      if nonEmpty trimmed then Some (toUpperCase trimmed) else None
  end.

(** The block-comment flag after a physical line. *)
Definition commentAfter (inComment : bool) (line : str) : bool :=
  match stripComments inComment line with
  | None => inComment
  | Some (inComment', _) => inComment'
  end.

Fixpoint activeUppers (inComment : bool) (lines : list str) : list (option str) :=
  match lines with
  | [] => []
  | l :: rest => activeUpper inComment l :: activeUppers (commentAfter inComment l) rest
  end.

(** *** Delimiter tokens, by the keyword-matching rule *)

Inductive Bracket := Open (kw : str) | Close (kw : str).

Definition blockToken (upper : str) : option Bracket :=
  match find (matchKeyword upper) (keys BLOCK_PAIRS) with
  | Some k => Some (Open k)
  | None =>
      match find (matchKeyword upper) (keys BLOCK_END_TO_OPEN) with
      | Some c => Some (Close c)
      | None => None
      end
  end.

Definition isConstantSection (upper : str) : bool :=
  startsWith upper (lit "VAR") && includes upper (lit "CONSTANT")
  && negb (startsWith upper (lit "VAR_")).

Definition varToken (upper : str) : option Bracket :=
  if isConstantSection upper then Some (Open (lit "VAR_CONSTANT"))
  else
    match find (matchKeyword upper) VAR_OPENS with
    | Some k => Some (Open k)
    | None =>
        match find (matchKeyword upper) [lit "END_VAR"; lit "END_STRUCT"] with
        | Some c => Some (Close c)
        | None => None
        end
    end.

Definition controlToken (upper : str) : option Bracket :=
  match find (matchKeyword upper) (keys CONTROL_PAIRS) with
  | Some k => Some (Open k)
  | None =>
      match find (matchKeyword upper) (keys CONTROL_END_TO_OPEN) with
      | Some c => Some (Close c)
      | None => None
      end
  end.

(** The three tokens of a line that is no delimiter. *)
Definition plainLine (u : str) : Prop :=
  blockToken u = None /\ varToken u = None /\ controlToken u = None
  /\ streq u (lit "BEGIN") = false.

(** Which closer is the designated closer of which opener. *)
Definition closesBlock (c k : str) : bool :=
  match lookup k BLOCK_PAIRS with Some c' => streq c' c | None => false end.

Definition closesVar (c k : str) : bool :=
  if streq k (lit "STRUCT") then streq c (lit "END_STRUCT")
  else streq c (lit "END_VAR").

Definition closesControl (c k : str) : bool :=
  match lookup k CONTROL_PAIRS with Some c' => streq c' c | None => false end.

(** A sequence of tokens is balanced from a stack of pending openers
    (innermost first): every closer is the designated closer of the
    innermost pending opener, and nothing is pending at the end. *)
Fixpoint balancedFrom (closes : str -> str -> bool) (pending : list str)
         (toks : list (option Bracket)) : bool :=
  match toks with
  | [] => match pending with [] => true | _ :: _ => false end
  | None :: rest => balancedFrom closes pending rest
  | Some (Open k) :: rest => balancedFrom closes (k :: pending) rest
  | Some (Close c) :: rest =>
      match pending with
      | k :: pending' => closes c k && balancedFrom closes pending' rest
      | [] => false
      end
  end.

(** One step of the balance check; [None] when the closer has no pending
    opener or is not the designated closer of the innermost one. *)
Definition advance (closes : str -> str -> bool) (pending : list str)
           (tok : option Bracket) : option (list str) :=
  match tok with
  | None => Some pending
  | Some (Open k) => Some (k :: pending)
  | Some (Close c) =>
      match pending with
      | k :: pending' => if closes c k then Some pending' else None
      | [] => None
      end
  end.

(** The pending openers held by a stack of the scanner, innermost first. *)
Definition pendingOf (stack : list StackEntry.t) : list str :=
  rev (map StackEntry.keyword stack).

Definition tokens (tok : str -> option Bracket) (uppers : list (option str))
  : list (option Bracket) :=
  map (fun u => match u with Some upper => tok upper | None => None end) uppers.

(** Balanced lines: of each of the three families, every opener has its
    designated closer, in the correct order.  A line is given by its
    upper-cased trimmed form, [None] for a line that holds nothing. *)
Definition balanced (uppers : list (option str)) : bool :=
  balancedFrom closesBlock [] (tokens blockToken uppers)
  && balancedFrom closesVar [] (tokens varToken uppers)
  && balancedFrom closesControl [] (tokens controlToken uppers).

(** Executable code: the lines after a BEGIN line, up to the next block
    opener or closer. *)
Definition executableAfter (exec : bool) (u : option str) : bool :=
  match u with
  | Some upper =>
      match blockToken upper with
      | Some _ => false
      | None => if streq upper (lit "BEGIN") then true else exec
      end
  | None => exec
  end.

(** The control-flow tokens of the lines of executable code. *)
Fixpoint executableControlTokens (exec : bool) (uppers : list (option str))
  : list (option Bracket) :=
  match uppers with
  | [] => []
  | u :: rest =>
      (if exec then match u with Some upper => controlToken upper | None => None end
       else None)
        :: executableControlTokens (executableAfter exec u) rest
  end.

(** An IF opener is spelled plainly when IF stands alone or is followed
    by a space. *)
Definition ifSpelledPlainly (u : option str) : bool :=
  match u with
  | Some upper =>
      negb (matchKeyword upper (lit "IF"))
      || streq upper (lit "IF") || startsWith upper (lit "IF ")
  | None => true
  end.

(** Balanced lines when control-flow constructs count in executable code
    only. *)
Definition balancedInCode (uppers : list (option str)) : bool :=
  balancedFrom closesBlock [] (tokens blockToken uppers)
  && balancedFrom closesVar [] (tokens varToken uppers)
  && balancedFrom closesControl [] (executableControlTokens false uppers).

(** *** Delimiters of the keyword-matching rule *)

Definition isDelim (c : ascii) : bool :=
  Ascii.eqb c " "%char || Ascii.eqb c "009"%char || Ascii.eqb c ";"%char.

Definition delimFree (k : str) : bool := forallb (fun c => negb (isDelim c)) k.

(** What may follow a matched keyword: nothing, or a delimiter and more. *)
Definition keywordTail (r : str) : Prop :=
  match r with
  | [] => True
  | d :: _ => isDelim d = true
  end.

(** Two prefixes of one string agree as far as both go. *)
Fixpoint compatible (a b : str) : bool :=
  match a, b with
  | x :: a', y :: b' => Ascii.eqb x y && compatible a' b'
  | _, _ => true
  end.

(** The keywords that begin a line of control flow. *)
Definition controlWords : list str :=
  [ lit "CASE"; lit "ELSE"; lit "EXIT"; lit "CONTINUE";
    lit "IF"; lit "FOR"; lit "WHILE"; lit "REPEAT"; lit "REGION";
    lit "END_IF"; lit "END_FOR"; lit "END_WHILE"; lit "END_REPEAT";
    lit "END_CASE"; lit "END_REGION" ].

(** *** Diagnostics by code and line *)

Definition diagsAt (code : str) (L : nat) (ds : list LintDiagnostic.t)
  : list LintDiagnostic.t :=
  filter (fun d => streq (LintDiagnostic.code d) code
                   && (LintDiagnostic.line d =? L)) ds.

Definition withCode (code : str) (ds : list LintDiagnostic.t)
  : list LintDiagnostic.t :=
  filter (fun d => streq (LintDiagnostic.code d) code) ds.

(** *** The scanner state in front of a line *)

Definition stateBefore (text : str) (L : nat) : State :=
  scanLines 0 (firstn L (splitLines text)) initState.

Definition optNatEqb (o : option nat) (n : nat) : bool :=
  match o with Some m => m =? n | None => false end.

(** *** Blocks *)

(** A block opened before line [idx] whose endLine, once stamped, lies
    after its opening line. *)
Definition spanOk (idx : nat) (b : BlockDecl.t) : Prop :=
  BlockDecl.line b < idx
  /\ (BlockDecl.endLine b = (-1)%Z
      \/ (Z.of_nat (BlockDecl.line b) < BlockDecl.endLine b)%Z).

(** *** Line numbers in the scanner state *)

(** In front of line [idx]: the current block is one of the blocks, and
    every CASE line recorded, every open control-flow frame and every
    recorded EXIT lies before [idx]. *)
Definition scanOk (idx : nat) (st : State) : Prop :=
  (forall i, currentBlock st = Some i -> i < length (ParseResult.blocks (result st)))
  /\ Forall (fun blk => Forall (fun e => fst e < idx) (BlockDecl.hasCaseElse blk))
            (ParseResult.blocks (result st))
  /\ Forall (fun e => StackEntry.line e < idx) (controlStack st)
  /\ Forall (fun e => StackEntry.line e < idx)
            (ParseResult.exitOutsideLoop (result st)).

(** *** CASE and its own ELSE *)

(** The line is scanned as a CASE opener of executable code. *)
Definition caseScanned (st : State) (line : str) : bool :=
  match activeUpper (inBlockComment st) line with
  | Some upper => afterBegin st && matchKeyword upper (lit "CASE")
  | None => false
  end.

(** The line is scanned as an ELSE of executable code while the innermost
    open control-flow frame is the CASE of line [L] and block [b] is
    current. *)
Definition elseHits (L b : nat) (st : State) (line : str) : bool :=
  match activeUpper (inBlockComment st) line with
  | Some upper =>
      afterBegin st && matchKeyword upper (lit "ELSE")
      && match top (controlStack st) with
         | Some t => streq (StackEntry.keyword t) (lit "CASE")
                     && (StackEntry.line t =? L)
         | None => false
         end
      && optNatEqb (currentBlock st) b
  | None => false
  end.

Fixpoint ownElseSeen (L b : nat) (lineIdx : nat) (lines : list str)
         (st : State) : bool :=
  match lines with
  | [] => false
  | l :: rest =>
      elseHits L b st l
      || ownElseSeen L b (S lineIdx) rest (processLine lineIdx l st)
  end.

(** The entries of key [L] in a map, and in the map of block [j]. *)
Definition entriesAt (L : nat) (m : list (nat * bool)) : list (nat * bool) :=
  filter (fun e => fst e =? L) m.

Definition entriesOf (L j : nat) (st : State) : option (list (nat * bool)) :=
  option_map (fun blk => entriesAt L (BlockDecl.hasCaseElse blk))
             (nth_error (ParseResult.blocks (result st)) j).

(** The effect of [Map.set L v] on the entries of key [L]. *)
Definition overwrite (L : nat) (v : bool) (es : list (nat * bool)) : list (nat * bool) :=
  match es with
  | [] => [(L, v)]
  | _ :: r => (L, v) :: r
  end.

(** After the CASE of line [L] was recorded in block [b]: block [b] holds
    one entry for [L], with value [v], and no other block holds an entry
    for [L] with value false. *)
Definition caseState (L b : nat) (v : bool) (st : State) : Prop :=
  entriesOf L b st = Some [(L, v)]
  /\ (forall j es, j <> b -> entriesOf L j st = Some es ->
                   Forall (fun e => snd e = true) es).

(** No block holds an entry for [L] with value false. *)
Definition caseFree (L : nat) (st : State) : Prop :=
  forall j es, entriesOf L j st = Some es -> Forall (fun e => snd e = true) es.

Definition caseWarning (L : nat) : LintDiagnostic.t :=
  diag L 0 (lit "CASE statement has no ELSE branch") Warning (lit "SCL104").

(** The warnings of line [L], from the entries of [L]. *)
Definition warningsOf (L : nat) (es : list (nat * bool)) : list LintDiagnostic.t :=
  flat_map (fun e => if negb (snd e) then [caseWarning L] else []) es.

(** Some line strictly between lines [L] and [M] matches the keyword ELSE. *)
Definition elseTokenBetween (text : str) (L M : nat) : bool :=
  existsb (fun u => match u with
                    | Some upper => matchKeyword upper (lit "ELSE")
                    | None => false
                    end)
          (firstn (M - S L) (skipn (S L) (activeUppers false (splitLines text)))).

(** *** EXIT and CONTINUE *)

(** The line is scanned as an EXIT or CONTINUE statement of executable
    code; the keyword recorded for it. *)
Definition exitScanned (st : State) (line : str) : option str :=
  match activeUpper (inBlockComment st) line with
  | Some upper =>
      if afterBegin st
         && (matchKeyword upper (lit "EXIT") || matchKeyword upper (lit "CONTINUE"))
      then Some (if startsWith upper (lit "EXIT") then lit "EXIT" else lit "CONTINUE")
      else None
  | None => None
  end.

Definition isLoopFrame (e : StackEntry.t) : bool :=
  setHas (StackEntry.keyword e) LOOP_KEYWORDS.

Definition exitError (kw : str) (L : nat) : LintDiagnostic.t :=
  diag L 0 (lit "'" ++ kw ++ lit "' used outside of a FOR/WHILE/REPEAT loop")
       Error (lit "SCL005").

(** *** Empty BEGIN sections *)

(** A line that is blank, a lone semicolon, or starts with END_. *)
Definition inertLine (inComment : bool) (line : str) : bool :=
  match stripComments inComment line with
  | None => true
  | Some (_, originalLine) =>
      let trimmed := trim (stripStrings originalLine) in
      negb (nonEmpty trimmed) || streq trimmed (lit ";")
      || startsWith (toUpperCase trimmed) (lit "END_")
  end.

(** Every line scanned in the BEGIN section of block [b] (block [b] is
    current and BEGIN was seen) is inert. *)
Fixpoint beginSectionInert (b : nat) (lineIdx : nat) (lines : list str)
         (st : State) : bool :=
  match lines with
  | [] => true
  | l :: rest =>
      (if optNatEqb (currentBlock st) b && afterBegin st
       then inertLine (inBlockComment st) l else true)
      && beginSectionInert b (S lineIdx) rest (processLine lineIdx l st)
  end.

(** Block [b], if it exists, has seen no code. *)
Definition noCodeYet (b : nat) (st : State) : Prop :=
  forall blk, nth_error (ParseResult.blocks (result st)) b = Some blk ->
              BlockDecl.hasCode blk = false.

Definition emptyBlockWarning (block : BlockDecl.t) : LintDiagnostic.t :=
  diag (BlockDecl.line block) 0
       (lit "Block '" ++ orElse (BlockDecl.name block) (BlockDecl.type block)
          ++ lit "' has an empty BEGIN section")
       Warning (lit "SCL105").

(** *** Duplicate and unused variables *)

Definition sameVariable (v w : VariableDecl.t) : Prop :=
  VariableDecl.block v = VariableDecl.block w
  /\ toLowerCase (VariableDecl.name v) = toLowerCase (VariableDecl.name w).

(** The key under which a declaration is grouped. *)
Definition varKey (v : VariableDecl.t) : str * str :=
  (VariableDecl.block v, toLowerCase (VariableDecl.name v)).

Definition varLocation (v : VariableDecl.t) : Location :=
  (VariableDecl.line v, VariableDecl.col v).

Definition addVariable (byBlock : list (str * list (str * list Location)))
           (v : VariableDecl.t) : list (str * list (str * list Location)) :=
  addToBlock (VariableDecl.block v) (toLowerCase (VariableDecl.name v))
             (varLocation v) byBlock.

(** [byBlock.get(k)?.get(n)]: the locations grouped under a key. *)
Definition locationsOf (k n : str) (byBlock : list (str * list (str * list Location)))
  : option (list Location) :=
  match find (fun e => streq k (fst e)) byBlock with
  | Some (_, blockVars) =>
      match find (fun nl => streq n (fst nl)) blockVars with
      | Some (_, locs) => Some locs
      | None => None
      end
  | None => None
  end.

(** The diagnostics of the inner and of the outer loop of the rule. *)
Definition duplicatesIn (blockVars : list (str * list Location)) : list LintDiagnostic.t :=
  flat_map (fun nl => duplicatesOf (fst nl) (snd nl)) blockVars.

Definition duplicatesOfGroups (byBlock : list (str * list (str * list Location)))
  : list LintDiagnostic.t :=
  flat_map (fun entry => duplicatesIn (snd entry)) byBlock.

Definition duplicateError (first second : VariableDecl.t) : LintDiagnostic.t :=
  diag (VariableDecl.line second) (VariableDecl.col second)
       (lit "Duplicate variable '" ++ toLowerCase (VariableDecl.name second)
          ++ lit "' (first declared on line "
          ++ showNat (VariableDecl.line first + 1) ++ lit ")")
       Error (lit "SCL004").

Definition unusedWarning (v : VariableDecl.t) : LintDiagnostic.t :=
  diag (VariableDecl.line v) (VariableDecl.col v)
       (lit "Variable '" ++ VariableDecl.name v
          ++ lit "' is declared but never used")
       Warning (lit "SCL101").

(** *** Blanking *)

(** [a] is a prefix of [l] in which some characters are replaced by
    spaces: every column of [a] is a column of [l]. *)
Inductive masks : str -> str -> Prop :=
| masks_nil : forall l, masks [] l
| masks_keep : forall c a l, masks a l -> masks (c :: a) (c :: l)
| masks_blank : forall c a l, masks a l -> masks (space :: a) (c :: l).

(** *** Sample texts *)

(** A double-quoted name. *)
Definition quoted (s : string) : str := dquote :: lit s ++ [dquote].

Definition tab : str := ["009"%char].

End Spec.

(** ** The text as a reader sees it

    Comments and string literals read from left to right, one character at
    a time: what is a comment depends on where string literals are, and
    what is a string literal on where comments are.  The scanner strips
    them in passes ([stripComments]); the two readings are compared in the
    properties. *)

Module Reader.
Import Js Parser Spec.

(** Where the reader stands in a line: in code, inside a string literal
    opened by the quote character [q], or inside a block comment. *)
Inductive Mode := Code | Literal (q : ascii) | Comment.

Definition quoteChar (c : ascii) : bool := Ascii.eqb c squote || Ascii.eqb c dquote.

(** The line outside comments.  In code, a quote character opens a string
    literal, which runs to the next quote character of the same kind or to
    the end of the line; a block comment that is closed on the line is
    replaced by spaces; a line comment, and a block comment that is left
    open, cut the line.  Inside a string literal nothing starts a
    comment. *)
Fixpoint outside (m : Mode) (s : str) : str :=
  match s with
  | [] => []
  | c :: t =>
      match m with
      | Comment =>
          match t with
          | c' :: t' =>
              if Ascii.eqb c "*"%char && Ascii.eqb c' ")"%char
              then space :: space :: outside Code t'
              else space :: outside Comment t
          | [] => [space]
          end
      | Literal q => c :: outside (if Ascii.eqb c q then Code else Literal q) t
      | Code =>
          match t with
          | c' :: t' =>
              if Ascii.eqb c "("%char && Ascii.eqb c' "*"%char then
                if includes t' (lit "*)")
                then space :: space :: outside Comment t'
                else []
              else if Ascii.eqb c "/"%char && Ascii.eqb c' "/"%char then []
              else c :: outside (if quoteChar c then Literal c else Code) t
          | [] => [c]
          end
      end
  end.

(** Whether the line ends inside a block comment. *)
Fixpoint leftOpen (m : Mode) (s : str) : bool :=
  match s with
  | [] => match m with Comment => true | _ => false end
  | c :: t =>
      match m with
      | Comment =>
          match t with
          | c' :: t' =>
              if Ascii.eqb c "*"%char && Ascii.eqb c' ")"%char
              then leftOpen Code t'
              else leftOpen Comment t
          | [] => true
          end
      | Literal q => leftOpen (if Ascii.eqb c q then Code else Literal q) t
      | Code =>
          match t with
          | c' :: t' =>
              if Ascii.eqb c "("%char && Ascii.eqb c' "*"%char then
                if includes t' (lit "*)") then leftOpen Comment t' else true
              else if Ascii.eqb c "/"%char && Ascii.eqb c' "/"%char then false
              else leftOpen (if quoteChar c then Literal c else Code) t
          | [] => false
          end
      end
  end.

(** No block-comment opener stands inside a string literal or behind a
    line-comment marker. *)
Fixpoint plain (m : Mode) (s : str) : bool :=
  match s with
  | [] => true
  | c :: t =>
      match m with
      | Comment =>
          match t with
          | c' :: t' =>
              if Ascii.eqb c "*"%char && Ascii.eqb c' ")"%char
              then plain Code t'
              else plain Comment t
          | [] => true
          end
      | Literal q =>
          negb (startsWith s (lit "(*"))
          && plain (if Ascii.eqb c q then Code else Literal q) t
      | Code =>
          match t with
          | c' :: t' =>
              if Ascii.eqb c "("%char && Ascii.eqb c' "*"%char then
                if includes t' (lit "*)") then plain Comment t' else true
              else if Ascii.eqb c "/"%char && Ascii.eqb c' "/"%char
              then negb (includes t' (lit "(*"))
              else plain (if quoteChar c then Literal c else Code) t
          | [] => true
          end
      end
  end.

(** The mode in which a line starts. *)
Definition startMode (inComment : bool) : Mode :=
  if inComment then Comment else Code.

(** A physical line read with the block-comment flag [inComment]: [None]
    for a line that lies wholly inside a block comment, otherwise the flag
    after the line and the line outside comments. *)
Definition readLine (inComment : bool) (line : str) : option (bool * str) :=
  if inComment && negb (includes line (lit "*)")) then None
  else Some (leftOpen (startMode inComment) line, outside (startMode inComment) line).

(** The upper-cased, trimmed form of a line outside comments, string
    literals blanked; [None] for a line with nothing outside comments. *)
Definition upperRead (inComment : bool) (line : str) : option str :=
  match readLine inComment line with
  | None => None
  | Some (_, code) =>
      let trimmed := trim (stripStrings code) in
      if nonEmpty trimmed then Some (toUpperCase trimmed) else None
  end.

Definition flagAfter (inComment : bool) (line : str) : bool :=
  match readLine inComment line with
  | None => inComment
  | Some (inComment', _) => inComment'
  end.

Fixpoint uppers (inComment : bool) (lines : list str) : list (option str) :=
  match lines with
  | [] => []
  | l :: rest => upperRead inComment l :: uppers (flagAfter inComment l) rest
  end.

Fixpoint plainLines (inComment : bool) (lines : list str) : bool :=
  match lines with
  | [] => true
  | l :: rest =>
      plain (startMode inComment) l && plainLines (flagAfter inComment l) rest
  end.

(** The lines of a text as the reader sees them, and the texts in which
    no block-comment opener stands inside a string literal or behind a
    line-comment marker. *)
Definition read (text : str) : list (option str) := uppers false (splitLines text).

Definition plainText (text : str) : bool := plainLines false (splitLines text).

(** The line outside comments, for a line that holds something once
    string literals are blanked; the lines of a text read so. *)
Definition codeRead (inComment : bool) (line : str) : option str :=
  match readLine inComment line with
  | None => None
  | Some (_, code) =>
      if nonEmpty (trim (stripStrings code)) then Some code else None
  end.

Fixpoint codes (inComment : bool) (lines : list str) : list (option str) :=
  match lines with
  | [] => []
  | l :: rest => codeRead inComment l :: codes (flagAfter inComment l) rest
  end.

Definition readCode (text : str) : list (option str) := codes false (splitLines text).

(** Well-formed input: every opener of every family has its designated
    closer, in the correct order. *)
Definition wellFormed (text : str) : bool := balanced (read text).

(** Well-formed input when control-flow constructs count in executable
    code only. *)
Definition wellFormedInCode (text : str) : bool := balancedInCode (read text).

(** Every IF opener is IF alone or IF followed by a space. *)
Definition ifsPlain (text : str) : bool := forallb ifSpelledPlainly (read text).

(** *** The two cuts of the scanner *)

(** Lines 123-126 of [parse]: the line is cut at a block-comment opener
    that remains. *)
Definition cutOpen (line : str) : bool * str :=
  match indexOf line (lit "(*") with
  | Some openIdx => (true, substringTo openIdx line)
  | None => (false, line)
  end.

(** Lines 129-132, from a state of the loop of [lineCommentIndex]. *)
Definition cutLine (inString : bool) (stringChar : option ascii) (line : str) : str :=
  match lineCommentLoop inString stringChar 0 line with
  | Some commentIdx => substringTo commentIdx line
  | None => line
  end.

(** The state of the loop of [lineCommentIndex] in a mode of the reader. *)
Definition inString (m : Mode) : bool :=
  match m with Literal _ => true | _ => false end.

Definition stringChar (m : Mode) (stale : option ascii) : option ascii :=
  match m with Literal q => Some q | _ => stale end.

Definition inside (m : Mode) : bool :=
  match m with Comment => true | _ => false end.

End Reader.

(** ** The nesting of a text

    The openers that wait for their closer, line by line, over the lines
    the reader sees. *)

Module Nesting.
Import Js Parser Spec.

(** The nesting in front of a line: the block openers and the
    control-flow openers of executable code that wait for their closer,
    innermost first, and whether the line lies in executable code. *)
Record t := mk {
  blocks : list str;
  executable : bool;
  frames : list str
}.

Definition start : t := mk [] false [].

(** A closer closes the innermost pending opener when it is its designated
    closer; otherwise it closes nothing. *)
Definition closeWith (closes : str -> str -> bool) (c : str) (pending : list str)
  : option (list str) :=
  match pending with
  | k :: rest => if closes c k then Some rest else None
  | [] => None
  end.

(** What a line does to the nesting.  A block opener opens a block, and
    a block closer that closes the innermost open block closes it: both
    end the executable code.  BEGIN starts executable code.  In executable
    code, a control-flow opener opens a frame and a control-flow closer
    that closes the innermost frame closes it. *)
Definition step (n : t) (u : option str) : t :=
  match u with
  | None => n
  | Some upper =>
      match blockToken upper with
      | Some (Open k) => mk (k :: blocks n) false (frames n)
      | Some (Close c) =>
          match closeWith closesBlock c (blocks n) with
          | Some rest => mk rest false (frames n)
          | None => n
          end
      | None =>
          if streq upper (lit "BEGIN") then mk (blocks n) true (frames n)
          else if executable n then
            match controlToken upper with
            | Some (Open k) => mk (blocks n) true (k :: frames n)
            | Some (Close c) =>
                match closeWith closesControl c (frames n) with
                | Some rest => mk (blocks n) true rest
                | None => n
                end
            | None => n
            end
          else n
      end
  end.

Definition after (uppers : list (option str)) : t := fold_left step uppers start.

(** The nesting in front of line [L] of a text. *)
Definition before (text : str) (L : nat) : t :=
  after (firstn L (Reader.read text)).

(** Some pending control-flow opener is a loop. *)
Definition inLoop (n : t) : bool :=
  existsb (fun k => setHas k LOOP_KEYWORDS) (frames n).

(** Line [L] of a text lies in executable code and begins with EXIT or
    CONTINUE: the keyword. *)
Definition exitAt (text : str) (L : nat) : option str :=
  match nth_error (Reader.read text) L with
  | Some (Some upper) =>
      if executable (before text L)
         && (matchKeyword upper (lit "EXIT") || matchKeyword upper (lit "CONTINUE"))
      then Some (if startsWith upper (lit "EXIT") then lit "EXIT" else lit "CONTINUE")
      else None
  | _ => None
  end.

(** The nesting and the state of the scanner agree. *)
Definition agrees (n : t) (st : State) : Prop :=
  pendingOf (blockStack st) = blocks n
  /\ afterBegin st = executable n
  /\ pendingOf (controlStack st) = frames n.

End Nesting.

(** ** Declaration lines *)

Module Declarations.
Import Js Parser Rules Spec Reader.

(** A text of the form [name : type]: a name of word characters at its
    start, a colon with optional white space on both sides, and at least
    one character that is no white space behind.  The name. *)
Definition nameBeforeColon (t : str) : option str :=
  let name := takeWhile isWord t in
  match trimStart (skipn (length name) t) with
  | c :: r =>
      if Ascii.eqb c ":"%char && nonEmpty name && nonEmpty (trimStart r)
      then Some name else None
  | [] => None
  end.

(** The name a line declares: the line, trimmed, has the form
    [name : type] and the name is no reserved keyword. *)
Definition declaredName (originalLine : str) : option str :=
  match nameBeforeColon (trim originalLine) with
  | Some name => if isKeyword name then None else Some name
  | None => None
  end.

Definition isToken (tok : option Bracket) : bool :=
  match tok with Some _ => true | None => false end.

(** The line is taken by a test that the scan makes in front of the
    declarations: a pragma or VERSION line while a block is current, a
    block opener or closer, BEGIN, or a variable-section opener or
    closer. *)
Definition takenEarlier (inBlock : bool) (trimmed upper : str) : bool :=
  (startsWith trimmed (lit "{") || startsWith upper (lit "VERSION")) && inBlock
  || isToken (blockToken upper) || streq upper (lit "BEGIN")
  || isToken (varToken upper).

(** *** Declarations as the scanner records them *)

(** The line is scanned as a declaration: it is not blank, not taken
    earlier, and scanned while a variable section is open and BEGIN has not
    been seen; the name it declares. *)
Definition declarationScanned (st : State) (line : str) : option str :=
  match stripComments (inBlockComment st) line with
  | None => None
  | Some (_, originalLine) =>
      let trimmed := trim (stripStrings originalLine) in
      if nonEmpty trimmed
         && negb (takenEarlier (isSome (currentBlock st)) trimmed (toUpperCase trimmed))
         && nonEmpty (currentVarSection st) && negb (afterBegin st)
      then declaredName originalLine
      else None
  end.

(** The block that owns what a line declares: the record of the current
    block; its name, empty when there is none. *)
Definition owner (st : State) : option BlockDecl.t :=
  match currentBlock st with
  | Some i => nth_error (ParseResult.blocks (result st)) i
  | None => None
  end.

Definition ownerName (st : State) : str :=
  match owner st with Some b => BlockDecl.name b | None => [] end.

(** The key under which the scanner records line [L] of a text: the name
    of the owning block and the lower-cased name. *)
Definition recordedAt (text : str) (L : nat) : option (str * str) :=
  match nth_error (splitLines text) L with
  | Some line =>
      match declarationScanned (stateBefore text L) line with
      | Some name => Some (ownerName (stateBefore text L), toLowerCase name)
      | None => None
      end
  | None => None
  end.

(** What the scanner records, line by line: the key and the place,
    column 0 of the line. *)
Definition recordAt (text : str) (L : nat) : list ((str * str) * Location) :=
  match recordedAt text L with
  | Some key => [(key, (L, 0%Z))]
  | None => []
  end.

Definition recordedEntries (text : str) : list ((str * str) * Location) :=
  flat_map (recordAt text) (seq 0 (length (splitLines text))).

Definition keyEqb (k k' : str * str) : bool :=
  streq (fst k) (fst k') && streq (snd k) (snd k').

(** *** Declarations as the text has them *)

(** The scope in front of a line: the block openers that wait for their
    closer, innermost first; the name on the opener line of the block that
    is open, none once a block has been closed; whether BEGIN has been read
    in that block; and the variable-section openers that wait for a closer,
    innermost first. *)
Record Scope := mkScope {
  pending : list str;
  owning : option str;
  begun : bool;
  sections : list str
}.

Definition noScope : Scope := mkScope [] None false [].

Definition upperOfCode (code : str) : str := toUpperCase (trim (stripStrings code)).

(** What a line does to the scope.  A block opener opens a block under
    the name on its line; a block closer that closes the innermost open
    block closes it.  BEGIN ends the declarations.  A variable-section
    opener opens a section and a variable-section closer closes the
    innermost open section. *)
Definition stepScope (n : Scope) (c : option str) : Scope :=
  match c with
  | None => n
  | Some code =>
      match blockToken (upperOfCode code) with
      | Some (Open k) =>
          mkScope (k :: pending n) (Some (extractBlockName code)) false (sections n)
      | Some (Close c) =>
          match Nesting.closeWith closesBlock c (pending n) with
          | Some rest => mkScope rest None false (sections n)
          | None => n
          end
      | None =>
          if streq (upperOfCode code) (lit "BEGIN")
          then mkScope (pending n) (owning n) true (sections n)
          else
            match varToken (upperOfCode code) with
            | Some (Open k) => mkScope (pending n) (owning n) (begun n) (k :: sections n)
            | Some (Close _) => mkScope (pending n) (owning n) (begun n) (tl (sections n))
            | None => n
            end
      end
  end.

(** The scope in front of line [L] of a text. *)
Definition scopeBefore (text : str) (L : nat) : Scope :=
  fold_left stepScope (firstn L (readCode text)) noScope.

(** The name under which a scope declares: the name of the open block,
    empty when there is none. *)
Definition ownerOf (n : Scope) : str :=
  match owning n with Some name => name | None => [] end.

(** A variable-section closer closes a section of its own kind: END_STRUCT
    a STRUCT section, END_VAR any other. *)
Definition closesOwnKind (n : Scope) (c : option str) : bool :=
  match c with
  | Some code =>
      match varToken (upperOfCode code), sections n with
      | Some (Close c), k :: _ => closesVar c k
      | _, _ => true
      end
  | None => true
  end.

Fixpoint properFrom (n : Scope) (cs : list (option str)) : bool :=
  match cs with
  | [] => true
  | c :: rest => closesOwnKind n c && properFrom (stepScope n c) rest
  end.

Definition sectionsProper (text : str) : bool := properFrom noScope (readCode text).

(** The key under which a line declares a variable in a scope: the line
    stands in an open variable section in front of BEGIN, is not taken
    earlier, and has the form of a declaration. *)
Definition declaredIn (n : Scope) (code : str) : option (str * str) :=
  let trimmed := trim (stripStrings code) in
  if negb (takenEarlier (isSome (owning n)) trimmed (toUpperCase trimmed))
     && nonEmpty (sections n) && negb (begun n)
  then match declaredName code with
       | Some name => Some (ownerOf n, toLowerCase name)
       | None => None
       end
  else None.

(** The key under which line [L] of a text declares a variable. *)
Definition declaredAt (text : str) (L : nat) : option (str * str) :=
  match nth_error (readCode text) L with
  | Some (Some code) => declaredIn (scopeBefore text L) code
  | _ => None
  end.

(** Line [L] declares a variable under the key [key]; the lines that do,
    in order. *)
Definition declares (text : str) (key : str * str) (L : nat) : bool :=
  match declaredAt text L with
  | Some k => keyEqb k key
  | None => false
  end.

Definition linesDeclaring (text : str) (key : str * str) : list nat :=
  filter (declares text key) (seq 0 (length (splitLines text))).

(** What the lines of a text declare, line by line: the key and the place,
    column 0 of the line. *)
Definition entryAt (text : str) (L : nat) : list ((str * str) * Location) :=
  match declaredAt text L with
  | Some key => [(key, (L, 0%Z))]
  | None => []
  end.

Definition declaredEntries (text : str) : list ((str * str) * Location) :=
  flat_map (entryAt text) (seq 0 (length (splitLines text))).

(** The keys of the declarations under another key than [key]. *)
Definition otherKeys (text : str) (key : str * str) : list (str * str) :=
  filter (fun k => negb (keyEqb k key)) (map fst (declaredEntries text)).

(** The scope and the state of the scanner agree. *)
Definition agreesScope (n : Scope) (st : State) : Prop :=
  pendingOf (blockStack st) = pending n
  /\ afterBegin st = begun n
  /\ isSome (currentBlock st) = isSome (owning n)
  /\ ownerName st = ownerOf n
  /\ pendingOf (varStack st) = sections n
  /\ currentVarSection st = match sections n with k :: _ => k | [] => [] end
  /\ Forall (fun k => nonEmpty k = true) (sections n).

(** The key and the place of a declaration of the model. *)
Definition keyLoc (v : VariableDecl.t) : (str * str) * Location :=
  (varKey v, varLocation v).

(** The error for a further declaration at [loc] of the name [lower]
    first declared at [first]. *)
Definition duplicateOf (lower : str) (first loc : Location) : LintDiagnostic.t :=
  diag (fst loc) (snd loc)
       (lit "Duplicate variable '" ++ lower
          ++ lit "' (first declared on line " ++ showNat (fst first + 1) ++ lit ")")
       Error (lit "SCL004").

(** The error expected for a name declared on line [first] and again on
    line [second]. *)
Definition duplicateAt (lower : str) (first second : nat) : LintDiagnostic.t :=
  duplicateOf lower (first, 0%Z) (second, 0%Z).

End Declarations.

(** ** Sample texts *)

Module Samples.
Import Js Parser Rules Spec.

(** An IF opener followed by a tab. *)
Definition ifTabText : str :=
  unlines [ lit "FUNCTION_BLOCK " ++ quoted "FB_A";
            lit "BEGIN";
            lit "IF" ++ tab ++ lit "#a THEN";
            lit "  #b := 1;";
            lit "END_IF;";
            lit "END_FUNCTION_BLOCK" ].

(** The same text with a space after IF. *)
Definition ifSpaceText : str :=
  unlines [ lit "FUNCTION_BLOCK " ++ quoted "FB_A";
            lit "BEGIN";
            lit "IF #a THEN";
            lit "  #b := 1;";
            lit "END_IF;";
            lit "END_FUNCTION_BLOCK" ].

(** A FOR opener followed by a tab. *)
Definition forTabText : str :=
  unlines [ lit "FUNCTION_BLOCK " ++ quoted "FB_A";
            lit "BEGIN";
            lit "FOR" ++ tab ++ lit "#i := 1 TO 3 DO";
            lit "  #b := 1;";
            lit "END_FOR;";
            lit "END_FUNCTION_BLOCK" ].

(** A string literal that holds a block-comment opener. *)
Definition openerInStringText : str :=
  unlines [ lit "FUNCTION_BLOCK " ++ quoted "FB_A";
            lit "BEGIN";
            lit "  #s := '(* no comment';";
            lit "  #t := 1;";
            lit "END_FUNCTION_BLOCK" ].

(** A string literal that holds a line-comment marker. *)
Definition markerInStringLine : str := lit "  #s := 'a//b'; // note".

(** A variable section outside any block. *)
Definition orphanVarText : str :=
  unlines [ lit "VAR"; lit "  x : Int;"; lit "END_VAR" ].

Definition orphanVar : VariableDecl.t :=
  VariableDecl.mk (lit "x") (lit "Int") (lit "VAR") [] 1 0.

(** A line with a trailing line comment. *)
Definition commentedLine : str := lit "#x := 1; // set x".

(** An IF opener in front of BEGIN whose closer comes after BEGIN. *)
Definition ifBeforeBeginText : str :=
  unlines [ lit "FUNCTION_BLOCK " ++ quoted "FB_A";
            lit "IF #a THEN";
            lit "BEGIN";
            lit "END_IF;";
            lit "END_FUNCTION_BLOCK" ].

(** A block with all three families nested. *)
Definition nestedText : str :=
  unlines [ lit "FUNCTION_BLOCK " ++ quoted "FB_A";
            lit "VAR";
            lit "  STRUCT";
            lit "    a : Int;";
            lit "  END_STRUCT;";
            lit "  n : Int;";
            lit "END_VAR";
            lit "BEGIN";
            lit "  FOR #n := 1 TO 3 DO";
            lit "    IF #n > 1 THEN";
            lit "      EXIT;";
            lit "    END_IF;";
            lit "  END_FOR;";
            lit "END_FUNCTION_BLOCK" ].

(** Two declarations of y in one block. *)
Definition duplicateText : str :=
  unlines [ lit "FUNCTION_BLOCK " ++ quoted "FB_A";
            lit "VAR";
            lit "  x : Int;";
            lit "  y : Bool;";
            lit "  Y : Bool;";
            lit "END_VAR";
            lit "BEGIN";
            lit "  #x := 1;";
            lit "END_FUNCTION_BLOCK" ].

(** Two declarations of y behind an inline STRUCT: its END_STRUCT closes
    the VAR section. *)
Definition duplicateBehindStructText : str :=
  unlines [ lit "FUNCTION_BLOCK " ++ quoted "FB_A";
            lit "VAR";
            lit "  s : STRUCT";
            lit "    a : Int;";
            lit "  END_STRUCT;";
            lit "  y : Bool;";
            lit "  y : Bool;";
            lit "END_VAR";
            lit "BEGIN";
            lit "  #y := TRUE;";
            lit "END_FUNCTION_BLOCK" ].

(** A name declared in a list of names, and declared again. *)
Definition namesListText : str :=
  unlines [ lit "FUNCTION_BLOCK " ++ quoted "FB_A";
            lit "VAR";
            lit "  x, y : Int;";
            lit "  y : Bool;";
            lit "END_VAR";
            lit "BEGIN";
            lit "  #x := 1;";
            lit "END_FUNCTION_BLOCK" ].

(** Two blocks without a name, each with one declaration of x. *)
Definition unnamedBlocksText : str :=
  unlines [ lit "FUNCTION_BLOCK";
            lit "VAR";
            lit "  x : Int;";
            lit "END_VAR";
            lit "BEGIN";
            lit "  #x := 1;";
            lit "END_FUNCTION_BLOCK";
            lit "FUNCTION_BLOCK";
            lit "VAR";
            lit "  x : Int;";
            lit "END_VAR";
            lit "BEGIN";
            lit "  #x := 1;";
            lit "END_FUNCTION_BLOCK" ].

(** A CASE without ELSE that holds an IF with an ELSE. *)
Definition caseNestedElseText : str :=
  unlines [ lit "FUNCTION_BLOCK " ++ quoted "FB_A";
            lit "BEGIN";
            lit "CASE #x OF";
            lit "  1:";
            lit "  IF #a THEN";
            lit "    #b := 1;";
            lit "  ELSE";
            lit "    #b := 2;";
            lit "  END_IF;";
            lit "END_CASE;";
            lit "END_FUNCTION_BLOCK" ].

(** A CASE with its own ELSE. *)
Definition caseOwnElseText : str :=
  unlines [ lit "FUNCTION_BLOCK " ++ quoted "FB_A";
            lit "BEGIN";
            lit "CASE #x OF";
            lit "  1: #b := 1;";
            lit "ELSE";
            lit "  #b := 2;";
            lit "END_CASE;";
            lit "END_FUNCTION_BLOCK" ].

(** A CASE in executable code that no block owns: BEGIN comes without a
    block opener. *)
Definition caseOutsideBlockText : str :=
  unlines [ lit "BEGIN";
            lit "CASE #x OF";
            lit "  1: #b := 1;";
            lit "END_CASE;" ].

(** EXIT outside any loop, then CONTINUE inside a FOR. *)
Definition exitText : str :=
  unlines [ lit "FUNCTION_BLOCK " ++ quoted "FB_A";
            lit "BEGIN";
            lit "EXIT;";
            lit "FOR #i := 1 TO 3 DO";
            lit "  CONTINUE;";
            lit "END_FOR;";
            lit "END_FUNCTION_BLOCK" ].

(** An EXIT behind the THEN of a one-line IF, outside any loop. *)
Definition exitBehindThenText : str :=
  unlines [ lit "FUNCTION_BLOCK " ++ quoted "FB_A";
            lit "BEGIN";
            lit "  IF #done THEN EXIT; END_IF;";
            lit "END_FUNCTION_BLOCK" ].

(** An EXIT behind a loop that opens and closes on one line. *)
Definition exitAfterOneLineLoopText : str :=
  unlines [ lit "FUNCTION_BLOCK " ++ quoted "FB_A";
            lit "BEGIN";
            lit "  FOR #i := 1 TO 3 DO #x := #i; END_FOR;";
            lit "  EXIT;";
            lit "END_FUNCTION_BLOCK" ].

(** A block whose BEGIN section holds a lone semicolon only. *)
Definition emptyBeginText : str :=
  unlines [ lit "FUNCTION_BLOCK " ++ quoted "FB_A";
            lit "BEGIN";
            lit "";
            lit "  ;";
            lit "  // nothing yet";
            lit "END_FUNCTION_BLOCK";
            lit "FUNCTION " ++ quoted "FC_B";
            lit "BEGIN";
            lit "  #r := 1;";
            lit "END_FUNCTION" ].

End Samples.

(** ** Notions used to state the properties of the model as a whole *)

Module Shape.
Import Js Parser Rules Spec.

(** *** Characters and keyword tables *)

Definition isQuote (c : ascii) : bool := Ascii.eqb c squote || Ascii.eqb c dquote.

(** No quote character of either kind. *)
Definition quoteFree (s : str) : bool := forallb (fun c => negb (isQuote c)) s.

(** No occurrence of the character [q]. *)
Definition without (q : ascii) (s : str) : bool :=
  forallb (fun c => negb (Ascii.eqb c q)) s.

(** The keywords a VAR frame can hold. *)
Definition sectionKeywords : list str := VAR_OPENS ++ [lit "VAR_CONSTANT"].

(** The closers the scanner can record as unmatched. *)
Definition varClosers : list str := [lit "END_VAR"; lit "END_STRUCT"].

Definition closerKeywords : list str :=
  keys BLOCK_END_TO_OPEN ++ varClosers ++ keys CONTROL_END_TO_OPEN.

(** The openers the scanner can leave pending. *)
Definition openerKeywords : list str :=
  keys BLOCK_PAIRS ++ sectionKeywords ++ keys CONTROL_PAIRS.

(** Every keyword the scanner tests with the keyword-matching rule. *)
Definition scannerKeywords : list str :=
  keys BLOCK_PAIRS ++ keys BLOCK_END_TO_OPEN ++ VAR_OPENS ++ varClosers
  ++ keys CONTROL_PAIRS ++ keys CONTROL_END_TO_OPEN
  ++ [lit "ELSE"; lit "EXIT"; lit "CONTINUE"].

Definition exitKeywords : list str := [lit "EXIT"; lit "CONTINUE"].

(** *** Stack entries, variables and blocks *)

(** An entry recorded before line [n], at column 0, with a keyword of
    [table]. *)
Definition entryOk (table : list str) (n : nat) (e : StackEntry.t) : Prop :=
  In (StackEntry.keyword e) table /\ StackEntry.line e < n /\ StackEntry.col e = 0%Z.

(** The immutable part of a block record. *)
Definition blockId (b : BlockDecl.t) : str * str * nat :=
  (BlockDecl.type b, BlockDecl.name b, BlockDecl.line b).

(** A declaration as the scanner records it. *)
Definition variableOk (v : VariableDecl.t) : Prop :=
  VariableDecl.col v = 0%Z
  /\ VariableDecl.name v <> []
  /\ forallb isWord (VariableDecl.name v) = true
  /\ isKeyword (VariableDecl.name v) = false
  /\ In (VariableDecl.section v) sectionKeywords.

(** The owning block of a declaration: no name, or the name of a block
    opened before the declaration. *)
Definition ownerOk (blocks : list BlockDecl.t) (v : VariableDecl.t) : Prop :=
  VariableDecl.block v = []
  \/ exists b, In b blocks /\ BlockDecl.name b = VariableDecl.block v
               /\ BlockDecl.line b < VariableDecl.line v.

(** A block record inside a text of [n] lines. *)
Definition blockOk (n : nat) (b : BlockDecl.t) : Prop :=
  In (BlockDecl.type b) (keys BLOCK_PAIRS)
  /\ without dquote (BlockDecl.name b) = true
  /\ BlockDecl.line b < n
  /\ (BlockDecl.endLine b < Z.of_nat n)%Z
  /\ Forall (fun e => fst e < n) (BlockDecl.hasCaseElse b).

(** The CASE lines of a block that still miss their ELSE lie inside the
    block. *)
Definition casesInside (b : BlockDecl.t) : Prop :=
  Forall (fun e => snd e = false ->
                   BlockDecl.line b < fst e
                   /\ (BlockDecl.endLine b = (-1)%Z
                       \/ (Z.of_nat (fst e) < BlockDecl.endLine b)%Z))
         (BlockDecl.hasCaseElse b).

(** Strictly increasing line numbers. *)
Fixpoint increasing (l : list nat) : Prop :=
  match l with
  | [] => True
  | x :: t => Forall (fun y => x < y) t /\ increasing t
  end.

(** *** One line of the scan *)

(** The flags of a block record are kept or raised. *)
Definition flagsKept (b b' : BlockDecl.t) : Prop :=
  (BlockDecl.hasVersion b = true -> BlockDecl.hasVersion b' = true)
  /\ (BlockDecl.hasPragma b = true -> BlockDecl.hasPragma b' = true)
  /\ (BlockDecl.hasBegin b = true -> BlockDecl.hasBegin b' = true)
  /\ (BlockDecl.hasCode b = true -> BlockDecl.hasCode b' = true).

(** What a line may do to the record of the current block without closing
    it: the identity and the end line are kept, the flags are kept or
    raised, and the CASE map is kept or receives one key, the line itself
    with false or the line of an open control-flow frame with true. *)
Definition edited (idx : nat) (control : list StackEntry.t)
           (b b' : BlockDecl.t) : Prop :=
  blockId b' = blockId b
  /\ BlockDecl.endLine b' = BlockDecl.endLine b
  /\ flagsKept b b'
  /\ (BlockDecl.hasCaseElse b' = BlockDecl.hasCaseElse b
      \/ BlockDecl.hasCaseElse b' = mapSet idx false (BlockDecl.hasCaseElse b)
      \/ exists t, In t control
                   /\ BlockDecl.hasCaseElse b'
                      = mapSet (StackEntry.line t) true (BlockDecl.hasCaseElse b)).

(** A block record as [openBlock] creates it on line [idx]. *)
Definition opened (idx : nat) (b : BlockDecl.t) : Prop :=
  In (BlockDecl.type b) (keys BLOCK_PAIRS)
  /\ without dquote (BlockDecl.name b) = true
  /\ BlockDecl.line b = idx
  /\ BlockDecl.endLine b = (-1)%Z
  /\ BlockDecl.hasCaseElse b = [].

(** The branch taken by the chain of tests of [classify], as the state it
    returns. *)
Inductive classified (idx : nat) (o t u : str) (st : State) : State -> Prop :=
| classified_pragma :
    startsWith t (lit "{") = true ->
    classified idx o t u st (mutateCurrent (BlockDecl.setHasPragma true) st)
| classified_version :
    startsWith u (lit "VERSION") = true ->
    classified idx o t u st (mutateCurrent (BlockDecl.setHasVersion true) st)
| classified_open (k : str) :
    In k (keys BLOCK_PAIRS) ->
    classified idx o t u st (openBlock idx o k st)
| classified_close (k : str) :
    In k (keys BLOCK_END_TO_OPEN) ->
    classified idx o t u st (closeBlock idx k st)
| classified_begin :
    streq u (lit "BEGIN") = true ->
    classified idx o t u st
               (setAfterBegin true (mutateCurrent (BlockDecl.setHasBegin true) st))
| classified_endvar :
    classified idx o t u st (closeVarSection idx u st)
| classified_var (k : str) :
    In k sectionKeywords ->
    classified idx o t u st (openVarSection idx k st)
| classified_declaration :
    currentVarSection st <> [] ->
    classified idx o t u st (declareVariable idx o st)
| classified_control :
    afterBegin st = true ->
    classified idx o t u st (controlFlow idx t u st)
| classified_other :
    classified idx o t u st st.

(** What line [idx] may do to the blocks: nothing; or a block opens and
    becomes current; or the record of the current block is edited; or the
    current block is closed. *)
Definition blockStep (idx : nat) (st st' : State) : Prop :=
  let bs := ParseResult.blocks (result st) in
  let bs' := ParseResult.blocks (result st') in
  (bs' = bs /\ currentBlock st' = currentBlock st)
  \/ (exists b, opened idx b /\ bs' = bs ++ [b]
                /\ currentBlock st' = Some (length bs))
  \/ (exists c f, currentBlock st = Some c /\ bs' = updAt c f bs
                  /\ (forall b, edited idx (controlStack st) b (f b))
                  /\ currentBlock st' = currentBlock st)
  \/ (exists c, currentBlock st = Some c
                /\ bs' = updAt c (BlockDecl.setEndLine (Z.of_nat idx)) bs
                /\ currentBlock st' = None).

(** A declaration as [declareVariable] records it on line [idx] in state
    [st]. *)
Definition declared (idx : nat) (st : State) (v : VariableDecl.t) : Prop :=
  VariableDecl.line v = idx
  /\ VariableDecl.col v = 0%Z
  /\ VariableDecl.section v = currentVarSection st
  /\ currentVarSection st <> []
  /\ VariableDecl.block v = currentBlockName st
  /\ VariableDecl.name v <> []
  /\ forallb isWord (VariableDecl.name v) = true
  /\ isKeyword (VariableDecl.name v) = false.

(** The current block, when there is one, is a block that is not closed. *)
Definition currentOpen (st : State) : Prop :=
  forall c, currentBlock st = Some c ->
            exists b, nth_error (ParseResult.blocks (result st)) c = Some b
                      /\ BlockDecl.endLine b = (-1)%Z.

(** *** The usage set *)

(** The names a line adds to the usage set, when scanned with the
    block-comment flag [inComment]. *)
Definition usedOn (inComment : bool) (l : str) : list str :=
  match stripComments inComment l with
  | Some (_, o) =>
      if nonEmpty (trim (stripStrings o)) then hashVarNames o else []
  | None => []
  end.

Definition addUsed (used : list str) (names : list str) : list str :=
  fold_left (fun s n => setAdd (toLowerCase n) s) names used.

(** A lower-cased identifier. *)
Definition lowerIdentifier (w : str) : Prop :=
  w <> [] /\ forallb isWord w = true /\ toLowerCase w = w.

(** *** The state in front of a line *)

(** In front of line [idx]: the blocks. *)
Definition blocksInv (idx : nat) (st : State) : Prop :=
  Forall (blockOk idx) (ParseResult.blocks (result st))
  /\ increasing (map BlockDecl.line (ParseResult.blocks (result st)))
  /\ currentOpen st
  /\ Forall casesInside (ParseResult.blocks (result st)).

(** In front of line [idx]: the stacks and the recorded entries. *)
Definition entriesInv (idx : nat) (st : State) : Prop :=
  Forall (entryOk (keys BLOCK_PAIRS) idx) (blockStack st)
  /\ Forall (entryOk sectionKeywords idx) (varStack st)
  /\ Forall (entryOk (keys CONTROL_PAIRS) idx) (controlStack st)
  /\ Forall (entryOk closerKeywords idx) (ParseResult.unmatchedCloses (result st))
  /\ Forall (entryOk exitKeywords idx) (ParseResult.exitOutsideLoop (result st))
  /\ ParseResult.unmatchedOpens (result st) = []
  /\ (currentVarSection st = [] \/ In (currentVarSection st) sectionKeywords).

(** In front of line [idx]: the declarations. *)
Definition variablesInv (idx : nat) (st : State) : Prop :=
  Forall (fun v => variableOk v /\ VariableDecl.line v < idx
                   /\ ownerOk (ParseResult.blocks (result st)) v)
         (ParseResult.variables (result st))
  /\ increasing (map VariableDecl.line (ParseResult.variables (result st))).

Definition usageInv (st : State) : Prop :=
  NoDup (ParseResult.usedVariables (result st))
  /\ Forall lowerIdentifier (ParseResult.usedVariables (result st)).

Definition stateInv (idx : nat) (st : State) : Prop :=
  blocksInv idx st /\ entriesInv idx st /\ variablesInv idx st /\ usageInv st.

(** *** Texts without a BEGIN line *)

Definition isBeginLine (u : option str) : bool :=
  match u with
  | Some upper => streq upper (lit "BEGIN")
  | None => false
  end.

(** No line of the text is scanned as a BEGIN line. *)
Definition noBeginLine (text : str) : bool :=
  forallb (fun u => negb (isBeginLine u)) (activeUppers false (splitLines text)).

(** While no BEGIN line was seen: no control-flow frame, no stray EXIT, no
    CASE line and no BEGIN flag are recorded, and every unmatched closer is
    the closer of a block or of a VAR section. *)
Definition beforeBegin (st : State) : Prop :=
  afterBegin st = false
  /\ controlStack st = []
  /\ ParseResult.exitOutsideLoop (result st) = []
  /\ Forall (fun b => BlockDecl.hasCaseElse b = [] /\ BlockDecl.hasBegin b = false)
            (ParseResult.blocks (result st))
  /\ Forall (fun e => In (StackEntry.keyword e) (keys BLOCK_END_TO_OPEN ++ varClosers))
            (ParseResult.unmatchedCloses (result st)).

(** The codes of the rules on control flow and on the BEGIN section. *)
Definition controlFlowCodes : list str :=
  [lit "SCL001"; lit "SCL005"; lit "SCL104"; lit "SCL105"].

(** *** Pragma and VERSION lines *)

(** The trimmed active form of a physical line, before upper-casing. *)
Definition activeTrimmed (inComment : bool) (line : str) : option str :=
  match stripComments inComment line with
  | None => None
  | Some (_, originalLine) =>
      let trimmed := trim (stripStrings originalLine) in
      if nonEmpty trimmed then Some trimmed else None
  end.

(** *** Diagnostics *)

(** The codes of the engine with their severities. *)
Definition codeTable : list (str * DiagnosticSeverity) :=
  [ (lit "SCL001", Error); (lit "SCL002", Error); (lit "SCL003", Error);
    (lit "SCL004", Error); (lit "SCL005", Error);
    (lit "SCL101", Warning); (lit "SCL102", Warning); (lit "SCL103", Warning);
    (lit "SCL104", Warning); (lit "SCL105", Warning);
    (lit "SCL201", Hint) ].

(** The structural errors: the output of the three rules on unmatched
    delimiters. *)
Definition structuralErrors (r : ParseResult.t) : list LintDiagnostic.t :=
  ruleUnmatchedControlFlow r ++ ruleUnmatchedVarSections r ++ ruleUnmatchedBlocks r.

(** The code of the rule that reports an unmatched delimiter keyword: the
    code of its family. *)
Definition familyCode (kw : str) : str :=
  if setHas kw (keys CONTROL_PAIRS ++ keys CONTROL_END_TO_OPEN) then lit "SCL001"
  else if setHas kw (sectionKeywords ++ varClosers) then lit "SCL002"
  else lit "SCL003".

(** The code and the line of a diagnostic, and those under which an
    unmatched entry is to be reported. *)
Definition reportOf (d : LintDiagnostic.t) : str * nat :=
  (LintDiagnostic.code d, LintDiagnostic.line d).

Definition entryReport (e : StackEntry.t) : str * nat :=
  (familyCode (StackEntry.keyword e), StackEntry.line e).

(** *** The outline *)

(** The variables grouped under section [s]. *)
Definition sectionGroup (s : str) (groups : list (str * list VariableDecl.t))
  : option (list VariableDecl.t) :=
  match find (fun g => streq s (fst g)) groups with
  | Some (_, vs) => Some vs
  | None => None
  end.

(** The variables of section [s], in the order of the list. *)
Definition ofSection (s : str) (vars : list VariableDecl.t) : list VariableDecl.t :=
  filter (fun v => streq (VariableDecl.section v) s) vars.

(** *** Pragma lines *)

(** The number of leading lines that start with an opening brace. *)
Fixpoint pragmaRun (lines : list str) : nat :=
  match lines with
  | l :: rest => if startsWith (trim l) (lit "{") then S (pragmaRun rest) else 0
  | [] => 0
  end.

(** *** Nested CASE statements *)

Definition isCaseLine (l : str) : bool :=
  QuickFixes.keywordAtStart (lit "CASE") (QuickFixes.upperOf l).

Definition isEndCaseLine (l : str) : bool :=
  QuickFixes.keywordAtStart (lit "END_CASE") (QuickFixes.upperOf l).

(** The lines hold complete CASE statements only, at [depth] open CASE
    statements around them: no END_CASE closes an outer statement. *)
Fixpoint nestedCases (depth : nat) (lines : list str) : bool :=
  match lines with
  | [] => depth =? 0
  | l :: rest =>
      if isEndCaseLine l then
        match depth with
        | O => false
        | S d => nestedCases d rest
        end
      else if isCaseLine l then nestedCases (S depth) rest
      else nestedCases depth rest
  end.

End Shape.

(** ** More sample texts *)

Module Texts.
Import Js Parser Rules Spec.

(** Two blocks that each declare a variable named speed. *)
Definition twoBlocksText : str :=
  unlines [ lit "FUNCTION_BLOCK " ++ quoted "FB_A";
            lit "VAR";
            lit "  speed : Int;";
            lit "END_VAR";
            lit "BEGIN";
            lit "  #speed := 1;";
            lit "END_FUNCTION_BLOCK";
            lit "FUNCTION " ++ quoted "FC_B";
            lit "VAR_TEMP";
            lit "  Speed : Int;";
            lit "  idle : Bool;";
            lit "END_VAR";
            lit "BEGIN";
            lit "  #SPEED := 2;";
            lit "END_FUNCTION" ].

(** A CASE statement that holds another one. *)
Definition nestedCaseDocument : list str :=
  [ lit "BEGIN";
    lit "  CASE #a OF";
    lit "    1:";
    lit "      CASE #b OF";
    lit "        1: #x := 1;";
    lit "      END_CASE;";
    lit "    2: #x := 2;";
    lit "  END_CASE;";
    lit "END_FUNCTION" ].

(** Control-flow keywords in a block without a BEGIN line. *)
Definition noBeginText : str :=
  unlines [ lit "FUNCTION_BLOCK " ++ quoted "FB_A";
            lit "VAR";
            lit "  a : Int;";
            lit "END_VAR";
            lit "IF #a > 1 THEN";
            lit "  EXIT;";
            lit "END_FUNCTION_BLOCK" ].

(** A block with a pragma line and a VERSION line. *)
Definition headerText : str :=
  unlines [ lit "FUNCTION_BLOCK " ++ quoted "FB_A";
            lit "{ S7_Optimized_Access := 'TRUE' }";
            lit "Version : 0.1";
            lit "BEGIN";
            lit "  #a := 1;";
            lit "END_FUNCTION_BLOCK";
            lit "FUNCTION " ++ quoted "FC_B";
            lit "BEGIN";
            lit "  #b := 1;";
            lit "END_FUNCTION" ].

End Texts.

(** * Properties *)

Unset Implicit Arguments.

Import Js Parser Rules Spec.

(** ** Strings *)

Lemma streq_refl (a : str) : streq a a = true.
Proof.
  induction a as [|c a IH]; simpl; [reflexivity|].
  now rewrite Ascii.eqb_refl.
Qed.

Lemma streq_eq (a b : str) : streq a b = true -> a = b.
Proof.
  revert b; induction a as [|c a IH]; intros [|d b]; simpl; try discriminate; auto.
  intros H. apply andb_true_iff in H as [Hc Hr].
  apply Ascii.eqb_eq in Hc. subst. f_equal. now apply IH.
Qed.

Lemma streq_true_iff (a b : str) : streq a b = true <-> a = b.
Proof. split; [apply streq_eq | intros ->; apply streq_refl]. Qed.

Lemma streq_false_iff (a b : str) : streq a b = false <-> a <> b.
Proof.
  split.
  - intros H E. subst. rewrite streq_refl in H. discriminate.
  - intros H. destruct (streq a b) eqn:E; [|reflexivity].
    apply streq_eq in E. contradiction.
Qed.

Lemma streq_sym (a b : str) : streq a b = streq b a.
Proof.
  destruct (streq a b) eqn:E.
  - apply streq_eq in E. subst. symmetry. apply streq_refl.
  - symmetry. apply streq_false_iff. apply streq_false_iff in E. congruence.
Qed.

Lemma startsWith_app (s p : str) :
  startsWith s p = true -> exists r, s = p ++ r.
Proof.
  revert s; induction p as [|c p IH]; intros s H.
  - exists s. reflexivity.
  - destruct s as [|d s]; simpl in H; [discriminate|].
    apply andb_true_iff in H as [Hc Hr].
    apply Ascii.eqb_eq in Hc. subst.
    destruct (IH _ Hr) as [r ->]. exists r. reflexivity.
Qed.

Lemma startsWith_prefix (p r : str) : startsWith (p ++ r) p = true.
Proof.
  induction p as [|c p IH]; simpl; [reflexivity|].
  now rewrite Ascii.eqb_refl.
Qed.

Lemma indexOfFrom_bound (sub : str) :
  forall s i j, indexOfFrom i s sub = Some j ->
    i <= j /\ (j - i) + length sub <= length s.
Proof.
  induction s as [|c s IH]; intros i j H; simpl in H.
  - destruct (startsWith [] sub) eqn:E; [|discriminate].
    inversion H; subst. split; [lia|].
    apply startsWith_app in E as [r E].
    destruct sub; [simpl; lia | discriminate].
  - destruct (startsWith (c :: s) sub) eqn:E.
    + inversion H; subst. split; [lia|].
      apply startsWith_app in E as [r E].
      rewrite E, length_app. lia.
    + apply IH in H. simpl. lia.
Qed.

Lemma indexOf_bound (s sub : str) (j : nat) :
  indexOf s sub = Some j -> j + length sub <= length s.
Proof.
  intros H. apply indexOfFrom_bound in H. lia.
Qed.

(** ** Blanking keeps columns *)

Lemma masks_refl (l : str) : masks l l.
Proof. induction l; constructor; assumption. Qed.

Lemma masks_trans (a b c : str) : masks a b -> masks b c -> masks a c.
Proof.
  intros Hab; revert c.
  induction Hab as [l | x a l Hab IH | x a l Hab IH]; intros c Hbc.
  - constructor.
  - inversion Hbc; subst; constructor; auto.
  - inversion Hbc; subst; constructor; auto.
Qed.

Lemma masks_firstn (n : nat) (l : str) : masks (firstn n l) l.
Proof.
  revert n; induction l as [|c l IH]; intros [|n]; simpl; constructor; auto.
Qed.

Lemma masks_length (a l : str) : masks a l -> length a <= length l.
Proof. induction 1; simpl; lia. Qed.

Lemma masks_nth (a l : str) :
  masks a l ->
  forall i, i < length a -> nth i a space = nth i l space \/ nth i a space = space.
Proof.
  induction 1 as [l | c a l H IH | c a l H IH]; intros i Hi; simpl in Hi.
  - lia.
  - destruct i; simpl; [now left | apply IH; lia].
  - destruct i; simpl; [now right | apply IH; lia].
Qed.

Lemma masks_spaces_skipn (n : nat) (l : str) :
  n <= length l -> masks (spaces n ++ skipn n l) l.
Proof.
  revert l; induction n as [|n IH]; intros l Hn; simpl.
  - apply masks_refl.
  - destruct l as [|c l]; simpl in Hn; [lia|].
    apply masks_blank. apply IH. lia.
Qed.

Lemma spaces_skipn_length (n : nat) (l : str) :
  n <= length l -> length (spaces n ++ skipn n l) = length l.
Proof.
  intros Hn. unfold spaces. rewrite length_app, repeat_length, length_skipn. lia.
Qed.

(** Both modes of [blankComments] at once, by induction on a bound of the
    length, since the function steps over two characters at a time. *)
Lemma blankComments_shape (n : nat) :
  forall s inside, length s <= n ->
    length (blankComments inside s) = length s /\ masks (blankComments inside s) s.
Proof.
  induction n as [|n IH]; intros s inside Hn.
  - destruct s; simpl in *; [split; [reflexivity|constructor] | lia].
  - destruct s as [|c [|c' t]].
    + split; [reflexivity|constructor].
    + destruct inside; simpl; split; try reflexivity; repeat constructor.
    + simpl in Hn.
      destruct inside.
      * change (blankComments true (c :: c' :: t))
          with (if Ascii.eqb c "*"%char && Ascii.eqb c' ")"%char
                then space :: space :: blankComments false t
                else space :: blankComments true (c' :: t)).
        destruct (Ascii.eqb c "*" && Ascii.eqb c' ")")%char.
        -- destruct (IH t false) as [Hl Hm]; [lia|].
           simpl. rewrite Hl. split; [reflexivity|].
           do 2 apply masks_blank. exact Hm.
        -- destruct (IH (c' :: t) true) as [Hl Hm]; [simpl; lia|].
           simpl length in *. rewrite Hl. split; [reflexivity|].
           apply masks_blank. exact Hm.
      * change (blankComments false (c :: c' :: t))
          with (if Ascii.eqb c "("%char && Ascii.eqb c' "*"%char
                then if includes t (lit "*)")
                     then space :: space :: blankComments true t
                     else c :: c' :: t
                else c :: blankComments false (c' :: t)).
        destruct (Ascii.eqb c "(" && Ascii.eqb c' "*")%char.
        -- destruct (includes t (lit "*)")).
           ++ destruct (IH t true) as [Hl Hm]; [lia|].
              simpl. rewrite Hl. split; [reflexivity|].
              do 2 apply masks_blank. exact Hm.
           ++ split; [reflexivity | apply masks_refl].
        -- destruct (IH (c' :: t) false) as [Hl Hm]; [simpl; lia|].
           simpl length in *. rewrite Hl. split; [reflexivity|].
           apply masks_keep. exact Hm.
Qed.

Lemma stripBlockComments_length (l : str) :
  length (stripBlockComments l) = length l.
Proof. apply (blankComments_shape (length l)); lia. Qed.

Lemma stripBlockComments_masks (l : str) : masks (stripBlockComments l) l.
Proof. apply (blankComments_shape (length l)); lia. Qed.

Lemma blankQuoted_shape (qc : ascii) :
  forall s inside,
    length (blankQuoted qc inside s) = length s /\ masks (blankQuoted qc inside s) s.
Proof.
  induction s as [|c s IH]; intros inside; simpl.
  - split; [reflexivity|constructor].
  - destruct inside.
    + destruct (Ascii.eqb c qc) eqn:E.
      * apply Ascii.eqb_eq in E; subst.
        destruct (IH false) as [Hl Hm]. simpl. rewrite Hl.
        split; [reflexivity | now apply masks_keep].
      * destruct (IH true) as [Hl Hm]. simpl. rewrite Hl.
        split; [reflexivity | now apply masks_blank].
    + destruct (Ascii.eqb c qc) eqn:E.
      * apply Ascii.eqb_eq in E; subst.
        destruct (existsb (Ascii.eqb qc) s).
        -- destruct (IH true) as [Hl Hm]. simpl. rewrite Hl.
           split; [reflexivity | now apply masks_keep].
        -- split; [reflexivity | apply masks_refl].
      * destruct (IH false) as [Hl Hm]. simpl. rewrite Hl.
        split; [reflexivity | now apply masks_keep].
Qed.

Lemma stripStrings_length (l : str) : length (stripStrings l) = length l.
Proof.
  unfold stripStrings.
  rewrite (proj1 (blankQuoted_shape dquote _ false)).
  apply (blankQuoted_shape squote l false).
Qed.

Lemma stripStrings_masks (l : str) : masks (stripStrings l) l.
Proof.
  unfold stripStrings.
  eapply masks_trans; [apply (blankQuoted_shape dquote _ false)|].
  apply (blankQuoted_shape squote l false).
Qed.

Lemma stripComments_masks (inComment inComment' : bool) (line originalLine : str) :
  stripComments inComment line = Some (inComment', originalLine) ->
  masks originalLine line.
Proof.
  unfold stripComments. intros H.
  assert (Hstage1 : forall line1,
             (if inComment
              then match indexOf line (lit "*)") with
                   | Some endIdx =>
                       Some (spaces (endIdx + 2) ++ substringFrom (endIdx + 2) line)
                   | None => None
                   end
              else Some line) = Some line1 -> masks line1 line).
  { intros line1 H1. destruct inComment.
    - destruct (indexOf line (lit "*)")) as [e|] eqn:E; [|discriminate].
      inversion H1; subst. apply masks_spaces_skipn.
      apply indexOf_bound in E. simpl in E. lia.
    - inversion H1; subst. apply masks_refl. }
  destruct (if inComment then _ else _) as [line1|] eqn:E1; [|discriminate].
  specialize (Hstage1 _ eq_refl).
  assert (H2 : masks (stripBlockComments line1) line)
    by (eapply masks_trans; [apply stripBlockComments_masks | exact Hstage1]).
  destruct (indexOf (stripBlockComments line1) (lit "(*")) as [o|].
  - destruct (lineCommentIndex _) as [ci|]; inversion H; subst.
    + eapply masks_trans; [apply masks_firstn|].
      eapply masks_trans; [apply masks_firstn | exact H2].
    + eapply masks_trans; [apply masks_firstn | exact H2].
  - destruct (lineCommentIndex _) as [ci|]; inversion H; subst.
    + eapply masks_trans; [apply masks_firstn | exact H2].
    + exact H2.
Qed.

(** ** C3: preprocessing and columns *)

(** C3, as stated, fails: a trailing line comment is cut off, not blanked,
    so the active line is shorter than the physical line. *)
Lemma C3_line_comment_shortens_line :
  exists originalLine,
    stripComments false Samples.commentedLine = Some (false, originalLine)
    /\ length (stripStrings originalLine) < length Samples.commentedLine.
Proof.
  eexists. split; [vm_compute; reflexivity | vm_compute; lia].
Qed.

(** C3, amended: the stages that blank (the end of a multi-line comment,
    same-line block comments, string interiors) keep the length of the
    line; the other two (an unterminated comment opener, a line comment)
    cut the line there.  So the active line is no longer than the physical
    line, and each of its columns holds the character of the same column of
    the physical line or a space. *)
Theorem C3_active_line_keeps_columns
        (inComment inComment' : bool) (line originalLine : str) :
  stripComments inComment line = Some (inComment', originalLine) ->
  let active := stripStrings originalLine in
  length active = length originalLine
  /\ length originalLine <= length line
  /\ (forall i, i < length active ->
        nth i active space = nth i line space \/ nth i active space = space)
  /\ (forall l, length (stripBlockComments l) = length l)
  /\ (forall l, length (stripStrings l) = length l)
  /\ (forall l endIdx, indexOf l (lit "*)") = Some endIdx ->
        length (spaces (endIdx + 2) ++ substringFrom (endIdx + 2) l) = length l).
Proof.
  intros H active.
  pose proof (stripComments_masks _ _ _ _ H) as Hm.
  repeat split.
  - apply stripStrings_length.
  - apply masks_length. exact Hm.
  - apply masks_nth. eapply masks_trans; [apply stripStrings_masks | exact Hm].
  - apply stripBlockComments_length.
  - apply stripStrings_length.
  - intros l e He. apply spaces_skipn_length.
    apply indexOf_bound in He. simpl in He. lia.
Qed.

Lemma C3_active_line_keeps_columns_witness :
  let active := stripStrings (lit "  #s := 'a//b'; ") in
  length active = length (lit "  #s := 'a//b'; ")
  /\ length (lit "  #s := 'a//b'; ") <= length Samples.markerInStringLine
  /\ (forall i, i < length active ->
        nth i active space = nth i Samples.markerInStringLine space
        \/ nth i active space = space)
  /\ (forall l, length (stripBlockComments l) = length l)
  /\ (forall l, length (stripStrings l) = length l)
  /\ (forall l endIdx, indexOf l (lit "*)") = Some endIdx ->
        length (spaces (endIdx + 2) ++ substringFrom (endIdx + 2) l) = length l).
Proof.
  apply (C3_active_line_keeps_columns false false Samples.markerInStringLine).
  vm_compute. reflexivity.
Defined.

(** ** C5: the IF opener and the keyword-matching rule *)

(** C5 at an IF opener followed by a tab: the keyword-matching rule holds
    for the line and IF, yet the scanner pushes no control-flow frame, and
    reports the END_IF that follows as unmatched.  With a space after IF,
    or with FOR followed by a tab, the frame is pushed. *)
Theorem C5_if_followed_by_tab_pushes_no_frame :
  matchKeyword (toUpperCase (lit "IF" ++ tab ++ lit "#a THEN")) (lit "IF") = true
  /\ controlStack (stateBefore Samples.ifTabText 3) = []
  /\ controlStack (stateBefore Samples.ifSpaceText 3) = [StackEntry.mk (lit "IF") 2 0]
  /\ controlStack (stateBefore Samples.forTabText 3) = [StackEntry.mk (lit "FOR") 2 0]
  /\ ParseResult.unmatchedCloses (parse Samples.ifTabText)
     = [StackEntry.mk (lit "END_IF") 4 0]
  /\ ParseResult.unmatchedCloses (parse Samples.ifSpaceText) = [].
Proof. repeat split; vm_compute; reflexivity. Qed.

(** ** C2: comment markers inside string literals *)

(** C2 at a string literal holding a block-comment opener: the line-comment
    marker inside a string is passed over (the index found is that of the
    marker after the string), but the block-comment opener inside a string
    starts comment skipping: the scanner is inside a comment after that
    line, the rest of the text is skipped, and the block is reported as
    never closed. *)
Theorem C2_comment_opener_in_string_starts_comment :
  lineCommentIndex Samples.markerInStringLine = Some 16
  /\ inBlockComment (stateBefore Samples.openerInStringText 2) = false
  /\ inBlockComment (stateBefore Samples.openerInStringText 3) = true
  /\ ParseResult.usedVariables (parse Samples.openerInStringText) = [lit "s"]
  /\ ParseResult.unmatchedOpens (parse Samples.openerInStringText)
     = [StackEntry.mk (lit "FUNCTION_BLOCK") 0 0].
Proof. repeat split; vm_compute; reflexivity. Qed.

(** ** C4: variables whose block is missing *)

Lemma incl_runRules_unused (r : ParseResult.t) :
  incl (ruleUnusedVariables r) (runRules r).
Proof.
  unfold runRules. intros d Hd.
  repeat (apply in_or_app; first [left; exact Hd | right]).
Qed.

(** C4, as stated, fails: a variable declared outside any block matches no
    BlockDecl, and the unused-variable rule reports it. *)
Lemma C4_variable_without_block_is_reported :
  let r := parse Samples.orphanVarText in
  ParseResult.variables r = [Samples.orphanVar]
  /\ find (fun b => streq (BlockDecl.name b) (VariableDecl.block Samples.orphanVar))
          (ParseResult.blocks r) = None
  /\ In (unusedWarning Samples.orphanVar) (runRules r).
Proof.
  split; [vm_compute; reflexivity|].
  split; [vm_compute; reflexivity|].
  vm_compute. auto 20.
Qed.

(** C4, amended: a variable whose owning block name matches no BlockDecl is
    not excluded by the unused-variable rule; the rule treats it like a
    variable of a code block: it is reported unless it belongs to the
    output section or its lower-cased name is in the usage set. *)
Theorem C4_variable_without_block_is_checked
        (r : ParseResult.t) (v : VariableDecl.t) :
  In v (ParseResult.variables r) ->
  find (fun b => streq (BlockDecl.name b) (VariableDecl.block v))
       (ParseResult.blocks r) = None ->
  unusedVariable r v
  = (if streq (VariableDecl.section v) (lit "VAR_OUTPUT")
        || setHas (toLowerCase (VariableDecl.name v)) (ParseResult.usedVariables r)
     then [] else [unusedWarning v])
  /\ incl (unusedVariable r v) (runRules r).
Proof.
  intros Hin Hfind. split.
  - unfold unusedVariable. rewrite Hfind.
    destruct (streq (VariableDecl.section v) (lit "VAR_OUTPUT")); [reflexivity|].
    destruct (setHas _ _); reflexivity.
  - intros d Hd. apply incl_runRules_unused.
    unfold ruleUnusedVariables. apply in_flat_map. exists v. split; assumption.
Qed.

Lemma C4_variable_without_block_is_checked_witness :
  unusedVariable (parse Samples.orphanVarText) Samples.orphanVar
  = [unusedWarning Samples.orphanVar]
  /\ incl (unusedVariable (parse Samples.orphanVarText) Samples.orphanVar)
          (runRules (parse Samples.orphanVarText)).
Proof.
  apply (C4_variable_without_block_is_checked
           (parse Samples.orphanVarText) Samples.orphanVar).
  - vm_compute. left. reflexivity.
  - vm_compute. reflexivity.
Defined.

(** ** The keyword-matching rule *)

Lemma matchKeyword_split (u k : str) :
  matchKeyword u k = true -> exists r, u = k ++ r /\ keywordTail r.
Proof.
  unfold matchKeyword. intros H.
  repeat (apply orb_true_iff in H as [H|H]).
  - apply streq_eq in H. exists []. rewrite app_nil_r. split; [assumption|exact I].
  - apply streq_eq in H. exists (lit ";"). split; [assumption|reflexivity].
  - apply startsWith_app in H as [r ->]. rewrite <- app_assoc.
    eexists. split; [reflexivity|reflexivity].
  - apply startsWith_app in H as [r ->]. rewrite <- app_assoc.
    eexists. split; [reflexivity|reflexivity].
  - apply startsWith_app in H as [r ->]. rewrite <- app_assoc.
    eexists. split; [reflexivity|reflexivity].
Qed.

Lemma matchKeyword_startsWith (u k : str) :
  matchKeyword u k = true -> startsWith u k = true.
Proof.
  intros H. apply matchKeyword_split in H as (r & -> & _).
  apply startsWith_prefix.
Qed.

Lemma keyword_split_unique :
  forall k k' r r',
    delimFree k = true -> delimFree k' = true ->
    keywordTail r -> keywordTail r' ->
    k ++ r = k' ++ r' -> k = k'.
Proof.
  induction k as [|c k IH]; intros [|c' k'] r r' Hk Hk' Hr Hr' E; simpl in *.
  - reflexivity.
  - subst r. simpl in Hr.
    apply andb_true_iff in Hk' as [Hc _]. rewrite Hr in Hc. discriminate.
  - subst r'. simpl in Hr'.
    apply andb_true_iff in Hk as [Hc _]. rewrite Hr' in Hc. discriminate.
  - inversion E; subst.
    apply andb_true_iff in Hk as [_ Hk].
    apply andb_true_iff in Hk' as [_ Hk'].
    f_equal. apply (IH k' r r'); assumption.
Qed.

(** A line matches at most one delimiter-free keyword. *)
Lemma matchKeyword_unique (u k k' : str) :
  delimFree k = true -> delimFree k' = true ->
  matchKeyword u k = true -> matchKeyword u k' = true -> k = k'.
Proof.
  intros Hk Hk' H H'.
  apply matchKeyword_split in H as (r & E & Hr).
  apply matchKeyword_split in H' as (r' & E' & Hr').
  rewrite E in E'. apply (keyword_split_unique k k' r r'); assumption.
Qed.

Lemma find_matchKeyword_other (u K : str) (table : list str) :
  matchKeyword u K = true -> delimFree K = true ->
  forallb (fun k => delimFree k && negb (streq k K)) table = true ->
  find (matchKeyword u) table = None.
Proof.
  intros HK HdK. induction table as [|k table IH]; simpl; intros Ht; [reflexivity|].
  apply andb_true_iff in Ht as [Hk Ht].
  apply andb_true_iff in Hk as [Hdk Hne].
  destruct (matchKeyword u k) eqn:E.
  - assert (k = K) by (eapply matchKeyword_unique; eauto). subst.
    rewrite streq_refl in Hne. discriminate.
  - auto.
Qed.

Lemma find_matchKeyword_same (u K : str) (table : list str) :
  matchKeyword u K = true -> delimFree K = true ->
  forallb delimFree table = true -> In K table ->
  find (matchKeyword u) table = Some K.
Proof.
  intros HK HdK. induction table as [|k table IH]; simpl; intros Ht Hin; [contradiction|].
  apply andb_true_iff in Ht as [Hdk Ht].
  destruct (matchKeyword u k) eqn:E.
  - f_equal. eapply matchKeyword_unique; eauto.
  - destruct Hin as [->|Hin]; [congruence | auto].
Qed.

Lemma find_matchKeyword_some (u k : str) (table : list str) :
  find (matchKeyword u) table = Some k -> matchKeyword u k = true /\ In k table.
Proof. intros H. apply find_some in H. tauto. Qed.

Lemma startsWith_compatible :
  forall a b u, startsWith u a = true -> startsWith u b = true ->
                compatible a b = true.
Proof.
  induction a as [|x a IH]; intros [|y b] u Ha Hb; simpl; try reflexivity.
  destruct u as [|c u]; simpl in *; [discriminate|].
  apply andb_true_iff in Ha as [Hx Ha].
  apply andb_true_iff in Hb as [Hy Hb].
  apply Ascii.eqb_eq in Hx, Hy. subst.
  rewrite Ascii.eqb_refl. simpl. eapply IH; eauto.
Qed.

Lemma startsWith_incompatible (u a b : str) :
  startsWith u a = true -> compatible a b = false -> startsWith u b = false.
Proof.
  intros Ha Hc. destruct (startsWith u b) eqn:E; [|reflexivity].
  rewrite (startsWith_compatible _ _ _ Ha E) in Hc. discriminate.
Qed.

Lemma matchKeyword_incompatible (u a k : str) :
  startsWith u a = true -> compatible a k = false -> matchKeyword u k = false.
Proof.
  intros Ha Hc. destruct (matchKeyword u k) eqn:E; [|reflexivity].
  apply matchKeyword_startsWith in E.
  rewrite (startsWith_compatible _ _ _ Ha E) in Hc. discriminate.
Qed.

Lemma find_matchKeyword_incompatible (u a : str) (table : list str) :
  startsWith u a = true ->
  forallb (fun k => negb (compatible a k)) table = true ->
  find (matchKeyword u) table = None.
Proof.
  intros Ha. induction table as [|k table IH]; simpl; intros Ht; [reflexivity|].
  apply andb_true_iff in Ht as [Hk Ht].
  rewrite (matchKeyword_incompatible u a k Ha); [auto|].
  now apply negb_true_iff in Hk.
Qed.

Lemma startsWith_toUpperCase_brace (t : str) :
  startsWith t (lit "{") = true -> startsWith (toUpperCase t) (lit "{") = true.
Proof.
  intros H. apply startsWith_app in H as [r ->]. reflexivity.
Qed.

(** ** What each step of the scanner leaves alone *)

Ltac destruct_matches :=
  repeat match goal with
         | |- context [match ?x with _ => _ end] => destruct x eqn:?
         end.

Create Rewrite HintDb scan.

Ltac frame c :=
  intros; unfold c; destruct_matches;
  first [ reflexivity
        | simpl; autorewrite with scan; reflexivity
        | simpl; autorewrite with scan; simpl; congruence ].

Lemma trackUsage_blocks (o : str) (st : State) :
  ParseResult.blocks (result (trackUsage o st)) = ParseResult.blocks (result (st)).
Proof. frame trackUsage. Qed.

Lemma trackUsage_unmatchedOpens (o : str) (st : State) :
  ParseResult.unmatchedOpens (result (trackUsage o st)) = ParseResult.unmatchedOpens (result (st)).
Proof. frame trackUsage. Qed.

Lemma trackUsage_unmatchedCloses (o : str) (st : State) :
  ParseResult.unmatchedCloses (result (trackUsage o st)) = ParseResult.unmatchedCloses (result (st)).
Proof. frame trackUsage. Qed.

Lemma trackUsage_exitOutsideLoop (o : str) (st : State) :
  ParseResult.exitOutsideLoop (result (trackUsage o st)) = ParseResult.exitOutsideLoop (result (st)).
Proof. frame trackUsage. Qed.

Lemma trackUsage_variables (o : str) (st : State) :
  ParseResult.variables (result (trackUsage o st)) = ParseResult.variables (result (st)).
Proof. frame trackUsage. Qed.

Lemma trackUsage_blockStack (o : str) (st : State) :
  blockStack (trackUsage o st) = blockStack (st).
Proof. frame trackUsage. Qed.

Lemma trackUsage_varStack (o : str) (st : State) :
  varStack (trackUsage o st) = varStack (st).
Proof. frame trackUsage. Qed.

Lemma trackUsage_controlStack (o : str) (st : State) :
  controlStack (trackUsage o st) = controlStack (st).
Proof. frame trackUsage. Qed.

Lemma trackUsage_currentBlock (o : str) (st : State) :
  currentBlock (trackUsage o st) = currentBlock (st).
Proof. frame trackUsage. Qed.

Lemma trackUsage_inBlockComment (o : str) (st : State) :
  inBlockComment (trackUsage o st) = inBlockComment (st).
Proof. frame trackUsage. Qed.

Lemma trackUsage_afterBegin (o : str) (st : State) :
  afterBegin (trackUsage o st) = afterBegin (st).
Proof. frame trackUsage. Qed.

Lemma trackUsage_currentVarSection (o : str) (st : State) :
  currentVarSection (trackUsage o st) = currentVarSection (st).
Proof. frame trackUsage. Qed.

#[export] Hint Rewrite trackUsage_blocks trackUsage_unmatchedOpens trackUsage_unmatchedCloses trackUsage_exitOutsideLoop trackUsage_variables trackUsage_blockStack trackUsage_varStack trackUsage_controlStack trackUsage_currentBlock trackUsage_inBlockComment trackUsage_afterBegin trackUsage_currentVarSection : scan.

Lemma mutateCurrent_unmatchedOpens (f : BlockDecl.t -> BlockDecl.t) (st : State) :
  ParseResult.unmatchedOpens (result (mutateCurrent f st)) = ParseResult.unmatchedOpens (result (st)).
Proof. frame mutateCurrent. Qed.

Lemma mutateCurrent_unmatchedCloses (f : BlockDecl.t -> BlockDecl.t) (st : State) :
  ParseResult.unmatchedCloses (result (mutateCurrent f st)) = ParseResult.unmatchedCloses (result (st)).
Proof. frame mutateCurrent. Qed.

Lemma mutateCurrent_exitOutsideLoop (f : BlockDecl.t -> BlockDecl.t) (st : State) :
  ParseResult.exitOutsideLoop (result (mutateCurrent f st)) = ParseResult.exitOutsideLoop (result (st)).
Proof. frame mutateCurrent. Qed.

Lemma mutateCurrent_variables (f : BlockDecl.t -> BlockDecl.t) (st : State) :
  ParseResult.variables (result (mutateCurrent f st)) = ParseResult.variables (result (st)).
Proof. frame mutateCurrent. Qed.

Lemma mutateCurrent_blockStack (f : BlockDecl.t -> BlockDecl.t) (st : State) :
  blockStack (mutateCurrent f st) = blockStack (st).
Proof. frame mutateCurrent. Qed.

Lemma mutateCurrent_varStack (f : BlockDecl.t -> BlockDecl.t) (st : State) :
  varStack (mutateCurrent f st) = varStack (st).
Proof. frame mutateCurrent. Qed.

Lemma mutateCurrent_controlStack (f : BlockDecl.t -> BlockDecl.t) (st : State) :
  controlStack (mutateCurrent f st) = controlStack (st).
Proof. frame mutateCurrent. Qed.

Lemma mutateCurrent_currentBlock (f : BlockDecl.t -> BlockDecl.t) (st : State) :
  currentBlock (mutateCurrent f st) = currentBlock (st).
Proof. frame mutateCurrent. Qed.

Lemma mutateCurrent_inBlockComment (f : BlockDecl.t -> BlockDecl.t) (st : State) :
  inBlockComment (mutateCurrent f st) = inBlockComment (st).
Proof. frame mutateCurrent. Qed.

Lemma mutateCurrent_afterBegin (f : BlockDecl.t -> BlockDecl.t) (st : State) :
  afterBegin (mutateCurrent f st) = afterBegin (st).
Proof. frame mutateCurrent. Qed.

Lemma mutateCurrent_currentVarSection (f : BlockDecl.t -> BlockDecl.t) (st : State) :
  currentVarSection (mutateCurrent f st) = currentVarSection (st).
Proof. frame mutateCurrent. Qed.

#[export] Hint Rewrite mutateCurrent_unmatchedOpens mutateCurrent_unmatchedCloses mutateCurrent_exitOutsideLoop mutateCurrent_variables mutateCurrent_blockStack mutateCurrent_varStack mutateCurrent_controlStack mutateCurrent_currentBlock mutateCurrent_inBlockComment mutateCurrent_afterBegin mutateCurrent_currentVarSection : scan.

Lemma closeBlock_unmatchedOpens (i : nat) (c : str) (st : State) :
  ParseResult.unmatchedOpens (result (closeBlock i c st)) = ParseResult.unmatchedOpens (result (st)).
Proof. frame closeBlock. Qed.

Lemma closeBlock_exitOutsideLoop (i : nat) (c : str) (st : State) :
  ParseResult.exitOutsideLoop (result (closeBlock i c st)) = ParseResult.exitOutsideLoop (result (st)).
Proof. frame closeBlock. Qed.

Lemma closeBlock_variables (i : nat) (c : str) (st : State) :
  ParseResult.variables (result (closeBlock i c st)) = ParseResult.variables (result (st)).
Proof. frame closeBlock. Qed.

Lemma closeBlock_varStack (i : nat) (c : str) (st : State) :
  varStack (closeBlock i c st) = varStack (st).
Proof. frame closeBlock. Qed.

Lemma closeBlock_controlStack (i : nat) (c : str) (st : State) :
  controlStack (closeBlock i c st) = controlStack (st).
Proof. frame closeBlock. Qed.

Lemma closeBlock_inBlockComment (i : nat) (c : str) (st : State) :
  inBlockComment (closeBlock i c st) = inBlockComment (st).
Proof. frame closeBlock. Qed.

Lemma closeBlock_currentVarSection (i : nat) (c : str) (st : State) :
  currentVarSection (closeBlock i c st) = currentVarSection (st).
Proof. frame closeBlock. Qed.

#[export] Hint Rewrite closeBlock_unmatchedOpens closeBlock_exitOutsideLoop closeBlock_variables closeBlock_varStack closeBlock_controlStack closeBlock_inBlockComment closeBlock_currentVarSection : scan.

Lemma closeVarSection_blocks (i : nat) (u : str) (st : State) :
  ParseResult.blocks (result (closeVarSection i u st)) = ParseResult.blocks (result (st)).
Proof. frame closeVarSection. Qed.

Lemma closeVarSection_unmatchedOpens (i : nat) (u : str) (st : State) :
  ParseResult.unmatchedOpens (result (closeVarSection i u st)) = ParseResult.unmatchedOpens (result (st)).
Proof. frame closeVarSection. Qed.

Lemma closeVarSection_exitOutsideLoop (i : nat) (u : str) (st : State) :
  ParseResult.exitOutsideLoop (result (closeVarSection i u st)) = ParseResult.exitOutsideLoop (result (st)).
Proof. frame closeVarSection. Qed.

Lemma closeVarSection_variables (i : nat) (u : str) (st : State) :
  ParseResult.variables (result (closeVarSection i u st)) = ParseResult.variables (result (st)).
Proof. frame closeVarSection. Qed.

Lemma closeVarSection_blockStack (i : nat) (u : str) (st : State) :
  blockStack (closeVarSection i u st) = blockStack (st).
Proof. frame closeVarSection. Qed.

Lemma closeVarSection_controlStack (i : nat) (u : str) (st : State) :
  controlStack (closeVarSection i u st) = controlStack (st).
Proof. frame closeVarSection. Qed.

Lemma closeVarSection_currentBlock (i : nat) (u : str) (st : State) :
  currentBlock (closeVarSection i u st) = currentBlock (st).
Proof. frame closeVarSection. Qed.

Lemma closeVarSection_inBlockComment (i : nat) (u : str) (st : State) :
  inBlockComment (closeVarSection i u st) = inBlockComment (st).
Proof. frame closeVarSection. Qed.

Lemma closeVarSection_afterBegin (i : nat) (u : str) (st : State) :
  afterBegin (closeVarSection i u st) = afterBegin (st).
Proof. frame closeVarSection. Qed.

#[export] Hint Rewrite closeVarSection_blocks closeVarSection_unmatchedOpens closeVarSection_exitOutsideLoop closeVarSection_variables closeVarSection_blockStack closeVarSection_controlStack closeVarSection_currentBlock closeVarSection_inBlockComment closeVarSection_afterBegin : scan.

Lemma declareVariable_blocks (i : nat) (o : str) (st : State) :
  ParseResult.blocks (result (declareVariable i o st)) = ParseResult.blocks (result (st)).
Proof. frame declareVariable. Qed.

Lemma declareVariable_unmatchedOpens (i : nat) (o : str) (st : State) :
  ParseResult.unmatchedOpens (result (declareVariable i o st)) = ParseResult.unmatchedOpens (result (st)).
Proof. frame declareVariable. Qed.

Lemma declareVariable_unmatchedCloses (i : nat) (o : str) (st : State) :
  ParseResult.unmatchedCloses (result (declareVariable i o st)) = ParseResult.unmatchedCloses (result (st)).
Proof. frame declareVariable. Qed.

Lemma declareVariable_exitOutsideLoop (i : nat) (o : str) (st : State) :
  ParseResult.exitOutsideLoop (result (declareVariable i o st)) = ParseResult.exitOutsideLoop (result (st)).
Proof. frame declareVariable. Qed.

Lemma declareVariable_blockStack (i : nat) (o : str) (st : State) :
  blockStack (declareVariable i o st) = blockStack (st).
Proof. frame declareVariable. Qed.

Lemma declareVariable_varStack (i : nat) (o : str) (st : State) :
  varStack (declareVariable i o st) = varStack (st).
Proof. frame declareVariable. Qed.

Lemma declareVariable_controlStack (i : nat) (o : str) (st : State) :
  controlStack (declareVariable i o st) = controlStack (st).
Proof. frame declareVariable. Qed.

Lemma declareVariable_currentBlock (i : nat) (o : str) (st : State) :
  currentBlock (declareVariable i o st) = currentBlock (st).
Proof. frame declareVariable. Qed.

Lemma declareVariable_inBlockComment (i : nat) (o : str) (st : State) :
  inBlockComment (declareVariable i o st) = inBlockComment (st).
Proof. frame declareVariable. Qed.

Lemma declareVariable_afterBegin (i : nat) (o : str) (st : State) :
  afterBegin (declareVariable i o st) = afterBegin (st).
Proof. frame declareVariable. Qed.

Lemma declareVariable_currentVarSection (i : nat) (o : str) (st : State) :
  currentVarSection (declareVariable i o st) = currentVarSection (st).
Proof. frame declareVariable. Qed.

#[export] Hint Rewrite declareVariable_blocks declareVariable_unmatchedOpens declareVariable_unmatchedCloses declareVariable_exitOutsideLoop declareVariable_blockStack declareVariable_varStack declareVariable_controlStack declareVariable_currentBlock declareVariable_inBlockComment declareVariable_afterBegin declareVariable_currentVarSection : scan.

Lemma markCode_unmatchedOpens (t u : str) (st : State) :
  ParseResult.unmatchedOpens (result (markCode t u st)) = ParseResult.unmatchedOpens (result (st)).
Proof. frame markCode. Qed.

Lemma markCode_unmatchedCloses (t u : str) (st : State) :
  ParseResult.unmatchedCloses (result (markCode t u st)) = ParseResult.unmatchedCloses (result (st)).
Proof. frame markCode. Qed.

Lemma markCode_exitOutsideLoop (t u : str) (st : State) :
  ParseResult.exitOutsideLoop (result (markCode t u st)) = ParseResult.exitOutsideLoop (result (st)).
Proof. frame markCode. Qed.

Lemma markCode_variables (t u : str) (st : State) :
  ParseResult.variables (result (markCode t u st)) = ParseResult.variables (result (st)).
Proof. frame markCode. Qed.

Lemma markCode_blockStack (t u : str) (st : State) :
  blockStack (markCode t u st) = blockStack (st).
Proof. frame markCode. Qed.

Lemma markCode_varStack (t u : str) (st : State) :
  varStack (markCode t u st) = varStack (st).
Proof. frame markCode. Qed.

Lemma markCode_controlStack (t u : str) (st : State) :
  controlStack (markCode t u st) = controlStack (st).
Proof. frame markCode. Qed.

Lemma markCode_currentBlock (t u : str) (st : State) :
  currentBlock (markCode t u st) = currentBlock (st).
Proof. frame markCode. Qed.

Lemma markCode_inBlockComment (t u : str) (st : State) :
  inBlockComment (markCode t u st) = inBlockComment (st).
Proof. frame markCode. Qed.

Lemma markCode_afterBegin (t u : str) (st : State) :
  afterBegin (markCode t u st) = afterBegin (st).
Proof. frame markCode. Qed.

Lemma markCode_currentVarSection (t u : str) (st : State) :
  currentVarSection (markCode t u st) = currentVarSection (st).
Proof. frame markCode. Qed.

#[export] Hint Rewrite markCode_unmatchedOpens markCode_unmatchedCloses markCode_exitOutsideLoop markCode_variables markCode_blockStack markCode_varStack markCode_controlStack markCode_currentBlock markCode_inBlockComment markCode_afterBegin markCode_currentVarSection : scan.

Lemma caseOpen_unmatchedOpens (i : nat) (st : State) :
  ParseResult.unmatchedOpens (result (caseOpen i st)) = ParseResult.unmatchedOpens (result (st)).
Proof. frame caseOpen. Qed.

Lemma caseOpen_unmatchedCloses (i : nat) (st : State) :
  ParseResult.unmatchedCloses (result (caseOpen i st)) = ParseResult.unmatchedCloses (result (st)).
Proof. frame caseOpen. Qed.

Lemma caseOpen_exitOutsideLoop (i : nat) (st : State) :
  ParseResult.exitOutsideLoop (result (caseOpen i st)) = ParseResult.exitOutsideLoop (result (st)).
Proof. frame caseOpen. Qed.

Lemma caseOpen_variables (i : nat) (st : State) :
  ParseResult.variables (result (caseOpen i st)) = ParseResult.variables (result (st)).
Proof. frame caseOpen. Qed.

Lemma caseOpen_blockStack (i : nat) (st : State) :
  blockStack (caseOpen i st) = blockStack (st).
Proof. frame caseOpen. Qed.

Lemma caseOpen_varStack (i : nat) (st : State) :
  varStack (caseOpen i st) = varStack (st).
Proof. frame caseOpen. Qed.

Lemma caseOpen_currentBlock (i : nat) (st : State) :
  currentBlock (caseOpen i st) = currentBlock (st).
Proof. frame caseOpen. Qed.

Lemma caseOpen_inBlockComment (i : nat) (st : State) :
  inBlockComment (caseOpen i st) = inBlockComment (st).
Proof. frame caseOpen. Qed.

Lemma caseOpen_afterBegin (i : nat) (st : State) :
  afterBegin (caseOpen i st) = afterBegin (st).
Proof. frame caseOpen. Qed.

Lemma caseOpen_currentVarSection (i : nat) (st : State) :
  currentVarSection (caseOpen i st) = currentVarSection (st).
Proof. frame caseOpen. Qed.

#[export] Hint Rewrite caseOpen_unmatchedOpens caseOpen_unmatchedCloses caseOpen_exitOutsideLoop caseOpen_variables caseOpen_blockStack caseOpen_varStack caseOpen_currentBlock caseOpen_inBlockComment caseOpen_afterBegin caseOpen_currentVarSection : scan.

Lemma elseInCase_unmatchedOpens (st : State) :
  ParseResult.unmatchedOpens (result (elseInCase st)) = ParseResult.unmatchedOpens (result (st)).
Proof. frame elseInCase. Qed.

Lemma elseInCase_unmatchedCloses (st : State) :
  ParseResult.unmatchedCloses (result (elseInCase st)) = ParseResult.unmatchedCloses (result (st)).
Proof. frame elseInCase. Qed.

Lemma elseInCase_exitOutsideLoop (st : State) :
  ParseResult.exitOutsideLoop (result (elseInCase st)) = ParseResult.exitOutsideLoop (result (st)).
Proof. frame elseInCase. Qed.

Lemma elseInCase_variables (st : State) :
  ParseResult.variables (result (elseInCase st)) = ParseResult.variables (result (st)).
Proof. frame elseInCase. Qed.

Lemma elseInCase_blockStack (st : State) :
  blockStack (elseInCase st) = blockStack (st).
Proof. frame elseInCase. Qed.

Lemma elseInCase_varStack (st : State) :
  varStack (elseInCase st) = varStack (st).
Proof. frame elseInCase. Qed.

Lemma elseInCase_controlStack (st : State) :
  controlStack (elseInCase st) = controlStack (st).
Proof. frame elseInCase. Qed.

Lemma elseInCase_currentBlock (st : State) :
  currentBlock (elseInCase st) = currentBlock (st).
Proof. frame elseInCase. Qed.

Lemma elseInCase_inBlockComment (st : State) :
  inBlockComment (elseInCase st) = inBlockComment (st).
Proof. frame elseInCase. Qed.

Lemma elseInCase_afterBegin (st : State) :
  afterBegin (elseInCase st) = afterBegin (st).
Proof. frame elseInCase. Qed.

Lemma elseInCase_currentVarSection (st : State) :
  currentVarSection (elseInCase st) = currentVarSection (st).
Proof. frame elseInCase. Qed.

#[export] Hint Rewrite elseInCase_unmatchedOpens elseInCase_unmatchedCloses elseInCase_exitOutsideLoop elseInCase_variables elseInCase_blockStack elseInCase_varStack elseInCase_controlStack elseInCase_currentBlock elseInCase_inBlockComment elseInCase_afterBegin elseInCase_currentVarSection : scan.

Lemma ifOpen_blocks (i : nat) (u : str) (st : State) :
  ParseResult.blocks (result (ifOpen i u st)) = ParseResult.blocks (result (st)).
Proof. frame ifOpen. Qed.

Lemma ifOpen_unmatchedOpens (i : nat) (u : str) (st : State) :
  ParseResult.unmatchedOpens (result (ifOpen i u st)) = ParseResult.unmatchedOpens (result (st)).
Proof. frame ifOpen. Qed.

Lemma ifOpen_unmatchedCloses (i : nat) (u : str) (st : State) :
  ParseResult.unmatchedCloses (result (ifOpen i u st)) = ParseResult.unmatchedCloses (result (st)).
Proof. frame ifOpen. Qed.

Lemma ifOpen_exitOutsideLoop (i : nat) (u : str) (st : State) :
  ParseResult.exitOutsideLoop (result (ifOpen i u st)) = ParseResult.exitOutsideLoop (result (st)).
Proof. frame ifOpen. Qed.

Lemma ifOpen_variables (i : nat) (u : str) (st : State) :
  ParseResult.variables (result (ifOpen i u st)) = ParseResult.variables (result (st)).
Proof. frame ifOpen. Qed.

Lemma ifOpen_blockStack (i : nat) (u : str) (st : State) :
  blockStack (ifOpen i u st) = blockStack (st).
Proof. frame ifOpen. Qed.

Lemma ifOpen_varStack (i : nat) (u : str) (st : State) :
  varStack (ifOpen i u st) = varStack (st).
Proof. frame ifOpen. Qed.

Lemma ifOpen_currentBlock (i : nat) (u : str) (st : State) :
  currentBlock (ifOpen i u st) = currentBlock (st).
Proof. frame ifOpen. Qed.

Lemma ifOpen_inBlockComment (i : nat) (u : str) (st : State) :
  inBlockComment (ifOpen i u st) = inBlockComment (st).
Proof. frame ifOpen. Qed.

Lemma ifOpen_afterBegin (i : nat) (u : str) (st : State) :
  afterBegin (ifOpen i u st) = afterBegin (st).
Proof. frame ifOpen. Qed.

Lemma ifOpen_currentVarSection (i : nat) (u : str) (st : State) :
  currentVarSection (ifOpen i u st) = currentVarSection (st).
Proof. frame ifOpen. Qed.

#[export] Hint Rewrite ifOpen_blocks ifOpen_unmatchedOpens ifOpen_unmatchedCloses ifOpen_exitOutsideLoop ifOpen_variables ifOpen_blockStack ifOpen_varStack ifOpen_currentBlock ifOpen_inBlockComment ifOpen_afterBegin ifOpen_currentVarSection : scan.

Lemma loopOpen_blocks (i : nat) (u : str) (st : State) :
  ParseResult.blocks (result (loopOpen i u st)) = ParseResult.blocks (result (st)).
Proof. frame loopOpen. Qed.

Lemma loopOpen_unmatchedOpens (i : nat) (u : str) (st : State) :
  ParseResult.unmatchedOpens (result (loopOpen i u st)) = ParseResult.unmatchedOpens (result (st)).
Proof. frame loopOpen. Qed.

Lemma loopOpen_unmatchedCloses (i : nat) (u : str) (st : State) :
  ParseResult.unmatchedCloses (result (loopOpen i u st)) = ParseResult.unmatchedCloses (result (st)).
Proof. frame loopOpen. Qed.

Lemma loopOpen_exitOutsideLoop (i : nat) (u : str) (st : State) :
  ParseResult.exitOutsideLoop (result (loopOpen i u st)) = ParseResult.exitOutsideLoop (result (st)).
Proof. frame loopOpen. Qed.

Lemma loopOpen_variables (i : nat) (u : str) (st : State) :
  ParseResult.variables (result (loopOpen i u st)) = ParseResult.variables (result (st)).
Proof. frame loopOpen. Qed.

Lemma loopOpen_blockStack (i : nat) (u : str) (st : State) :
  blockStack (loopOpen i u st) = blockStack (st).
Proof. frame loopOpen. Qed.

Lemma loopOpen_varStack (i : nat) (u : str) (st : State) :
  varStack (loopOpen i u st) = varStack (st).
Proof. frame loopOpen. Qed.

Lemma loopOpen_currentBlock (i : nat) (u : str) (st : State) :
  currentBlock (loopOpen i u st) = currentBlock (st).
Proof. frame loopOpen. Qed.

Lemma loopOpen_inBlockComment (i : nat) (u : str) (st : State) :
  inBlockComment (loopOpen i u st) = inBlockComment (st).
Proof. frame loopOpen. Qed.

Lemma loopOpen_afterBegin (i : nat) (u : str) (st : State) :
  afterBegin (loopOpen i u st) = afterBegin (st).
Proof. frame loopOpen. Qed.

Lemma loopOpen_currentVarSection (i : nat) (u : str) (st : State) :
  currentVarSection (loopOpen i u st) = currentVarSection (st).
Proof. frame loopOpen. Qed.

#[export] Hint Rewrite loopOpen_blocks loopOpen_unmatchedOpens loopOpen_unmatchedCloses loopOpen_exitOutsideLoop loopOpen_variables loopOpen_blockStack loopOpen_varStack loopOpen_currentBlock loopOpen_inBlockComment loopOpen_afterBegin loopOpen_currentVarSection : scan.

Lemma controlClose_blocks (i : nat) (u : str) (st : State) :
  ParseResult.blocks (result (controlClose i u st)) = ParseResult.blocks (result (st)).
Proof. frame controlClose. Qed.

Lemma controlClose_unmatchedOpens (i : nat) (u : str) (st : State) :
  ParseResult.unmatchedOpens (result (controlClose i u st)) = ParseResult.unmatchedOpens (result (st)).
Proof. frame controlClose. Qed.

Lemma controlClose_exitOutsideLoop (i : nat) (u : str) (st : State) :
  ParseResult.exitOutsideLoop (result (controlClose i u st)) = ParseResult.exitOutsideLoop (result (st)).
Proof. frame controlClose. Qed.

Lemma controlClose_variables (i : nat) (u : str) (st : State) :
  ParseResult.variables (result (controlClose i u st)) = ParseResult.variables (result (st)).
Proof. frame controlClose. Qed.

Lemma controlClose_blockStack (i : nat) (u : str) (st : State) :
  blockStack (controlClose i u st) = blockStack (st).
Proof. frame controlClose. Qed.

Lemma controlClose_varStack (i : nat) (u : str) (st : State) :
  varStack (controlClose i u st) = varStack (st).
Proof. frame controlClose. Qed.

Lemma controlClose_currentBlock (i : nat) (u : str) (st : State) :
  currentBlock (controlClose i u st) = currentBlock (st).
Proof. frame controlClose. Qed.

Lemma controlClose_inBlockComment (i : nat) (u : str) (st : State) :
  inBlockComment (controlClose i u st) = inBlockComment (st).
Proof. frame controlClose. Qed.

Lemma controlClose_afterBegin (i : nat) (u : str) (st : State) :
  afterBegin (controlClose i u st) = afterBegin (st).
Proof. frame controlClose. Qed.

Lemma controlClose_currentVarSection (i : nat) (u : str) (st : State) :
  currentVarSection (controlClose i u st) = currentVarSection (st).
Proof. frame controlClose. Qed.

#[export] Hint Rewrite controlClose_blocks controlClose_unmatchedOpens controlClose_exitOutsideLoop controlClose_variables controlClose_blockStack controlClose_varStack controlClose_currentBlock controlClose_inBlockComment controlClose_afterBegin controlClose_currentVarSection : scan.

Lemma exitCheck_blocks (i : nat) (u : str) (st : State) :
  ParseResult.blocks (result (exitCheck i u st)) = ParseResult.blocks (result (st)).
Proof. frame exitCheck. Qed.

Lemma exitCheck_unmatchedOpens (i : nat) (u : str) (st : State) :
  ParseResult.unmatchedOpens (result (exitCheck i u st)) = ParseResult.unmatchedOpens (result (st)).
Proof. frame exitCheck. Qed.

Lemma exitCheck_unmatchedCloses (i : nat) (u : str) (st : State) :
  ParseResult.unmatchedCloses (result (exitCheck i u st)) = ParseResult.unmatchedCloses (result (st)).
Proof. frame exitCheck. Qed.

Lemma exitCheck_variables (i : nat) (u : str) (st : State) :
  ParseResult.variables (result (exitCheck i u st)) = ParseResult.variables (result (st)).
Proof. frame exitCheck. Qed.

Lemma exitCheck_blockStack (i : nat) (u : str) (st : State) :
  blockStack (exitCheck i u st) = blockStack (st).
Proof. frame exitCheck. Qed.

Lemma exitCheck_varStack (i : nat) (u : str) (st : State) :
  varStack (exitCheck i u st) = varStack (st).
Proof. frame exitCheck. Qed.

Lemma exitCheck_controlStack (i : nat) (u : str) (st : State) :
  controlStack (exitCheck i u st) = controlStack (st).
Proof. frame exitCheck. Qed.

Lemma exitCheck_currentBlock (i : nat) (u : str) (st : State) :
  currentBlock (exitCheck i u st) = currentBlock (st).
Proof. frame exitCheck. Qed.

Lemma exitCheck_inBlockComment (i : nat) (u : str) (st : State) :
  inBlockComment (exitCheck i u st) = inBlockComment (st).
Proof. frame exitCheck. Qed.

Lemma exitCheck_afterBegin (i : nat) (u : str) (st : State) :
  afterBegin (exitCheck i u st) = afterBegin (st).
Proof. frame exitCheck. Qed.

Lemma exitCheck_currentVarSection (i : nat) (u : str) (st : State) :
  currentVarSection (exitCheck i u st) = currentVarSection (st).
Proof. frame exitCheck. Qed.

#[export] Hint Rewrite exitCheck_blocks exitCheck_unmatchedOpens exitCheck_unmatchedCloses exitCheck_variables exitCheck_blockStack exitCheck_varStack exitCheck_controlStack exitCheck_currentBlock exitCheck_inBlockComment exitCheck_afterBegin exitCheck_currentVarSection : scan.

Lemma controlFlow_unmatchedOpens (i : nat) (t u : str) (st : State) :
  ParseResult.unmatchedOpens (result (controlFlow i t u st)) = ParseResult.unmatchedOpens (result (st)).
Proof. frame controlFlow. Qed.

Lemma controlFlow_variables (i : nat) (t u : str) (st : State) :
  ParseResult.variables (result (controlFlow i t u st)) = ParseResult.variables (result (st)).
Proof. frame controlFlow. Qed.

Lemma controlFlow_blockStack (i : nat) (t u : str) (st : State) :
  blockStack (controlFlow i t u st) = blockStack (st).
Proof. frame controlFlow. Qed.

Lemma controlFlow_varStack (i : nat) (t u : str) (st : State) :
  varStack (controlFlow i t u st) = varStack (st).
Proof. frame controlFlow. Qed.

Lemma controlFlow_currentBlock (i : nat) (t u : str) (st : State) :
  currentBlock (controlFlow i t u st) = currentBlock (st).
Proof. frame controlFlow. Qed.

Lemma controlFlow_inBlockComment (i : nat) (t u : str) (st : State) :
  inBlockComment (controlFlow i t u st) = inBlockComment (st).
Proof. frame controlFlow. Qed.

Lemma controlFlow_afterBegin (i : nat) (t u : str) (st : State) :
  afterBegin (controlFlow i t u st) = afterBegin (st).
Proof. frame controlFlow. Qed.

Lemma controlFlow_currentVarSection (i : nat) (t u : str) (st : State) :
  currentVarSection (controlFlow i t u st) = currentVarSection (st).
Proof. frame controlFlow. Qed.

#[export] Hint Rewrite controlFlow_unmatchedOpens controlFlow_variables controlFlow_blockStack controlFlow_varStack controlFlow_currentBlock controlFlow_inBlockComment controlFlow_afterBegin controlFlow_currentVarSection : scan.

Lemma classify_unmatchedOpens (i : nat) (o t u : str) (st : State) :
  ParseResult.unmatchedOpens (result (classify i o t u st)) = ParseResult.unmatchedOpens (result (st)).
Proof. frame classify. Qed.

Lemma classify_inBlockComment (i : nat) (o t u : str) (st : State) :
  inBlockComment (classify i o t u st) = inBlockComment (st).
Proof. frame classify. Qed.

#[export] Hint Rewrite classify_unmatchedOpens classify_inBlockComment : scan.

Lemma processLine_unmatchedOpens (i : nat) (l : str) (st : State) :
  ParseResult.unmatchedOpens (result (processLine i l st)) = ParseResult.unmatchedOpens (result (st)).
Proof. frame processLine. Qed.

#[export] Hint Rewrite processLine_unmatchedOpens : scan.

(** ** Stacks, arrays and the loop over the lines *)

Lemma top_snoc (A : Type) (l : list A) (x : A) : top (l ++ [x]) = Some x.
Proof.
  induction l as [|y l IH]; [reflexivity|].
  simpl. destruct (l ++ [x]) eqn:E; [destruct l; discriminate | exact IH].
Qed.

Lemma pop_snoc (A : Type) (l : list A) (x : A) : pop (l ++ [x]) = l.
Proof. unfold pop. apply removelast_last. Qed.

Lemma top_Some_snoc (A : Type) (l : list A) (x : A) :
  top l = Some x -> l = pop l ++ [x].
Proof.
  induction l as [|y l IH]; [discriminate|].
  destruct l as [|z l].
  - simpl. intros H. inversion H. reflexivity.
  - intros H. change (top (z :: l) = Some x) in H.
    specialize (IH H). unfold pop in *.
    change (removelast (y :: z :: l)) with (y :: removelast (z :: l)).
    simpl app. f_equal. exact IH.
Qed.

Lemma top_None (A : Type) (l : list A) : top l = None -> l = [].
Proof.
  induction l as [|y l IH]; [reflexivity|].
  destruct l as [|z l]; [discriminate|].
  intros H. change (top (z :: l) = None) in H. specialize (IH H). discriminate.
Qed.

Lemma nonEmpty_false (A : Type) (l : list A) : nonEmpty l = false -> l = [].
Proof. destruct l; [reflexivity | discriminate]. Qed.

Lemma nth_error_updAt (A : Type) (f : A -> A) :
  forall (l : list A) (i j : nat),
    nth_error (updAt i f l) j
    = if i =? j then option_map f (nth_error l j) else nth_error l j.
Proof.
  induction l as [|x l IH]; intros i j.
  - destruct i, j; simpl; try reflexivity; destruct (_ =? _); reflexivity.
  - destruct i, j; simpl; try reflexivity. apply IH.
Qed.

Lemma length_updAt (A : Type) (f : A -> A) :
  forall (l : list A) (i : nat), length (updAt i f l) = length l.
Proof.
  induction l as [|x l IH]; intros [|i]; simpl; try reflexivity.
  now rewrite IH.
Qed.

Lemma Forall_updAt_impl (A : Type) (P Q : A -> Prop) (f : A -> A) :
  (forall x, P x -> Q (f x)) -> (forall x, P x -> Q x) ->
  forall (l : list A) (i : nat), Forall P l -> Forall Q (updAt i f l).
Proof.
  intros Hf Hw. induction l as [|x l IH]; intros [|i] H; simpl.
  - constructor.
  - constructor.
  - inversion H; subst. constructor; [auto|]. eapply Forall_impl; eauto.
  - inversion H; subst. constructor; auto.
Qed.

Lemma Forall_updAt (A : Type) (P : A -> Prop) (f : A -> A) :
  (forall x, P x -> P (f x)) ->
  forall (l : list A) (i : nat), Forall P l -> Forall P (updAt i f l).
Proof. intros Hf. apply Forall_updAt_impl; auto. Qed.

Lemma mutateCurrent_Forall (P : BlockDecl.t -> Prop) (f : BlockDecl.t -> BlockDecl.t)
      (st : State) :
  (forall b, P b -> P (f b)) ->
  Forall P (ParseResult.blocks (result st)) ->
  Forall P (ParseResult.blocks (result (mutateCurrent f st))).
Proof.
  intros Hf H. unfold mutateCurrent.
  destruct (currentBlock st); [|assumption].
  simpl. now apply Forall_updAt.
Qed.

Lemma scanLines_app (a b : list str) :
  forall (i : nat) (st : State),
    scanLines i (a ++ b) st = scanLines (i + length a) b (scanLines i a st).
Proof.
  induction a as [|l a IH]; intros i st; simpl.
  - now rewrite Nat.add_0_r.
  - rewrite IH. f_equal. lia.
Qed.

Lemma scanLines_invariant (P : nat -> State -> Prop) :
  (forall i l st, P i st -> P (S i) (processLine i l st)) ->
  forall (lines : list str) (i : nat) (st : State),
    P i st -> P (i + length lines) (scanLines i lines st).
Proof.
  intros Hstep. induction lines as [|l lines IH]; intros i st H; simpl.
  - now rewrite Nat.add_0_r.
  - replace (i + S (length lines)) with (S i + length lines) by lia.
    apply IH. now apply Hstep.
Qed.

Lemma nth_error_split_lines (lines : list str) (L : nat) (line : str) :
  nth_error lines L = Some line ->
  lines = firstn L lines ++ line :: skipn (S L) lines /\ length (firstn L lines) = L.
Proof.
  revert L; induction lines as [|x lines IH]; intros [|L] H; simpl in *; try discriminate.
  - inversion H. auto.
  - destruct (IH _ H) as [E Hl]. split; [f_equal; exact E | f_equal; exact Hl].
Qed.

(** The fields of the model returned by [parse]. *)
Lemma parse_blocks (text : str) :
  ParseResult.blocks (parse text)
  = ParseResult.blocks (result (scanLines 0 (splitLines text) initState)).
Proof. reflexivity. Qed.

Lemma parse_exitOutsideLoop (text : str) :
  ParseResult.exitOutsideLoop (parse text)
  = ParseResult.exitOutsideLoop (result (scanLines 0 (splitLines text) initState)).
Proof. reflexivity. Qed.

Lemma parse_unmatchedCloses (text : str) :
  ParseResult.unmatchedCloses (parse text)
  = ParseResult.unmatchedCloses (result (scanLines 0 (splitLines text) initState)).
Proof. reflexivity. Qed.

Lemma parse_variables (text : str) :
  ParseResult.variables (parse text)
  = ParseResult.variables (result (scanLines 0 (splitLines text) initState)).
Proof. reflexivity. Qed.

(** The scan of a text, cut in front of line [L]. *)
Lemma scan_cut (text : str) (L : nat) (line : str) :
  nth_error (splitLines text) L = Some line ->
  scanLines 0 (splitLines text) initState
  = scanLines (S L) (skipn (S L) (splitLines text))
              (processLine L line (stateBefore text L)).
Proof.
  intros H. destruct (nth_error_split_lines _ _ _ H) as [E Hl].
  rewrite E at 1. rewrite scanLines_app. simpl. rewrite Hl. reflexivity.
Qed.

(** ** C9: a block closes after it opens *)

Lemma spanOk_weaken (idx : nat) (b : BlockDecl.t) : spanOk idx b -> spanOk (S idx) b.
Proof. intros [H1 H2]. split; [lia | exact H2]. Qed.

Lemma controlFlow_blocks_Forall (P : BlockDecl.t -> Prop)
      (i : nat) (t u : str) (st : State) :
  (forall b v, P b -> P (BlockDecl.setHasCode v b)) ->
  (forall b m, P b -> P (BlockDecl.setHasCaseElse m b)) ->
  Forall P (ParseResult.blocks (result st)) ->
  Forall P (ParseResult.blocks (result (controlFlow i t u st))).
Proof.
  intros Hc Hm H.
  assert (H1 : Forall P (ParseResult.blocks (result (markCode t u st)))).
  { unfold markCode. destruct (_ && _); [|assumption].
    apply mutateCurrent_Forall; auto. }
  unfold controlFlow.
  destruct (matchKeyword u (lit "CASE")).
  - unfold caseOpen. apply mutateCurrent_Forall; auto.
  - destruct (_ && _).
    + unfold elseInCase. destruct (top _); [|assumption].
      destruct (_ && _); [|assumption].
      apply mutateCurrent_Forall; auto.
    + autorewrite with scan. assumption.
Qed.

Lemma processLine_spanOk (idx : nat) (l : str) (st : State) :
  Forall (spanOk idx) (ParseResult.blocks (result st)) ->
  Forall (spanOk (S idx)) (ParseResult.blocks (result (processLine idx l st))).
Proof.
  intros H.
  assert (Hw : Forall (spanOk (S idx)) (ParseResult.blocks (result st))).
  { eapply Forall_impl; [|exact H]. apply spanOk_weaken. }
  unfold processLine.
  destruct (stripComments _ _) as [[c o]|]; [|exact Hw].
  destruct (nonEmpty _); [|exact Hw].
  unfold classify.
  destruct_matches; autorewrite with scan; simpl; try exact Hw;
    try (apply mutateCurrent_Forall; [|exact Hw];
         intros b Hb; exact Hb).
  - (* a block opens *)
    unfold openBlock. simpl. apply Forall_app. split; [exact Hw|].
    constructor; [|constructor]. unfold spanOk. simpl. split; [lia | now left].
  - (* a block closes *)
    unfold closeBlock. destruct_matches; autorewrite with scan; simpl; try exact Hw.
    unfold mutateCurrent. simpl. destruct (currentBlock st); [|exact Hw].
    simpl. apply Forall_updAt_impl with (P := spanOk idx);
      [|apply spanOk_weaken|exact H].
    intros b [Hl _]. split; [simpl; lia|]. right. simpl. lia.
  - (* executable code *)
    apply controlFlow_blocks_Forall; auto.
Qed.

(** C9: in the model of any text, the endLine of a block is -1 or lies
    strictly after the line where the block opened. *)
Theorem C9_block_closes_after_it_opens (text : str) :
  Forall (fun b => BlockDecl.endLine b = (-1)%Z
                   \/ (Z.of_nat (BlockDecl.line b) < BlockDecl.endLine b)%Z)
         (ParseResult.blocks (parse text)).
Proof.
  rewrite parse_blocks.
  pose proof (scanLines_invariant
                (fun i st => Forall (spanOk i) (ParseResult.blocks (result st)))
                processLine_spanOk (splitLines text) 0 initState) as H.
  simpl in H. specialize (H (Forall_nil _)).
  eapply Forall_impl; [|exact H]. intros b [_ Hb]. exact Hb.
Qed.

(** ** Lines that begin with a control-flow keyword *)

Lemma matchKeyword_other (u K X : str) :
  matchKeyword u K = true -> delimFree K = true -> delimFree X = true ->
  streq X K = false -> matchKeyword u X = false.
Proof.
  intros HK HdK HdX Hne. destruct (matchKeyword u X) eqn:E; [|reflexivity].
  rewrite (matchKeyword_unique u X K HdX HdK E HK), streq_refl in Hne. discriminate.
Qed.

Lemma streq_matchKeyword (u X : str) : streq u X = true -> matchKeyword u X = true.
Proof. intros H. unfold matchKeyword. rewrite H. reflexivity. Qed.

Lemma streq_other (u K X : str) :
  matchKeyword u K = true -> delimFree K = true -> delimFree X = true ->
  streq X K = false -> streq u X = false.
Proof.
  intros HK HdK HdX Hne. destruct (streq u X) eqn:E; [|reflexivity].
  apply streq_matchKeyword in E.
  rewrite (matchKeyword_other u K X HK HdK HdX Hne) in E. discriminate.
Qed.

(** Rewrites every other keyword test on [u] to its value, from the
    keyword [K] that [u] matches. *)
Ltac other_tests HK :=
  let Hs := fresh "Hs" in
  match type of HK with
  | matchKeyword ?u ?K = true =>
  pose proof (matchKeyword_startsWith u K HK) as Hs;
  repeat match goal with
         | |- context [find (matchKeyword u) ?T] =>
             rewrite (find_matchKeyword_other u K T HK eq_refl eq_refl)
         | |- context [matchKeyword u ?X] =>
             rewrite (matchKeyword_other u K X HK eq_refl eq_refl eq_refl)
         | |- context [streq u ?X] =>
             rewrite (streq_other u K X HK eq_refl eq_refl eq_refl)
         | |- context [startsWith u ?X] =>
             rewrite (startsWith_incompatible u K X Hs eq_refl)
         end
  end.

Lemma classify_control (i : nat) (o t u : str) (st : State) (K : str) :
  u = toUpperCase t ->
  afterBegin st = true ->
  In K controlWords -> matchKeyword u K = true ->
  classify i o t u st = controlFlow i t u st.
Proof.
  intros Hu Hab HIn HK.
  assert (Hbrace : startsWith t (lit "{") = false).
  { destruct (startsWith t (lit "{")) eqn:E; [|reflexivity].
    apply startsWith_toUpperCase_brace in E. rewrite <- Hu in E.
    pose proof (matchKeyword_startsWith u K HK) as Hs.
    pose proof (startsWith_compatible _ _ _ Hs E) as Hc.
    unfold controlWords in HIn. simpl in HIn.
    repeat (destruct HIn as [<-|HIn]; [discriminate Hc|]). contradiction. }
  unfold classify. rewrite Hbrace, Hab.
  unfold controlWords in HIn. simpl in HIn.
  repeat (destruct HIn as [<-|HIn];
          [other_tests HK; simpl; try rewrite andb_false_r; reflexivity|]).
  contradiction.
Qed.

(** ** The scanner and the active form of a line *)

Lemma setInBlockComment_id (st : State) : setInBlockComment (inBlockComment st) st = st.
Proof. destruct st; reflexivity. Qed.

Lemma processLine_skipped (idx : nat) (l : str) (st : State) :
  activeUpper (inBlockComment st) l = None ->
  processLine idx l st = setInBlockComment (commentAfter (inBlockComment st) l) st.
Proof.
  unfold activeUpper, commentAfter, processLine.
  destruct (stripComments _ _) as [[c o]|].
  - destruct (nonEmpty _); [discriminate | reflexivity].
  - intros _. symmetry. apply setInBlockComment_id.
Qed.

Lemma processLine_active (idx : nat) (l : str) (st : State) (u : str) :
  activeUpper (inBlockComment st) l = Some u ->
  exists o t,
    stripComments (inBlockComment st) l = Some (commentAfter (inBlockComment st) l, o)
    /\ t = trim (stripStrings o) /\ u = toUpperCase t /\ nonEmpty t = true
    /\ processLine idx l st
       = classify idx o t u
                  (trackUsage o (setInBlockComment (commentAfter (inBlockComment st) l) st)).
Proof.
  unfold activeUpper, commentAfter, processLine.
  destruct (stripComments _ _) as [[c o]|]; [|discriminate].
  destruct (nonEmpty _) eqn:E; [|discriminate].
  intros H. inversion H; subst. exists o, (trim (stripStrings o)). auto.
Qed.

Lemma processLine_comment (idx : nat) (l : str) (st : State) :
  inBlockComment (processLine idx l st) = commentAfter (inBlockComment st) l.
Proof.
  destruct (activeUpper (inBlockComment st) l) as [u|] eqn:E.
  - destruct (processLine_active idx l st u E) as (o & t & _ & _ & _ & _ & ->).
    autorewrite with scan. reflexivity.
  - rewrite (processLine_skipped idx l st E). reflexivity.
Qed.

(** ** Line numbers in the scanner state *)

Lemma Forall_pop (A : Type) (P : A -> Prop) (l : list A) :
  Forall P l -> Forall P (pop l).
Proof.
  unfold pop. induction l as [|x l IH]; intros H; [constructor|].
  inversion H; subst. destruct l as [|y l]; [constructor|].
  change (removelast (x :: y :: l)) with (x :: removelast (y :: l)).
  constructor; auto.
Qed.

Lemma top_In (A : Type) (l : list A) (x : A) : top l = Some x -> In x l.
Proof.
  intros H. rewrite (top_Some_snoc _ l x H). apply in_or_app. right. now left.
Qed.

Lemma Forall_snoc (A : Type) (P : A -> Prop) (l : list A) (x : A) :
  Forall P l -> P x -> Forall P (l ++ [x]).
Proof. intros H Hx. apply Forall_app. split; [assumption | now constructor]. Qed.

Lemma controlFlow_controlStack_Forall (P : StackEntry.t -> Prop)
      (i : nat) (t u : str) (st : State) :
  (forall kw, P (StackEntry.mk kw i 0)) ->
  Forall P (controlStack st) ->
  Forall P (controlStack (controlFlow i t u st)).
Proof.
  intros Hnew H. unfold controlFlow.
  destruct (matchKeyword u (lit "CASE")).
  - unfold caseOpen. autorewrite with scan. simpl. autorewrite with scan.
    now apply Forall_snoc.
  - destruct (_ && _); [autorewrite with scan; exact H|].
    autorewrite with scan.
    assert (H1 : Forall P (controlStack (ifOpen i u (markCode t u st)))).
    { unfold ifOpen. destruct (_ && _); simpl; autorewrite with scan;
        [now apply Forall_snoc | exact H]. }
    assert (H2 : Forall P (controlStack (loopOpen i u (ifOpen i u (markCode t u st))))).
    { unfold loopOpen at 1. destruct (find _ _); simpl;
        [now apply Forall_snoc | exact H1]. }
    unfold controlClose at 1. destruct (find _ _); [|exact H2].
    destruct_matches; simpl; autorewrite with scan; try exact H2.
    now apply Forall_pop.
Qed.

Lemma mapSet_keys (P : nat -> Prop) (k : nat) (v : bool) (m : list (nat * bool)) :
  P k -> Forall (fun e => P (fst e)) m -> Forall (fun e => P (fst e)) (mapSet k v m).
Proof.
  intros Hk. induction m as [|[k' v'] m IH]; intros H; simpl.
  - constructor; [exact Hk | constructor].
  - inversion H; subst. destruct (k =? k'); constructor; auto.
Qed.

Lemma controlFlow_caseKeys (i : nat) (t u : str) (st : State) :
  Forall (fun e => StackEntry.line e < i) (controlStack st) ->
  Forall (fun blk => Forall (fun e => fst e < S i) (BlockDecl.hasCaseElse blk))
         (ParseResult.blocks (result st)) ->
  Forall (fun blk => Forall (fun e => fst e < S i) (BlockDecl.hasCaseElse blk))
         (ParseResult.blocks (result (controlFlow i t u st))).
Proof.
  intros Hcs H.
  assert (H1 : Forall (fun blk => Forall (fun e => fst e < S i) (BlockDecl.hasCaseElse blk))
                      (ParseResult.blocks (result (markCode t u st)))).
  { unfold markCode. destruct (_ && _); [|exact H].
    apply mutateCurrent_Forall; [|exact H]. intros b Hb. exact Hb. }
  unfold controlFlow.
  destruct (matchKeyword u (lit "CASE")).
  - unfold caseOpen. apply mutateCurrent_Forall; [|exact H1].
    intros b Hb. simpl. apply mapSet_keys with (P := fun k => k < S i); [lia | exact Hb].
  - destruct (_ && _).
    + unfold elseInCase. destruct (top _) as [e|] eqn:E; [|exact H1].
      destruct (_ && _); [|exact H1].
      apply mutateCurrent_Forall; [|exact H1].
      intros b Hb. simpl. apply mapSet_keys with (P := fun k => k < S i); [|exact Hb].
      autorewrite with scan in E. apply top_In in E.
      rewrite Forall_forall in Hcs. specialize (Hcs _ E). lia.
    + autorewrite with scan. exact H1.
Qed.

Lemma mutateCurrent_length (f : BlockDecl.t -> BlockDecl.t) (st : State) :
  length (ParseResult.blocks (result (mutateCurrent f st)))
  = length (ParseResult.blocks (result st)).
Proof.
  unfold mutateCurrent. destruct (currentBlock st); [|reflexivity].
  simpl. apply length_updAt.
Qed.

#[export] Hint Rewrite mutateCurrent_length : scan.

Lemma controlFlow_length (i : nat) (t u : str) (st : State) :
  length (ParseResult.blocks (result (controlFlow i t u st)))
  = length (ParseResult.blocks (result st)).
Proof.
  unfold controlFlow, caseOpen, elseInCase, markCode.
  destruct_matches; autorewrite with scan; simpl; autorewrite with scan; reflexivity.
Qed.

Lemma closeBlock_length (i : nat) (c : str) (st : State) :
  length (ParseResult.blocks (result (closeBlock i c st)))
  = length (ParseResult.blocks (result st)).
Proof.
  unfold closeBlock.
  destruct_matches; autorewrite with scan; simpl; autorewrite with scan; reflexivity.
Qed.

#[export] Hint Rewrite controlFlow_length closeBlock_length : scan.

Lemma closeBlock_current (i : nat) (c : str) (st : State) (j : nat) :
  currentBlock (closeBlock i c st) = Some j -> currentBlock st = Some j.
Proof.
  unfold closeBlock.
  destruct_matches; autorewrite with scan; simpl; autorewrite with scan;
    auto; discriminate.
Qed.

Lemma processLine_scanOk (idx : nat) (l : str) (st : State) :
  scanOk idx st -> scanOk (S idx) (processLine idx l st).
Proof.
  intros (Hcur & Hkeys & Hcs & Hex).
  assert (Hkeys' : Forall (fun blk => Forall (fun e => fst e < S idx)
                                             (BlockDecl.hasCaseElse blk))
                          (ParseResult.blocks (result st))).
  { eapply Forall_impl; [|exact Hkeys]. intros blk Hb.
    eapply Forall_impl; [|exact Hb]. intros e He. simpl in He. lia. }
  assert (Hcs' : Forall (fun e => StackEntry.line e < S idx) (controlStack st)).
  { eapply Forall_impl; [|exact Hcs]. intros e He. simpl in He. lia. }
  assert (Hex' : Forall (fun e => StackEntry.line e < S idx)
                        (ParseResult.exitOutsideLoop (result st))).
  { eapply Forall_impl; [|exact Hex]. intros e He. simpl in He. lia. }
  destruct (activeUpper (inBlockComment st) l) as [u|] eqn:E.
  2:{ rewrite (processLine_skipped idx l st E). repeat split; assumption. }
  destruct (processLine_active idx l st u E) as (o & t & _ & _ & _ & _ & ->).
  set (st1 := trackUsage o (setInBlockComment (commentAfter (inBlockComment st) l) st)).
  assert (Hcur1 : forall i, currentBlock st1 = Some i ->
                            i < length (ParseResult.blocks (result st1))) by exact Hcur.
  assert (Hkeys1 : Forall (fun blk => Forall (fun e => fst e < S idx)
                                             (BlockDecl.hasCaseElse blk))
                          (ParseResult.blocks (result st1))) by exact Hkeys'.
  assert (Hcs1 : Forall (fun e => StackEntry.line e < S idx) (controlStack st1))
    by exact Hcs'.
  assert (Hcs0 : Forall (fun e => StackEntry.line e < idx) (controlStack st1))
    by exact Hcs.
  assert (Hex1 : Forall (fun e => StackEntry.line e < S idx)
                        (ParseResult.exitOutsideLoop (result st1))) by exact Hex'.
  clearbody st1. clear Hcur Hkeys Hcs Hex Hkeys' Hcs' Hex' E.
  repeat split.
  - (* the current block is one of the blocks *)
    intros i. unfold classify.
    destruct_matches; autorewrite with scan; simpl; autorewrite with scan;
      try apply Hcur1.
    + unfold openBlock. simpl. rewrite length_app. simpl.
      intros H; inversion H; lia.
    + intros H. apply closeBlock_current in H. now apply Hcur1.
  - (* recorded CASE lines *)
    unfold classify.
    destruct_matches; autorewrite with scan; simpl; autorewrite with scan;
      try exact Hkeys1;
      try (apply mutateCurrent_Forall; [|exact Hkeys1]; intros b Hb; exact Hb).
    + unfold openBlock. simpl. apply Forall_snoc; [exact Hkeys1 | constructor].
    + unfold closeBlock. destruct_matches; autorewrite with scan; simpl;
        try exact Hkeys1.
      apply mutateCurrent_Forall; [|exact Hkeys1]. intros b Hb; exact Hb.
    + apply controlFlow_caseKeys; assumption.
  - (* open control-flow frames *)
    unfold classify.
    destruct_matches; autorewrite with scan; simpl; autorewrite with scan;
      first [ exact Hcs1
            | apply controlFlow_controlStack_Forall;
              [intros kw; simpl; lia | exact Hcs1] ].
  - (* recorded EXIT lines *)
    unfold classify.
    destruct_matches; autorewrite with scan; simpl; autorewrite with scan;
      try exact Hex1.
    unfold controlFlow.
    destruct_matches; autorewrite with scan; try exact Hex1.
    unfold exitCheck.
    destruct_matches; autorewrite with scan; try exact Hex1;
      simpl; autorewrite with scan; (apply Forall_snoc; [exact Hex1 | simpl; lia]).
Qed.

Lemma scanOk_init : scanOk 0 initState.
Proof. repeat split; try constructor. discriminate. Qed.

Lemma scanOk_scanLines (lines : list str) (idx : nat) (st : State) :
  scanOk idx st -> scanOk (idx + length lines) (scanLines idx lines st).
Proof. apply (scanLines_invariant scanOk processLine_scanOk). Qed.

Lemma scanOk_stateBefore (text : str) (L : nat) (line : str) :
  nth_error (splitLines text) L = Some line -> scanOk L (stateBefore text L).
Proof.
  intros H. destruct (nth_error_split_lines _ _ _ H) as [_ Hl].
  unfold stateBefore.
  pose proof (scanOk_scanLines (firstn L (splitLines text)) 0 initState scanOk_init) as Hs.
  rewrite Hl in Hs. exact Hs.
Qed.

(** ** Every rule has its own code *)

Ltac rule_code :=
  repeat first
    [ apply Forall_app; split
    | apply Forall_flat_map; apply Forall_forall; intros ? _
    | apply Forall_map; apply Forall_forall; intros ? _ ];
  destruct_matches; repeat constructor.

Lemma ruleUnmatchedControlFlow_code (r : ParseResult.t) :
  Forall (fun d => LintDiagnostic.code d = lit "SCL001") (ruleUnmatchedControlFlow r).
Proof. unfold ruleUnmatchedControlFlow. rule_code. Qed.

Lemma ruleUnmatchedVarSections_code (r : ParseResult.t) :
  Forall (fun d => LintDiagnostic.code d = lit "SCL002") (ruleUnmatchedVarSections r).
Proof. unfold ruleUnmatchedVarSections. rule_code. Qed.

Lemma ruleUnmatchedBlocks_code (r : ParseResult.t) :
  Forall (fun d => LintDiagnostic.code d = lit "SCL003") (ruleUnmatchedBlocks r).
Proof. unfold ruleUnmatchedBlocks. rule_code. Qed.

Lemma ruleDuplicateVariables_code (r : ParseResult.t) :
  Forall (fun d => LintDiagnostic.code d = lit "SCL004") (ruleDuplicateVariables r).
Proof.
  unfold ruleDuplicateVariables.
  apply Forall_flat_map, Forall_forall. intros ? _.
  apply Forall_flat_map, Forall_forall. intros [n locs] _.
  unfold duplicatesOf. simpl. destruct locs as [|f [|s locs]]; try constructor.
  - reflexivity.
  - apply Forall_map, Forall_forall. intros ? _. reflexivity.
Qed.

Lemma ruleExitOutsideLoop_code (r : ParseResult.t) :
  Forall (fun d => LintDiagnostic.code d = lit "SCL005") (ruleExitOutsideLoop r).
Proof. unfold ruleExitOutsideLoop. rule_code. Qed.

Lemma ruleUnusedVariables_code (r : ParseResult.t) :
  Forall (fun d => LintDiagnostic.code d = lit "SCL101") (ruleUnusedVariables r).
Proof. unfold ruleUnusedVariables, unusedVariable. rule_code. Qed.

Lemma ruleMissingVersion_code (r : ParseResult.t) :
  Forall (fun d => LintDiagnostic.code d = lit "SCL102") (ruleMissingVersion r).
Proof. unfold ruleMissingVersion. rule_code. Qed.

Lemma ruleMissingPragma_code (r : ParseResult.t) :
  Forall (fun d => LintDiagnostic.code d = lit "SCL103") (ruleMissingPragma r).
Proof. unfold ruleMissingPragma. rule_code. Qed.

Lemma ruleCaseWithoutElse_code (r : ParseResult.t) :
  Forall (fun d => LintDiagnostic.code d = lit "SCL104") (ruleCaseWithoutElse r).
Proof.
  unfold ruleCaseWithoutElse.
  apply Forall_flat_map, Forall_forall. intros ? _.
  apply Forall_flat_map, Forall_forall. intros ? _.
  destruct (negb _); repeat constructor.
Qed.

Lemma ruleEmptyBlock_code (r : ParseResult.t) :
  Forall (fun d => LintDiagnostic.code d = lit "SCL105") (ruleEmptyBlock r).
Proof. unfold ruleEmptyBlock. rule_code. Qed.

Lemma ruleNamingConvention_code (r : ParseResult.t) :
  Forall (fun d => LintDiagnostic.code d = lit "SCL201") (ruleNamingConvention r).
Proof. unfold ruleNamingConvention. rule_code. Qed.

Lemma filter_other_code (p : LintDiagnostic.t -> bool) (c c' : str)
      (ds : list LintDiagnostic.t) :
  (forall d, p d = true -> LintDiagnostic.code d = c) ->
  Forall (fun d => LintDiagnostic.code d = c') ds ->
  streq c' c = false ->
  filter p ds = [].
Proof.
  intros Hp H Hne. induction H as [|d ds Hd _ IH]; [reflexivity|].
  simpl. destruct (p d) eqn:E; [|exact IH].
  apply Hp in E. rewrite Hd in E. subst. rewrite streq_refl in Hne. discriminate.
Qed.

(** Filtering the output of the engine by a code keeps the output of the
    rule with that code. *)
Ltac only_rule Hp r :=
  unfold runRules; repeat rewrite filter_app;
  try rewrite (filter_other_code _ _ _ _ Hp (ruleUnmatchedControlFlow_code r) eq_refl);
  try rewrite (filter_other_code _ _ _ _ Hp (ruleUnmatchedVarSections_code r) eq_refl);
  try rewrite (filter_other_code _ _ _ _ Hp (ruleUnmatchedBlocks_code r) eq_refl);
  try rewrite (filter_other_code _ _ _ _ Hp (ruleDuplicateVariables_code r) eq_refl);
  try rewrite (filter_other_code _ _ _ _ Hp (ruleExitOutsideLoop_code r) eq_refl);
  try rewrite (filter_other_code _ _ _ _ Hp (ruleUnusedVariables_code r) eq_refl);
  try rewrite (filter_other_code _ _ _ _ Hp (ruleMissingVersion_code r) eq_refl);
  try rewrite (filter_other_code _ _ _ _ Hp (ruleMissingPragma_code r) eq_refl);
  try rewrite (filter_other_code _ _ _ _ Hp (ruleCaseWithoutElse_code r) eq_refl);
  try rewrite (filter_other_code _ _ _ _ Hp (ruleEmptyBlock_code r) eq_refl);
  try rewrite (filter_other_code _ _ _ _ Hp (ruleNamingConvention_code r) eq_refl);
  simpl; repeat rewrite app_nil_r; reflexivity.

Lemma runRules_filter_SCL004 (p : LintDiagnostic.t -> bool) (r : ParseResult.t) :
  (forall d, p d = true -> LintDiagnostic.code d = lit "SCL004") ->
  filter p (runRules r) = filter p (ruleDuplicateVariables r).
Proof. intros Hp. only_rule Hp r. Qed.

Lemma runRules_filter_SCL005 (p : LintDiagnostic.t -> bool) (r : ParseResult.t) :
  (forall d, p d = true -> LintDiagnostic.code d = lit "SCL005") ->
  filter p (runRules r) = filter p (ruleExitOutsideLoop r).
Proof. intros Hp. only_rule Hp r. Qed.

Lemma runRules_filter_SCL104 (p : LintDiagnostic.t -> bool) (r : ParseResult.t) :
  (forall d, p d = true -> LintDiagnostic.code d = lit "SCL104") ->
  filter p (runRules r) = filter p (ruleCaseWithoutElse r).
Proof. intros Hp. only_rule Hp r. Qed.

Lemma diagsAt_code (c : str) (L : nat) (d : LintDiagnostic.t) :
  streq (LintDiagnostic.code d) c && (LintDiagnostic.line d =? L) = true ->
  LintDiagnostic.code d = c.
Proof. intros H. apply andb_true_iff in H as [H _]. now apply streq_eq. Qed.

Lemma withCode_code (c : str) (d : LintDiagnostic.t) :
  streq (LintDiagnostic.code d) c = true -> LintDiagnostic.code d = c.
Proof. apply streq_eq. Qed.

Lemma incl_runRules_emptyBlock (r : ParseResult.t) :
  incl (ruleEmptyBlock r) (runRules r).
Proof.
  unfold runRules. intros d Hd.
  repeat (apply in_or_app; first [left; exact Hd | right]).
Qed.

(** ** C10: empty BEGIN sections *)

Lemma mutateCurrent_nth (f : BlockDecl.t -> BlockDecl.t) (st : State) (j : nat) :
  nth_error (ParseResult.blocks (result (mutateCurrent f st))) j
  = if optNatEqb (currentBlock st) j
    then option_map f (nth_error (ParseResult.blocks (result st)) j)
    else nth_error (ParseResult.blocks (result st)) j.
Proof.
  unfold mutateCurrent, optNatEqb. destruct (currentBlock st) as [i|]; [|reflexivity].
  simpl. apply nth_error_updAt.
Qed.

Lemma noCodeYet_mutate (b : nat) (f : BlockDecl.t -> BlockDecl.t) (st : State) :
  (forall x, BlockDecl.hasCode (f x) = BlockDecl.hasCode x) ->
  noCodeYet b st -> noCodeYet b (mutateCurrent f st).
Proof.
  intros Hf H blk. rewrite mutateCurrent_nth.
  destruct (optNatEqb _ _); [|apply H].
  destruct (nth_error _ b) as [x|] eqn:E; simpl; [|discriminate].
  intros Hx. inversion Hx; subst. rewrite Hf. now apply H.
Qed.

Lemma noCodeYet_same (b : nat) (st st' : State) :
  ParseResult.blocks (result st') = ParseResult.blocks (result st) ->
  noCodeYet b st -> noCodeYet b st'.
Proof. unfold noCodeYet. intros ->. auto. Qed.

Lemma controlFlow_noCodeYet (b i : nat) (t u : str) (st : State) :
  (optNatEqb (currentBlock st) b = true ->
   streq t (lit ";") || startsWith u (lit "END_") = true) ->
  noCodeYet b st -> noCodeYet b (controlFlow i t u st).
Proof.
  intros Hinert H.
  assert (H1 : noCodeYet b (markCode t u st)).
  { unfold markCode.
    destruct (isSome (currentBlock st) && negb (streq t (lit ";"))
              && negb (startsWith u (lit "END_"))) eqn:E; [|exact H].
    intros blk. rewrite mutateCurrent_nth.
    destruct (optNatEqb (currentBlock st) b) eqn:Ec; [|apply H].
    specialize (Hinert eq_refl).
    apply andb_true_iff in E as [E E2]. apply andb_true_iff in E as [_ E1].
    apply negb_true_iff in E1, E2. rewrite E1, E2 in Hinert. discriminate. }
  unfold controlFlow.
  destruct (matchKeyword u (lit "CASE")).
  - unfold caseOpen. apply noCodeYet_mutate; [reflexivity|].
    eapply noCodeYet_same; [|exact H1]. reflexivity.
  - destruct (_ && _).
    + unfold elseInCase. destruct (top _); [|exact H1].
      destruct (_ && _); [|exact H1].
      apply noCodeYet_mutate; [reflexivity | exact H1].
    + eapply noCodeYet_same; [|exact H1]. autorewrite with scan. reflexivity.
Qed.

Lemma noCodeYet_snoc (b : nat) (st st' : State) (new : BlockDecl.t) :
  ParseResult.blocks (result st') = ParseResult.blocks (result st) ++ [new] ->
  BlockDecl.hasCode new = false ->
  noCodeYet b st -> noCodeYet b st'.
Proof.
  unfold noCodeYet. intros -> Hnew H blk Hb.
  destruct (Nat.lt_ge_cases b (length (ParseResult.blocks (result st)))) as [Hlt|Hge].
  - rewrite nth_error_app1 in Hb by assumption. auto.
  - rewrite nth_error_app2 in Hb by assumption.
    destruct (b - _) as [|[|k]]; simpl in Hb; try discriminate.
    inversion Hb; subst. exact Hnew.
Qed.

Lemma processLine_noCodeYet (b idx : nat) (l : str) (st : State) :
  (optNatEqb (currentBlock st) b && afterBegin st = true ->
   inertLine (inBlockComment st) l = true) ->
  noCodeYet b st -> noCodeYet b (processLine idx l st).
Proof.
  intros Hinert H.
  destruct (activeUpper (inBlockComment st) l) as [u|] eqn:E.
  2:{ rewrite (processLine_skipped idx l st E). exact H. }
  destruct (processLine_active idx l st u E) as (o & t & Hs & Ht & Hu & Hne & ->).
  assert (Hinert1 : optNatEqb (currentBlock st) b && afterBegin st = true ->
                    streq t (lit ";") || startsWith u (lit "END_") = true).
  { intros Hc. specialize (Hinert Hc). unfold inertLine in Hinert.
    rewrite Hs in Hinert. rewrite <- Ht in Hinert. rewrite Hne, <- Hu in Hinert.
    exact Hinert. }
  set (st1 := trackUsage o (setInBlockComment (commentAfter (inBlockComment st) l) st)).
  assert (H1 : noCodeYet b st1) by exact H.
  assert (Hin1 : optNatEqb (currentBlock st1) b && afterBegin st1 = true ->
                 streq t (lit ";") || startsWith u (lit "END_") = true)
    by exact Hinert1.
  clearbody st1. clear Hinert Hinert1 H Hs E.
  unfold classify.
  destruct_matches;
    first
      [ apply noCodeYet_mutate; [reflexivity | exact H1]
      | eapply noCodeYet_same; [|exact H1]; autorewrite with scan; reflexivity
      | (* a block opens *)
        eapply noCodeYet_snoc; [| |exact H1]; reflexivity
      | (* executable code *)
        apply controlFlow_noCodeYet; [|exact H1];
        intros Hc; apply Hin1; rewrite Hc; first [reflexivity | assumption]
      | (* a block closes *)
        unfold closeBlock;
        destruct_matches;
        first
          [ eapply noCodeYet_same; [|exact H1]; autorewrite with scan; reflexivity
          | eapply noCodeYet_same
              with (st := mutateCurrent (BlockDecl.setEndLine (Z.of_nat idx))
                                        (setBlockStack (pop (blockStack st1)) st1));
            [reflexivity|];
            apply noCodeYet_mutate; [reflexivity | exact H1] ] ].
Qed.

Lemma scanLines_noCodeYet (b : nat) :
  forall (lines : list str) (idx : nat) (st : State),
    beginSectionInert b idx lines st = true ->
    noCodeYet b st -> noCodeYet b (scanLines idx lines st).
Proof.
  induction lines as [|l lines IH]; intros idx st Hb H; simpl in *; [exact H|].
  apply andb_true_iff in Hb as [Hl Hrest].
  apply IH; [exact Hrest|].
  apply processLine_noCodeYet; [|exact H].
  intros Hc. rewrite Hc in Hl. exact Hl.
Qed.



(** ** C8: EXIT and CONTINUE outside a loop *)

Lemma controlFlow_exit (i : nat) (t u : str) (st : State) (K : str) :
  K = lit "EXIT" \/ K = lit "CONTINUE" ->
  matchKeyword u K = true ->
  controlFlow i t u st = exitCheck i u (markCode t u st).
Proof.
  intros HK Hm. unfold controlFlow, controlClose, loopOpen, ifOpen.
  destruct HK as [-> | ->]; other_tests Hm; reflexivity.
Qed.

Lemma exitScanned_keyword (st : State) (line kw : str) :
  exitScanned st line = Some kw ->
  exists u, activeUpper (inBlockComment st) line = Some u
            /\ afterBegin st = true
            /\ (matchKeyword u (lit "EXIT") || matchKeyword u (lit "CONTINUE")) = true
            /\ kw = (if startsWith u (lit "EXIT") then lit "EXIT" else lit "CONTINUE").
Proof.
  unfold exitScanned. destruct (activeUpper _ _) as [u|]; [|discriminate].
  destruct (afterBegin st); simpl; [|discriminate].
  destruct (_ || _) eqn:E; [|discriminate].
  intros H. inversion H. exists u. auto.
Qed.

(** The line of an EXIT or CONTINUE statement records one entry, unless a
    loop frame is open. *)
Lemma processLine_exit (L : nat) (line kw : str) (st : State) :
  exitScanned st line = Some kw ->
  ParseResult.exitOutsideLoop (result (processLine L line st))
  = ParseResult.exitOutsideLoop (result st)
    ++ (if existsb isLoopFrame (controlStack st) then []
        else [StackEntry.mk kw L 0]).
Proof.
  intros H. apply exitScanned_keyword in H as (u & Hu & Hab & Hm & ->).
  destruct (processLine_active L line st u Hu) as (o & t & _ & _ & Hut & _ & ->).
  set (st1 := trackUsage o (setInBlockComment (commentAfter (inBlockComment st) line) st)).
  assert (HK : exists K, (K = lit "EXIT" \/ K = lit "CONTINUE")
                         /\ matchKeyword u K = true).
  { apply orb_true_iff in Hm as [Hm|Hm]; eauto. }
  destruct HK as (K & HK & HmK).
  rewrite (classify_control L o t u st1 K Hut Hab); [| |exact HmK].
  2:{ unfold controlWords. destruct HK as [-> | ->]; simpl; auto. }
  rewrite (controlFlow_exit L t u st1 K HK HmK).
  unfold exitCheck. rewrite Hm. autorewrite with scan.
  change (controlStack st1) with (controlStack st).
  change (ParseResult.exitOutsideLoop (result st1))
    with (ParseResult.exitOutsideLoop (result st)).
  unfold isLoopFrame.
  destruct (existsb _ (controlStack st)); simpl; autorewrite with scan.
  - rewrite app_nil_r. reflexivity.
  - reflexivity.
Qed.

(** Any line records entries of its own line number only. *)
Lemma processLine_exits_grow (idx : nat) (l : str) (st : State) :
  exists extra,
    ParseResult.exitOutsideLoop (result (processLine idx l st))
    = ParseResult.exitOutsideLoop (result st) ++ extra
    /\ Forall (fun e => StackEntry.line e = idx) extra.
Proof.
  destruct (activeUpper (inBlockComment st) l) as [u|] eqn:E.
  2:{ rewrite (processLine_skipped idx l st E). exists []. simpl.
      rewrite app_nil_r. split; [reflexivity | constructor]. }
  destruct (processLine_active idx l st u E) as (o & t & _ & _ & _ & _ & ->).
  set (st1 := trackUsage o (setInBlockComment (commentAfter (inBlockComment st) l) st)).
  change (ParseResult.exitOutsideLoop (result st))
    with (ParseResult.exitOutsideLoop (result st1)).
  clearbody st1.
  assert (Hsame : forall st', ParseResult.exitOutsideLoop (result st')
                              = ParseResult.exitOutsideLoop (result st1) ->
                  exists extra,
                    ParseResult.exitOutsideLoop (result st')
                    = ParseResult.exitOutsideLoop (result st1) ++ extra
                    /\ Forall (fun e => StackEntry.line e = idx) extra).
  { intros st' ->. exists []. rewrite app_nil_r. split; [reflexivity | constructor]. }
  unfold classify.
  destruct_matches;
    try (apply Hsame; autorewrite with scan; simpl; autorewrite with scan;
         reflexivity).
  unfold controlFlow.
  destruct_matches;
    try (apply Hsame; autorewrite with scan; simpl; autorewrite with scan;
         reflexivity).
  unfold exitCheck.
  destruct_matches;
    try (apply Hsame; autorewrite with scan; simpl; autorewrite with scan;
         reflexivity);
    (eexists; split;
     [simpl; autorewrite with scan; reflexivity | repeat constructor]).
Qed.

Lemma filter_snoc_none (A : Type) (p : A -> bool) (l extra : list A) :
  Forall (fun e => p e = false) extra -> filter p (l ++ extra) = filter p l.
Proof.
  intros H. rewrite filter_app.
  replace (filter p extra) with (@nil A); [now rewrite app_nil_r|].
  induction H as [|e extra He _ IH]; [reflexivity|].
  simpl. rewrite He. exact IH.
Qed.

Lemma scanLines_exits_at (L : nat) :
  forall (lines : list str) (idx : nat) (st : State),
    L < idx ->
    filter (fun e => StackEntry.line e =? L)
           (ParseResult.exitOutsideLoop (result (scanLines idx lines st)))
    = filter (fun e => StackEntry.line e =? L)
             (ParseResult.exitOutsideLoop (result st)).
Proof.
  induction lines as [|l lines IH]; intros idx st Hlt; simpl; [reflexivity|].
  rewrite IH by lia.
  destruct (processLine_exits_grow idx l st) as (extra & -> & Hex).
  apply filter_snoc_none.
  eapply Forall_impl; [|exact Hex]. intros e He. simpl in He.
  apply Nat.eqb_neq. lia.
Qed.

Lemma filter_all_before (L : nat) (l : list StackEntry.t) :
  Forall (fun e => StackEntry.line e < L) l ->
  filter (fun e => StackEntry.line e =? L) l = [].
Proof.
  intros H. induction H as [|e l He _ IH]; [reflexivity|].
  simpl. rewrite IH. replace (StackEntry.line e =? L) with false; [reflexivity|].
  symmetry. apply Nat.eqb_neq. lia.
Qed.

Lemma filter_map_comm (A B : Type) (p : B -> bool) (f : A -> B) (l : list A) :
  filter p (map f l) = map f (filter (fun x => p (f x)) l).
Proof.
  induction l as [|x l IH]; [reflexivity|].
  simpl. destruct (p (f x)); simpl; rewrite IH; reflexivity.
Qed.

Lemma exitDiags_at (L : nat) (r : ParseResult.t) :
  diagsAt (lit "SCL005") L (ruleExitOutsideLoop r)
  = map (fun e => exitError (StackEntry.keyword e) (StackEntry.line e))
        (filter (fun e => StackEntry.line e =? L) (ParseResult.exitOutsideLoop r)).
Proof.
  unfold ruleExitOutsideLoop, diagsAt. rewrite filter_map_comm. reflexivity.
Qed.

(** For a line scanned as an EXIT or CONTINUE statement of executable
    code, the rule engine produces one error at that line unless a loop
    frame is on the control stack. *)
Lemma exit_scanned_reports (text : str) (L : nat) (line kw : str) :
  nth_error (splitLines text) L = Some line ->
  exitScanned (stateBefore text L) line = Some kw ->
  diagsAt (lit "SCL005") L (runRules (parse text))
  = if existsb isLoopFrame (controlStack (stateBefore text L))
    then [] else [exitError kw L].
Proof.
  intros Hline Hexit.
  unfold diagsAt at 1.
  rewrite runRules_filter_SCL005 by (intros d; apply diagsAt_code).
  fold (diagsAt (lit "SCL005") L (ruleExitOutsideLoop (parse text))).
  rewrite exitDiags_at, parse_exitOutsideLoop.
  rewrite (scan_cut text L line Hline).
  rewrite scanLines_exits_at by lia.
  rewrite (processLine_exit L line kw _ Hexit).
  rewrite filter_app.
  destruct (scanOk_stateBefore text L line Hline) as (_ & _ & _ & Hex).
  rewrite (filter_all_before L _ Hex). simpl.
  destruct (existsb isLoopFrame _); simpl; [reflexivity|].
  rewrite Nat.eqb_refl. reflexivity.
Qed.

(** ** C7: CASE without ELSE *)

Lemma entriesAt_mapSet (L k : nat) (v : bool) (m : list (nat * bool)) :
  entriesAt L (mapSet k v m)
  = if k =? L then overwrite L v (entriesAt L m) else entriesAt L m.
Proof.
  unfold entriesAt. induction m as [|[k' v'] m IH]; simpl.
  - destruct (k =? L) eqn:E; [|reflexivity].
    apply Nat.eqb_eq in E. subst. reflexivity.
  - destruct (k =? k') eqn:Ek; simpl.
    + apply Nat.eqb_eq in Ek. subst k'.
      destruct (k =? L) eqn:E; [|reflexivity].
      apply Nat.eqb_eq in E. subst. reflexivity.
    + rewrite IH. destruct (k' =? L) eqn:E'; [|reflexivity].
      destruct (k =? L) eqn:E; [|reflexivity].
      apply Nat.eqb_eq in E, E'. subst. rewrite Nat.eqb_refl in Ek. discriminate.
Qed.

Lemma entriesOf_same (L j : nat) (st st' : State) :
  ParseResult.blocks (result st') = ParseResult.blocks (result st) ->
  entriesOf L j st' = entriesOf L j st.
Proof. unfold entriesOf. intros ->. reflexivity. Qed.

Lemma entriesOf_mutate_flag (L j : nat) (f : BlockDecl.t -> BlockDecl.t) (st : State) :
  (forall x, BlockDecl.hasCaseElse (f x) = BlockDecl.hasCaseElse x) ->
  entriesOf L j (mutateCurrent f st) = entriesOf L j st.
Proof.
  intros Hf. unfold entriesOf. rewrite mutateCurrent_nth.
  destruct (optNatEqb _ _); [|reflexivity].
  destruct (nth_error _ j); simpl; [|reflexivity]. now rewrite Hf.
Qed.

Lemma entriesOf_mutate_map (L j k : nat) (v : bool) (st : State) :
  entriesOf L j
    (mutateCurrent
       (fun b => BlockDecl.setHasCaseElse (mapSet k v (BlockDecl.hasCaseElse b)) b) st)
  = if optNatEqb (currentBlock st) j && (k =? L)
    then option_map (overwrite L v) (entriesOf L j st)
    else entriesOf L j st.
Proof.
  unfold entriesOf. rewrite mutateCurrent_nth.
  destruct (optNatEqb _ _); simpl; [|reflexivity].
  destruct (nth_error _ j); simpl.
  - rewrite entriesAt_mapSet. destruct (k =? L); reflexivity.
  - destruct (k =? L); reflexivity.
Qed.

Lemma entriesOf_markCode (L j : nat) (t u : str) (st : State) :
  entriesOf L j (markCode t u st) = entriesOf L j st.
Proof.
  unfold markCode. destruct (_ && _); [|reflexivity].
  apply entriesOf_mutate_flag. reflexivity.
Qed.

Lemma elseHits_inv (L b : nat) (st : State) (l : str) :
  elseHits L b st l = true ->
  exists u e,
    activeUpper (inBlockComment st) l = Some u
    /\ afterBegin st = true
    /\ matchKeyword u (lit "ELSE") = true
    /\ top (controlStack st) = Some e
    /\ StackEntry.keyword e = lit "CASE" /\ StackEntry.line e = L
    /\ currentBlock st = Some b.
Proof.
  unfold elseHits. destruct (activeUpper _ _) as [u|]; [|discriminate].
  intros H. repeat (apply andb_true_iff in H as [H ?]).
  destruct (top (controlStack st)) as [e|]; [|discriminate].
  match goal with Hk : _ && _ = true |- _ => apply andb_true_iff in Hk as [Hk Hl] end.
  exists u, e. repeat split; auto.
  - now apply streq_eq.
  - now apply Nat.eqb_eq.
  - unfold optNatEqb in *. destruct (currentBlock st); [|discriminate].
    f_equal. now apply Nat.eqb_eq.
Qed.

Lemma top_nonEmpty (A : Type) (l : list A) (x : A) : top l = Some x -> nonEmpty l = true.
Proof. destruct l; [discriminate | reflexivity]. Qed.

(** The own ELSE of the CASE of line [L] overwrites its entry. *)
Lemma processLine_else_hits (L b idx : nat) (l : str) (st : State) :
  elseHits L b st l = true ->
  entriesOf L b (processLine idx l st) = option_map (overwrite L true) (entriesOf L b st)
  /\ (forall j, j <> b -> entriesOf L j (processLine idx l st) = entriesOf L j st).
Proof.
  intros H. apply elseHits_inv in H as (u & e & Hu & Hab & Hm & Htop & Hkw & Hline & Hcur).
  destruct (processLine_active idx l st u Hu) as (o & t & _ & _ & Hut & _ & ->).
  set (st1 := trackUsage o (setInBlockComment (commentAfter (inBlockComment st) l) st)).
  rewrite (classify_control idx o t u st1 (lit "ELSE") Hut Hab);
    [|unfold controlWords; simpl; auto | exact Hm].
  unfold controlFlow.
  rewrite (matchKeyword_other u (lit "ELSE") (lit "CASE") Hm eq_refl eq_refl eq_refl).
  rewrite Hm. autorewrite with scan.
  change (controlStack st1) with (controlStack st).
  rewrite (top_nonEmpty _ _ _ Htop). simpl.
  unfold elseInCase. autorewrite with scan.
  change (controlStack st1) with (controlStack st).
  change (currentBlock st1) with (currentBlock st).
  rewrite Htop, Hkw, Hcur, Hline. simpl.
  split.
  - rewrite entriesOf_mutate_map. autorewrite with scan.
    change (currentBlock st1) with (currentBlock st). rewrite Hcur.
    simpl. rewrite !Nat.eqb_refl. simpl.
    rewrite entriesOf_markCode. reflexivity.
  - intros j Hj. rewrite entriesOf_mutate_map. autorewrite with scan.
    change (currentBlock st1) with (currentBlock st). rewrite Hcur.
    simpl. replace (b =? j) with false by (symmetry; apply Nat.eqb_neq; lia).
    simpl. rewrite entriesOf_markCode. reflexivity.
Qed.

Lemma entriesOf_snoc (L j : nat) (st st' : State) (new : BlockDecl.t) :
  ParseResult.blocks (result st') = ParseResult.blocks (result st) ++ [new] ->
  BlockDecl.hasCaseElse new = [] ->
  entriesOf L j st' = entriesOf L j st
  \/ (entriesOf L j st = None /\ entriesOf L j st' = Some []).
Proof.
  unfold entriesOf. intros -> Hnew.
  destruct (Nat.lt_ge_cases j (length (ParseResult.blocks (result st)))) as [Hlt|Hge].
  - left. rewrite nth_error_app1 by assumption. reflexivity.
  - rewrite nth_error_app2 by assumption.
    assert (Hnone : nth_error (ParseResult.blocks (result st)) j = None)
      by (now apply nth_error_None).
    rewrite Hnone. simpl.
    destruct (j - _) as [|[|k]]; simpl; auto.
    right. rewrite Hnew. auto.
Qed.

(** Any other line of index [idx] beyond [L] leaves the entries of [L]
    alone; a block that opens starts with no entry. *)
Lemma processLine_else_misses (L idx j : nat) (l : str) (st : State) :
  L < idx ->
  elseHits L j st l = false ->
  entriesOf L j (processLine idx l st) = entriesOf L j st
  \/ (entriesOf L j st = None /\ entriesOf L j (processLine idx l st) = Some []).
Proof.
  intros Hlt Hmiss.
  destruct (activeUpper (inBlockComment st) l) as [u|] eqn:E.
  2:{ rewrite (processLine_skipped idx l st E). left. reflexivity. }
  destruct (processLine_active idx l st u E) as (o & t & _ & _ & _ & _ & ->).
  unfold elseHits in Hmiss. rewrite E in Hmiss.
  set (st1 := trackUsage o (setInBlockComment (commentAfter (inBlockComment st) l) st)).
  change (entriesOf L j st) with (entriesOf L j st1).
  change (afterBegin st) with (afterBegin st1) in Hmiss.
  change (controlStack st) with (controlStack st1) in Hmiss.
  change (currentBlock st) with (currentBlock st1) in Hmiss.
  clearbody st1. clear E.
  unfold classify.
  destruct_matches;
    first
      [ left; apply entriesOf_mutate_flag; reflexivity
      | left; apply entriesOf_same; autorewrite with scan; reflexivity
      | eapply entriesOf_snoc; reflexivity
      | idtac ].
  - (* a block closes *)
    left. unfold closeBlock.
    destruct_matches;
      first
        [ apply entriesOf_same; autorewrite with scan; reflexivity
        | rewrite (entriesOf_same L j
                     (mutateCurrent (BlockDecl.setEndLine (Z.of_nat idx))
                                    (setBlockStack (pop (blockStack st1)) st1)))
            by reflexivity;
          rewrite entriesOf_mutate_flag by reflexivity;
          apply entriesOf_same; reflexivity ].
  - (* executable code *)
    left. unfold controlFlow.
    destruct (matchKeyword u (lit "CASE")).
    + unfold caseOpen. rewrite entriesOf_mutate_map.
      replace (idx =? L) with false by (symmetry; apply Nat.eqb_neq; lia).
      rewrite andb_false_r.
      rewrite (entriesOf_same L j (markCode t u st1)) by reflexivity.
      apply entriesOf_markCode.
    + destruct (matchKeyword u (lit "ELSE") && _) eqn:Eelse.
      * apply andb_true_iff in Eelse as [Hm _].
        unfold elseInCase. autorewrite with scan.
        destruct (top (controlStack st1)) as [e|] eqn:Etop;
          [|apply entriesOf_markCode].
        destruct (streq (StackEntry.keyword e) (lit "CASE")) eqn:Ekw; simpl;
          [|apply entriesOf_markCode].
        destruct (isSome (currentBlock st1)) eqn:Ecur; [|apply entriesOf_markCode].
        rewrite entriesOf_mutate_map. autorewrite with scan.
        rewrite entriesOf_markCode.
        destruct (optNatEqb (currentBlock st1) j && (StackEntry.line e =? L)) eqn:Eh;
          [|reflexivity].
        apply andb_true_iff in Eh as [Hc Hl].
        rewrite Hm, Hc, Hl in Hmiss. simpl in Hmiss. discriminate.
      * rewrite (entriesOf_same L j (markCode t u st1))
          by (autorewrite with scan; reflexivity).
        apply entriesOf_markCode.
Qed.

Lemma overwrite_true_all (L : nat) (es : list (nat * bool)) :
  Forall (fun e => snd e = true) es ->
  Forall (fun e => snd e = true) (overwrite L true es).
Proof.
  intros H. destruct es; simpl; constructor; try reflexivity; try constructor.
  now inversion H.
Qed.

Lemma processLine_caseFree_at (L idx j : nat) (l : str) (st : State)
      (es : list (nat * bool)) :
  L < idx ->
  (forall es0, entriesOf L j st = Some es0 -> Forall (fun e => snd e = true) es0) ->
  entriesOf L j (processLine idx l st) = Some es ->
  Forall (fun e => snd e = true) es.
Proof.
  intros Hlt Hj Hes.
  destruct (elseHits L j st l) eqn:Ehj.
  - destruct (processLine_else_hits L j idx l st Ehj) as [Hjj _].
    rewrite Hjj in Hes.
    destruct (entriesOf L j st) as [es0|] eqn:E0; simpl in Hes; [|discriminate].
    inversion Hes; subst. apply overwrite_true_all. now apply Hj.
  - destruct (processLine_else_misses L idx j l st Hlt Ehj) as [Hs | [_ Hs]];
      rewrite Hs in Hes.
    + now apply Hj.
    + inversion Hes. constructor.
Qed.

Lemma processLine_caseState (L b idx : nat) (v : bool) (l : str) (st : State) :
  L < idx ->
  caseState L b v st ->
  caseState L b (v || elseHits L b st l) (processLine idx l st).
Proof.
  intros Hlt [Hb Hothers]. split.
  - destruct (elseHits L b st l) eqn:Eh.
    + destruct (processLine_else_hits L b idx l st Eh) as [-> _].
      rewrite Hb. simpl. rewrite orb_true_r. reflexivity.
    + rewrite orb_false_r.
      destruct (processLine_else_misses L idx b l st Hlt Eh) as [-> | [Hn _]];
        [exact Hb | congruence].
  - intros j es Hj Hes.
    apply (processLine_caseFree_at L idx j l st es Hlt); [|exact Hes].
    intros es0. now apply Hothers.
Qed.

Lemma scanLines_caseState (L b : nat) :
  forall (lines : list str) (idx : nat) (v : bool) (st : State),
    L < idx ->
    caseState L b v st ->
    caseState L b (v || ownElseSeen L b idx lines st) (scanLines idx lines st).
Proof.
  induction lines as [|l lines IH]; intros idx v st Hlt H; simpl.
  - rewrite orb_false_r. exact H.
  - rewrite orb_assoc. apply IH; [lia|].
    now apply processLine_caseState.
Qed.

Lemma scanLines_caseFree (L : nat) :
  forall (lines : list str) (idx : nat) (st : State),
    L < idx -> caseFree L st -> caseFree L (scanLines idx lines st).
Proof.
  induction lines as [|l lines IH]; intros idx st Hlt H; simpl; [exact H|].
  apply IH; [lia|]. intros j es.
  apply (processLine_caseFree_at L idx j l st es Hlt). intros es0. apply H.
Qed.

Lemma entriesAt_before (L : nat) (m : list (nat * bool)) :
  Forall (fun e => fst e < L) m -> entriesAt L m = [].
Proof.
  unfold entriesAt. intros H. induction H as [|e m He _ IH]; [reflexivity|].
  simpl. rewrite IH. replace (fst e =? L) with false; [reflexivity|].
  symmetry. apply Nat.eqb_neq. lia.
Qed.

(** The line of a CASE opener records its entry in the current block. *)
Lemma processLine_case (L b : nat) (line : str) (st : State) :
  scanOk L st ->
  caseScanned st line = true ->
  currentBlock st = Some b ->
  caseState L b false (processLine L line st).
Proof.
  intros (Hcur & Hkeys & _ & _) Hcase Hb.
  unfold caseScanned in Hcase.
  destruct (activeUpper (inBlockComment st) line) as [u|] eqn:Hu; [|discriminate].
  apply andb_true_iff in Hcase as [Hab Hm].
  destruct (processLine_active L line st u Hu) as (o & t & _ & _ & Hut & _ & ->).
  set (st1 := trackUsage o (setInBlockComment (commentAfter (inBlockComment st) line) st)).
  rewrite (classify_control L o t u st1 (lit "CASE") Hut Hab);
    [|unfold controlWords; simpl; auto | exact Hm].
  unfold controlFlow. rewrite Hm. unfold caseOpen.
  assert (Hempty : forall j es, entriesOf L j st = Some es -> es = []).
  { intros j es. unfold entriesOf.
    destruct (nth_error _ j) as [blk|] eqn:Ej; simpl; [|discriminate].
    intros H. inversion H. apply entriesAt_before.
    rewrite Forall_forall in Hkeys. apply Hkeys. eapply nth_error_In; eauto. }
  assert (Hex : exists es, entriesOf L b st = Some es).
  { unfold entriesOf. specialize (Hcur b Hb).
    destruct (nth_error (ParseResult.blocks (result st)) b) eqn:Ej.
    - simpl. eauto.
    - apply nth_error_None in Ej. lia. }
  destruct Hex as (es & Hes). pose proof (Hempty _ _ Hes). subst es.
  split.
  - rewrite entriesOf_mutate_map.
    change (currentBlock (pushControl (lit "CASE") L (markCode t u st1)))
      with (currentBlock (markCode t u st1)).
    autorewrite with scan. change (currentBlock st1) with (currentBlock st).
    rewrite Hb. simpl. rewrite !Nat.eqb_refl. simpl.
    rewrite (entriesOf_same L b (markCode t u st1)) by reflexivity.
    rewrite entriesOf_markCode.
    change (entriesOf L b st1) with (entriesOf L b st). rewrite Hes. reflexivity.
  - intros j es Hj. rewrite entriesOf_mutate_map.
    change (currentBlock (pushControl (lit "CASE") L (markCode t u st1)))
      with (currentBlock (markCode t u st1)).
    autorewrite with scan. change (currentBlock st1) with (currentBlock st).
    rewrite Hb. simpl.
    replace (b =? j) with false by (symmetry; apply Nat.eqb_neq; lia). simpl.
    rewrite (entriesOf_same L j (markCode t u st1)) by reflexivity.
    rewrite entriesOf_markCode.
    change (entriesOf L j st1) with (entriesOf L j st).
    intros H. rewrite (Hempty _ _ H). constructor.
Qed.

(** The line of a CASE opener scanned while no block is current records
    nothing. *)
Lemma processLine_case_none (L : nat) (line : str) (st : State) :
  scanOk L st ->
  caseScanned st line = true ->
  currentBlock st = None ->
  caseFree L (processLine L line st).
Proof.
  intros (_ & Hkeys & _ & _) Hcase Hb.
  unfold caseScanned in Hcase.
  destruct (activeUpper (inBlockComment st) line) as [u|] eqn:Hu; [|discriminate].
  apply andb_true_iff in Hcase as [Hab Hm].
  destruct (processLine_active L line st u Hu) as (o & t & _ & _ & Hut & _ & ->).
  set (st1 := trackUsage o (setInBlockComment (commentAfter (inBlockComment st) line) st)).
  rewrite (classify_control L o t u st1 (lit "CASE") Hut Hab);
    [|unfold controlWords; simpl; auto | exact Hm].
  unfold controlFlow. rewrite Hm. unfold caseOpen.
  intros j es. rewrite entriesOf_mutate_map.
  change (currentBlock (pushControl (lit "CASE") L (markCode t u st1)))
    with (currentBlock (markCode t u st1)).
  autorewrite with scan. change (currentBlock st1) with (currentBlock st).
  rewrite Hb. simpl.
  rewrite (entriesOf_same L j (markCode t u st1)) by reflexivity.
  rewrite entriesOf_markCode.
  change (entriesOf L j st1) with (entriesOf L j st).
  unfold entriesOf.
  destruct (nth_error _ j) as [blk|] eqn:Ej; simpl; [|discriminate].
  intros H. inversion H. rewrite entriesAt_before; [constructor|].
  rewrite Forall_forall in Hkeys. apply Hkeys. eapply nth_error_In; eauto.
Qed.

Lemma diagsAt_flat_map (A : Type) (c : str) (L : nat)
      (g : A -> list LintDiagnostic.t) (l : list A) :
  diagsAt c L (flat_map g l) = flat_map (fun x => diagsAt c L (g x)) l.
Proof.
  unfold diagsAt. induction l as [|x l IH]; [reflexivity|].
  simpl. rewrite filter_app, IH. reflexivity.
Qed.

Lemma caseDiags_of_block (L : nat) (m : list (nat * bool)) :
  diagsAt (lit "SCL104") L
    (flat_map (fun entry =>
                 if negb (snd entry)
                 then [diag (fst entry) 0 (lit "CASE statement has no ELSE branch")
                            Warning (lit "SCL104")]
                 else []) m)
  = warningsOf L (entriesAt L m).
Proof.
  induction m as [|[k v] m IH]; [reflexivity|].
  cbn [flat_map]. unfold diagsAt in *. rewrite filter_app, IH.
  unfold entriesAt. cbn [filter fst snd].
  destruct (k =? L) eqn:E; destruct v; cbn [negb filter app];
    unfold warningsOf; cbn [flat_map negb snd app]; try reflexivity.
  - cbn [LintDiagnostic.code LintDiagnostic.line diag fst].
    rewrite streq_refl, E. apply Nat.eqb_eq in E. subst. reflexivity.
  - cbn [LintDiagnostic.code LintDiagnostic.line diag fst].
    rewrite streq_refl, E. reflexivity.
Qed.

Lemma warningsOf_all_true (L : nat) (es : list (nat * bool)) :
  Forall (fun e => snd e = true) es -> warningsOf L es = [].
Proof.
  unfold warningsOf. intros H. induction H as [|e es He _ IH]; [reflexivity|].
  simpl. rewrite He, IH. reflexivity.
Qed.

Lemma flat_map_only (A B : Type) (g : A -> list B) :
  forall (l : list A) (b : nat) (x : A),
    nth_error l b = Some x ->
    (forall j y, j <> b -> nth_error l j = Some y -> g y = []) ->
    flat_map g l = g x.
Proof.
  induction l as [|a l IH]; intros [|b] x Hx Hothers; simpl in *; try discriminate.
  - inversion Hx; subst.
    replace (flat_map g l) with (@nil B); [now rewrite app_nil_r|].
    symmetry. clear IH Hx. induction l as [|y l IHl]; [reflexivity|].
    simpl. rewrite (Hothers 1 y) by (simpl; auto).
    simpl. apply IHl. intros j z Hj Hz.
    destruct j as [|j]; [lia|]. apply (Hothers (S (S j)) z); [lia | exact Hz].
  - rewrite (Hothers 0 a) by (simpl; auto). simpl.
    apply (IH b x Hx). intros j y Hj Hy. apply (Hothers (S j) y); [lia | exact Hy].
Qed.

Lemma caseDiags_of_state (L b : nat) (v : bool) (st : State) :
  caseState L b v st ->
  diagsAt (lit "SCL104") L
    (flat_map
       (fun block =>
          flat_map
            (fun entry =>
               if negb (snd entry)
               then [diag (fst entry) 0 (lit "CASE statement has no ELSE branch")
                          Warning (lit "SCL104")]
               else [])
            (BlockDecl.hasCaseElse block))
       (ParseResult.blocks (result st)))
  = if v then [] else [caseWarning L].
Proof.
  intros [Hb Hothers]. rewrite diagsAt_flat_map.
  unfold entriesOf in Hb.
  destruct (nth_error (ParseResult.blocks (result st)) b) as [blk|] eqn:Eb;
    simpl in Hb; [|discriminate].
  inversion Hb as [Hb'].
  rewrite (flat_map_only _ _ _ _ b blk Eb).
  - rewrite caseDiags_of_block, Hb'. unfold warningsOf. simpl.
    destruct v; reflexivity.
  - intros j y Hj Hy. rewrite caseDiags_of_block.
    apply warningsOf_all_true. apply (Hothers j); [exact Hj|].
    unfold entriesOf. rewrite Hy. reflexivity.
Qed.

Lemma flat_map_nothing (A B : Type) (g : A -> list B) (l : list A) :
  (forall j y, nth_error l j = Some y -> g y = []) -> flat_map g l = [].
Proof.
  induction l as [|a l IH]; intros H; simpl; [reflexivity|].
  rewrite (H 0 a) by reflexivity. simpl.
  apply IH. intros j y Hy. apply (H (S j) y). exact Hy.
Qed.

Lemma caseDiags_of_free (L : nat) (st : State) :
  caseFree L st ->
  diagsAt (lit "SCL104") L
    (flat_map
       (fun block =>
          flat_map
            (fun entry =>
               if negb (snd entry)
               then [diag (fst entry) 0 (lit "CASE statement has no ELSE branch")
                          Warning (lit "SCL104")]
               else [])
            (BlockDecl.hasCaseElse block))
       (ParseResult.blocks (result st)))
  = [].
Proof.
  intros H. rewrite diagsAt_flat_map.
  apply flat_map_nothing. intros j y Hy. rewrite caseDiags_of_block.
  apply warningsOf_all_true. apply (H j).
  unfold entriesOf. rewrite Hy. reflexivity.
Qed.




(** ** Duplicate variables on the model *)

Lemma addLocation_absent (n : str) (loc : Location) (bv : list (str * list Location)) :
  find (fun nl => streq n (fst nl)) bv = None ->
  duplicatesIn (addLocation n loc bv) = duplicatesIn bv.
Proof.
  unfold duplicatesIn. induction bv as [|[n' locs] bv IH]; simpl.
  - reflexivity.
  - destruct (streq n n'); [discriminate|]. intros H. simpl. now rewrite IH.
Qed.

Lemma addLocation_single (n : str) (loc first : Location)
      (bv : list (str * list Location)) :
  find (fun nl => streq n (fst nl)) bv = Some (n, [first]) ->
  duplicatesIn bv = [] ->
  duplicatesIn (addLocation n loc bv) = duplicatesOf n [first; loc].
Proof.
  unfold duplicatesIn. induction bv as [|[n' locs] bv IH]; simpl; [discriminate|].
  destruct (streq n n') eqn:E.
  - intros H Hout. inversion H; subst. simpl in *.
    rewrite Hout. reflexivity.
  - intros H Hout. apply app_eq_nil in Hout as [H1 H2].
    simpl. rewrite H1. simpl. now apply IH.
Qed.

Lemma find_name_key (n : str) (bv : list (str * list Location)) (n' : str)
      (locs : list Location) :
  find (fun nl => streq n (fst nl)) bv = Some (n', locs) -> n' = n.
Proof.
  intros H. apply find_some in H as [_ H]. simpl in H.
  symmetry. now apply streq_eq.
Qed.

Lemma addToBlock_absent (k n : str) (loc : Location)
      (g : list (str * list (str * list Location))) :
  locationsOf k n g = None ->
  duplicatesOfGroups (addToBlock k n loc g) = duplicatesOfGroups g.
Proof.
  unfold locationsOf, duplicatesOfGroups.
  induction g as [|[k' bv] g IH]; simpl.
  - reflexivity.
  - destruct (streq k k') eqn:E; simpl.
    + intros H. rewrite addLocation_absent; [reflexivity|].
      destruct (find _ bv) as [[n' locs]|]; [discriminate | reflexivity].
    + intros H. now rewrite IH.
Qed.

Lemma addToBlock_single (k n : str) (loc first : Location)
      (g : list (str * list (str * list Location))) :
  locationsOf k n g = Some [first] ->
  duplicatesOfGroups g = [] ->
  duplicatesOfGroups (addToBlock k n loc g) = duplicatesOf n [first; loc].
Proof.
  unfold locationsOf, duplicatesOfGroups.
  induction g as [|[k' bv] g IH]; simpl; [discriminate|].
  destruct (streq k k') eqn:E; simpl.
  - intros H Hout. apply app_eq_nil in Hout as [H1 H2]. rewrite H2, app_nil_r.
    destruct (find _ bv) as [[n' locs]|] eqn:Ef; [|discriminate].
    inversion H; subst. pose proof (find_name_key _ _ _ _ Ef). subst n'.
    now apply addLocation_single.
  - intros H Hout. apply app_eq_nil in Hout as [H1 H2]. rewrite H1. simpl.
    now apply IH.
Qed.

Lemma find_addLocation_same (n : str) (loc : Location) (bv : list (str * list Location)) :
  find (fun nl => streq n (fst nl)) (addLocation n loc bv)
  = Some (n, match find (fun nl => streq n (fst nl)) bv with
             | Some (_, locs) => locs ++ [loc]
             | None => [loc]
             end).
Proof.
  induction bv as [|[n' locs] bv IH]; simpl.
  - rewrite streq_refl. reflexivity.
  - destruct (streq n n') eqn:E; simpl; rewrite E.
    + apply streq_eq in E. subst. reflexivity.
    + exact IH.
Qed.

Lemma find_addLocation_other (n m : str) (loc : Location)
      (bv : list (str * list Location)) :
  m <> n ->
  find (fun nl => streq m (fst nl)) (addLocation n loc bv)
  = find (fun nl => streq m (fst nl)) bv.
Proof.
  intros Hne. induction bv as [|[n' locs] bv IH]; simpl.
  - replace (streq m n) with false; [reflexivity|].
    symmetry. now apply streq_false_iff.
  - destruct (streq n n') eqn:E; simpl.
    + apply streq_eq in E. subst n'.
      replace (streq m n) with false; [reflexivity|].
      symmetry. now apply streq_false_iff.
    + destruct (streq m n'); [reflexivity | exact IH].
Qed.

Lemma locationsOf_add_same (k n : str) (loc : Location)
      (g : list (str * list (str * list Location))) :
  locationsOf k n (addToBlock k n loc g)
  = Some (match locationsOf k n g with
          | Some locs => locs ++ [loc]
          | None => [loc]
          end).
Proof.
  unfold locationsOf. induction g as [|[k' bv] g IH]; simpl.
  - rewrite streq_refl. simpl. rewrite streq_refl. reflexivity.
  - destruct (streq k k') eqn:E; simpl; rewrite E.
    + rewrite find_addLocation_same.
      destruct (find _ bv) as [[n' locs]|]; reflexivity.
    + exact IH.
Qed.

Lemma locationsOf_add_other (k n k' n' : str) (loc : Location)
      (g : list (str * list (str * list Location))) :
  (k', n') <> (k, n) ->
  locationsOf k' n' (addToBlock k n loc g) = locationsOf k' n' g.
Proof.
  intros Hne. unfold locationsOf. induction g as [|[k0 bv] g IH]; simpl.
  - destruct (streq k' k) eqn:E; [|reflexivity].
    apply streq_eq in E. subst k'. simpl.
    replace (streq n' n) with false; [reflexivity|].
    symmetry. apply streq_false_iff. congruence.
  - destruct (streq k k0) eqn:E; simpl.
    + apply streq_eq in E. subst k0.
      destruct (streq k' k) eqn:E'; [|reflexivity].
      apply streq_eq in E'. subst k'.
      rewrite find_addLocation_other by congruence. reflexivity.
    + destruct (streq k' k0); [reflexivity | exact IH].
Qed.

Lemma fold_addVariable_other (k n : str) :
  forall (vs : list VariableDecl.t) (g : list (str * list (str * list Location))),
    ~ In (k, n) (map varKey vs) ->
    locationsOf k n (fold_left addVariable vs g) = locationsOf k n g.
Proof.
  induction vs as [|v vs IH]; intros g Hnot; simpl; [reflexivity|].
  simpl in Hnot. rewrite IH by tauto.
  unfold addVariable. apply locationsOf_add_other.
  intros E. apply Hnot. left. unfold varKey. congruence.
Qed.

Lemma fold_addVariable_fresh :
  forall (vs : list VariableDecl.t) (g : list (str * list (str * list Location))),
    NoDup (map varKey vs) ->
    (forall v, In v vs ->
               locationsOf (VariableDecl.block v) (toLowerCase (VariableDecl.name v)) g
               = None) ->
    duplicatesOfGroups (fold_left addVariable vs g) = duplicatesOfGroups g.
Proof.
  induction vs as [|v vs IH]; intros g Hnd Hfresh; simpl; [reflexivity|].
  inversion Hnd as [|? ? Hnotin Hnd']; subst.
  rewrite IH; [| exact Hnd' |].
  - unfold addVariable. apply addToBlock_absent. apply Hfresh. now left.
  - intros w Hw. unfold addVariable. rewrite locationsOf_add_other.
    + apply Hfresh. now right.
    + intros E. apply Hnotin. apply in_map_iff. exists w. split; [|exact Hw].
      unfold varKey. congruence.
Qed.

Lemma groupByBlock_fold (vars : list VariableDecl.t) :
  groupByBlock vars = fold_left addVariable vars [].
Proof. reflexivity. Qed.

Lemma ruleDuplicateVariables_groups (r : ParseResult.t) :
  ruleDuplicateVariables r
  = duplicatesOfGroups (groupByBlock (ParseResult.variables r)).
Proof. reflexivity. Qed.

Lemma NoDup_app_l (A : Type) (a b : list A) : NoDup (a ++ b) -> NoDup a.
Proof.
  induction a as [|x a IH]; simpl; intros H; [constructor|].
  inversion H; subst. constructor; [|auto].
  intros Hin. apply H2. apply in_or_app. now left.
Qed.

Lemma NoDup_app_r (A : Type) (a b : list A) : NoDup (a ++ b) -> NoDup b.
Proof.
  induction a as [|x a IH]; simpl; intros H; [exact H|].
  inversion H; subst. auto.
Qed.

Lemma NoDup_app_disjoint (A : Type) (a b : list A) (x : A) :
  NoDup (a ++ b) -> In x a -> ~ In x b.
Proof.
  induction a as [|y a IH]; simpl; intros H Hin; [contradiction|].
  inversion H; subst. destruct Hin as [->|Hin].
  - intros Hb. apply H2. apply in_or_app. now right.
  - now apply IH.
Qed.

(** On the model: when the variables hold two declarations of one name
    (case-insensitively) under one block name, and no other name is
    declared twice, the rule produces exactly one error: at the second
    declaration, with the (1-based) line of the first in its message. *)
Lemma one_duplicate_in_the_model
        (r : ParseResult.t) (l1 l2 l3 : list VariableDecl.t)
        (first second : VariableDecl.t) :
  ParseResult.variables r = l1 ++ first :: l2 ++ second :: l3 ->
  sameVariable first second ->
  NoDup (map varKey (l1 ++ first :: l2 ++ l3)) ->
  withCode (lit "SCL004") (runRules r) = [duplicateError first second].
Proof.
  intros Hvars [Hblock Hname] Hnd.
  unfold withCode.
  rewrite runRules_filter_SCL004 by (intros d; apply withCode_code).
  rewrite ruleDuplicateVariables_groups, Hvars, groupByBlock_fold.
  set (k := VariableDecl.block first).
  set (n := toLowerCase (VariableDecl.name first)).
  assert (Hkey2 : varKey second = (k, n))
    by (unfold varKey, k, n; rewrite <- Hblock, <- Hname; reflexivity).
  (* the keys, split *)
  rewrite !map_app in Hnd. simpl in Hnd. rewrite map_app in Hnd.
  assert (Hnd1 : NoDup (map varKey l1)) by (eapply NoDup_app_l; eauto).
  pose proof (NoDup_app_r _ _ _ Hnd) as HndR.
  inversion HndR as [|? ? Hk23 Hnd23]; subst.
  assert (Hk1 : ~ In (k, n) (map varKey l1)).
  { intros Hin. apply (NoDup_app_disjoint _ _ _ _ Hnd Hin). now left. }
  assert (Hk2 : ~ In (k, n) (map varKey l2))
    by (intros Hin; apply Hk23; apply in_or_app; now left).
  assert (Hk3 : ~ In (k, n) (map varKey l3))
    by (intros Hin; apply Hk23; apply in_or_app; now right).
  assert (Hnd2 : NoDup (map varKey l2)) by (eapply NoDup_app_l; eauto).
  assert (Hnd3 : NoDup (map varKey l3)) by (eapply NoDup_app_r; eauto).
  (* the scan of the variables, in five steps *)
  rewrite fold_left_app. simpl. rewrite fold_left_app. simpl.
  set (g1 := fold_left addVariable l1 []).
  set (g2 := addVariable g1 first).
  set (g3 := fold_left addVariable l2 g2).
  set (g4 := addVariable g3 second).
  assert (Hout1 : duplicatesOfGroups g1 = []).
  { unfold g1. rewrite fold_addVariable_fresh; [reflexivity | exact Hnd1 |].
    intros v _. reflexivity. }
  assert (Hloc1 : forall k' n', ~ In (k', n') (map varKey l1) ->
                                locationsOf k' n' g1 = None).
  { intros k' n' Hnot. unfold g1. now rewrite fold_addVariable_other. }
  assert (Hout2 : duplicatesOfGroups g2 = []).
  { unfold g2, addVariable. rewrite addToBlock_absent; [exact Hout1|].
    now apply Hloc1. }
  assert (Hloc2 : locationsOf k n g2 = Some [varLocation first]).
  { unfold g2, addVariable. fold k n. rewrite locationsOf_add_same.
    now rewrite Hloc1. }
  assert (Hloc2' : forall k' n', (k', n') <> (k, n) ->
                                 ~ In (k', n') (map varKey l1) ->
                                 locationsOf k' n' g2 = None).
  { intros k' n' Hne Hnot. unfold g2, addVariable. fold k n.
    rewrite locationsOf_add_other by exact Hne. now apply Hloc1. }
  assert (Hdisj12 : forall v, In v l2 -> varKey v <> (k, n)
                                         /\ ~ In (varKey v) (map varKey l1)).
  { intros v Hv. split.
    - intros E. apply Hk2. rewrite <- E. now apply in_map.
    - intros Hin. apply (NoDup_app_disjoint _ _ _ _ Hnd Hin).
      right. apply in_or_app. left. now apply in_map. }
  assert (Hout3 : duplicatesOfGroups g3 = []).
  { unfold g3. rewrite fold_addVariable_fresh; [exact Hout2 | exact Hnd2 |].
    intros v Hv. destruct (Hdisj12 v Hv) as [Hne Hnot].
    apply Hloc2'; assumption. }
  assert (Hloc3 : locationsOf k n g3 = Some [varLocation first]).
  { unfold g3. rewrite fold_addVariable_other by exact Hk2. exact Hloc2. }
  assert (Hout4 : duplicatesOfGroups g4 = [duplicateError first second]).
  { unfold g4, addVariable. rewrite <- Hblock, <- Hname. fold k n.
    rewrite (addToBlock_single k n (varLocation second) (varLocation first) g3
                               Hloc3 Hout3).
    unfold duplicatesOf, duplicateError, varLocation. simpl.
    unfold n. rewrite Hname. reflexivity. }
  rewrite fold_addVariable_fresh; [| exact Hnd3 |].
  - rewrite Hout4. reflexivity.
  - intros v Hv.
    assert (Hv3 : In (varKey v) (map varKey l3)) by (now apply in_map).
    assert (Hne : varKey v <> (k, n)) by (intros E; apply Hk3; now rewrite <- E).
    assert (Hn1 : ~ In (varKey v) (map varKey l1)).
    { intros Hin. apply (NoDup_app_disjoint _ _ _ _ Hnd Hin).
      right. apply in_or_app. now right. }
    assert (Hn2 : ~ In (varKey v) (map varKey l2)).
    { intros Hin. apply (NoDup_app_disjoint _ _ _ _ Hnd23 Hin). exact Hv3. }
    unfold g4, addVariable.
    rewrite locationsOf_add_other
      by (intros E; apply Hne; rewrite <- Hkey2; unfold varKey; exact E).
    unfold g3. rewrite (fold_addVariable_other _ _ l2 g2 Hn2).
    apply Hloc2'; assumption.
Qed.

(** ** C1: well-formed text *)

#[local] Arguments matchKeyword : simpl never.
#[local] Arguments streq : simpl never.
#[local] Arguments startsWith : simpl never.
#[local] Arguments includes : simpl never.
#[local] Arguments closesBlock : simpl never.
#[local] Arguments closesVar : simpl never.
#[local] Arguments closesControl : simpl never.

Lemma balancedFrom_cons (closes : str -> str -> bool) (pending : list str)
      (tok : option Bracket) (rest : list (option Bracket)) :
  balancedFrom closes pending (tok :: rest) = true ->
  exists pending', advance closes pending tok = Some pending'
                   /\ balancedFrom closes pending' rest = true.
Proof.
  destruct tok as [[k|c]|]; simpl.
  - eauto.
  - destruct pending as [|k p]; [discriminate|].
    destruct (closes c k); simpl; [eauto | discriminate].
  - eauto.
Qed.

Lemma balancedFrom_nil (closes : str -> str -> bool) (pending : list str) :
  balancedFrom closes pending [] = true -> pending = [].
Proof. destruct pending; [reflexivity | discriminate]. Qed.

Lemma pendingOf_snoc (s : list StackEntry.t) (k : str) (i : nat) (c : Z) :
  pendingOf (s ++ [StackEntry.mk k i c]) = k :: pendingOf s.
Proof. unfold pendingOf. rewrite map_app, rev_app_distr. reflexivity. Qed.

Lemma pendingOf_nil_inv (s : list StackEntry.t) : pendingOf s = [] -> s = [].
Proof.
  unfold pendingOf. intros H.
  apply (f_equal (@rev str)) in H. rewrite rev_involutive in H. simpl in H.
  now apply map_eq_nil in H.
Qed.

Lemma pendingOf_cons_inv (s : list StackEntry.t) (k : str) (p : list str) :
  pendingOf s = k :: p ->
  exists e, top s = Some e /\ StackEntry.keyword e = k
            /\ pendingOf (pop s) = p /\ nonEmpty s = true.
Proof.
  destruct (rev s) as [|e r] eqn:E.
  - apply (f_equal (@rev StackEntry.t)) in E. rewrite rev_involutive in E.
    subst. discriminate.
  - apply (f_equal (@rev StackEntry.t)) in E. rewrite rev_involutive in E.
    simpl in E. subst s. unfold pendingOf.
    rewrite map_app, rev_app_distr. simpl. intros H. inversion H; subst.
    exists e. rewrite top_snoc, pop_snoc. repeat split; try reflexivity.
    destruct (rev r); reflexivity.
Qed.

Lemma find_none_incl (A : Type) (p : A -> bool) (l l' : list A) :
  find p l = None -> incl l' l -> find p l' = None.
Proof.
  intros H Hincl. induction l' as [|x l' IH]; [reflexivity|].
  simpl. rewrite (find_none p l H x) by (apply Hincl; now left).
  apply IH. intros y Hy. apply Hincl. now right.
Qed.

Lemma matchKeyword_false (u k : str) :
  matchKeyword u k = false ->
  streq u k = false /\ startsWith u (k ++ lit " ") = false.
Proof.
  unfold matchKeyword. intros H.
  apply orb_false_iff in H as [H H3]. apply orb_false_iff in H as [H1 H2].
  apply orb_false_iff in H3 as [H3 _]. apply orb_false_iff in H3 as [H3 _].
  auto.
Qed.

Lemma streq_incompatible (u a X : str) :
  startsWith u a = true -> compatible a X = false -> streq u X = false.
Proof.
  intros Ha Hc. destruct (streq u X) eqn:E; [|reflexivity].
  apply streq_matchKeyword in E.
  rewrite (matchKeyword_incompatible u a X Ha Hc) in E. discriminate.
Qed.

(** Rewrites every keyword test on [u] to false, from a prefix of [u]
    that no keyword shares. *)
Ltac prefix_tests Hs :=
  match type of Hs with
  | startsWith ?u ?a = true =>
  repeat match goal with
         | |- context [find (matchKeyword u) ?T] =>
             rewrite (find_matchKeyword_incompatible u a T Hs eq_refl)
         | |- context [matchKeyword u ?X] =>
             rewrite (matchKeyword_incompatible u a X Hs eq_refl)
         | |- context [streq u ?X] =>
             rewrite (streq_incompatible u a X Hs eq_refl)
         | |- context [startsWith u ?X] =>
             rewrite (startsWith_incompatible u a X Hs eq_refl)
         end
  end.

Lemma plainLine_prefix (u a : str) :
  startsWith u a = true ->
  forallb (fun k => negb (compatible a k))
          (lit "BEGIN" :: lit "VAR" :: lit "END_VAR" :: lit "END_STRUCT"
             :: keys BLOCK_PAIRS ++ keys BLOCK_END_TO_OPEN ++ VAR_OPENS
             ++ keys CONTROL_PAIRS ++ keys CONTROL_END_TO_OPEN) = true ->
  plainLine u.
Proof.
  intros Hs Hall.
  assert (Hk : forall k, In k (lit "BEGIN" :: lit "VAR" :: lit "END_VAR" :: lit "END_STRUCT"
                                 :: keys BLOCK_PAIRS ++ keys BLOCK_END_TO_OPEN ++ VAR_OPENS
                                 ++ keys CONTROL_PAIRS ++ keys CONTROL_END_TO_OPEN) ->
                         compatible a k = false).
  { intros k Hin. rewrite forallb_forall in Hall. specialize (Hall k Hin).
    now apply negb_true_iff in Hall. }
  assert (Hfind : forall T, incl T (lit "BEGIN" :: lit "VAR" :: lit "END_VAR" :: lit "END_STRUCT"
                                 :: keys BLOCK_PAIRS ++ keys BLOCK_END_TO_OPEN ++ VAR_OPENS
                                 ++ keys CONTROL_PAIRS ++ keys CONTROL_END_TO_OPEN) ->
                           find (matchKeyword u) T = None).
  { intros T HT. apply (find_matchKeyword_incompatible u a T Hs).
    apply forallb_forall. intros k Hin. apply negb_true_iff. apply Hk. now apply HT. }
  unfold plainLine, blockToken, varToken, controlToken, isConstantSection.
  rewrite (startsWith_incompatible u a (lit "VAR") Hs) by (apply Hk; simpl; auto).
  simpl andb. cbv iota.
  rewrite !Hfind by (intros k Hin; simpl in Hin; simpl; tauto).
  repeat split.
  apply (streq_incompatible u a _ Hs). apply Hk. simpl. auto.
Qed.

Lemma lookup_In (k v : str) (tbl : list (str * str)) :
  lookup k tbl = Some v -> In (k, v) tbl.
Proof.
  induction tbl as [|[k' v'] tbl IH]; [discriminate|].
  cbn [lookup]. destruct (streq k k') eqn:E.
  - intros H. inversion H; subst. apply streq_eq in E. subst.
    left. reflexivity.
  - intros H. right. apply IH. exact H.
Qed.

Lemma closesControl_expected (c k : str) :
  closesControl c k = true ->
  exists expectedOpen,
    lookup c CONTROL_END_TO_OPEN = Some expectedOpen /\ k = expectedOpen.
Proof.
  unfold closesControl. intros H.
  destruct (lookup k CONTROL_PAIRS) as [c'|] eqn:E; [|discriminate].
  apply streq_eq in H. subst c'. apply lookup_In in E.
  unfold CONTROL_PAIRS in E. cbn [In] in E.
  repeat (destruct E as [E|E]; [inversion E; subst; eexists; split; reflexivity|]).
  contradiction.
Qed.

(** What the classification of an active line does to the three stacks,
    when the balance check advances on the tokens of the line. *)
Lemma classify_balanced (idx : nat) (o t u : str) (st : State)
      (pb pv pc : list str) :
  u = toUpperCase t ->
  ifSpelledPlainly (Some u) = true ->
  advance closesBlock (pendingOf (blockStack st)) (blockToken u) = Some pb ->
  advance closesVar (pendingOf (varStack st)) (varToken u) = Some pv ->
  advance closesControl (pendingOf (controlStack st))
          (if afterBegin st then controlToken u else None) = Some pc ->
  pendingOf (blockStack (classify idx o t u st)) = pb
  /\ pendingOf (varStack (classify idx o t u st)) = pv
  /\ pendingOf (controlStack (classify idx o t u st)) = pc
  /\ afterBegin (classify idx o t u st) = executableAfter (afterBegin st) (Some u)
  /\ ParseResult.unmatchedCloses (result (classify idx o t u st))
     = ParseResult.unmatchedCloses (result st).
Proof.
  intros Hu Hif Hb Hv Hc.
  assert (Hplain : plainLine u ->
            forall st', blockStack st' = blockStack st ->
                        varStack st' = varStack st ->
                        controlStack st' = controlStack st ->
                        afterBegin st' = afterBegin st ->
                        ParseResult.unmatchedCloses (result st')
                        = ParseResult.unmatchedCloses (result st) ->
            pendingOf (blockStack st') = pb
            /\ pendingOf (varStack st') = pv
            /\ pendingOf (controlStack st') = pc
            /\ afterBegin st' = executableAfter (afterBegin st) (Some u)
            /\ ParseResult.unmatchedCloses (result st')
               = ParseResult.unmatchedCloses (result st)).
  { intros (Hbt & Hvt & Hct & Hbeg) st' -> -> -> -> ->.
    rewrite Hbt in Hb. rewrite Hvt in Hv. rewrite Hct in Hc.
    simpl in Hb, Hv. inversion Hb. inversion Hv.
    assert (pc = pendingOf (controlStack st))
      by (destruct (afterBegin st); simpl in Hc; inversion Hc; reflexivity).
    subst. unfold executableAfter. rewrite Hbt, Hbeg. auto. }
  unfold classify.
  (* Pragma detection *)
  destruct (startsWith t (lit "{") && isSome (currentBlock st)) eqn:Epragma.
  { apply andb_true_iff in Epragma as [Hs _].
    apply startsWith_toUpperCase_brace in Hs. rewrite <- Hu in Hs.
    apply Hplain; autorewrite with scan; try reflexivity.
    apply (plainLine_prefix u (lit "{") Hs). reflexivity. }
  (* VERSION detection *)
  destruct (startsWith u (lit "VERSION") && isSome (currentBlock st)) eqn:Eversion.
  { apply andb_true_iff in Eversion as [Hs _].
    apply Hplain; autorewrite with scan; try reflexivity.
    apply (plainLine_prefix u (lit "VERSION") Hs). reflexivity. }
  (* Block declarations *)
  destruct (find (matchKeyword u) (keys BLOCK_PAIRS)) as [openKw|] eqn:Eopen.
  { destruct (find_matchKeyword_some _ _ _ Eopen) as [HK Hin].
    assert (Hothers : varToken u = None /\ controlToken u = None).
    { unfold varToken, controlToken, isConstantSection.
      simpl in Hin.
      repeat (destruct Hin as [<-|Hin]; [other_tests HK; simpl; auto|]).
      contradiction. }
    destruct Hothers as [Hvt Hct].
    unfold blockToken in Hb. rewrite Eopen in Hb. simpl in Hb. inversion Hb.
    rewrite Hvt in Hv. simpl in Hv. inversion Hv.
    rewrite Hct in Hc.
    assert (pc = pendingOf (controlStack st))
      by (destruct (afterBegin st); simpl in Hc; inversion Hc; reflexivity).
    subst. unfold executableAfter, blockToken. rewrite Eopen.
    unfold openBlock. simpl. rewrite pendingOf_snoc. auto. }
  (* Block end keywords *)
  destruct (find (matchKeyword u) (keys BLOCK_END_TO_OPEN)) as [closeKw|] eqn:Eclose.
  { destruct (find_matchKeyword_some _ _ _ Eclose) as [HK Hin].
    assert (Hothers : varToken u = None /\ controlToken u = None).
    { unfold varToken, controlToken, isConstantSection.
      simpl in Hin.
      repeat (destruct Hin as [<-|Hin]; [other_tests HK; simpl; auto|]).
      contradiction. }
    destruct Hothers as [Hvt Hct].
    unfold blockToken in Hb. rewrite Eopen, Eclose in Hb. simpl in Hb.
    destruct (pendingOf (blockStack st)) as [|k p] eqn:Ep; [discriminate|].
    destruct (closesBlock closeKw k) eqn:Ecl; [|discriminate].
    inversion Hb.
    rewrite Hvt in Hv. simpl in Hv. inversion Hv.
    rewrite Hct in Hc.
    assert (pc = pendingOf (controlStack st))
      by (destruct (afterBegin st); simpl in Hc; inversion Hc; reflexivity).
    subst.
    destruct (pendingOf_cons_inv _ _ _ Ep) as (e & Htop & Hkw & Hpop & _).
    unfold executableAfter, blockToken. rewrite Eopen, Eclose.
    unfold closeBlock. rewrite Htop, Hkw.
    unfold closesBlock in Ecl. rewrite Ecl.
    simpl. autorewrite with scan. simpl. auto. }
  assert (Hbt : blockToken u = None)
    by (unfold blockToken; rewrite Eopen, Eclose; reflexivity).
  (* BEGIN *)
  destruct (streq u (lit "BEGIN")) eqn:Ebegin.
  { apply streq_eq in Ebegin. rewrite Ebegin in *.
    simpl in Hb, Hv. inversion Hb. inversion Hv.
    assert (pc = pendingOf (controlStack st))
      by (destruct (afterBegin st); simpl in Hc; inversion Hc; reflexivity).
    subst. simpl. autorewrite with scan. auto. }
  (* VAR section ends *)
  destruct (matchKeyword u (lit "END_VAR") || matchKeyword u (lit "END_STRUCT"))
    eqn:Evarend.
  { assert (HK : exists K, (K = lit "END_VAR" \/ K = lit "END_STRUCT")
                           /\ matchKeyword u K = true).
    { apply orb_true_iff in Evarend as [H|H]; eauto. }
    destruct HK as (K & HKs & HK).
    assert (Htok : varToken u = Some (Close K) /\ controlToken u = None).
    { unfold varToken, controlToken, isConstantSection. cbn [find].
      destruct HKs as [-> | ->]; other_tests HK; rewrite HK; auto. }
    destruct Htok as [Hvt Hct].
    rewrite Hbt in Hb. simpl in Hb. inversion Hb.
    rewrite Hvt in Hv. simpl in Hv.
    destruct (pendingOf (varStack st)) as [|k p] eqn:Ep; [discriminate|].
    destruct (closesVar K k); [|discriminate]. inversion Hv.
    rewrite Hct in Hc.
    assert (pc = pendingOf (controlStack st))
      by (destruct (afterBegin st); simpl in Hc; inversion Hc; reflexivity).
    subst.
    destruct (pendingOf_cons_inv _ _ _ Ep) as (e & _ & _ & Hpop & Hne).
    unfold executableAfter. rewrite Hbt, Ebegin.
    unfold closeVarSection. rewrite Hne. simpl. auto. }
  (* VAR CONSTANT special case *)
  destruct (startsWith u (lit "VAR") && includes u (lit "CONSTANT")
            && negb (startsWith u (lit "VAR_"))) eqn:Econst.
  { assert (Hs : startsWith u (lit "VAR") = true).
    { apply andb_true_iff in Econst as [H _]. now apply andb_true_iff in H as [H _]. }
    assert (Hct : controlToken u = None).
    { unfold controlToken. prefix_tests Hs. reflexivity. }
    rewrite Hbt in Hb. simpl in Hb. inversion Hb.
    unfold varToken, isConstantSection in Hv. rewrite Econst in Hv.
    simpl in Hv. inversion Hv.
    rewrite Hct in Hc.
    assert (pc = pendingOf (controlStack st))
      by (destruct (afterBegin st); simpl in Hc; inversion Hc; reflexivity).
    subst. unfold executableAfter. rewrite Hbt, Ebegin.
    unfold openVarSection. simpl. rewrite pendingOf_snoc. auto. }
  (* VAR section opens *)
  destruct (find (matchKeyword u) VAR_OPENS) as [varKw|] eqn:Evar.
  { destruct (find_matchKeyword_some _ _ _ Evar) as [HK Hin].
    assert (Hct : controlToken u = None).
    { unfold controlToken. simpl in Hin.
      repeat (destruct Hin as [<-|Hin]; [other_tests HK; simpl; auto|]).
      contradiction. }
    rewrite Hbt in Hb. simpl in Hb. inversion Hb.
    unfold varToken, isConstantSection in Hv. rewrite Econst, Evar in Hv.
    simpl in Hv. inversion Hv.
    rewrite Hct in Hc.
    assert (pc = pendingOf (controlStack st))
      by (destruct (afterBegin st); simpl in Hc; inversion Hc; reflexivity).
    subst. unfold executableAfter. rewrite Hbt, Ebegin.
    unfold openVarSection. simpl. rewrite pendingOf_snoc. auto. }
  assert (Hvt : varToken u = None).
  { unfold varToken, isConstantSection. rewrite Econst, Evar.
    apply orb_false_iff in Evarend as [H1 H2]. cbn [find]. rewrite H1, H2. reflexivity. }
  rewrite Hbt in Hb. simpl in Hb. inversion Hb.
  rewrite Hvt in Hv. simpl in Hv. inversion Hv.
  (* Variable declarations *)
  destruct (nonEmpty (currentVarSection st) && negb (afterBegin st)) eqn:Edecl.
  { apply andb_true_iff in Edecl as [_ Hab]. apply negb_true_iff in Hab.
    rewrite Hab in *. simpl in Hc. inversion Hc.
    unfold executableAfter. rewrite Hbt, Ebegin.
    autorewrite with scan. auto. }
  destruct (afterBegin st) eqn:Hab.
  2:{ simpl in Hc. inversion Hc. unfold executableAfter. rewrite Hbt, Ebegin. auto. }
  (* Control flow *)
  unfold executableAfter. rewrite Hbt, Ebegin.
  autorewrite with scan. rewrite Hab.
  assert (Hcf : pendingOf (controlStack (controlFlow idx t u st)) = pc
                /\ ParseResult.unmatchedCloses (result (controlFlow idx t u st))
                   = ParseResult.unmatchedCloses (result st));
    [|destruct Hcf as [Hcf1 Hcf2]; repeat split; assumption].
  clear Hb Hv Hplain Epragma Eversion Edecl.
  unfold controlFlow.
  destruct (matchKeyword u (lit "CASE")) eqn:Ecase.
  { unfold controlToken in Hc.
    rewrite (find_matchKeyword_same u (lit "CASE") (keys CONTROL_PAIRS) Ecase
               eq_refl eq_refl) in Hc by (simpl; tauto).
    simpl in Hc. inversion Hc.
    unfold caseOpen. autorewrite with scan. simpl. autorewrite with scan.
    rewrite pendingOf_snoc. auto. }
  destruct (matchKeyword u (lit "ELSE") && nonEmpty (controlStack (markCode t u st)))
    eqn:Eelse.
  { apply andb_true_iff in Eelse as [HK _].
    assert (Hct : controlToken u = None)
      by (unfold controlToken; other_tests HK; reflexivity).
    rewrite Hct in Hc. simpl in Hc. inversion Hc.
    autorewrite with scan. auto. }
  unfold controlToken in Hc.
  destruct (find (matchKeyword u) (keys CONTROL_PAIRS)) as [k|] eqn:Ek.
  { (* an opener *)
    destruct (find_matchKeyword_some _ _ _ Ek) as [HK Hin].
    simpl in Hc. inversion Hc. subst pc.
    simpl in Hin.
    destruct Hin as [<-|Hin].
    { (* IF *)
      change (matchKeyword u (lit "IF") = true) in HK.
      unfold ifSpelledPlainly in Hif. rewrite HK in Hif. cbn [negb orb] in Hif.
      assert (Hpush : ifOpen idx u (markCode t u st)
                      = pushControl (lit "IF") idx (markCode t u st)).
      { unfold ifOpen. rewrite Hif.
        rewrite (startsWith_incompatible u (lit "IF") (lit "ELSIF")
                   (matchKeyword_startsWith _ _ HK) eq_refl).
        reflexivity. }
      rewrite Hpush. unfold exitCheck, controlClose, loopOpen.
      other_tests HK. simpl. autorewrite with scan.
      rewrite pendingOf_snoc. auto. }
    assert (Hnoif : ifOpen idx u (markCode t u st) = markCode t u st).
    { unfold ifOpen.
      repeat (destruct Hin as [<-|Hin]; [other_tests HK; reflexivity|]).
      contradiction. }
    rewrite Hnoif.
    assert (Hloop : In k [lit "FOR"; lit "WHILE"; lit "REPEAT"; lit "REGION"]).
    { repeat (destruct Hin as [<-|Hin]; [simpl; tauto|]).
      - destruct Hin as [<-|Hin];
          [change (matchKeyword u (lit "CASE") = true) in HK; congruence|].
        destruct Hin as [<-|Hin]; [simpl; tauto | contradiction]. }
    unfold exitCheck, controlClose, loopOpen.
    rewrite (find_matchKeyword_same
               u k [lit "FOR"; lit "WHILE"; lit "REPEAT"; lit "REGION"] HK)
      by first [exact Hloop | reflexivity
               | simpl in Hloop; repeat (destruct Hloop as [<-|Hloop]; [reflexivity|]);
                 contradiction].
    simpl in Hloop.
    repeat (destruct Hloop as [<-|Hloop];
            [other_tests HK; simpl; autorewrite with scan;
             rewrite pendingOf_snoc; auto|]).
    contradiction. }
  (* no opener *)
  assert (Hnoif : ifOpen idx u (markCode t u st) = markCode t u st).
  { unfold ifOpen.
    assert (Hm : matchKeyword u (lit "IF") = false)
      by (apply (find_none _ _ Ek); simpl; tauto).
    apply matchKeyword_false in Hm as [Hm1 Hm2].
    change (lit "IF" ++ lit " ") with (lit "IF ") in Hm2.
    rewrite Hm1, Hm2. reflexivity. }
  assert (Hnoloop : forall s, loopOpen idx u s = s).
  { intros s. unfold loopOpen.
    rewrite (find_none_incl _ _ _ _ Ek); [reflexivity|].
    intros x Hx. simpl in Hx. simpl. tauto. }
  rewrite Hnoif, Hnoloop.
  rewrite exitCheck_controlStack, exitCheck_unmatchedCloses.
  unfold controlClose.
  destruct (find (matchKeyword u) (keys CONTROL_END_TO_OPEN)) as [c|] eqn:Ec.
  2:{ simpl in Hc. inversion Hc. autorewrite with scan. auto. }
  simpl in Hc.
  destruct (pendingOf (controlStack st)) as [|k p] eqn:Ep; [discriminate|].
  destruct (closesControl c k) eqn:Ecl; [|discriminate].
  inversion Hc. subst pc.
  destruct (pendingOf_cons_inv _ _ _ Ep) as (e & Htop & Hkw & Hpop & _).
  destruct (closesControl_expected c k Ecl) as (x & Hx & ->).
  autorewrite with scan. rewrite Htop, Hx, Hkw, streq_refl.
  simpl. autorewrite with scan. auto.
Qed.

(** The whole scan, from a state whose stacks hold the pending openers. *)
Lemma scanLines_balanced :
  forall (lines : list str) (idx : nat) (st : State),
    let uppers := activeUppers (inBlockComment st) lines in
    balancedFrom closesBlock (pendingOf (blockStack st)) (tokens blockToken uppers) = true ->
    balancedFrom closesVar (pendingOf (varStack st)) (tokens varToken uppers) = true ->
    balancedFrom closesControl (pendingOf (controlStack st))
                 (executableControlTokens (afterBegin st) uppers) = true ->
    forallb ifSpelledPlainly uppers = true ->
    blockStack (scanLines idx lines st) = []
    /\ varStack (scanLines idx lines st) = []
    /\ controlStack (scanLines idx lines st) = []
    /\ ParseResult.unmatchedCloses (result (scanLines idx lines st))
       = ParseResult.unmatchedCloses (result st)
    /\ ParseResult.unmatchedOpens (result (scanLines idx lines st))
       = ParseResult.unmatchedOpens (result st).
Proof.
  induction lines as [|l lines IH]; intros idx st uppers Hb Hv Hc Hif.
  - subst uppers. cbn [activeUppers tokens map executableControlTokens] in *.
    apply balancedFrom_nil in Hb, Hv, Hc.
    apply pendingOf_nil_inv in Hb, Hv, Hc.
    cbn [scanLines]. repeat split; try assumption; reflexivity.
  - subst uppers. cbn [activeUppers tokens map executableControlTokens forallb] in *.
    apply andb_true_iff in Hif as [Hif1 Hif].
    apply balancedFrom_cons in Hb as (pb & Hb1 & Hb).
    apply balancedFrom_cons in Hv as (pv & Hv1 & Hv).
    apply balancedFrom_cons in Hc as (pc & Hc1 & Hc).
    cbn [scanLines].
    assert (Hstep :
              pendingOf (blockStack (processLine idx l st)) = pb
              /\ pendingOf (varStack (processLine idx l st)) = pv
              /\ pendingOf (controlStack (processLine idx l st)) = pc
              /\ afterBegin (processLine idx l st)
                 = executableAfter (afterBegin st) (activeUpper (inBlockComment st) l)
              /\ ParseResult.unmatchedCloses (result (processLine idx l st))
                 = ParseResult.unmatchedCloses (result st)).
    { destruct (activeUpper (inBlockComment st) l) as [u|] eqn:E.
      - destruct (processLine_active idx l st u E) as (o & t & _ & _ & Hu & _ & ->).
        apply (classify_balanced idx o t u
                 (trackUsage o (setInBlockComment
                                  (commentAfter (inBlockComment st) l) st))
                 pb pv pc Hu Hif1 Hb1 Hv1).
        exact Hc1.
      - rewrite (processLine_skipped idx l st E).
        cbn [advance] in Hb1, Hv1. inversion Hb1. inversion Hv1.
        assert (pc = pendingOf (controlStack st))
          by (destruct (afterBegin st); cbn [advance] in Hc1; inversion Hc1; reflexivity).
        subst. auto. }
    destruct Hstep as (Hsb & Hsv & Hsc & Hsa & Hsu).
    specialize (IH (S idx) (processLine idx l st)).
    rewrite processLine_comment, Hsb, Hsv, Hsc, Hsa in IH.
    destruct (IH Hb Hv Hc Hif) as (H1 & H2 & H3 & H4 & H5).
    rewrite H4, H5, Hsu, processLine_unmatchedOpens. auto.
Qed.


(** ** The helpers of the scanner *)

Import Shape.

(** *** The keyword-matching rule *)

Lemma isDelim_cases (d : ascii) :
  isDelim d = true -> d = " "%char \/ d = "009"%char \/ d = ";"%char.
Proof.
  unfold isDelim. intros H.
  repeat (apply orb_true_iff in H as [H|H]);
    apply Ascii.eqb_eq in H; auto.
Qed.

Lemma startsWith_snoc (k r : str) (d : ascii) :
  startsWith (k ++ d :: r) (k ++ [d]) = true.
Proof.
  change (d :: r) with ([d] ++ r). rewrite app_assoc. apply startsWith_prefix.
Qed.

(** X1: a line matches a keyword exactly when it is the keyword followed
    by nothing, or by a space, a tab or a semicolon and anything. *)
Theorem matchKeyword_characterised (u k : str) :
  matchKeyword u k = true <-> exists r, u = k ++ r /\ keywordTail r.
Proof.
  split; [apply matchKeyword_split|].
  intros (r & -> & Hr). unfold matchKeyword.
  destruct r as [|d r].
  - rewrite app_nil_r, streq_refl. reflexivity.
  - simpl in Hr. apply isDelim_cases in Hr as [-> | [-> | ->]];
      change (lit " ") with [" "%char]; change (lit ";") with [";"%char];
      rewrite startsWith_snoc; repeat rewrite orb_true_r; reflexivity.
Qed.

Lemma scannerKeywords_delimFree :
  forallb delimFree scannerKeywords = true.
Proof. vm_compute. reflexivity. Qed.

(** X2: under the keyword-matching rule no line matches two different
    keywords of the scanner's tables: two table keywords that both match a
    line are the same keyword. *)
Theorem scanner_keywords_exclusive (u k k' : str) :
  In k scannerKeywords -> In k' scannerKeywords ->
  matchKeyword u k = true -> matchKeyword u k' = true -> k = k'.
Proof.
  intros Hk Hk'.
  pose proof scannerKeywords_delimFree as H.
  rewrite forallb_forall in H.
  apply matchKeyword_unique; auto.
Qed.

Lemma scanner_keywords_exclusive_witness :
  In (lit "END_FUNCTION") scannerKeywords
  /\ matchKeyword (lit "END_FUNCTION;") (lit "END_FUNCTION") = true
  /\ lit "END_FUNCTION" = lit "END_FUNCTION".
Proof.
  assert (Hin : In (lit "END_FUNCTION") scannerKeywords).
  { vm_compute. auto 20. }
  split; [exact Hin|]. split; [vm_compute; reflexivity|].
  apply (scanner_keywords_exclusive (lit "END_FUNCTION;")); try exact Hin;
    vm_compute; reflexivity.
Defined.

(** *** Block names *)

Section Regex.
Variable A : Type.

Lemma starG_inv (p : ascii -> bool) (k : str -> str -> option A) :
  forall (s acc : str) (r : A),
    Re.starG p acc s k = Some r ->
    exists run rest, s = run ++ rest /\ forallb p run = true
                     /\ k (acc ++ run) rest = Some r.
Proof.
  induction s as [|c s IH]; intros acc r H; simpl in H.
  - exists [], []. repeat split. rewrite app_nil_r. exact H.
  - destruct (p c) eqn:Hc.
    + destruct (Re.starG p (acc ++ [c]) s k) eqn:E.
      * inversion H; subst. apply IH in E as (run & rest & -> & Hrun & Hk).
        exists (c :: run), rest. simpl. rewrite Hc, Hrun.
        rewrite <- app_assoc in Hk. auto.
      * exists [], (c :: s). repeat split. rewrite app_nil_r. exact H.
    + exists [], (c :: s). repeat split. rewrite app_nil_r. exact H.
Qed.

Lemma plusG_inv (p : ascii -> bool) (k : str -> str -> option A) (s : str) (r : A) :
  Re.plusG p s k = Some r ->
  exists run rest, s = run ++ rest /\ run <> [] /\ forallb p run = true
                   /\ k run rest = Some r.
Proof.
  unfold Re.plusG. destruct s as [|c s]; [discriminate|].
  destruct (p c) eqn:Hc; [|discriminate].
  intros H. apply starG_inv in H as (run & rest & -> & Hrun & Hk).
  exists (c :: run), rest. simpl. rewrite Hc, Hrun.
  repeat split; auto. discriminate.
Qed.

(** The greedy run takes a whole run that ends at a character outside the
    class, when the continuation accepts there. *)
Lemma starG_run (p : ascii -> bool) (k : str -> str -> option A) :
  forall (run acc rest : str) (r : A),
    forallb p run = true ->
    match rest with [] => True | d :: _ => p d = false end ->
    k (acc ++ run) rest = Some r ->
    Re.starG p acc (run ++ rest) k = Some r.
Proof.
  induction run as [|c run IH]; intros acc rest r Hrun Hrest Hk; simpl.
  - rewrite app_nil_r in Hk. destruct rest as [|d rest]; simpl; [exact Hk|].
    rewrite Hrest. exact Hk.
  - simpl in Hrun. apply andb_true_iff in Hrun as [Hc Hrun]. rewrite Hc.
    rewrite (IH (acc ++ [c]) rest r Hrun Hrest); [reflexivity|].
    rewrite <- app_assoc. exact Hk.
Qed.

Lemma search_inv (re : str -> option A) :
  forall (s : str) (r : A),
    Re.search re s = Some r -> exists pre rest, s = pre ++ rest /\ re rest = Some r.
Proof.
  induction s as [|c s IH]; intros r H; simpl in H.
  - destruct (re []) eqn:E; [|discriminate]. inversion H; subst.
    exists [], []. auto.
  - destruct (re (c :: s)) eqn:E.
    + inversion H; subst. exists [], (c :: s). auto.
    + apply IH in H as (pre & rest & -> & Hr). exists (c :: pre), rest. auto.
Qed.

End Regex.

Lemma without_app (q : ascii) (a b : str) :
  without q (a ++ b) = without q a && without q b.
Proof. unfold without. apply forallb_app. Qed.

(** X3: a name between the first two double quotes of a line is what
    [extractBlockName] returns. *)
Theorem extractBlockName_first_quoted (pre name post : str) :
  without dquote pre = true -> without dquote name = true -> name <> [] ->
  extractBlockName (pre ++ dquote :: name ++ dquote :: post) = name.
Proof.
  intros Hpre Hname Hne. unfold extractBlockName.
  induction pre as [|c pre IH].
  - destruct name as [|n name]; [contradiction|].
    simpl in Hname. apply andb_true_iff in Hname as [Hn Hname].
    cbn [app Re.search Re.chr]. rewrite Ascii.eqb_refl.
    cbn [Re.plusG]. rewrite Hn.
    rewrite (starG_run _ (fun c => negb (Ascii.eqb c dquote)) _ name [n]
                       (dquote :: post) (n :: name)).
    + reflexivity.
    + exact Hname.
    + rewrite Ascii.eqb_refl. reflexivity.
    + cbn [Re.chr app]. rewrite Ascii.eqb_refl. reflexivity.
  - simpl in Hpre. apply andb_true_iff in Hpre as [Hc Hpre].
    cbn [app Re.search Re.chr].
    rewrite Ascii.eqb_sym. apply negb_true_iff in Hc. rewrite Hc.
    apply IH. exact Hpre.
Qed.

Lemma extractBlockName_first_quoted_witness :
  extractBlockName (lit "FUNCTION_BLOCK " ++ dquote :: lit "FB_Motor"
                      ++ dquote :: lit " // drive")
  = lit "FB_Motor".
Proof.
  apply (extractBlockName_first_quoted (lit "FUNCTION_BLOCK ") (lit "FB_Motor")
                                       (lit " // drive"));
    [reflexivity | reflexivity | discriminate].
Defined.

Lemma extractBlockName_shape (line : str) :
  extractBlockName line = []
  \/ (without dquote (extractBlockName line) = true
      /\ exists pre post,
           line = pre ++ dquote :: extractBlockName line ++ dquote :: post).
Proof.
  unfold extractBlockName.
  destruct (Re.search _ line) as [name|] eqn:E; [|left; reflexivity].
  right. apply search_inv in E as (pre & rest & -> & E).
  unfold Re.chr in E at 1. destruct rest as [|c rest]; [discriminate|].
  destruct (Ascii.eqb dquote c) eqn:Hc; [|discriminate].
  apply Ascii.eqb_eq in Hc. subst c.
  apply plusG_inv in E as (run & rest' & -> & Hne & Hrun & E).
  unfold Re.chr in E. destruct rest' as [|c rest']; [discriminate|].
  destruct (Ascii.eqb dquote c) eqn:Hc; [|discriminate].
  apply Ascii.eqb_eq in Hc. subst c. inversion E; subst.
  split; [exact Hrun|]. exists pre, rest'. reflexivity.
Qed.

Lemma extractBlockName_without (line : str) :
  without dquote (extractBlockName line) = true.
Proof.
  destruct (extractBlockName_shape line) as [->|[H _]]; [reflexivity | exact H].
Qed.

(** X4: whatever the line, the name returned by [extractBlockName] is
    empty or is a non-empty stretch of the line without a double quote
    that stands between two double quotes. *)
Theorem extractBlockName_is_quoted (line : str) :
  extractBlockName line = []
  \/ (extractBlockName line <> []
      /\ without dquote (extractBlockName line) = true
      /\ exists pre post,
           line = pre ++ dquote :: extractBlockName line ++ dquote :: post).
Proof.
  destruct (extractBlockName line) as [|c name] eqn:E; [now left|].
  right. split; [discriminate|].
  destruct (extractBlockName_shape line) as [H|H]; rewrite E in H;
    [discriminate | exact H].
Qed.

(** *** Line comments *)

Lemma lineCommentLoop_found :
  forall (s : str) (b : bool) (sc : option ascii) (i j : nat),
    lineCommentLoop b sc i s = Some j ->
    i <= j /\ nth_error s (j - i) = Some "/"%char
    /\ nth_error s (S (j - i)) = Some "/"%char.
Proof.
  induction s as [|ch s IH]; intros b sc i j H; simpl in H; [discriminate|].
  destruct s as [|next t]; [discriminate|].
  assert (Hrec : forall b' sc', lineCommentLoop b' sc' (S i) (next :: t) = Some j ->
                 i <= j /\ nth_error (ch :: next :: t) (j - i) = Some "/"%char
                 /\ nth_error (ch :: next :: t) (S (j - i)) = Some "/"%char).
  { intros b' sc' H'. apply IH in H' as (Hle & H1 & H2).
    replace (j - i) with (S (j - S i)) by lia. split; [lia|]. split; assumption. }
  destruct b.
  - destruct (match sc with Some q => Ascii.eqb ch q | None => false end);
      eapply Hrec; exact H.
  - destruct (Ascii.eqb ch squote || Ascii.eqb ch dquote); [eapply Hrec; exact H|].
    destruct (Ascii.eqb ch "/"%char && Ascii.eqb next "/"%char) eqn:E;
      [|eapply Hrec; exact H].
    inversion H; subst. apply andb_true_iff in E as [E1 E2].
    apply Ascii.eqb_eq in E1, E2. subst.
    rewrite Nat.sub_diag. auto.
Qed.

(** X5: the index returned by [lineCommentIndex] is the position of two
    consecutive slashes of the line. *)
Theorem lineCommentIndex_points_at_marker (line : str) (i : nat) :
  lineCommentIndex line = Some i ->
  nth_error line i = Some "/"%char /\ nth_error line (S i) = Some "/"%char.
Proof.
  unfold lineCommentIndex. intros H.
  apply lineCommentLoop_found in H as (_ & H1 & H2).
  rewrite Nat.sub_0_r in H1, H2. auto.
Qed.

Lemma lineCommentIndex_points_at_marker_witness :
  lineCommentIndex (lit "#s := 'a//b'; // c") = Some 14
  /\ nth_error (lit "#s := 'a//b'; // c") 14 = Some "/"%char
  /\ nth_error (lit "#s := 'a//b'; // c") 15 = Some "/"%char.
Proof.
  split; [reflexivity|].
  apply (lineCommentIndex_points_at_marker (lit "#s := 'a//b'; // c") 14).
  reflexivity.
Defined.

Lemma startsWith_marker_cons (c n : ascii) (t : str) :
  startsWith (c :: n :: t) (lit "//")
  = Ascii.eqb c "/"%char && Ascii.eqb n "/"%char.
Proof.
  change (startsWith (c :: n :: t) (lit "//"))
    with (Ascii.eqb "/"%char c && (Ascii.eqb "/"%char n && true)).
  rewrite andb_true_r, (Ascii.eqb_sym "/"%char c), (Ascii.eqb_sym "/"%char n).
  reflexivity.
Qed.

Lemma indexOfFrom_marker_short (i : nat) (c : ascii) :
  indexOfFrom i [c] (lit "//") = None.
Proof.
  change (indexOfFrom i [c] (lit "//"))
    with (if Ascii.eqb "/"%char c && false then Some i else None).
  rewrite andb_false_r. reflexivity.
Qed.

Lemma lineCommentLoop_quoteFree :
  forall (s : str) (sc : option ascii) (i : nat),
    quoteFree s = true ->
    lineCommentLoop false sc i s = indexOfFrom i s (lit "//").
Proof.
  induction s as [|ch s IH]; intros sc i H; [reflexivity|].
  simpl in H. apply andb_true_iff in H as [Hch Hs].
  apply negb_true_iff in Hch. unfold isQuote in Hch.
  destruct s as [|next t].
  - rewrite indexOfFrom_marker_short. reflexivity.
  - cbn [lineCommentLoop]. rewrite Hch.
    cbn [indexOfFrom]. rewrite startsWith_marker_cons.
    destruct (Ascii.eqb ch "/"%char && Ascii.eqb next "/"%char); [reflexivity|].
    apply IH. exact Hs.
Qed.

(** X6: on a line without quote characters, [lineCommentIndex] is the
    first occurrence of two slashes, as [indexOf] finds it. *)
Theorem lineCommentIndex_without_quotes (line : str) :
  quoteFree line = true -> lineCommentIndex line = indexOf line (lit "//").
Proof. intros H. apply lineCommentLoop_quoteFree. exact H. Qed.

Lemma lineCommentIndex_without_quotes_witness :
  lineCommentIndex (lit "  #a := #b / 2; // half") = Some 16
  /\ indexOf (lit "  #a := #b / 2; // half") (lit "//") = Some 16.
Proof.
  split; [reflexivity|].
  rewrite <- (lineCommentIndex_without_quotes (lit "  #a := #b / 2; // half"));
    reflexivity.
Defined.

Lemma lineCommentLoop_step (b : bool) (sc : option ascii) (i : nat)
      (ch next : ascii) (t : str) :
  lineCommentLoop b sc i (ch :: next :: t)
  = if b then
      if match sc with Some q => Ascii.eqb ch q | None => false end
      then lineCommentLoop false sc (S i) (next :: t)
      else lineCommentLoop true sc (S i) (next :: t)
    else if Ascii.eqb ch squote || Ascii.eqb ch dquote
    then lineCommentLoop true (Some ch) (S i) (next :: t)
    else if Ascii.eqb ch "/"%char && Ascii.eqb next "/"%char
    then Some i
    else lineCommentLoop false sc (S i) (next :: t).
Proof. reflexivity. Qed.

Lemma lineCommentLoop_shift :
  forall (s : str) (b : bool) (sc : option ascii) (i : nat),
    lineCommentLoop b sc i s = option_map (fun j => i + j) (lineCommentLoop b sc 0 s).
Proof.
  induction s as [|ch s IH]; intros b sc i; [reflexivity|].
  destruct s as [|next t]; [reflexivity|].
  rewrite !lineCommentLoop_step.
  assert (Hrec : forall b' sc',
             lineCommentLoop b' sc' (S i) (next :: t)
             = option_map (fun j => i + j) (lineCommentLoop b' sc' 1 (next :: t))).
  { intros b' sc'. rewrite (IH b' sc' (S i)), (IH b' sc' 1).
    destruct (lineCommentLoop b' sc' 0 (next :: t)); simpl; [f_equal; lia | reflexivity]. }
  destruct b.
  - destruct (match sc with Some q => Ascii.eqb ch q | None => false end); apply Hrec.
  - destruct (Ascii.eqb ch squote || Ascii.eqb ch dquote); [apply Hrec|].
    destruct (Ascii.eqb ch "/"%char && Ascii.eqb next "/"%char); [|apply Hrec].
    simpl. f_equal. lia.
Qed.

Lemma lineCommentLoop_outside_any :
  forall (s : str) (sc sc' : option ascii) (i : nat),
    lineCommentLoop false sc i s = lineCommentLoop false sc' i s.
Proof.
  induction s as [|ch s IH]; intros sc sc' i; [reflexivity|].
  destruct s as [|next t]; [reflexivity|].
  rewrite !lineCommentLoop_step.
  destruct (Ascii.eqb ch squote || Ascii.eqb ch dquote); [reflexivity|].
  destruct (Ascii.eqb ch "/"%char && Ascii.eqb next "/"%char); [reflexivity|].
  apply IH.
Qed.

(** Inside a literal opened by [q], the loop runs to the closing [q]. *)
Lemma lineCommentLoop_inside (q : ascii) :
  forall (body post : str) (i : nat),
    without q body = true ->
    lineCommentLoop true (Some q) i (body ++ q :: post)
    = lineCommentLoop false (Some q) (i + length body + 1) post.
Proof.
  induction body as [|c body IH]; intros post i H.
  - cbn [app length]. destruct post as [|n post].
    + reflexivity.
    + rewrite lineCommentLoop_step. rewrite Ascii.eqb_refl. f_equal. lia.
  - simpl in H. apply andb_true_iff in H as [Hc H]. apply negb_true_iff in Hc.
    cbn [app length].
    destruct (body ++ q :: post) as [|n rest] eqn:E;
      [destruct body; discriminate|].
    rewrite lineCommentLoop_step. rewrite Hc. rewrite <- E.
    rewrite IH by exact H. f_equal. lia.
Qed.

(** X7: a complete string literal is passed over: when nothing in front
    of it starts a comment, a line comment is looked for behind its closing
    quote only, whatever the literal holds. *)
Theorem lineCommentIndex_skips_literal (pre body post : str) (q : ascii) :
  isQuote q = true -> quoteFree pre = true ->
  indexOf pre (lit "//") = None -> without q body = true ->
  lineCommentIndex (pre ++ q :: body ++ q :: post)
  = option_map (fun j => length pre + length body + 2 + j) (lineCommentIndex post).
Proof.
  intros Hq Hpre Hno Hbody. unfold lineCommentIndex.
  assert (Hgen : forall i,
             indexOfFrom i pre (lit "//") = None ->
             lineCommentLoop false None i (pre ++ q :: body ++ q :: post)
             = lineCommentLoop false None (i + length pre + length body + 2) post).
  { clear Hno. induction pre as [|c pre IH]; intros i Hno.
    - cbn [app length].
      destruct (body ++ q :: post) as [|n rest] eqn:E;
        [destruct body; discriminate|].
      rewrite lineCommentLoop_step. unfold isQuote in Hq. rewrite Hq. rewrite <- E.
      rewrite lineCommentLoop_inside by exact Hbody.
      rewrite (lineCommentLoop_outside_any post (Some q) None). f_equal. lia.
    - simpl in Hpre. apply andb_true_iff in Hpre as [Hc Hpre].
      apply negb_true_iff in Hc. unfold isQuote in Hc.
      cbn [indexOfFrom] in Hno.
      destruct (startsWith (c :: pre) (lit "//")) eqn:Es; [discriminate|].
      cbn [app length].
      destruct (pre ++ q :: body ++ q :: post) as [|n rest] eqn:E;
        [destruct pre; discriminate|].
      rewrite lineCommentLoop_step. rewrite Hc.
      assert (Hm : Ascii.eqb c "/"%char && Ascii.eqb n "/"%char = false).
      { destruct (Ascii.eqb c "/"%char) eqn:E1; [|reflexivity].
        destruct (Ascii.eqb n "/"%char) eqn:E2; [|reflexivity].
        apply Ascii.eqb_eq in E1, E2. subst c n.
        destruct pre as [|p pre].
        - simpl in E. inversion E; subst. discriminate.
        - simpl in E. inversion E; subst.
          rewrite startsWith_marker_cons in Es. discriminate. }
      rewrite Hm. rewrite (IH Hpre (S i) Hno). f_equal. lia. }
  rewrite (Hgen 0 Hno). rewrite lineCommentLoop_shift. simpl.
  destruct (lineCommentLoop false None 0 post); simpl; [f_equal; lia | reflexivity].
Qed.

Lemma lineCommentIndex_skips_literal_witness :
  lineCommentIndex (lit "#s := " ++ squote :: lit "a//b" ++ squote :: lit "; // c")
  = option_map (fun j => 6 + 4 + 2 + j) (lineCommentIndex (lit "; // c")).
Proof.
  apply (lineCommentIndex_skips_literal (lit "#s := ") (lit "a//b") (lit "; // c") squote);
    reflexivity.
Defined.

(** *** Block comments *)

Lemma indexOfFrom_hit (i : nat) (s sub : str) :
  startsWith s sub = true -> indexOfFrom i s sub = Some i.
Proof. intros H. destruct s; cbn [indexOfFrom]; rewrite H; reflexivity. Qed.

Lemma indexOfFrom_miss (k : nat) (c : ascii) (rest sub : str) :
  startsWith (c :: rest) sub = false ->
  indexOfFrom k (c :: rest) sub = indexOfFrom (S k) rest sub.
Proof. intros H. cbn [indexOfFrom]. rewrite H. reflexivity. Qed.

Lemma startsWith_opener_cons (c c' : ascii) (t : str) :
  startsWith (c :: c' :: t) (lit "(*")
  = Ascii.eqb c "("%char && Ascii.eqb c' "*"%char.
Proof.
  change (startsWith (c :: c' :: t) (lit "(*"))
    with (Ascii.eqb "("%char c && (Ascii.eqb "*"%char c' && true)).
  rewrite andb_true_r, (Ascii.eqb_sym "("%char c), (Ascii.eqb_sym "*"%char c').
  reflexivity.
Qed.

Lemma startsWith_opener_space (rest : str) :
  startsWith (space :: rest) (lit "(*") = false.
Proof. reflexivity. Qed.

Lemma indexOfFrom_opener_short (k : nat) (c : ascii) :
  indexOfFrom k [c] (lit "(*") = None.
Proof.
  change (indexOfFrom k [c] (lit "(*"))
    with (if Ascii.eqb "("%char c && false then Some k else None).
  rewrite andb_false_r. reflexivity.
Qed.

(** The first character of a blanked line is the first character of the
    line, or a space. *)
Lemma blankComments_head (c : ascii) (t : str) :
  exists d rest, blankComments false (c :: t) = d :: rest /\ (d = c \/ d = space).
Proof.
  cbn [blankComments]. destruct t as [|c' t'].
  - exists c, []. auto.
  - destruct (Ascii.eqb c "("%char && Ascii.eqb c' "*"%char).
    + destruct (includes t' (lit "*)")); eexists; eexists; split; eauto.
    + eexists; eexists; split; eauto.
Qed.

Lemma blankComments_outside_step (c c' : ascii) (t' : str) :
  blankComments false (c :: c' :: t')
  = if Ascii.eqb c "("%char && Ascii.eqb c' "*"%char
    then if includes t' (lit "*)")
         then space :: space :: blankComments true t'
         else c :: c' :: t'
    else c :: blankComments false (c' :: t').
Proof. reflexivity. Qed.

Lemma blankComments_inside_step (c c' : ascii) (t' : str) :
  blankComments true (c :: c' :: t')
  = if Ascii.eqb c "*"%char && Ascii.eqb c' ")"%char
    then space :: space :: blankComments false t'
    else space :: blankComments true (c' :: t').
Proof. reflexivity. Qed.

Lemma blankComments_remaining_opener (n : nat) :
  forall (s : str) (inside : bool) (k i : nat),
    length s <= n ->
    indexOfFrom k (blankComments inside s) (lit "(*") = Some i ->
    k <= i
    /\ includes (skipn (i - k + 2) (blankComments inside s)) (lit "*)") = false.
Proof.
  induction n as [|n IH]; intros s inside k i Hlen H.
  - destruct s; [|simpl in Hlen; lia]. destruct inside; discriminate.
  - destruct s as [|c [|c' t']].
    + destruct inside; discriminate.
    + destruct inside; cbn [blankComments] in H;
        rewrite indexOfFrom_opener_short in H; discriminate.
    + simpl in Hlen. destruct inside.
      * (* inside a comment *)
        rewrite blankComments_inside_step in *.
        destruct (Ascii.eqb c "*"%char && Ascii.eqb c' ")"%char).
        -- rewrite indexOfFrom_miss in H by apply startsWith_opener_space.
           rewrite indexOfFrom_miss in H by apply startsWith_opener_space.
           apply IH in H; [|lia]. destruct H as [Hle Hinc]. split; [lia|].
           replace (i - k + 2) with (S (S (i - S (S k) + 2))) by lia.
           exact Hinc.
        -- rewrite indexOfFrom_miss in H by apply startsWith_opener_space.
           apply IH in H; [|simpl; lia]. destruct H as [Hle Hinc]. split; [lia|].
           replace (i - k + 2) with (S (i - S k + 2)) by lia.
           exact Hinc.
      * (* outside *)
        rewrite blankComments_outside_step in *.
        destruct (Ascii.eqb c "("%char && Ascii.eqb c' "*"%char) eqn:Eo.
        -- destruct (includes t' (lit "*)")) eqn:Et.
           ++ rewrite indexOfFrom_miss in H by apply startsWith_opener_space.
              rewrite indexOfFrom_miss in H by apply startsWith_opener_space.
              apply IH in H; [|lia]. destruct H as [Hle Hinc]. split; [lia|].
              replace (i - k + 2) with (S (S (i - S (S k) + 2))) by lia.
              exact Hinc.
           ++ rewrite indexOfFrom_hit in H
                by (rewrite startsWith_opener_cons; exact Eo).
              inversion H; subst i. split; [lia|].
              rewrite Nat.sub_diag. exact Et.
        -- destruct (blankComments_head c' t') as (d & rest & Er & Hd).
           rewrite indexOfFrom_miss in H.
           ++ apply IH in H; [|simpl; lia]. destruct H as [Hle Hinc]. split; [lia|].
              replace (i - k + 2) with (S (i - S k + 2)) by lia.
              exact Hinc.
           ++ rewrite Er, startsWith_opener_cons.
              destruct Hd as [->| ->]; [exact Eo|].
              apply andb_false_r.
Qed.

(** X8: after the block comments of a line are blanked, a comment opener
    that remains has no terminator behind it: it opens a comment that runs
    on to a later line. *)
Theorem stripBlockComments_leaves_open_comments_only (line : str) (i : nat) :
  indexOf (stripBlockComments line) (lit "(*") = Some i ->
  includes (skipn (i + 2) (stripBlockComments line)) (lit "*)") = false.
Proof.
  unfold indexOf, stripBlockComments. intros H.
  apply (blankComments_remaining_opener (length line)) in H; [|lia].
  destruct H as [_ H]. rewrite Nat.sub_0_r in H. exact H.
Qed.

Lemma stripBlockComments_leaves_open_comments_only_witness :
  indexOf (stripBlockComments (lit "#a := 1; (* one *) #b := 2; (* two")) (lit "(*")
  = Some 28
  /\ includes (skipn (28 + 2)
                     (stripBlockComments (lit "#a := 1; (* one *) #b := 2; (* two")))
              (lit "*)") = false.
Proof.
  split; [reflexivity|].
  apply (stripBlockComments_leaves_open_comments_only
           (lit "#a := 1; (* one *) #b := 2; (* two") 28).
  reflexivity.
Defined.

(** ** One line of the scan, field by field *)

Lemma processLine_cases (idx : nat) (l : str) (st : State) :
  (exists c, processLine idx l st = setInBlockComment c st)
  \/ (exists c o,
        stripComments (inBlockComment st) l = Some (c, o)
        /\ nonEmpty (trim (stripStrings o)) = true
        /\ processLine idx l st
           = classify idx o (trim (stripStrings o))
                      (toUpperCase (trim (stripStrings o)))
                      (trackUsage o (setInBlockComment c st))).
Proof.
  unfold processLine. destruct (stripComments _ _) as [[c o]|] eqn:E.
  - destruct (nonEmpty _) eqn:En.
    + right. exists c, o. auto.
    + left. exists c. reflexivity.
  - left. exists (inBlockComment st). symmetry. apply setInBlockComment_id.
Qed.

Lemma classify_classified (idx : nat) (o t u : str) (st : State) :
  classified idx o t u st (classify idx o t u st).
Proof.
  unfold classify.
  destruct (startsWith t (lit "{") && isSome (currentBlock st)) eqn:Ep.
  { apply andb_true_iff in Ep as [Ep _]. now constructor. }
  destruct (startsWith u (lit "VERSION") && isSome (currentBlock st)) eqn:Ev.
  { apply andb_true_iff in Ev as [Ev _]. now constructor. }
  destruct (find _ (keys BLOCK_PAIRS)) as [k|] eqn:E1.
  { apply find_some in E1 as [Hin _]. now constructor. }
  destruct (find _ (keys BLOCK_END_TO_OPEN)) as [k|] eqn:E2.
  { apply find_some in E2 as [Hin _]. now constructor. }
  destruct (streq u (lit "BEGIN")) eqn:Eb; [now constructor|].
  destruct (matchKeyword u (lit "END_VAR") || matchKeyword u (lit "END_STRUCT"));
    [constructor|].
  destruct (startsWith u (lit "VAR") && includes u (lit "CONSTANT")
            && negb (startsWith u (lit "VAR_"))).
  { constructor. unfold sectionKeywords. apply in_or_app. right. now left. }
  destruct (find _ VAR_OPENS) as [k|] eqn:E3.
  { apply find_some in E3 as [Hin _]. constructor.
    unfold sectionKeywords. apply in_or_app. now left. }
  destruct (nonEmpty (currentVarSection st) && negb (afterBegin st)) eqn:E4.
  { apply andb_true_iff in E4 as [E4 _]. constructor.
    destruct (currentVarSection st); [discriminate | discriminate]. }
  destruct (afterBegin st) eqn:Ea; now constructor.
Qed.

Ltac kept := simpl; autorewrite with scan; simpl; try assumption.

(** The fields read by the classification are those of the state in front
    of the line. *)
Lemma tracked_fields (o : str) (c : bool) (st : State) :
  let st1 := trackUsage o (setInBlockComment c st) in
  ParseResult.blocks (result st1) = ParseResult.blocks (result st)
  /\ ParseResult.variables (result st1) = ParseResult.variables (result st)
  /\ ParseResult.unmatchedCloses (result st1) = ParseResult.unmatchedCloses (result st)
  /\ ParseResult.exitOutsideLoop (result st1) = ParseResult.exitOutsideLoop (result st)
  /\ blockStack st1 = blockStack st /\ varStack st1 = varStack st
  /\ controlStack st1 = controlStack st /\ currentBlock st1 = currentBlock st
  /\ currentVarSection st1 = currentVarSection st
  /\ afterBegin st1 = afterBegin st
  /\ currentBlockName st1 = currentBlockName st.
Proof.
  simpl. unfold currentBlockName. autorewrite with scan. simpl.
  repeat split; reflexivity.
Qed.

(** *** The stacks *)

Lemma classify_blockStack_Forall (P : StackEntry.t -> Prop)
      (idx : nat) (o t u : str) (st : State) :
  (forall k, In k (keys BLOCK_PAIRS) -> P (StackEntry.mk k idx 0)) ->
  Forall P (blockStack st) ->
  Forall P (blockStack (classify idx o t u st)).
Proof.
  intros Hnew H. destruct (classify_classified idx o t u st); kept;
    try (apply Forall_snoc; now auto).
  unfold closeBlock. destruct_matches; kept; now apply Forall_pop.
Qed.

Lemma processLine_blockStack_Forall (P : StackEntry.t -> Prop)
      (idx : nat) (l : str) (st : State) :
  (forall k, In k (keys BLOCK_PAIRS) -> P (StackEntry.mk k idx 0)) ->
  Forall P (blockStack st) ->
  Forall P (blockStack (processLine idx l st)).
Proof.
  intros Hnew H.
  destruct (processLine_cases idx l st) as [[c ->]|(c & o & _ & _ & ->)];
    [exact H|].
  apply classify_blockStack_Forall; [exact Hnew|].
  destruct (tracked_fields o c st) as (_ & _ & _ & _ & -> & _). exact H.
Qed.

Lemma classify_varStack_Forall (P : StackEntry.t -> Prop)
      (idx : nat) (o t u : str) (st : State) :
  (forall k, In k sectionKeywords -> P (StackEntry.mk k idx 0)) ->
  Forall P (varStack st) ->
  Forall P (varStack (classify idx o t u st)).
Proof.
  intros Hnew H. destruct (classify_classified idx o t u st); kept;
    try (apply Forall_snoc; now auto).
  unfold closeVarSection. destruct_matches; kept; now apply Forall_pop.
Qed.

Lemma processLine_varStack_Forall (P : StackEntry.t -> Prop)
      (idx : nat) (l : str) (st : State) :
  (forall k, In k sectionKeywords -> P (StackEntry.mk k idx 0)) ->
  Forall P (varStack st) ->
  Forall P (varStack (processLine idx l st)).
Proof.
  intros Hnew H.
  destruct (processLine_cases idx l st) as [[c ->]|(c & o & _ & _ & ->)];
    [exact H|].
  apply classify_varStack_Forall; [exact Hnew|].
  destruct (tracked_fields o c st) as (_ & _ & _ & _ & _ & -> & _). exact H.
Qed.

(** The current section is empty or the keyword of a VAR frame. *)
Lemma classify_currentVarSection (idx : nat) (o t u : str) (st : State) :
  Forall (fun e => In (StackEntry.keyword e) sectionKeywords) (varStack st) ->
  currentVarSection st = [] \/ In (currentVarSection st) sectionKeywords ->
  currentVarSection (classify idx o t u st) = []
  \/ In (currentVarSection (classify idx o t u st)) sectionKeywords.
Proof.
  intros Hs H. destruct (classify_classified idx o t u st); kept;
    try (now right).
  unfold closeVarSection. destruct (nonEmpty (varStack st)); kept.
  destruct (top (pop (varStack st))) as [e|] eqn:E; [|now left].
  right. apply top_In in E. apply Forall_pop in Hs.
  rewrite Forall_forall in Hs. now apply Hs.
Qed.

Lemma processLine_currentVarSection (idx : nat) (l : str) (st : State) :
  Forall (fun e => In (StackEntry.keyword e) sectionKeywords) (varStack st) ->
  currentVarSection st = [] \/ In (currentVarSection st) sectionKeywords ->
  currentVarSection (processLine idx l st) = []
  \/ In (currentVarSection (processLine idx l st)) sectionKeywords.
Proof.
  intros Hs H.
  destruct (processLine_cases idx l st) as [[c ->]|(c & o & _ & _ & ->)];
    [exact H|].
  destruct (tracked_fields o c st) as (_ & _ & _ & _ & _ & Ev & _ & _ & Ec & _).
  apply classify_currentVarSection; [rewrite Ev | rewrite Ec]; assumption.
Qed.

Lemma controlFlow_controlStack_table (P : StackEntry.t -> Prop)
      (i : nat) (t u : str) (st : State) :
  (forall k, In k (keys CONTROL_PAIRS) -> P (StackEntry.mk k i 0)) ->
  Forall P (controlStack st) ->
  Forall P (controlStack (controlFlow i t u st)).
Proof.
  intros Hnew H. unfold controlFlow.
  destruct (matchKeyword u (lit "CASE")).
  - unfold caseOpen. autorewrite with scan. simpl. autorewrite with scan.
    apply Forall_snoc; [exact H|]. apply Hnew. vm_compute. auto 10.
  - destruct (_ && _); [autorewrite with scan; exact H|].
    autorewrite with scan.
    assert (H1 : Forall P (controlStack (ifOpen i u (markCode t u st)))).
    { unfold ifOpen. destruct (_ && _); simpl; autorewrite with scan;
        [|exact H].
      apply Forall_snoc; [exact H|]. apply Hnew. vm_compute. auto 10. }
    assert (H2 : Forall P (controlStack (loopOpen i u (ifOpen i u (markCode t u st))))).
    { unfold loopOpen at 1.
      destruct (find _ _) as [k|] eqn:E; simpl; [|exact H1].
      apply Forall_snoc; [exact H1|]. apply Hnew.
      apply find_some in E as [Hin _].
      simpl in Hin. vm_compute.
      repeat destruct Hin as [<-|Hin]; auto 10; try contradiction. }
    unfold controlClose at 1. destruct (find _ _); [|exact H2].
    destruct_matches; simpl; autorewrite with scan; try exact H2.
    now apply Forall_pop.
Qed.

Lemma classify_controlStack_Forall (P : StackEntry.t -> Prop)
      (idx : nat) (o t u : str) (st : State) :
  (forall k, In k (keys CONTROL_PAIRS) -> P (StackEntry.mk k idx 0)) ->
  Forall P (controlStack st) ->
  Forall P (controlStack (classify idx o t u st)).
Proof.
  intros Hnew H. destruct (classify_classified idx o t u st); kept.
  now apply controlFlow_controlStack_table.
Qed.

Lemma processLine_controlStack_Forall (P : StackEntry.t -> Prop)
      (idx : nat) (l : str) (st : State) :
  (forall k, In k (keys CONTROL_PAIRS) -> P (StackEntry.mk k idx 0)) ->
  Forall P (controlStack st) ->
  Forall P (controlStack (processLine idx l st)).
Proof.
  intros Hnew H.
  destruct (processLine_cases idx l st) as [[c ->]|(c & o & _ & _ & ->)];
    [exact H|].
  apply classify_controlStack_Forall; [exact Hnew|].
  destruct (tracked_fields o c st) as (_ & _ & _ & _ & _ & _ & -> & _). exact H.
Qed.

(** *** Unmatched closers and stray EXIT statements *)

Lemma controlFlow_unmatchedCloses_Forall (P : StackEntry.t -> Prop)
      (i : nat) (t u : str) (st : State) :
  (forall k, In k (keys CONTROL_END_TO_OPEN) -> P (StackEntry.mk k i 0)) ->
  Forall P (ParseResult.unmatchedCloses (result st)) ->
  Forall P (ParseResult.unmatchedCloses (result (controlFlow i t u st))).
Proof.
  intros Hnew H. unfold controlFlow.
  destruct (matchKeyword u (lit "CASE")); [kept|].
  destruct (_ && _); [kept|].
  autorewrite with scan.
  unfold controlClose. destruct (find _ _) as [k|] eqn:E; [|kept].
  apply find_some in E as [Hin _].
  destruct_matches; kept; apply Forall_snoc; auto.
Qed.

Lemma classify_unmatchedCloses_Forall (P : StackEntry.t -> Prop)
      (idx : nat) (o t u : str) (st : State) :
  (forall k, In k closerKeywords -> P (StackEntry.mk k idx 0)) ->
  Forall P (ParseResult.unmatchedCloses (result st)) ->
  Forall P (ParseResult.unmatchedCloses (result (classify idx o t u st))).
Proof.
  intros Hnew H. destruct (classify_classified idx o t u st); kept.
  - unfold closeBlock. destruct_matches; kept;
      apply Forall_snoc; try assumption;
      apply Hnew; unfold closerKeywords; apply in_or_app; now left.
  - unfold closeVarSection. destruct_matches; kept;
      apply Forall_snoc; try assumption; apply Hnew; vm_compute; auto 20.
  - apply controlFlow_unmatchedCloses_Forall; [|exact H].
    intros k Hk. apply Hnew. unfold closerKeywords.
    apply in_or_app. right. apply in_or_app. now right.
Qed.

Lemma processLine_unmatchedCloses_Forall (P : StackEntry.t -> Prop)
      (idx : nat) (l : str) (st : State) :
  (forall k, In k closerKeywords -> P (StackEntry.mk k idx 0)) ->
  Forall P (ParseResult.unmatchedCloses (result st)) ->
  Forall P (ParseResult.unmatchedCloses (result (processLine idx l st))).
Proof.
  intros Hnew H.
  destruct (processLine_cases idx l st) as [[c ->]|(c & o & _ & _ & ->)];
    [exact H|].
  apply classify_unmatchedCloses_Forall; [exact Hnew|].
  destruct (tracked_fields o c st) as (_ & _ & -> & _). exact H.
Qed.

Lemma controlFlow_exitOutsideLoop_Forall (P : StackEntry.t -> Prop)
      (i : nat) (t u : str) (st : State) :
  (forall k, In k exitKeywords -> P (StackEntry.mk k i 0)) ->
  Forall P (ParseResult.exitOutsideLoop (result st)) ->
  Forall P (ParseResult.exitOutsideLoop (result (controlFlow i t u st))).
Proof.
  intros Hnew H. unfold controlFlow.
  destruct (matchKeyword u (lit "CASE")); [kept|].
  destruct (_ && _); [kept|].
  unfold exitCheck. destruct_matches; kept;
    apply Forall_snoc; try assumption; apply Hnew; vm_compute; auto.
Qed.

Lemma classify_exitOutsideLoop_Forall (P : StackEntry.t -> Prop)
      (idx : nat) (o t u : str) (st : State) :
  (forall k, In k exitKeywords -> P (StackEntry.mk k idx 0)) ->
  Forall P (ParseResult.exitOutsideLoop (result st)) ->
  Forall P (ParseResult.exitOutsideLoop (result (classify idx o t u st))).
Proof.
  intros Hnew H. destruct (classify_classified idx o t u st); kept.
  now apply controlFlow_exitOutsideLoop_Forall.
Qed.

Lemma processLine_exitOutsideLoop_Forall (P : StackEntry.t -> Prop)
      (idx : nat) (l : str) (st : State) :
  (forall k, In k exitKeywords -> P (StackEntry.mk k idx 0)) ->
  Forall P (ParseResult.exitOutsideLoop (result st)) ->
  Forall P (ParseResult.exitOutsideLoop (result (processLine idx l st))).
Proof.
  intros Hnew H.
  destruct (processLine_cases idx l st) as [[c ->]|(c & o & _ & _ & ->)];
    [exact H|].
  apply classify_exitOutsideLoop_Forall; [exact Hnew|].
  destruct (tracked_fields o c st) as (_ & _ & _ & -> & _). exact H.
Qed.

(** *** Declarations *)

Section RegexCaptures.
Variable A : Type.

Lemma starL_inv (p : ascii -> bool) (k : str -> str -> option A) :
  forall (s acc : str) (r : A),
    Re.starL p acc s k = Some r ->
    exists run rest, s = run ++ rest /\ forallb p run = true
                     /\ k (acc ++ run) rest = Some r.
Proof.
  induction s as [|c s IH]; intros acc r H; simpl in H.
  - destruct (k acc []) eqn:E; [|discriminate]. inversion H; subst.
    exists [], []. repeat split. rewrite app_nil_r. exact E.
  - destruct (k acc (c :: s)) eqn:E.
    + inversion H; subst. exists [], (c :: s). repeat split.
      rewrite app_nil_r. exact E.
    + destruct (p c) eqn:Hc; [|discriminate].
      apply IH in H as (run & rest & -> & Hrun & Hk).
      exists (c :: run), rest. simpl. rewrite Hc, Hrun.
      rewrite <- app_assoc in Hk. auto.
Qed.

Lemma plusL_inv (p : ascii -> bool) (k : str -> str -> option A) (s : str) (r : A) :
  Re.plusL p s k = Some r ->
  exists run rest, s = run ++ rest /\ k run rest = Some r.
Proof.
  unfold Re.plusL. destruct s as [|c s]; [discriminate|].
  destruct (p c); [|discriminate].
  intros H. apply starL_inv in H as (run & rest & -> & _ & Hk).
  exists (c :: run), rest. auto.
Qed.

Lemma chr_inv (c : ascii) (s : str) (k : str -> option A) (r : A) :
  Re.chr c s k = Some r -> exists rest, s = c :: rest /\ k rest = Some r.
Proof.
  unfold Re.chr. destruct s as [|c' s]; [discriminate|].
  destruct (Ascii.eqb c c') eqn:E; [|discriminate].
  apply Ascii.eqb_eq in E. subst. intros H. exists s. auto.
Qed.

Lemma optG_inv (re : str -> (str -> option A) -> option A) (s : str)
      (k : str -> option A) (r : A) :
  Re.optG re s k = Some r -> re s k = Some r \/ k s = Some r.
Proof.
  unfold Re.optG. destruct (re s k) eqn:E; [|now right].
  intros H. inversion H; subst. now left.
Qed.

End RegexCaptures.

Ltac regex_inv H :=
  repeat first
    [ apply plusG_inv in H as (? & ? & ? & ? & ? & H)
    | apply starG_inv in H as (? & ? & ? & ? & H)
    | apply plusL_inv in H as (? & ? & ? & H)
    | apply chr_inv in H as (? & ? & H) ].

(** The first capture of either declaration pattern is a non-empty run of
    word characters at the start of the string. *)
Lemma varDeclRe_name (s n g : str) :
  varDeclRe s = Some (n, g) ->
  n <> [] /\ forallb isWord n = true /\ exists rest, s = n ++ rest.
Proof.
  unfold varDeclRe. intros H.
  apply plusG_inv in H as (run & rest & -> & Hne & Hrun & H).
  assert (E : n = run).
  { regex_inv H. apply optG_inv in H as [H|H]; regex_inv H;
      inversion H; reflexivity. }
  subst. repeat split; auto. now exists rest.
Qed.

Lemma simpleDeclRe_name (s n g : str) :
  simpleDeclRe s = Some (n, g) ->
  n <> [] /\ forallb isWord n = true /\ exists rest, s = n ++ rest.
Proof.
  unfold simpleDeclRe. intros H.
  apply plusG_inv in H as (run & rest & -> & Hne & Hrun & H).
  assert (E : n = run).
  { regex_inv H. inversion H; reflexivity. }
  subst. repeat split; auto. now exists rest.
Qed.

Lemma indexOfZ_prefix (n rest : str) : indexOfZ (n ++ rest) n = 0%Z.
Proof.
  unfold indexOfZ, indexOf.
  rewrite indexOfFrom_hit by apply startsWith_prefix. reflexivity.
Qed.

Lemma declareVariable_variables_Forall (P : VariableDecl.t -> Prop)
      (idx : nat) (o : str) (st : State) :
  currentVarSection st <> [] ->
  (forall v, declared idx st v -> P v) ->
  Forall P (ParseResult.variables (result st)) ->
  Forall P (ParseResult.variables (result (declareVariable idx o st))).
Proof.
  intros Hsec Hnew H. unfold declareVariable.
  destruct (varDeclRe (trim o)) as [[n g]|] eqn:E.
  - destruct (isKeyword n) eqn:Ek; simpl; [exact H|].
    apply Forall_snoc; [exact H|]. apply Hnew.
    apply varDeclRe_name in E as (Hne & Hw & rest & Er).
    unfold declared. simpl. rewrite Er, indexOfZ_prefix. repeat split; auto.
  - destruct (simpleDeclRe (trim o)) as [[n g]|] eqn:E'; [|exact H].
    destruct (isKeyword n) eqn:Ek; simpl; [exact H|].
    apply Forall_snoc; [exact H|]. apply Hnew.
    apply simpleDeclRe_name in E' as (Hne & Hw & _).
    unfold declared. simpl. repeat split; auto.
Qed.

Lemma classify_variables_Forall (P : VariableDecl.t -> Prop)
      (idx : nat) (o t u : str) (st : State) :
  (forall v, declared idx st v -> P v) ->
  Forall P (ParseResult.variables (result st)) ->
  Forall P (ParseResult.variables (result (classify idx o t u st))).
Proof.
  intros Hnew H. destruct (classify_classified idx o t u st); kept.
  now apply declareVariable_variables_Forall.
Qed.

Lemma processLine_variables_Forall (P : VariableDecl.t -> Prop)
      (idx : nat) (l : str) (st : State) :
  (forall v, declared idx st v -> P v) ->
  Forall P (ParseResult.variables (result st)) ->
  Forall P (ParseResult.variables (result (processLine idx l st))).
Proof.
  intros Hnew H.
  destruct (processLine_cases idx l st) as [[c ->]|(c & o & _ & _ & ->)];
    [exact H|].
  destruct (tracked_fields o c st)
    as (_ & Ev & _ & _ & _ & _ & _ & _ & Ec & _ & En).
  apply classify_variables_Forall; [|rewrite Ev; exact H].
  intros v Hv. apply Hnew. unfold declared in *. rewrite Ec, En in Hv. exact Hv.
Qed.

(** *** Blocks *)

Lemma updAt_updAt (A : Type) (f g : A -> A) :
  forall (l : list A) (i : nat),
    updAt i g (updAt i f l) = updAt i (fun x => g (f x)) l.
Proof.
  induction l as [|x l IH]; intros [|i]; simpl; try reflexivity.
  now rewrite IH.
Qed.

Lemma updAt_same (A : Type) (f : A -> A) :
  (forall x, f x = x) -> forall (l : list A) (i : nat), updAt i f l = l.
Proof.
  intros Hf. induction l as [|x l IH]; intros [|i]; simpl; try reflexivity.
  - now rewrite Hf.
  - now rewrite IH.
Qed.

Lemma map_updAt (A B : Type) (p : A -> B) (f : A -> A) :
  (forall x, p (f x) = p x) ->
  forall (l : list A) (i : nat), map p (updAt i f l) = map p l.
Proof.
  intros Hf. induction l as [|x l IH]; intros [|i]; simpl; try reflexivity.
  - now rewrite Hf.
  - now rewrite IH.
Qed.

Lemma mutateCurrent_none (f : BlockDecl.t -> BlockDecl.t) (st : State) :
  currentBlock st = None -> mutateCurrent f st = st.
Proof. unfold mutateCurrent. now intros ->. Qed.

Lemma mutateCurrent_some (f : BlockDecl.t -> BlockDecl.t) (st : State) (c : nat) :
  currentBlock st = Some c ->
  ParseResult.blocks (result (mutateCurrent f st))
  = updAt c f (ParseResult.blocks (result st)).
Proof. unfold mutateCurrent. now intros ->. Qed.

Lemma flagsKept_refl (b : BlockDecl.t) : flagsKept b b.
Proof. repeat split; auto. Qed.

Lemma flagsKept_trans (a b c : BlockDecl.t) :
  flagsKept a b -> flagsKept b c -> flagsKept a c.
Proof.
  intros (H1 & H2 & H3 & H4) (K1 & K2 & K3 & K4). repeat split; auto.
Qed.

Lemma edited_flag (idx : nat) (control : list StackEntry.t)
      (f : BlockDecl.t -> BlockDecl.t) :
  (forall b, blockId (f b) = blockId b) ->
  (forall b, BlockDecl.endLine (f b) = BlockDecl.endLine b) ->
  (forall b, flagsKept b (f b)) ->
  (forall b, BlockDecl.hasCaseElse (f b) = BlockDecl.hasCaseElse b) ->
  forall b, edited idx control b (f b).
Proof. intros H1 H2 H3 H4 b. unfold edited. auto. Qed.

Ltac flags := intros; unfold flagsKept; simpl; auto.

Lemma mutateCurrent_blockStep (idx : nat) (f : BlockDecl.t -> BlockDecl.t)
      (st : State) :
  (forall b, edited idx (controlStack st) b (f b)) ->
  blockStep idx st (mutateCurrent f st).
Proof.
  intros Hf. unfold blockStep.
  destruct (currentBlock st) as [c|] eqn:Ec.
  - right. right. left. exists c, f.
    rewrite (mutateCurrent_some f st c Ec). autorewrite with scan. auto.
  - left. rewrite (mutateCurrent_none f st Ec). auto.
Qed.

Lemma blockStep_target (idx : nat) (st st' st'' : State) :
  ParseResult.blocks (result st'') = ParseResult.blocks (result st') ->
  currentBlock st'' = currentBlock st' ->
  blockStep idx st st' -> blockStep idx st st''.
Proof. unfold blockStep. intros -> ->. auto. Qed.

Lemma blockStep_source (idx : nat) (st0 st st' : State) :
  ParseResult.blocks (result st0) = ParseResult.blocks (result st) ->
  currentBlock st0 = currentBlock st ->
  controlStack st0 = controlStack st ->
  blockStep idx st0 st' -> blockStep idx st st'.
Proof. unfold blockStep. intros -> -> ->. auto. Qed.

Lemma blockStep_kept (idx : nat) (st st' : State) :
  ParseResult.blocks (result st') = ParseResult.blocks (result st) ->
  currentBlock st' = currentBlock st ->
  blockStep idx st st'.
Proof. intros H1 H2. left. auto. Qed.

(** The control-flow branch edits the record of the current block. *)
Lemma controlFlow_blocks_some (i : nat) (t u : str) (st : State) (c : nat) :
  currentBlock st = Some c ->
  exists f,
    ParseResult.blocks (result (controlFlow i t u st))
    = updAt c f (ParseResult.blocks (result st))
    /\ forall b, edited i (controlStack st) b (f b).
Proof.
  intros Ec.
  assert (Hm : exists h,
             ParseResult.blocks (result (markCode t u st))
             = updAt c h (ParseResult.blocks (result st))
             /\ (forall b, blockId (h b) = blockId b)
             /\ (forall b, BlockDecl.endLine (h b) = BlockDecl.endLine b)
             /\ (forall b, flagsKept b (h b))
             /\ (forall b, BlockDecl.hasCaseElse (h b) = BlockDecl.hasCaseElse b)).
  { unfold markCode. destruct (_ && _).
    - exists (BlockDecl.setHasCode true).
      rewrite (mutateCurrent_some _ st c Ec).
      split; [reflexivity|]. repeat split; flags.
    - exists (fun b => b). rewrite updAt_same by reflexivity.
      split; [reflexivity|]. repeat split; flags. }
  destruct Hm as (h & Eh & Hid & Hend & Hfl & Hmap).
  assert (Ec1 : currentBlock (markCode t u st) = Some c)
    by (autorewrite with scan; exact Ec).
  assert (Hplain : exists f,
             ParseResult.blocks (result (markCode t u st))
             = updAt c f (ParseResult.blocks (result st))
             /\ forall b, edited i (controlStack st) b (f b)).
  { exists h. split; [exact Eh|]. now apply edited_flag. }
  unfold controlFlow.
  destruct (matchKeyword u (lit "CASE")).
  - unfold caseOpen.
    rewrite (mutateCurrent_some _ _ c) by (simpl; exact Ec1).
    simpl. rewrite Eh, updAt_updAt. eexists. split; [reflexivity|].
    intros b. unfold edited. simpl. rewrite Hmap.
    split; [apply Hid|]. split; [apply Hend|]. split; [apply Hfl|].
    right; left; reflexivity.
  - destruct (_ && _).
    + unfold elseInCase. destruct (top _) as [e|] eqn:Et; [|exact Hplain].
      destruct (_ && _); [|exact Hplain].
      rewrite (mutateCurrent_some _ _ c Ec1).
      rewrite Eh, updAt_updAt. eexists. split; [reflexivity|].
      intros b. unfold edited. simpl. rewrite Hmap.
      split; [apply Hid|]. split; [apply Hend|]. split; [apply Hfl|].
      right. right. exists e. split; [|reflexivity].
      apply top_In. autorewrite with scan in Et. exact Et.
    + autorewrite with scan. exact Hplain.
Qed.

Lemma controlFlow_blocks_none (i : nat) (t u : str) (st : State) :
  currentBlock st = None ->
  ParseResult.blocks (result (controlFlow i t u st))
  = ParseResult.blocks (result st).
Proof.
  intros Ec.
  assert (Em : markCode t u st = st).
  { unfold markCode. rewrite Ec. reflexivity. }
  unfold controlFlow. rewrite Em.
  destruct (matchKeyword u (lit "CASE")).
  - unfold caseOpen. rewrite mutateCurrent_none by (simpl; exact Ec). reflexivity.
  - destruct (_ && _).
    + unfold elseInCase. destruct (top _); [|reflexivity].
      rewrite Ec. rewrite andb_false_r. reflexivity.
    + autorewrite with scan. reflexivity.
Qed.

Lemma controlFlow_blockStep (i : nat) (t u : str) (st : State) :
  blockStep i st (controlFlow i t u st).
Proof.
  unfold blockStep. rewrite controlFlow_currentBlock.
  destruct (currentBlock st) as [c|] eqn:Ec.
  - destruct (controlFlow_blocks_some i t u st c Ec) as (f & E & Hf).
    right. right. left. exists c, f. auto.
  - left. rewrite controlFlow_blocks_none by exact Ec. auto.
Qed.

Lemma classify_blockStep (idx : nat) (o t u : str) (st : State) :
  blockStep idx st (classify idx o t u st).
Proof.
  destruct (classify_classified idx o t u st).
  - apply mutateCurrent_blockStep. apply edited_flag; flags.
  - apply mutateCurrent_blockStep. apply edited_flag; flags.
  - right. left. eexists. split; [|split; reflexivity].
    repeat split; try reflexivity; [assumption|].
    apply extractBlockName_without.
  - unfold closeBlock.
    destruct (top (blockStack st)) as [e|];
      [|apply blockStep_kept; reflexivity].
    destruct (match lookup _ _ with Some _ => _ | None => _ end);
      [|apply blockStep_kept; reflexivity].
    unfold blockStep. simpl.
    destruct (currentBlock st) as [c|] eqn:Ec.
    + right. right. right. exists c.
      rewrite mutateCurrent_some with (c := c) by (simpl; exact Ec). auto.
    + left. rewrite mutateCurrent_none by (simpl; exact Ec). auto.
  - eapply blockStep_target; [| |apply (mutateCurrent_blockStep idx (BlockDecl.setHasBegin true))];
      [reflexivity | reflexivity | apply edited_flag; flags].
  - apply blockStep_kept; kept; reflexivity.
  - apply blockStep_kept; reflexivity.
  - apply blockStep_kept; kept; reflexivity.
  - apply controlFlow_blockStep.
  - apply blockStep_kept; reflexivity.
Qed.

Lemma processLine_blockStep (idx : nat) (l : str) (st : State) :
  blockStep idx st (processLine idx l st).
Proof.
  destruct (processLine_cases idx l st) as [[c ->]|(c & o & _ & _ & ->)].
  - apply blockStep_kept; reflexivity.
  - destruct (tracked_fields o c st)
      as (Eb & _ & _ & _ & _ & _ & Ecs & Ecur & _).
    eapply blockStep_source; [exact Eb | exact Ecur | exact Ecs |].
    apply classify_blockStep.
Qed.

(** *** The usage set *)

Lemma mutateCurrent_usedVariables (f : BlockDecl.t -> BlockDecl.t) (st : State) :
  ParseResult.usedVariables (result (mutateCurrent f st))
  = ParseResult.usedVariables (result st).
Proof. unfold mutateCurrent. destruct (currentBlock st); reflexivity. Qed.

Lemma controlFlow_usedVariables (i : nat) (t u : str) (st : State) :
  ParseResult.usedVariables (result (controlFlow i t u st))
  = ParseResult.usedVariables (result st).
Proof.
  assert (Em : ParseResult.usedVariables (result (markCode t u st))
               = ParseResult.usedVariables (result st)).
  { unfold markCode. destruct (_ && _); [apply mutateCurrent_usedVariables | reflexivity]. }
  unfold controlFlow.
  destruct (matchKeyword u (lit "CASE")).
  - unfold caseOpen. rewrite mutateCurrent_usedVariables. exact Em.
  - destruct (_ && _).
    + unfold elseInCase. destruct (top _); [|exact Em].
      destruct (_ && _); [|exact Em].
      rewrite mutateCurrent_usedVariables. exact Em.
    + rewrite <- Em.
      unfold exitCheck, controlClose, loopOpen, ifOpen.
      destruct_matches; reflexivity.
Qed.

Lemma classify_usedVariables (idx : nat) (o t u : str) (st : State) :
  ParseResult.usedVariables (result (classify idx o t u st))
  = ParseResult.usedVariables (result st).
Proof.
  destruct (classify_classified idx o t u st);
    try apply mutateCurrent_usedVariables; try reflexivity.
  - unfold closeBlock. destruct_matches; try reflexivity.
    simpl. rewrite mutateCurrent_usedVariables. reflexivity.
  - unfold closeVarSection. destruct_matches; reflexivity.
  - unfold declareVariable. destruct_matches; reflexivity.
  - apply controlFlow_usedVariables.
Qed.

Lemma processLine_usedVariables (idx : nat) (l : str) (st : State) :
  ParseResult.usedVariables (result (processLine idx l st))
  = addUsed (ParseResult.usedVariables (result st)) (usedOn (inBlockComment st) l).
Proof.
  unfold processLine, usedOn.
  destruct (stripComments _ _) as [[c o]|]; [|reflexivity].
  destruct (nonEmpty _); [|reflexivity].
  rewrite classify_usedVariables. reflexivity.
Qed.

(** A line records at most one declaration. *)
Lemma declareVariable_variables_shape (idx : nat) (o : str) (st : State) :
  currentVarSection st <> [] ->
  ParseResult.variables (result (declareVariable idx o st))
  = ParseResult.variables (result st)
  \/ exists v, declared idx st v
               /\ ParseResult.variables (result (declareVariable idx o st))
                  = ParseResult.variables (result st) ++ [v].
Proof.
  intros Hsec. unfold declareVariable.
  destruct (varDeclRe (trim o)) as [[n g]|] eqn:E.
  - destruct (isKeyword n) eqn:Ek; simpl; [now left|].
    right. eexists. split; [|reflexivity].
    apply varDeclRe_name in E as (Hne & Hw & rest & Er).
    unfold declared. simpl. rewrite Er, indexOfZ_prefix. repeat split; auto.
  - destruct (simpleDeclRe (trim o)) as [[n g]|] eqn:E'; [|now left].
    destruct (isKeyword n) eqn:Ek; simpl; [now left|].
    right. eexists. split; [|reflexivity].
    apply simpleDeclRe_name in E' as (Hne & Hw & _).
    unfold declared. simpl. repeat split; auto.
Qed.

Lemma processLine_variables_shape (idx : nat) (l : str) (st : State) :
  ParseResult.variables (result (processLine idx l st))
  = ParseResult.variables (result st)
  \/ exists v, declared idx st v
               /\ ParseResult.variables (result (processLine idx l st))
                  = ParseResult.variables (result st) ++ [v].
Proof.
  destruct (processLine_cases idx l st) as [[c ->]|(c & o & _ & _ & ->)];
    [now left|].
  destruct (tracked_fields o c st)
    as (_ & Ev & _ & _ & _ & _ & _ & _ & Ec & _ & En).
  rewrite <- Ev. unfold declared. rewrite <- Ec, <- En.
  destruct (classify_classified idx o (trim (stripStrings o))
                                (toUpperCase (trim (stripStrings o)))
                                (trackUsage o (setInBlockComment c st)));
    try (left; kept; reflexivity).
  now apply declareVariable_variables_shape.
Qed.

(** ** What the scan keeps true *)

Lemma entryOk_weaken (table : list str) (idx : nat) (e : StackEntry.t) :
  entryOk table idx e -> entryOk table (S idx) e.
Proof. intros (H1 & H2 & H3). repeat split; auto. Qed.

Lemma entryOk_new (table : list str) (idx : nat) (k : str) :
  In k table -> entryOk table (S idx) (StackEntry.mk k idx 0).
Proof. intros H. repeat split; simpl; auto. Qed.

Lemma Forall_entryOk_weaken (table : list str) (idx : nat) (l : list StackEntry.t) :
  Forall (entryOk table idx) l -> Forall (entryOk table (S idx)) l.
Proof. apply Forall_impl. apply entryOk_weaken. Qed.

Lemma processLine_entriesInv (idx : nat) (l : str) (st : State) :
  entriesInv idx st -> entriesInv (S idx) (processLine idx l st).
Proof.
  intros (Hb & Hv & Hc & Hu & He & Ho & Hs).
  repeat split.
  - apply processLine_blockStack_Forall;
      [apply entryOk_new | now apply Forall_entryOk_weaken].
  - apply processLine_varStack_Forall;
      [apply entryOk_new | now apply Forall_entryOk_weaken].
  - apply processLine_controlStack_Forall;
      [apply entryOk_new | now apply Forall_entryOk_weaken].
  - apply processLine_unmatchedCloses_Forall;
      [apply entryOk_new | now apply Forall_entryOk_weaken].
  - apply processLine_exitOutsideLoop_Forall;
      [apply entryOk_new | now apply Forall_entryOk_weaken].
  - rewrite processLine_unmatchedOpens. exact Ho.
  - apply processLine_currentVarSection; [|exact Hs].
    eapply Forall_impl; [|exact Hv]. intros e (H & _). exact H.
Qed.

(** *** Blocks *)

Lemma blockOk_weaken (idx : nat) (b : BlockDecl.t) :
  blockOk idx b -> blockOk (S idx) b.
Proof.
  intros (H1 & H2 & H3 & H4 & H5). repeat split; auto; try lia.
  eapply Forall_impl; [|exact H5]. simpl. intros; lia.
Qed.

Lemma increasing_snoc (l : list nat) (x : nat) :
  increasing l -> Forall (fun y => y < x) l -> increasing (l ++ [x]).
Proof.
  induction l as [|y l IH]; intros Hi Hl; simpl.
  - split; [constructor | exact I].
  - destruct Hi as [Hy Hi]. inversion Hl; subst. split.
    + apply Forall_app. split; [exact Hy | constructor; [assumption | constructor]].
    + now apply IH.
Qed.

Lemma Forall_mapSet (P : nat * bool -> Prop) (k : nat) (v : bool)
      (m : list (nat * bool)) :
  P (k, v) -> Forall P m -> Forall P (mapSet k v m).
Proof.
  intros Hk. induction m as [|[k' v'] m IH]; intros H; simpl.
  - constructor; [exact Hk | constructor].
  - inversion H; subst. destruct (k =? k') eqn:E.
    + apply Nat.eqb_eq in E. subst. constructor; assumption.
    + constructor; auto.
Qed.

Lemma Forall_updAt_at (A : Type) (P : A -> Prop) (f : A -> A) :
  forall (l : list A) (i : nat),
    (forall x, nth_error l i = Some x -> P x -> P (f x)) ->
    Forall P l -> Forall P (updAt i f l).
Proof.
  induction l as [|x l IH]; intros [|i] Hf H; simpl; try constructor;
    inversion H; subst; auto.
Qed.

Lemma In_updAt (A : Type) (f : A -> A) (x : A) :
  forall (l : list A) (i : nat),
    In x l -> In x (updAt i f l) \/ In (f x) (updAt i f l).
Proof.
  induction l as [|y l IH]; intros [|i] H; simpl in *; try contradiction.
  - destruct H as [->|H]; auto.
  - destruct H as [->|H]; auto.
    destruct (IH i H); auto.
Qed.

Lemma edited_blockOk (idx : nat) (control : list StackEntry.t)
      (b b' : BlockDecl.t) :
  Forall (fun e => StackEntry.line e < idx) control ->
  edited idx control b b' -> blockOk idx b -> blockOk (S idx) b'.
Proof.
  intros Hc (Hid & Hend & _ & Hmap) Hb. apply blockOk_weaken in Hb.
  destruct Hb as (H1 & H2 & H3 & H4 & H5).
  unfold blockId in Hid. inversion Hid as [[Et En El]].
  unfold blockOk. rewrite Et, En, El, Hend. repeat split; auto.
  destruct Hmap as [->|[->|(t & Ht & ->)]]; [exact H5 | |].
  - apply Forall_mapSet; [simpl; lia | exact H5].
  - apply Forall_mapSet; [|exact H5]. simpl.
    rewrite Forall_forall in Hc. specialize (Hc _ Ht). lia.
Qed.

Lemma edited_casesInside (idx : nat) (control : list StackEntry.t)
      (b b' : BlockDecl.t) :
  edited idx control b b' -> BlockDecl.line b < idx ->
  BlockDecl.endLine b = (-1)%Z ->
  casesInside b -> casesInside b'.
Proof.
  intros (Hid & Hend & _ & Hmap) Hl He Hb.
  unfold blockId in Hid. inversion Hid as [[Et En El]].
  unfold casesInside in *. rewrite El, Hend.
  destruct Hmap as [->|[->|(t & Ht & ->)]]; [exact Hb | |].
  - apply Forall_mapSet; [|exact Hb]. simpl. intros _. split; [lia | now left].
  - apply Forall_mapSet; [|exact Hb]. simpl. discriminate.
Qed.

Lemma closed_casesInside (idx : nat) (b : BlockDecl.t) :
  blockOk idx b -> casesInside b ->
  casesInside (BlockDecl.setEndLine (Z.of_nat idx) b).
Proof.
  intros (_ & _ & _ & _ & Hk) Hb. unfold casesInside in *. simpl.
  rewrite Forall_forall in *. intros e He Hf.
  destruct (Hb e He Hf) as [Hl _]. split; [exact Hl|].
  right. specialize (Hk e He). lia.
Qed.

Lemma closed_blockOk (idx : nat) (b : BlockDecl.t) :
  blockOk idx b -> blockOk (S idx) (BlockDecl.setEndLine (Z.of_nat idx) b).
Proof.
  intros Hb. apply blockOk_weaken in Hb. destruct Hb as (H1 & H2 & H3 & H4 & H5).
  repeat split; simpl; auto. lia.
Qed.

Lemma processLine_blocksInv (idx : nat) (l : str) (st : State) :
  Forall (fun e => StackEntry.line e < idx) (controlStack st) ->
  blocksInv idx st -> blocksInv (S idx) (processLine idx l st).
Proof.
  intros Hcs (Hok & Hinc & Hcur & Hin).
  pose proof (processLine_blockStep idx l st) as Hstep.
  unfold blockStep in Hstep. unfold blocksInv, currentOpen.
  destruct Hstep as [[Eb Ec]|[(b & Hb & Eb & Ec)|[(c & f & Ecur & Eb & Hf & Ec)
                                           |(c & Ecur & Eb & Ec)]]];
    rewrite Eb, Ec.
  - (* nothing *)
    repeat split; auto. eapply Forall_impl; [|exact Hok]. apply blockOk_weaken.
  - (* a block opens *)
    destruct Hb as (Ht & Hn & Hl & He & Hm).
    repeat split.
    + apply Forall_snoc.
      * eapply Forall_impl; [|exact Hok]. apply blockOk_weaken.
      * unfold blockOk. rewrite Hl, He, Hm. repeat split; auto; try lia.
    + rewrite map_app. simpl. apply increasing_snoc; [exact Hinc|].
      rewrite Forall_map. eapply Forall_impl; [|exact Hok].
      intros x (_ & _ & Hx & _). lia.
    + intros c' Hc'. inversion Hc'; subst. exists b.
      rewrite nth_error_app2 by lia. rewrite Nat.sub_diag. auto.
    + apply Forall_snoc; [exact Hin|]. unfold casesInside. rewrite Hm. constructor.
  - (* the current block is edited *)
    destruct (Hcur c Ecur) as (b0 & Hn0 & He0).
    repeat split.
    + apply Forall_updAt_impl with (P := blockOk idx); [| |exact Hok].
      * intros x Hx. eapply edited_blockOk; eauto.
      * apply blockOk_weaken.
    + rewrite map_updAt; [exact Hinc|].
      intros x. destruct (Hf x) as (Hid & _). unfold blockId in Hid.
      now inversion Hid.
    + intros c' Hc'. rewrite Ecur in Hc'. inversion Hc'; subst c'.
      exists (f b0). rewrite nth_error_updAt, Nat.eqb_refl, Hn0.
      split; [reflexivity|]. destruct (Hf b0) as (_ & -> & _). exact He0.
    + apply Forall_updAt_at; [|exact Hin].
      intros x Hx Hcx. rewrite Hx in Hn0. inversion Hn0; subst x.
      eapply edited_casesInside; eauto.
      rewrite Forall_forall in Hok. apply nth_error_In in Hx.
      destruct (Hok _ Hx) as (_ & _ & Hl & _). exact Hl.
  - (* the current block closes *)
    repeat split.
    + apply Forall_updAt_impl with (P := blockOk idx); [| |exact Hok].
      * apply closed_blockOk.
      * apply blockOk_weaken.
    + rewrite map_updAt; [exact Hinc | reflexivity].
    + discriminate.
    + rewrite Forall_forall in Hok.
      apply Forall_updAt_at; [|exact Hin].
      intros x Hx Hcx. apply closed_casesInside; [|exact Hcx].
      apply Hok. eapply nth_error_In; eauto.
Qed.

(** *** Declarations *)

Lemma blockStep_In (idx : nat) (st st' : State) (b : BlockDecl.t) :
  blockStep idx st st' ->
  In b (ParseResult.blocks (result st)) ->
  exists b', In b' (ParseResult.blocks (result st'))
             /\ BlockDecl.name b' = BlockDecl.name b
             /\ BlockDecl.line b' = BlockDecl.line b.
Proof.
  unfold blockStep.
  intros [[Eb _]|[(n & _ & Eb & _)|[(c & f & _ & Eb & Hf & _)|(c & _ & Eb & _)]]] Hin;
    rewrite Eb.
  - exists b. auto.
  - exists b. split; [apply in_or_app; now left | auto].
  - destruct (In_updAt _ f b _ c Hin) as [H|H].
    + exists b. auto.
    + exists (f b). split; [exact H|].
      destruct (Hf b) as (Hid & _). unfold blockId in Hid. now inversion Hid.
  - destruct (In_updAt _ (BlockDecl.setEndLine (Z.of_nat idx)) b _ c Hin) as [H|H].
    + exists b. auto.
    + eexists. split; [exact H|]. auto.
Qed.

Lemma blockStep_ownerOk (idx : nat) (st st' : State) (v : VariableDecl.t) :
  blockStep idx st st' ->
  ownerOk (ParseResult.blocks (result st)) v ->
  ownerOk (ParseResult.blocks (result st')) v.
Proof.
  intros Hstep [H|(b & Hin & Hn & Hl)]; [now left|].
  destruct (blockStep_In idx st st' b Hstep Hin) as (b' & Hin' & Hn' & Hl').
  right. exists b'. rewrite Hn', Hl'. auto.
Qed.

Lemma declared_ownerOk (idx : nat) (st : State) (v : VariableDecl.t) :
  Forall (blockOk idx) (ParseResult.blocks (result st)) ->
  declared idx st v -> ownerOk (ParseResult.blocks (result st)) v.
Proof.
  intros Hok (Hl & _ & _ & _ & Hb & _).
  unfold ownerOk. rewrite Hb, Hl. unfold currentBlockName.
  destruct (currentBlock st) as [c|]; [|now left].
  destruct (nth_error _ c) as [b|] eqn:E; [|now left].
  right. exists b. apply nth_error_In in E.
  rewrite Forall_forall in Hok. destruct (Hok b E) as (_ & _ & Hlt & _). auto.
Qed.

Lemma declared_variableOk (idx : nat) (st : State) (v : VariableDecl.t) :
  currentVarSection st = [] \/ In (currentVarSection st) sectionKeywords ->
  declared idx st v -> variableOk v.
Proof.
  intros Hs (Hl & Hc & Hsec & Hne & Hb & Hn & Hw & Hk).
  unfold variableOk. rewrite Hsec. repeat split; auto.
  destruct Hs as [Hs|Hs]; [contradiction | exact Hs].
Qed.

Lemma processLine_variablesInv (idx : nat) (l : str) (st : State) :
  blocksInv idx st -> entriesInv idx st ->
  variablesInv idx st -> variablesInv (S idx) (processLine idx l st).
Proof.
  intros (Hok & _) (_ & _ & _ & _ & _ & _ & Hs) (Hv & Hinc).
  pose proof (processLine_blockStep idx l st) as Hstep.
  assert (Hold : Forall (fun v => variableOk v /\ VariableDecl.line v < S idx
                                  /\ ownerOk (ParseResult.blocks
                                                (result (processLine idx l st))) v)
                        (ParseResult.variables (result st))).
  { eapply Forall_impl; [|exact Hv]. intros v (H1 & H2 & H3).
    split; [exact H1|]. split; [lia|]. eapply blockStep_ownerOk; eauto. }
  unfold variablesInv.
  destruct (processLine_variables_shape idx l st) as [->|(v & Hd & ->)].
  - split; assumption.
  - split.
    + apply Forall_snoc; [exact Hold|]. split; [|split].
      * eapply declared_variableOk; eauto.
      * destruct Hd as (-> & _). lia.
      * eapply blockStep_ownerOk; [exact Hstep|]. now apply declared_ownerOk with (idx := idx).
    + rewrite map_app. simpl. destruct Hd as (-> & _).
      apply increasing_snoc; [exact Hinc|].
      rewrite Forall_map. eapply Forall_impl; [|exact Hv].
      intros x (_ & Hx & _). exact Hx.
Qed.

(** *** The usage set *)

Lemma lowerChar_idem (c : ascii) : lowerChar (lowerChar c) = lowerChar c.
Proof. destruct c as [[] [] [] [] [] [] [] []]; reflexivity. Qed.

Lemma isWord_lowerChar (c : ascii) : isWord (lowerChar c) = isWord c.
Proof. destruct c as [[] [] [] [] [] [] [] []]; reflexivity. Qed.

Lemma toLowerCase_idem (s : str) : toLowerCase (toLowerCase s) = toLowerCase s.
Proof.
  unfold toLowerCase. rewrite map_map. apply map_ext. apply lowerChar_idem.
Qed.

Lemma lowerIdentifier_toLowerCase (n : str) :
  n <> [] -> forallb isWord n = true -> lowerIdentifier (toLowerCase n).
Proof.
  intros Hne Hw. repeat split.
  - destruct n; [contradiction | discriminate].
  - unfold toLowerCase. rewrite forallb_forall in *. intros c Hc.
    apply in_map_iff in Hc as (d & <- & Hd). rewrite isWord_lowerChar. auto.
  - apply toLowerCase_idem.
Qed.

Lemma forallb_takeWhile (p : ascii -> bool) (s : str) :
  forallb p (takeWhile p s) = true.
Proof.
  induction s as [|c s IH]; simpl; [reflexivity|].
  destruct (p c) eqn:E; simpl; [rewrite E; exact IH | reflexivity].
Qed.

Lemma isIdentStart_isWord (c : ascii) : isIdentStart c = true -> isWord c = true.
Proof.
  unfold isIdentStart, isWord. intros H.
  repeat (apply orb_true_iff in H as [H|H]); rewrite H;
    repeat rewrite orb_true_r; reflexivity.
Qed.

Lemma hashVarNames_identifier (s : str) :
  Forall (fun n => n <> [] /\ forallb isWord n = true) (hashVarNames s).
Proof.
  induction s as [|c s IH]; simpl; [constructor|].
  destruct (Ascii.eqb c "#"%char); [|exact IH].
  destruct s as [|c1 s]; [constructor|].
  destruct (isIdentStart c1) eqn:E; [|exact IH].
  constructor; [|exact IH]. split.
  - simpl. rewrite (isIdentStart_isWord c1 E). discriminate.
  - apply forallb_takeWhile.
Qed.

Lemma setHas_In (x : str) (s : list str) : setHas x s = true <-> In x s.
Proof.
  unfold setHas. rewrite existsb_exists. split.
  - intros (y & Hy & E). apply streq_eq in E. now subst.
  - intros H. exists x. split; [exact H | apply streq_refl].
Qed.

Lemma setAdd_NoDup (x : str) (s : list str) : NoDup s -> NoDup (setAdd x s).
Proof.
  intros H. unfold setAdd. destruct (setHas x s) eqn:E; [exact H|].
  apply NoDup_app; [exact H | repeat constructor; auto | ].
  intros y Hy [<-|[]]. apply setHas_In in Hy. congruence.
Qed.

Lemma setAdd_Forall (P : str -> Prop) (x : str) (s : list str) :
  P x -> Forall P s -> Forall P (setAdd x s).
Proof.
  intros Hx H. unfold setAdd. destruct (setHas x s); [exact H|].
  now apply Forall_snoc.
Qed.

Lemma addUsed_usage (names : list str) :
  Forall (fun n => n <> [] /\ forallb isWord n = true) names ->
  forall used, NoDup used /\ Forall lowerIdentifier used ->
               NoDup (addUsed used names) /\ Forall lowerIdentifier (addUsed used names).
Proof.
  unfold addUsed. induction 1 as [|n names [Hne Hw] _ IH]; intros used [H1 H2];
    simpl; [auto|].
  apply IH. split; [now apply setAdd_NoDup|].
  apply setAdd_Forall; [|exact H2]. now apply lowerIdentifier_toLowerCase.
Qed.

Lemma usedOn_identifier (c : bool) (l : str) :
  Forall (fun n => n <> [] /\ forallb isWord n = true) (usedOn c l).
Proof.
  unfold usedOn. destruct (stripComments c l) as [[c' o]|]; [|constructor].
  destruct (nonEmpty _); [apply hashVarNames_identifier | constructor].
Qed.

Lemma processLine_usageInv (idx : nat) (l : str) (st : State) :
  usageInv st -> usageInv (processLine idx l st).
Proof.
  unfold usageInv. rewrite processLine_usedVariables.
  apply addUsed_usage. apply usedOn_identifier.
Qed.

(** *** The whole state *)

Lemma processLine_stateInv (idx : nat) (l : str) (st : State) :
  stateInv idx st -> stateInv (S idx) (processLine idx l st).
Proof.
  intros (Hb & He & Hv & Hu). unfold stateInv.
  split; [|split; [|split]].
  - apply processLine_blocksInv; [|exact Hb].
    destruct He as (_ & _ & Hc & _). eapply Forall_impl; [|exact Hc].
    intros e (_ & H & _). exact H.
  - now apply processLine_entriesInv.
  - now apply processLine_variablesInv.
  - now apply processLine_usageInv.
Qed.

Lemma stateInv_init : stateInv 0 initState.
Proof.
  unfold stateInv, blocksInv, entriesInv, variablesInv, usageInv, currentOpen.
  simpl. repeat split; try constructor; auto. discriminate.
Qed.

Lemma stateInv_scanLines (lines : list str) (idx : nat) (st : State) :
  stateInv idx st -> stateInv (idx + length lines) (scanLines idx lines st).
Proof. apply (scanLines_invariant stateInv). apply processLine_stateInv. Qed.

(** The state after the last line of a text. *)
Lemma stateInv_final (text : str) :
  stateInv (length (splitLines text)) (scanLines 0 (splitLines text) initState).
Proof. apply (stateInv_scanLines (splitLines text) 0 initState stateInv_init). Qed.

Lemma stateInv_stateBefore (text : str) (L : nat) :
  stateInv (length (firstn L (splitLines text))) (stateBefore text L).
Proof.
  apply (stateInv_scanLines (firstn L (splitLines text)) 0 initState stateInv_init).
Qed.

(** ** The model of a text *)

Lemma parse_usedVariables (text : str) :
  ParseResult.usedVariables (parse text)
  = ParseResult.usedVariables (result (scanLines 0 (splitLines text) initState)).
Proof. reflexivity. Qed.

Lemma parse_unmatchedOpens (text : str) :
  ParseResult.unmatchedOpens (parse text)
  = ParseResult.unmatchedOpens (result (scanLines 0 (splitLines text) initState))
    ++ blockStack (scanLines 0 (splitLines text) initState)
    ++ varStack (scanLines 0 (splitLines text) initState)
    ++ controlStack (scanLines 0 (splitLines text) initState).
Proof. reflexivity. Qed.

(** X9: in the model of any text the blocks are listed in the order of
    their opening lines; each has one of the five block keywords as type, a
    name without double quote, an opening line and an end line inside the
    text, and CASE lines inside the text. *)
Theorem parsed_blocks_lie_in_the_text (text : str) :
  Forall (blockOk (length (splitLines text))) (ParseResult.blocks (parse text))
  /\ increasing (map BlockDecl.line (ParseResult.blocks (parse text))).
Proof.
  rewrite parse_blocks.
  destruct (stateInv_final text) as ((Hok & Hinc & _) & _). auto.
Qed.

(** X10: in the model of any text the declarations are listed in the
    order of their lines, one per line at most; each lies inside the text,
    is recorded at column 0, and has a non-empty name of word characters
    that is no keyword and the keyword of a VAR section as section. *)
Theorem parsed_variables_are_identifiers (text : str) :
  Forall (fun v => variableOk v /\ VariableDecl.line v < length (splitLines text))
         (ParseResult.variables (parse text))
  /\ increasing (map VariableDecl.line (ParseResult.variables (parse text))).
Proof.
  rewrite parse_variables.
  destruct (stateInv_final text) as (_ & _ & (Hv & Hinc) & _).
  split; [|exact Hinc].
  eapply Forall_impl; [|exact Hv]. intros v (H1 & H2 & _). auto.
Qed.

(** X11: the owning block recorded for a declaration is the empty name or
    the name of a block of the model that opens before the declaration. *)
Theorem parsed_variable_owner_exists (text : str) :
  Forall (ownerOk (ParseResult.blocks (parse text)))
         (ParseResult.variables (parse text)).
Proof.
  rewrite parse_variables, parse_blocks.
  destruct (stateInv_final text) as (_ & _ & (Hv & _) & _).
  eapply Forall_impl; [|exact Hv]. intros v (_ & _ & H). exact H.
Qed.

Lemma entryOk_incl (t t' : list str) (n : nat) (l : list StackEntry.t) :
  incl t t' -> Forall (entryOk t n) l -> Forall (entryOk t' n) l.
Proof.
  intros Hi. apply Forall_impl. intros e (H1 & H2 & H3). repeat split; auto.
Qed.

Lemma parse_entries (text : str) :
  Forall (entryOk openerKeywords (length (splitLines text)))
         (ParseResult.unmatchedOpens (parse text))
  /\ Forall (entryOk closerKeywords (length (splitLines text)))
            (ParseResult.unmatchedCloses (parse text))
  /\ Forall (entryOk exitKeywords (length (splitLines text)))
            (ParseResult.exitOutsideLoop (parse text)).
Proof.
  rewrite parse_unmatchedOpens, parse_unmatchedCloses, parse_exitOutsideLoop.
  destruct (stateInv_final text) as (_ & (Hb & Hv & Hc & Hu & He & Ho & _) & _).
  split; [|split; assumption].
  rewrite Ho. simpl. unfold openerKeywords.
  apply Forall_app. split; [|apply Forall_app; split].
  - eapply entryOk_incl; [|exact Hb]. apply incl_appl, incl_refl.
  - eapply entryOk_incl; [|exact Hv]. apply incl_appr, incl_appl, incl_refl.
  - eapply entryOk_incl; [|exact Hc]. apply incl_appr, incl_appr, incl_refl.
Qed.

(** X12: every unmatched opener, unmatched closer and stray EXIT of the
    model is recorded at column 0 of a line of the text, with a keyword of
    the scanner's tables. *)
Theorem parsed_entries_lie_in_the_text (text : str) :
  Forall (entryOk openerKeywords (length (splitLines text)))
         (ParseResult.unmatchedOpens (parse text))
  /\ Forall (entryOk closerKeywords (length (splitLines text)))
            (ParseResult.unmatchedCloses (parse text))
  /\ Forall (entryOk exitKeywords (length (splitLines text)))
            (ParseResult.exitOutsideLoop (parse text)).
Proof. apply parse_entries. Qed.

(** X13: the usage set of the model holds no name twice, and only
    lower-cased identifiers. *)
Theorem parsed_usage_is_a_set_of_lower_case_names (text : str) :
  NoDup (ParseResult.usedVariables (parse text))
  /\ Forall lowerIdentifier (ParseResult.usedVariables (parse text)).
Proof.
  rewrite parse_usedVariables.
  destruct (stateInv_final text) as (_ & _ & _ & H). exact H.
Qed.

(** *** A closed block is final *)

Lemma scan_resume (text : str) (L : nat) :
  scanLines 0 (splitLines text) initState
  = scanLines (length (firstn L (splitLines text))) (skipn L (splitLines text))
              (stateBefore text L).
Proof.
  unfold stateBefore.
  rewrite <- (firstn_skipn L (splitLines text)) at 1.
  rewrite scanLines_app. reflexivity.
Qed.

Lemma blockStep_closed_kept (idx : nat) (st st' : State) (j : nat) (b : BlockDecl.t) :
  blockStep idx st st' -> currentOpen st ->
  nth_error (ParseResult.blocks (result st)) j = Some b ->
  BlockDecl.endLine b <> (-1)%Z ->
  nth_error (ParseResult.blocks (result st')) j = Some b.
Proof.
  unfold blockStep.
  intros [[Eb _]|[(n & _ & Eb & _)|[(c & f & Ec & Eb & _)|(c & Ec & Eb & _)]]]
         Hcur Hj He; rewrite Eb.
  - exact Hj.
  - rewrite nth_error_app1; [exact Hj|]. apply nth_error_Some. congruence.
  - rewrite nth_error_updAt. destruct (c =? j) eqn:E; [|exact Hj].
    apply Nat.eqb_eq in E. subst j.
    destruct (Hcur c Ec) as (b0 & Hb0 & He0). congruence.
  - rewrite nth_error_updAt. destruct (c =? j) eqn:E; [|exact Hj].
    apply Nat.eqb_eq in E. subst j.
    destruct (Hcur c Ec) as (b0 & Hb0 & He0). congruence.
Qed.

Lemma scanLines_closed_kept (j : nat) (b : BlockDecl.t) :
  BlockDecl.endLine b <> (-1)%Z ->
  forall (lines : list str) (idx : nat) (st : State),
    stateInv idx st ->
    nth_error (ParseResult.blocks (result st)) j = Some b ->
    nth_error (ParseResult.blocks (result (scanLines idx lines st))) j = Some b.
Proof.
  intros He lines idx st Hinv Hj.
  pose proof (scanLines_invariant
                (fun i s => stateInv i s
                            /\ nth_error (ParseResult.blocks (result s)) j = Some b))
    as H.
  apply (H (fun i l s '(conj Hs Hn) =>
              conj (processLine_stateInv i l s Hs)
                   (blockStep_closed_kept i s (processLine i l s) j b
                      (processLine_blockStep i l s)
                      (proj1 (proj2 (proj2 (proj1 Hs)))) Hn He))
           lines idx st (conj Hinv Hj)).
Qed.

(** X14: once a block is closed its record is final: whatever follows in
    the text, the model returned at the end holds the same record at the
    same place. *)
Theorem closed_block_record_is_final (text : str) (L j : nat) (b : BlockDecl.t) :
  nth_error (ParseResult.blocks (result (stateBefore text L))) j = Some b ->
  BlockDecl.endLine b <> (-1)%Z ->
  nth_error (ParseResult.blocks (parse text)) j = Some b.
Proof.
  intros Hj He. rewrite parse_blocks, (scan_resume text L).
  apply scanLines_closed_kept; [exact He | apply stateInv_stateBefore | exact Hj].
Qed.

Lemma closed_block_record_is_final_witness :
  exists b,
    nth_error (ParseResult.blocks (result (stateBefore Texts.twoBlocksText 7))) 0 = Some b
    /\ BlockDecl.endLine b = 6%Z
    /\ nth_error (ParseResult.blocks (parse Texts.twoBlocksText)) 0 = Some b.
Proof.
  eexists. split; [vm_compute; reflexivity|]. split; [reflexivity|].
  apply (closed_block_record_is_final Texts.twoBlocksText 7 0);
    [vm_compute; reflexivity | vm_compute; discriminate].
Defined.

(** ** The rule engine on the model of a text *)

(** *** Codes and severities *)

Ltac rule_table leaf :=
  repeat first
    [ apply Forall_app; split
    | apply Forall_flat_map; apply Forall_forall; intros ? _
    | apply Forall_map; apply Forall_forall; intros ? _ ];
  first [ leaf
        | destruct_matches;
          repeat (apply Forall_cons || apply Forall_nil);
          (split; [simpl; auto 20 | reflexivity]) ].

Lemma duplicatesOf_table (n : str) (locs : list Location) :
  Forall (fun d => In (LintDiagnostic.code d, LintDiagnostic.severity d) codeTable
                   /\ LintDiagnostic.endCol d = None)
         (duplicatesOf n locs).
Proof.
  unfold duplicatesOf. destruct locs as [|f [|s locs]]; try constructor.
  - simpl. auto 20.
  - apply Forall_map, Forall_forall. intros ? _. simpl. auto 20.
Qed.

Lemma runRules_code_table (r : ParseResult.t) :
  Forall (fun d => In (LintDiagnostic.code d, LintDiagnostic.severity d) codeTable
                   /\ LintDiagnostic.endCol d = None)
         (runRules r).
Proof.
  unfold runRules, ruleUnmatchedControlFlow, ruleUnmatchedVarSections,
    ruleUnmatchedBlocks, ruleDuplicateVariables, ruleExitOutsideLoop,
    ruleUnusedVariables, unusedVariable, ruleMissingVersion, ruleMissingPragma,
    ruleCaseWithoutElse, ruleEmptyBlock, ruleNamingConvention.
  rule_table ltac:(apply duplicatesOf_table).
Qed.

(** *** Structural errors *)

Lemma map_flat_map (A B C : Type) (h : B -> C) (f : A -> list B) (l : list A) :
  map h (flat_map f l) = flat_map (fun e => map h (f e)) l.
Proof.
  induction l as [|e l IH]; simpl; [reflexivity|].
  now rewrite map_app, IH.
Qed.

(** Three rules that share out the entries of a list: each entry is
    reported by one of them, once. *)
Lemma flat_map3_shared (A B : Type) (f1 f2 f3 : A -> list B) (g : A -> B)
      (l : list A) :
  Forall (fun e => f1 e ++ f2 e ++ f3 e = [g e]) l ->
  Permutation (flat_map f1 l ++ flat_map f2 l ++ flat_map f3 l) (map g l).
Proof.
  induction 1 as [|e l He _ IH]; simpl; [constructor|].
  destruct (f1 e) as [|x1 r1] eqn:E1; simpl in He.
  - destruct (f2 e) as [|x2 r2] eqn:E2; simpl in He.
    + rewrite He. simpl.
      apply Permutation_sym.
      rewrite app_assoc.
      eapply Permutation_trans; [|apply Permutation_middle].
      apply perm_skip. rewrite <- app_assoc. apply Permutation_sym. exact IH.
    + inversion He as [[Hx H23]].
      apply app_eq_nil in H23 as [H2 H3]. rewrite H2, H3. simpl.
      apply Permutation_sym.
      eapply Permutation_trans; [|apply Permutation_middle].
      apply perm_skip. apply Permutation_sym. exact IH.
  - inversion He as [[Hx H23]].
    apply app_eq_nil in H23 as [H1 H23].
    apply app_eq_nil in H23 as [H2 H3]. rewrite H1, H2, H3. simpl.
    apply perm_skip. exact IH.
Qed.

Lemma structuralErrors_shared (r : ParseResult.t) :
  Forall (fun e => In (StackEntry.keyword e) openerKeywords)
         (ParseResult.unmatchedOpens r) ->
  Forall (fun e => In (StackEntry.keyword e) closerKeywords)
         (ParseResult.unmatchedCloses r) ->
  Permutation (map reportOf (structuralErrors r))
              (map entryReport (ParseResult.unmatchedOpens r
                                  ++ ParseResult.unmatchedCloses r)).
Proof.
  intros Ho Hc.
  unfold structuralErrors, ruleUnmatchedControlFlow, ruleUnmatchedVarSections,
    ruleUnmatchedBlocks.
  rewrite !map_app, !map_flat_map.
  match goal with
  | |- Permutation ((flat_map ?f1 ?o ++ flat_map ?g1 ?c)
                      ++ (flat_map ?f2 ?o ++ flat_map ?g2 ?c)
                      ++ (flat_map ?f3 ?o ++ flat_map ?g3 ?c)) _ =>
      assert (H1 : Permutation (flat_map f1 o ++ flat_map f2 o ++ flat_map f3 o)
                               (map entryReport o));
      [|assert (H2 : Permutation (flat_map g1 c ++ flat_map g2 c ++ flat_map g3 c)
                                 (map entryReport c));
        [|set (O1 := flat_map f1 o) in *; set (O2 := flat_map f2 o) in *;
          set (O3 := flat_map f3 o) in *; set (C1 := flat_map g1 c) in *;
          set (C2 := flat_map g2 c) in *; set (C3 := flat_map g3 c) in *]]
  end.
  - apply flat_map3_shared. eapply Forall_impl; [|exact Ho].
    intros [k ln cl] Hk. simpl in Hk.
    repeat destruct Hk as [<-|Hk]; try contradiction; vm_compute; reflexivity.
  - apply flat_map3_shared. eapply Forall_impl; [|exact Hc].
    intros [k ln cl] Hk. simpl in Hk.
    repeat destruct Hk as [<-|Hk]; try contradiction; vm_compute; reflexivity.
  - eapply Permutation_trans; [|apply Permutation_app; [exact H1 | exact H2]].
    rewrite <- !app_assoc. apply Permutation_app_head.
    eapply Permutation_trans; [apply Permutation_app_swap_app|].
    apply Permutation_app_head.
    rewrite (app_assoc C1 C2). rewrite (app_assoc C1 C2 C3).
    apply Permutation_app_swap_app.
Qed.

(** X15: on the model of any text, the three rules on unmatched
    delimiters share out the unmatched entries: up to order, their errors
    are one per unmatched opener and one per unmatched closer, each at the
    line of its entry and under the code of the family of its keyword
    (SCL001 control flow, SCL002 variable sections, SCL003 blocks).  No
    entry is dropped, none is reported twice. *)
Theorem one_structural_error_per_unmatched_entry (text : str) :
  Permutation (map reportOf (structuralErrors (parse text)))
              (map entryReport (ParseResult.unmatchedOpens (parse text)
                                  ++ ParseResult.unmatchedCloses (parse text))).
Proof.
  destruct (parse_entries text) as (Ho & Hc & _).
  apply structuralErrors_shared.
  - eapply Forall_impl; [|exact Ho]. intros e (H & _). exact H.
  - eapply Forall_impl; [|exact Hc]. intros e (H & _). exact H.
Qed.

(** *** Where the diagnostics lie *)

Lemma addLocation_Forall (P : Location -> Prop) (n : str) (loc : Location)
      (bv : list (str * list Location)) :
  P loc -> Forall (fun nl => Forall P (snd nl)) bv ->
  Forall (fun nl => Forall P (snd nl)) (addLocation n loc bv).
Proof.
  intros Hl. induction bv as [|[n' locs] bv IH]; intros H; simpl.
  - constructor; [|constructor]. simpl. constructor; [exact Hl | constructor].
  - inversion H; subst. destruct (streq n n').
    + constructor; [|assumption]. simpl in *. now apply Forall_snoc.
    + constructor; auto.
Qed.

Lemma addToBlock_Forall (P : Location -> Prop) (k n : str) (loc : Location)
      (g : list (str * list (str * list Location))) :
  P loc ->
  Forall (fun e => Forall (fun nl => Forall P (snd nl)) (snd e)) g ->
  Forall (fun e => Forall (fun nl => Forall P (snd nl)) (snd e))
         (addToBlock k n loc g).
Proof.
  intros Hl. induction g as [|[k' bv] g IH]; intros H; simpl.
  - constructor; [|constructor]. simpl.
    constructor; [|constructor]. simpl. constructor; [exact Hl | constructor].
  - inversion H; subst. destruct (streq k k').
    + constructor; [|assumption]. simpl in *. now apply addLocation_Forall.
    + constructor; auto.
Qed.

Lemma groupByBlock_Forall (P : Location -> Prop) (vars : list VariableDecl.t) :
  Forall (fun v => P (varLocation v)) vars ->
  Forall (fun e => Forall (fun nl => Forall P (snd nl)) (snd e)) (groupByBlock vars).
Proof.
  rewrite groupByBlock_fold.
  assert (Hgen : forall g,
             Forall (fun e => Forall (fun nl => Forall P (snd nl)) (snd e)) g ->
             Forall (fun v => P (varLocation v)) vars ->
             Forall (fun e => Forall (fun nl => Forall P (snd nl)) (snd e))
                    (fold_left addVariable vars g)).
  { induction vars as [|v vars IH]; intros g Hg Hv; simpl; [exact Hg|].
    inversion Hv; subst. apply IH; [|assumption].
    unfold addVariable. now apply addToBlock_Forall. }
  apply Hgen. constructor.
Qed.

Ltac located_leaf :=
  repeat (apply Forall_cons || apply Forall_nil);
  try (split; [simpl; assumption | first [reflexivity | simpl; assumption]]).

Ltac located_entries H :=
  apply Forall_flat_map; eapply Forall_impl; [|exact H];
  intros ? ?; cbv beta zeta in *; destruct_matches; located_leaf.

(** A model whose line numbers lie below [n] and whose declarations are
    recorded at column 0. *)
Lemma runRules_located (n : nat) (r : ParseResult.t) :
  Forall (fun b => BlockDecl.line b < n
                   /\ Forall (fun e => fst e < n) (BlockDecl.hasCaseElse b))
         (ParseResult.blocks r) ->
  Forall (fun v => VariableDecl.line v < n /\ VariableDecl.col v = 0%Z)
         (ParseResult.variables r) ->
  Forall (fun e => StackEntry.line e < n) (ParseResult.unmatchedOpens r) ->
  Forall (fun e => StackEntry.line e < n) (ParseResult.unmatchedCloses r) ->
  Forall (fun e => StackEntry.line e < n) (ParseResult.exitOutsideLoop r) ->
  Forall (fun d => LintDiagnostic.line d < n /\ LintDiagnostic.col d = 0%Z)
         (runRules r).
Proof.
  intros Hb Hv Ho Hc He.
  assert (Hbl : Forall (fun b => BlockDecl.line b < n) (ParseResult.blocks r)).
  { eapply Forall_impl; [|exact Hb]. intros b [H _]. exact H. }
  unfold runRules.
  repeat (apply Forall_app; split).
  - located_entries Ho.
  - located_entries Hc.
  - located_entries Ho.
  - located_entries Hc.
  - located_entries Ho.
  - located_entries Hc.
  - unfold ruleDuplicateVariables. apply Forall_flat_map.
    pose proof (groupByBlock_Forall (fun loc => fst loc < n /\ snd loc = 0%Z)
                                    (ParseResult.variables r) Hv) as Hg.
    eapply Forall_impl; [|exact Hg]. intros [k bv] Hbv. simpl in *.
    apply Forall_flat_map. eapply Forall_impl; [|exact Hbv].
    intros [nm locs] Hlocs. simpl in *. unfold duplicatesOf.
    destruct locs as [|f [|s locs]]; try constructor.
    + inversion Hlocs as [|? ? _ Hl]; subst. inversion Hl; subst. assumption.
    + apply Forall_map. inversion Hlocs as [|? ? _ Hl]; subst.
      inversion Hl; subst. assumption.
  - unfold ruleExitOutsideLoop. apply Forall_map.
    eapply Forall_impl; [|exact He]. intros e Hlt. split; [exact Hlt | reflexivity].
  - unfold ruleUnusedVariables. apply Forall_flat_map.
    eapply Forall_impl; [|exact Hv]. intros v [Hl Hcol]. unfold unusedVariable.
    destruct_matches; located_leaf.
  - unfold ruleMissingVersion. apply Forall_flat_map.
    eapply Forall_impl; [|exact Hbl]. intros b Hlt.
    destruct_matches; located_leaf.
  - unfold ruleMissingPragma. apply Forall_flat_map.
    eapply Forall_impl; [|exact Hbl]. intros b Hlt.
    destruct_matches; located_leaf.
  - unfold ruleCaseWithoutElse. apply Forall_flat_map.
    eapply Forall_impl; [|exact Hb]. intros b [_ Hk].
    apply Forall_flat_map. eapply Forall_impl; [|exact Hk].
    intros e Hlt. destruct (negb _); located_leaf.
  - unfold ruleEmptyBlock. apply Forall_flat_map.
    eapply Forall_impl; [|exact Hbl]. intros b Hlt.
    destruct_matches; located_leaf.
  - unfold ruleNamingConvention. apply Forall_flat_map.
    eapply Forall_impl; [|exact Hbl]. intros b Hlt.
    destruct_matches; located_leaf.
Qed.

Lemma parse_located (text : str) :
  Forall (fun d => LintDiagnostic.line d < length (splitLines text)
                   /\ LintDiagnostic.col d = 0%Z)
         (runRules (parse text)).
Proof.
  destruct (parse_entries text) as (Ho & Hc & He).
  destruct (stateInv_final text) as ((Hok & _) & _ & (Hv & _) & _).
  apply runRules_located.
  - rewrite parse_blocks. eapply Forall_impl; [|exact Hok].
    intros b (_ & _ & H1 & _ & H2). auto.
  - rewrite parse_variables. eapply Forall_impl; [|exact Hv].
    intros v ((Hcol & _) & Hl & _). auto.
  - eapply Forall_impl; [|exact Ho]. intros e (_ & H & _). exact H.
  - eapply Forall_impl; [|exact Hc]. intros e (_ & H & _). exact H.
  - eapply Forall_impl; [|exact He]. intros e (_ & H & _). exact H.
Qed.

(** X16: every diagnostic the engine produces for a text is reported at
    column 0 of a line of that text, without an end column, and carries one
    of the eleven codes with the severity of that code (an error for SCL001
    to SCL005, a warning for SCL101 to SCL105, a hint for SCL201). *)
Theorem diagnostics_lie_in_the_text (text : str) :
  Forall (fun d => LintDiagnostic.line d < length (splitLines text)
                   /\ LintDiagnostic.col d = 0%Z
                   /\ LintDiagnostic.endCol d = None
                   /\ In (LintDiagnostic.code d, LintDiagnostic.severity d) codeTable)
         (runRules (parse text)).
Proof.
  pose proof (parse_located text) as Hloc.
  pose proof (runRules_code_table (parse text)) as Htab.
  rewrite Forall_forall in *. intros d Hd.
  destruct (Hloc d Hd) as [Hl Hc]. destruct (Htab d Hd) as [Ht He]. auto.
Qed.

(** *** CASE warnings *)

Lemma runRules_SCL104 (r : ParseResult.t) (d : LintDiagnostic.t) :
  In d (runRules r) -> LintDiagnostic.code d = lit "SCL104" ->
  In d (ruleCaseWithoutElse r).
Proof.
  intros Hin Hcode.
  assert (H : In d (filter (fun x => streq (LintDiagnostic.code x) (lit "SCL104"))
                           (runRules r))).
  { apply filter_In. split; [exact Hin|]. rewrite Hcode. apply streq_refl. }
  rewrite runRules_filter_SCL104 in H by (intros x; apply withCode_code).
  apply filter_In in H. tauto.
Qed.

(** X17: a CASE-without-ELSE warning is reported inside the block that
    recorded it: some block of the model holds the line of the warning in
    its CASE map with the value false, and that line lies after the line
    where this block opens and, when the block is closed, before the line
    where it closes. *)
Theorem case_warning_lies_inside_its_block (text : str) (d : LintDiagnostic.t) :
  In d (runRules (parse text)) -> LintDiagnostic.code d = lit "SCL104" ->
  exists b, In b (ParseResult.blocks (parse text))
            /\ In (LintDiagnostic.line d, false) (BlockDecl.hasCaseElse b)
            /\ BlockDecl.line b < LintDiagnostic.line d
            /\ (BlockDecl.endLine b = (-1)%Z
                \/ (Z.of_nat (LintDiagnostic.line d) < BlockDecl.endLine b)%Z).
Proof.
  intros Hin Hcode. apply runRules_SCL104 in Hin; [|exact Hcode].
  unfold ruleCaseWithoutElse in Hin.
  apply in_flat_map in Hin as (b & Hb & Hin).
  apply in_flat_map in Hin as (e & He & Hin).
  destruct e as [k v]. simpl in Hin.
  destruct v; simpl in Hin; [contradiction|].
  destruct Hin as [<-|[]]. simpl.
  exists b. split; [exact Hb|]. split; [exact He|].
  rewrite parse_blocks in Hb.
  destruct (stateInv_final text) as ((_ & _ & _ & Hci) & _).
  rewrite Forall_forall in Hci. specialize (Hci b Hb).
  unfold casesInside in Hci. rewrite Forall_forall in Hci.
  apply (Hci (k, false) He eq_refl).
Qed.

Lemma case_warning_lies_inside_its_block_witness :
  exists b, In b (ParseResult.blocks (parse Samples.caseNestedElseText))
            /\ In (2, false) (BlockDecl.hasCaseElse b)
            /\ BlockDecl.line b < 2
            /\ (BlockDecl.endLine b = (-1)%Z \/ (Z.of_nat 2 < BlockDecl.endLine b)%Z).
Proof.
  apply (case_warning_lies_inside_its_block Samples.caseNestedElseText (caseWarning 2)).
  - vm_compute. auto 20.
  - reflexivity.
Defined.

(** *** Duplicate and unused variables *)

(** X18: when no two declarations of a model share their block and their
    lower-cased name, the engine reports no duplicate variable. *)
Theorem no_duplicate_error_for_distinct_names (r : ParseResult.t) :
  NoDup (map varKey (ParseResult.variables r)) ->
  withCode (lit "SCL004") (runRules r) = [].
Proof.
  intros Hnd. unfold withCode.
  rewrite runRules_filter_SCL004 by (intros d; apply withCode_code).
  rewrite ruleDuplicateVariables_groups, groupByBlock_fold.
  rewrite fold_addVariable_fresh; [reflexivity | exact Hnd |].
  intros v _. reflexivity.
Qed.

Lemma no_duplicate_error_for_distinct_names_witness :
  withCode (lit "SCL004") (runRules (parse Texts.twoBlocksText)) = [].
Proof.
  apply (no_duplicate_error_for_distinct_names (parse Texts.twoBlocksText)).
  vm_compute. repeat constructor; simpl; intuition discriminate.
Defined.

Lemma setAdd_keeps (x y : str) (s : list str) :
  setHas x s = true -> setHas x (setAdd y s) = true.
Proof.
  intros H. unfold setAdd. destruct (setHas y s); [exact H|].
  apply setHas_In. apply in_or_app. left. now apply setHas_In.
Qed.

Lemma setAdd_has (x : str) (s : list str) : setHas x (setAdd x s) = true.
Proof.
  unfold setAdd. destruct (setHas x s) eqn:E; [exact E|].
  apply setHas_In. apply in_or_app. right. now left.
Qed.

Lemma addUsed_keeps (x : str) (names : list str) :
  forall used, setHas x used = true -> setHas x (addUsed used names) = true.
Proof.
  unfold addUsed. induction names as [|n names IH]; intros used H; simpl; [exact H|].
  apply IH. now apply setAdd_keeps.
Qed.

Lemma addUsed_has (n : str) (names : list str) :
  In n names ->
  forall used, setHas (toLowerCase n) (addUsed used names) = true.
Proof.
  unfold addUsed. induction names as [|m names IH]; intros Hin used; simpl;
    [contradiction|].
  destruct Hin as [->|Hin].
  - apply (addUsed_keeps (toLowerCase n) names). apply setAdd_has.
  - now apply IH.
Qed.

Lemma scanLines_used_keeps (x : str) :
  forall (lines : list str) (idx : nat) (st : State),
    setHas x (ParseResult.usedVariables (result st)) = true ->
    setHas x (ParseResult.usedVariables (result (scanLines idx lines st))) = true.
Proof.
  induction lines as [|l lines IH]; intros idx st H; simpl; [exact H|].
  apply IH. rewrite processLine_usedVariables. now apply addUsed_keeps.
Qed.

(** X19: a variable whose name is used with a number sign on any scanned
    line of the text, in any letter case, before or after its declaration
    and in whichever block, is never reported as unused. *)
Theorem used_name_is_not_reported_unused
        (text : str) (L : nat) (line n : str) (v : VariableDecl.t) :
  nth_error (splitLines text) L = Some line ->
  In n (usedOn (inBlockComment (stateBefore text L)) line) ->
  toLowerCase (VariableDecl.name v) = toLowerCase n ->
  unusedVariable (parse text) v = [].
Proof.
  intros Hline Hn Hv.
  assert (Hused : setHas (toLowerCase (VariableDecl.name v))
                         (ParseResult.usedVariables (parse text)) = true).
  { rewrite parse_usedVariables, (scan_cut text L line Hline), Hv.
    apply scanLines_used_keeps. rewrite processLine_usedVariables.
    now apply addUsed_has. }
  unfold unusedVariable. rewrite Hused. simpl.
  destruct_matches; reflexivity.
Qed.

Lemma used_name_is_not_reported_unused_witness :
  unusedVariable (parse Texts.twoBlocksText)
                 (VariableDecl.mk (lit "speed") (lit "Int") (lit "VAR") (lit "FB_A") 2 0)
  = [].
Proof.
  apply (used_name_is_not_reported_unused
           Texts.twoBlocksText 13 (lit "  #SPEED := 2;") (lit "SPEED")).
  - vm_compute. reflexivity.
  - vm_compute. auto.
  - reflexivity.
Defined.

(** ** The consumers of the model *)

(** *** Diagnostics provider *)

(** X20: every diagnostic set on a document is placed on a line of the
    text, from column 0 to the end of that line without its trailing white
    space (one column when nothing is left), and has source SCL. *)
Theorem lint_range_covers_the_line (text : str) (D : Linter.Diagnostic) :
  In D (Linter.lintDocument text) ->
  let r := Linter.range D in
  Linter.startLine r = Linter.endLine r
  /\ Linter.startLine r < length (splitLines text)
  /\ Linter.startCharacter r = 0%Z
  /\ Linter.endCharacter r
     = Z.max (Z.of_nat (length (trimEnd (nth (Linter.startLine r)
                                             (splitLines text) [])))) 1
  /\ Linter.source D = lit "SCL".
Proof.
  unfold Linter.lintDocument. intros H.
  apply in_map_iff in H as (d & <- & Hd).
  pose proof (parse_located text) as Hloc.
  pose proof (runRules_code_table (parse text)) as Htab.
  rewrite Forall_forall in Hloc, Htab.
  destruct (Hloc d Hd) as [Hl Hc]. destruct (Htab d Hd) as [_ He].
  unfold Linter.toDiagnostic, Linter.diagnosticRange, Linter.lineTextAt. simpl.
  rewrite Hc, He. repeat split; auto.
Qed.

Lemma lint_range_covers_the_line_witness :
  let D := Linter.mkDiagnostic (Linter.mkRange 2 0 2 10)
                               (lit "CASE statement has no ELSE branch")
                               Warning (lit "SCL104") (lit "SCL") in
  In D (Linter.lintDocument Samples.caseNestedElseText)
  /\ Linter.endCharacter (Linter.range D)
     = Z.max (Z.of_nat (length (trimEnd (nth 2 (splitLines Samples.caseNestedElseText)
                                             [])))) 1.
Proof.
  assert (H : In (Linter.mkDiagnostic (Linter.mkRange 2 0 2 10)
                                     (lit "CASE statement has no ELSE branch")
                                     Warning (lit "SCL104") (lit "SCL"))
                 (Linter.lintDocument Samples.caseNestedElseText)).
  { vm_compute. auto 20. }
  split; [exact H|].
  apply (lint_range_covers_the_line Samples.caseNestedElseText _ H).
Defined.

(** *** Go to definition *)

Import DefinitionProvider.

Lemma quoteAtOrBefore_eq (line : str) (i : nat) :
  quoteAtOrBefore line i
  = if quoteAt line i then Some i
    else match i with
         | O => None
         | S j => quoteAtOrBefore line j
         end.
Proof. destruct i; reflexivity. Qed.

Lemma without_nth (q : ascii) (s : str) (i : nat) (c : ascii) :
  without q s = true -> nth_error s i = Some c -> Ascii.eqb c q = false.
Proof.
  unfold without. intros H Hn. apply nth_error_In in Hn.
  rewrite forallb_forall in H. apply negb_true_iff. now apply H.
Qed.

Lemma quoteAt_opening (pre rest : str) :
  quoteAt (pre ++ dquote :: rest) (length pre) = true.
Proof.
  unfold quoteAt. rewrite nth_error_app2 by lia. rewrite Nat.sub_diag. reflexivity.
Qed.

Lemma quoteAt_inside (pre name rest : str) (k : nat) :
  without dquote name = true -> k < length name ->
  quoteAt (pre ++ dquote :: name ++ rest) (length pre + S k) = false.
Proof.
  intros Hn Hk. unfold quoteAt. rewrite nth_error_app2 by lia.
  replace (length pre + S k - length pre) with (S k) by lia. simpl.
  rewrite nth_error_app1 by exact Hk.
  destruct (nth_error name k) as [c|] eqn:E.
  - apply (without_nth dquote name k c Hn E).
  - reflexivity.
Qed.

Lemma quoteAtOrBefore_opening (pre name rest : str) :
  without dquote name = true ->
  forall k, k <= length name ->
            quoteAtOrBefore (pre ++ dquote :: name ++ rest) (length pre + k)
            = Some (length pre).
Proof.
  intros Hn. induction k as [|k IH]; intros Hk; rewrite quoteAtOrBefore_eq.
  - rewrite Nat.add_0_r, quoteAt_opening. reflexivity.
  - rewrite quoteAt_inside by (auto; lia).
    replace (length pre + S k) with (S (length pre + k)) by lia.
    apply IH. lia.
Qed.

Lemma quoteInRest_closing (a b : str) :
  without dquote a = true ->
  forall i, quoteInRest i (a ++ dquote :: b) = Some (i + length a).
Proof.
  induction a as [|c a IH]; intros Ha i; simpl.
  - try rewrite Ascii.eqb_refl. f_equal. lia.
  - simpl in Ha. apply andb_true_iff in Ha as [Hc Ha].
    apply negb_true_iff in Hc. rewrite Hc. rewrite IH by exact Ha. f_equal. lia.
Qed.

Lemma without_skipn (q : ascii) (s : str) (n : nat) :
  without q s = true -> without q (skipn n s) = true.
Proof.
  revert n. induction s as [|c s IH]; intros [|n] H; simpl; auto.
  simpl in H. apply andb_true_iff in H as [_ H]. now apply IH.
Qed.

Lemma quoteAtOrAfter_closing (pre name post : str) (j : nat) :
  without dquote name = true -> j <= length name ->
  quoteAtOrAfter (pre ++ dquote :: name ++ dquote :: post) (length pre + 1 + j)
  = Some (length pre + 1 + length name).
Proof.
  intros Hn Hj. unfold quoteAtOrAfter.
  rewrite skipn_app.
  rewrite (skipn_all2 pre) by lia.
  replace (length pre + 1 + j - length pre) with (S j) by lia.
  cbn [app skipn].
  rewrite skipn_app.
  replace (j - length name) with 0 by lia. cbn [skipn].
  rewrite quoteInRest_closing by (now apply without_skipn).
  rewrite length_skipn. f_equal. lia.
Qed.

(** X21: with the cursor on the opening quote of a double-quoted name or
    on one of its characters, [getQuotedName] returns the name, whatever
    stands in front of it and behind it. *)
Theorem getQuotedName_returns_the_name_under_the_cursor
        (pre name post : str) (charPos : nat) :
  without dquote name = true ->
  length pre <= charPos <= length pre + length name ->
  getQuotedName (pre ++ dquote :: name ++ dquote :: post) charPos = Some name.
Proof.
  intros Hn [Hlo Hhi]. unfold getQuotedName.
  replace charPos with (length pre + (charPos - length pre)) at 1 by lia.
  rewrite (quoteAtOrBefore_opening pre name (dquote :: post) Hn) by lia.
  replace (Nat.max charPos (length pre + 1))
    with (length pre + 1 + (Nat.max charPos (length pre + 1) - length pre - 1)) by lia.
  rewrite quoteAtOrAfter_closing by (auto; lia).
  destruct (length pre + 1 + length name <=? length pre) eqn:E;
    [apply Nat.leb_le in E; lia|].
  f_equal. unfold substring.
  rewrite skipn_app. rewrite (skipn_all2 pre) by lia.
  replace (length pre + 1 - length pre) with 1 by lia. cbn [app skipn].
  replace (length pre + 1 + length name - (length pre + 1)) with (length name) by lia.
  rewrite firstn_app. rewrite Nat.sub_diag. cbn [firstn].
  rewrite firstn_all, app_nil_r. reflexivity.
Qed.

Lemma getQuotedName_returns_the_name_under_the_cursor_witness :
  getQuotedName (lit "  #m : " ++ dquote :: lit "UDT_Motor" ++ dquote :: lit ";") 11
  = Some (lit "UDT_Motor").
Proof.
  apply (getQuotedName_returns_the_name_under_the_cursor
           (lit "  #m : ") (lit "UDT_Motor") (lit ";") 11).
  - reflexivity.
  - simpl. lia.
Defined.

Lemma find_earliest (A : Type) (line : A -> nat) (p : A -> bool) :
  forall l : list A,
    increasing (map line l) ->
    (exists v, In v l /\ p v = true) ->
    exists v, find p l = Some v /\ In v l /\ p v = true
              /\ forall w, In w l -> p w = true -> line v <= line w.
Proof.
  induction l as [|x l IH]; intros Hinc (v & Hin & Hp); [contradiction|].
  simpl in Hinc. destruct Hinc as [Hx Hinc]. simpl.
  destruct (p x) eqn:Ex.
  - exists x. repeat split; auto.
    intros w [<-|Hw] _; [lia|].
    rewrite Forall_map, Forall_forall in Hx. specialize (Hx w Hw). lia.
  - destruct Hin as [->|Hin]; [congruence|].
    destruct (IH Hinc (ex_intro _ v (conj Hin Hp))) as (m & Hf & Hm & Hpm & Hmin).
    exists m. repeat split; auto.
    intros w [<-|Hw] Hpw; [congruence | auto].
Qed.

(** X22: for a name that the model of a text declares, in any letter
    case, [findVariable] returns column 0 of the earliest line that
    declares it, whichever block that line belongs to. *)
Theorem findVariable_finds_the_earliest_declaration (text name : str) :
  (exists v, In v (ParseResult.variables (parse text))
             /\ toLowerCase (VariableDecl.name v) = toLowerCase name) ->
  exists v, In v (ParseResult.variables (parse text))
            /\ toLowerCase (VariableDecl.name v) = toLowerCase name
            /\ findVariable (ParseResult.variables (parse text)) name
               = Some (VariableDecl.line v, 0%Z)
            /\ forall w, In w (ParseResult.variables (parse text)) ->
                         toLowerCase (VariableDecl.name w) = toLowerCase name ->
                         VariableDecl.line v <= VariableDecl.line w.
Proof.
  intros (v & Hin & Hv).
  rewrite parse_variables in *.
  destruct (stateInv_final text) as (_ & _ & (Hok & Hinc) & _).
  destruct (find_earliest _ VariableDecl.line
              (fun v => streq (toLowerCase (VariableDecl.name v)) (toLowerCase name))
              _ Hinc)
    as (m & Hf & Hm & Hpm & Hmin).
  { exists v. split; [exact Hin|]. rewrite Hv. apply streq_refl. }
  exists m. split; [exact Hm|]. split; [now apply streq_eq|]. split.
  - unfold findVariable. rewrite Hf.
    rewrite Forall_forall in Hok. destruct (Hok m Hm) as ((Hcol & _) & _).
    rewrite Hcol. reflexivity.
  - intros w Hw Hn. apply Hmin; [exact Hw|]. rewrite Hn. apply streq_refl.
Qed.

Lemma findVariable_finds_the_earliest_declaration_witness :
  exists v, In v (ParseResult.variables (parse Texts.twoBlocksText))
            /\ toLowerCase (VariableDecl.name v) = toLowerCase (lit "SPEED")
            /\ findVariable (ParseResult.variables (parse Texts.twoBlocksText))
                            (lit "SPEED")
               = Some (VariableDecl.line v, 0%Z)
            /\ forall w, In w (ParseResult.variables (parse Texts.twoBlocksText)) ->
                         toLowerCase (VariableDecl.name w) = toLowerCase (lit "SPEED") ->
                         VariableDecl.line v <= VariableDecl.line w.
Proof.
  apply (findVariable_finds_the_earliest_declaration Texts.twoBlocksText (lit "SPEED")).
  exists (VariableDecl.mk (lit "Speed") (lit "Int") (lit "VAR_TEMP") (lit "FC_B") 9 0).
  split; [vm_compute; auto | reflexivity].
Defined.

(** X23: for a name that a block of the model of a text carries,
    [findBlock] returns column 0 of the opening line of the first block of
    that name. *)
Theorem findBlock_finds_the_first_block_of_the_name (text name : str) :
  (exists b, In b (ParseResult.blocks (parse text)) /\ BlockDecl.name b = name) ->
  exists b, In b (ParseResult.blocks (parse text))
            /\ BlockDecl.name b = name
            /\ findBlock (ParseResult.blocks (parse text)) name
               = Some (BlockDecl.line b, 0%Z)
            /\ forall w, In w (ParseResult.blocks (parse text)) ->
                         BlockDecl.name w = name ->
                         BlockDecl.line b <= BlockDecl.line w.
Proof.
  intros (b & Hin & Hb).
  rewrite parse_blocks in *.
  destruct (stateInv_final text) as ((_ & Hinc & _) & _).
  destruct (find_earliest _ BlockDecl.line
              (fun b => streq (BlockDecl.name b) name) _ Hinc)
    as (m & Hf & Hm & Hpm & Hmin).
  { exists b. split; [exact Hin|]. rewrite Hb. apply streq_refl. }
  exists m. split; [exact Hm|]. split; [now apply streq_eq|]. split.
  - unfold findBlock. rewrite Hf. reflexivity.
  - intros w Hw Hn. apply Hmin; [exact Hw|]. rewrite Hn. apply streq_refl.
Qed.

Lemma findBlock_finds_the_first_block_of_the_name_witness :
  exists b, In b (ParseResult.blocks (parse Texts.twoBlocksText))
            /\ BlockDecl.name b = lit "FC_B"
            /\ findBlock (ParseResult.blocks (parse Texts.twoBlocksText)) (lit "FC_B")
               = Some (BlockDecl.line b, 0%Z)
            /\ forall w, In w (ParseResult.blocks (parse Texts.twoBlocksText)) ->
                         BlockDecl.name w = lit "FC_B" ->
                         BlockDecl.line b <= BlockDecl.line w.
Proof.
  apply (findBlock_finds_the_first_block_of_the_name Texts.twoBlocksText (lit "FC_B")).
  eexists. split; [vm_compute; right; left; reflexivity | reflexivity].
Defined.

(** *** Outline *)

Import SymbolProvider.

Lemma sectionGroup_add (v : VariableDecl.t) (s : str) :
  forall g : list (str * list VariableDecl.t),
    sectionGroup s (addToSection v g)
    = if streq (VariableDecl.section v) s
      then Some (match sectionGroup s g with
                 | Some vs => vs ++ [v]
                 | None => [v]
                 end)
      else sectionGroup s g.
Proof.
  unfold sectionGroup. induction g as [|[s' vs] g IH]; cbn [addToSection find fst].
  - rewrite (streq_sym s). destruct (streq (VariableDecl.section v) s); reflexivity.
  - destruct (streq (VariableDecl.section v) s') eqn:E1; cbn [find fst].
    + apply streq_eq in E1. rewrite <- E1. rewrite (streq_sym s).
      destruct (streq (VariableDecl.section v) s); reflexivity.
    + destruct (streq s s') eqn:E2.
      * apply streq_eq in E2. subst s'. rewrite E1. reflexivity.
      * exact IH.
Qed.

Lemma sectionGroup_fold (s : str) :
  forall (vars : list VariableDecl.t) (g : list (str * list VariableDecl.t)),
    sectionGroup s (fold_left (fun sections v => addToSection v sections) vars g)
    = match ofSection s vars with
      | [] => sectionGroup s g
      | _ :: _ => Some (match sectionGroup s g with
                        | Some old => old ++ ofSection s vars
                        | None => ofSection s vars
                        end)
      end.
Proof.
  unfold ofSection.
  induction vars as [|v vars IH]; intros g; cbn [fold_left filter]; [reflexivity|].
  rewrite IH, sectionGroup_add.
  destruct (streq (VariableDecl.section v) s).
  - destruct (filter _ vars) as [|w ws]; destruct (sectionGroup s g);
      try reflexivity; rewrite <- app_assoc; reflexivity.
  - reflexivity.
Qed.

Lemma addToSection_keys (v : VariableDecl.t) :
  forall g : list (str * list VariableDecl.t),
    map fst (addToSection v g)
    = if existsb (streq (VariableDecl.section v)) (map fst g)
      then map fst g
      else map fst g ++ [VariableDecl.section v].
Proof.
  induction g as [|[s' vs] g IH]; cbn [addToSection map fst existsb app];
    [reflexivity|].
  destruct (streq (VariableDecl.section v) s'); cbn [map fst orb]; [reflexivity|].
  rewrite IH. destruct (existsb _ _); reflexivity.
Qed.

Lemma groupBySection_keys :
  forall (vars : list VariableDecl.t) (g : list (str * list VariableDecl.t)),
    NoDup (map fst g) ->
    NoDup (map fst (fold_left (fun sections v => addToSection v sections) vars g)).
Proof.
  induction vars as [|v vars IH]; intros g Hg; cbn [fold_left]; [exact Hg|].
  apply IH. rewrite addToSection_keys.
  destruct (existsb _ _) eqn:E; [exact Hg|].
  apply NoDup_app; [exact Hg | repeat constructor; auto |].
  intros y Hy [<-|[]].
  assert (Ht : existsb (streq (VariableDecl.section v)) (map fst g) = true).
  { apply existsb_exists. exists (VariableDecl.section v).
    split; [exact Hy | apply streq_refl]. }
  congruence.
Qed.

(** X24: the outline groups the variables of a block by section: every
    section appears once, and holds the variables of that section, all of
    them and in the order of their declarations; a section without
    variables does not appear. *)
Theorem outline_groups_variables_by_section (vars : list VariableDecl.t) :
  NoDup (map fst (groupBySection vars))
  /\ forall s, sectionGroup s (groupBySection vars)
               = match ofSection s vars with
                 | [] => None
                 | _ :: _ => Some (ofSection s vars)
                 end.
Proof.
  unfold groupBySection. split.
  - apply groupBySection_keys. constructor.
  - intros s. rewrite sectionGroup_fold. reflexivity.
Qed.

Lemma parse_spans (text : str) :
  Forall (fun b => BlockDecl.endLine b = (-1)%Z
                   \/ (Z.of_nat (BlockDecl.line b) < BlockDecl.endLine b)%Z)
         (ParseResult.blocks (parse text)).
Proof.
  rewrite parse_blocks.
  pose proof (scanLines_invariant
                (fun i st => Forall (spanOk i) (ParseResult.blocks (result st)))
                processLine_spanOk (splitLines text) 0 initState) as H.
  simpl in H. specialize (H (Forall_nil _)).
  eapply Forall_impl; [|exact H]. intros b [_ Hb]. exact Hb.
Qed.

(** X25: the range of the outline symbol of a block of the model of a
    text runs from the opening line of the block to a line of the text that
    is not before it, and the kind of the symbol is never the fallback
    kind. *)
Theorem outline_block_range_lies_in_the_text (text : str) (b : BlockDecl.t) :
  In b (ParseResult.blocks (parse text)) ->
  (Z.of_nat (BlockDecl.line b) <= blockEndLine b
   < Z.of_nat (length (splitLines text)))%Z
  /\ blockKind (BlockDecl.type b) <> KModule.
Proof.
  intros Hin.
  pose proof (parse_spans text) as Hs.
  rewrite Forall_forall in Hs. specialize (Hs b Hin).
  rewrite parse_blocks in Hin.
  destruct (stateInv_final text) as ((Hok & _) & _).
  rewrite Forall_forall in Hok. destruct (Hok b Hin) as (Ht & _ & Hl & He & _).
  split.
  - unfold blockEndLine. destruct (0 <=? BlockDecl.endLine b)%Z eqn:E.
    + apply Z.leb_le in E. lia.
    + lia.
  - simpl in Ht. repeat destruct Ht as [<-|Ht]; try contradiction;
      vm_compute; discriminate.
Qed.

Lemma outline_block_range_lies_in_the_text_witness :
  exists b, In b (ParseResult.blocks (parse Texts.twoBlocksText))
            /\ (Z.of_nat (BlockDecl.line b) <= blockEndLine b
                < Z.of_nat (length (splitLines Texts.twoBlocksText)))%Z
            /\ blockKind (BlockDecl.type b) <> KModule.
Proof.
  assert (H : exists b, In b (ParseResult.blocks (parse Texts.twoBlocksText))).
  { eexists. vm_compute. left. reflexivity. }
  destruct H as (b & Hb). exists b. split; [exact Hb|].
  apply (outline_block_range_lies_in_the_text Texts.twoBlocksText b Hb).
Defined.

(** *** Quick fixes *)

Import QuickFixes.

Lemma endCase_is_no_case (l : str) : isEndCaseLine l = true -> isCaseLine l = false.
Proof.
  unfold isEndCaseLine, isCaseLine, keywordAtStart. intros H.
  apply andb_true_iff in H as [H _].
  rewrite (startsWith_incompatible (upperOf l) (lit "END_CASE") (lit "CASE") H eq_refl).
  reflexivity.
Qed.

Lemma findEndCaseLoop_step (depth : Z) (i : nat) (l : str) (rest : list str) :
  findEndCaseLoop depth i (l :: rest)
  = if isEndCaseLine l then
      if ((if isCaseLine l then depth + 1 else depth) - 1 =? 0)%Z then Some i
      else findEndCaseLoop ((if isCaseLine l then depth + 1 else depth) - 1)%Z
                           (S i) rest
    else findEndCaseLoop (if isCaseLine l then depth + 1 else depth)%Z (S i) rest.
Proof. reflexivity. Qed.

Lemma findEndCaseLoop_nested (e : str) (post : list str) :
  isEndCaseLine e = true ->
  forall (body : list str) (d i : nat),
    nestedCases d body = true ->
    findEndCaseLoop (Z.of_nat d + 1) i (body ++ e :: post) = Some (i + length body).
Proof.
  intros He. induction body as [|l body IH]; intros d i Hn.
  - simpl in Hn. apply Nat.eqb_eq in Hn. subst d.
    cbn [app length]. rewrite findEndCaseLoop_step, He, (endCase_is_no_case e He).
    simpl. f_equal. lia.
  - cbn [app length]. rewrite findEndCaseLoop_step. cbn [nestedCases] in Hn.
    destruct (isEndCaseLine l) eqn:El.
    + rewrite (endCase_is_no_case l El).
      destruct d as [|d]; [discriminate|].
      replace (Z.of_nat (S d) + 1 - 1)%Z with (Z.of_nat d + 1)%Z by lia.
      destruct (Z.of_nat d + 1 =? 0)%Z eqn:E; [apply Z.eqb_eq in E; lia|].
      rewrite IH by exact Hn. f_equal. lia.
    + destruct (isCaseLine l).
      * replace (Z.of_nat d + 1 + 1)%Z with (Z.of_nat (S d) + 1)%Z by lia.
        rewrite IH by exact Hn. f_equal. lia.
      * rewrite IH by exact Hn. f_equal. lia.
Qed.

(** X26: for a CASE line followed by lines that hold complete CASE
    statements only and then by an END_CASE line, [findEndCase] returns the
    line of that END_CASE: the inner CASE statements are passed over. *)
Theorem findEndCase_finds_the_matching_line
        (pre body post : list str) (c e : str) :
  isCaseLine c = true -> isEndCaseLine e = true -> nestedCases 0 body = true ->
  findEndCase (pre ++ c :: body ++ e :: post) (length pre)
  = length pre + 1 + length body.
Proof.
  intros Hc He Hn. unfold findEndCase.
  rewrite skipn_app, skipn_all, Nat.sub_diag. cbn [app skipn].
  rewrite findEndCaseLoop_step, Hc.
  destruct (isEndCaseLine c) eqn:Ec;
    [rewrite (endCase_is_no_case c Ec) in Hc; discriminate|].
  change (0 + 1)%Z with (Z.of_nat 0 + 1)%Z.
  rewrite (findEndCaseLoop_nested e post He body 0 (S (length pre)) Hn). lia.
Qed.

Lemma findEndCase_finds_the_matching_line_witness :
  findEndCase Texts.nestedCaseDocument 1 = 7.
Proof.
  apply (findEndCase_finds_the_matching_line
           [lit "BEGIN"]
           [lit "    1:"; lit "      CASE #b OF"; lit "        1: #x := 1;";
            lit "      END_CASE;"; lit "    2: #x := 2;"]
           [lit "END_FUNCTION"]
           (lit "  CASE #a OF") (lit "  END_CASE;"));
    vm_compute; reflexivity.
Defined.

Lemma versionInsertLoop_run (bound : nat) :
  forall (lines : list str) (i : nat),
    versionInsertLoop i i bound lines = i + pragmaRun (firstn (bound - i) lines).
Proof.
  induction lines as [|l lines IH]; intros i.
  - rewrite firstn_nil. simpl. lia.
  - cbn [versionInsertLoop]. destruct (i <? bound) eqn:E.
    + apply Nat.ltb_lt in E.
      replace (bound - i) with (S (bound - S i)) by lia. cbn [firstn pragmaRun].
      destruct (startsWith (trim l) (lit "{")); [|lia].
      rewrite Nat.add_1_r, IH. lia.
    + apply Nat.ltb_ge in E. replace (bound - i) with 0 by lia. simpl. lia.
Qed.

Lemma firstn_min_length (A : Type) (n : nat) (l : list A) :
  firstn (Nat.min n (length l)) l = firstn n l.
Proof.
  destruct (Nat.le_ge_cases n (length l)) as [H|H].
  - now rewrite Nat.min_l.
  - rewrite Nat.min_r by exact H. rewrite firstn_all.
    symmetry. now apply firstn_all2.
Qed.

(** X27: the VERSION declaration is inserted behind the run of pragma
    lines that follows the block header, of which four lines at most are
    looked at. *)
Theorem version_is_inserted_behind_the_pragmas (document : list str) (blockLine : nat) :
  versionInsertLine document blockLine
  = blockLine + 1 + pragmaRun (firstn 4 (skipn (blockLine + 1) document)).
Proof.
  unfold versionInsertLine. rewrite versionInsertLoop_run. f_equal.
  rewrite <- (firstn_min_length _ 4 (skipn (blockLine + 1) document)).
  rewrite length_skipn. f_equal. f_equal. lia.
Qed.

(** ** Texts without a BEGIN line *)

Lemma closeBlock_afterBegin (i : nat) (k : str) (st : State) :
  afterBegin st = false -> afterBegin (closeBlock i k st) = false.
Proof. intros H. unfold closeBlock. destruct_matches; simpl; auto. Qed.

Lemma closeBlock_blocks_Forall (P : BlockDecl.t -> Prop) (i : nat) (k : str)
      (st : State) :
  (forall b v, P b -> P (BlockDecl.setEndLine v b)) ->
  Forall P (ParseResult.blocks (result st)) ->
  Forall P (ParseResult.blocks (result (closeBlock i k st))).
Proof.
  intros Hp H. unfold closeBlock. destruct_matches; kept.
  apply (mutateCurrent_Forall P (BlockDecl.setEndLine (Z.of_nat i))
                              (setBlockStack (pop (blockStack st)) st)); auto.
Qed.

Lemma classify_beforeBegin (idx : nat) (o t u : str) (st : State) :
  streq u (lit "BEGIN") = false ->
  beforeBegin st -> beforeBegin (classify idx o t u st).
Proof.
  intros Hu (Ha & Hc & He & Hb & Hu').
  destruct (classify_classified idx o t u st); unfold beforeBegin.
  - (* pragma *)
    kept. repeat split; auto. now apply mutateCurrent_Forall.
  - (* VERSION *)
    kept. repeat split; auto. now apply mutateCurrent_Forall.
  - (* a block opens *)
    unfold openBlock. simpl. repeat split; auto.
    apply Forall_snoc; [exact Hb|]. simpl. auto.
  - (* a block closes *)
    split; [now apply closeBlock_afterBegin|].
    rewrite closeBlock_controlStack, closeBlock_exitOutsideLoop.
    split; [exact Hc|]. split; [exact He|]. split.
    + apply closeBlock_blocks_Forall; [|exact Hb]. intros b v Hbv. exact Hbv.
    + unfold closeBlock. destruct_matches; kept;
        (apply Forall_snoc; [exact Hu'|]); simpl in H |- *; tauto.
  - congruence.
  - (* a VAR section closes *)
    kept. repeat split; auto.
    unfold closeVarSection. destruct_matches; kept;
      (apply Forall_snoc; [exact Hu'|]); vm_compute; auto 20.
  - unfold openVarSection. simpl. repeat split; auto.
  - kept. repeat split; auto.
  - congruence.
  - repeat split; auto.
Qed.

Lemma processLine_beforeBegin (idx : nat) (l : str) (st : State) :
  isBeginLine (activeUpper (inBlockComment st) l) = false ->
  beforeBegin st -> beforeBegin (processLine idx l st).
Proof.
  intros Hl Hst.
  destruct (activeUpper (inBlockComment st) l) as [u|] eqn:E.
  - destruct (processLine_active idx l st u E) as (o & t & _ & _ & _ & _ & ->).
    apply classify_beforeBegin; [exact Hl|].
    destruct Hst as (Ha & Hc & He & Hb & Hu).
    destruct (tracked_fields o (commentAfter (inBlockComment st) l) st)
      as (Eb & _ & Eu & Ee & _ & _ & Ecs & _ & _ & Ea & _).
    unfold beforeBegin. rewrite Eb, Eu, Ee, Ecs, Ea. auto.
  - rewrite (processLine_skipped idx l st E). exact Hst.
Qed.

Lemma scanLines_beforeBegin :
  forall (lines : list str) (idx : nat) (st : State),
    forallb (fun u => negb (isBeginLine u)) (activeUppers (inBlockComment st) lines)
    = true ->
    beforeBegin st -> beforeBegin (scanLines idx lines st).
Proof.
  induction lines as [|l lines IH]; intros idx st Hl Hst; [exact Hst|].
  cbn [activeUppers forallb] in Hl. apply andb_true_iff in Hl as [H1 Hl].
  apply negb_true_iff in H1. cbn [scanLines]. apply IH.
  - rewrite processLine_comment. exact Hl.
  - now apply processLine_beforeBegin.
Qed.

Lemma flat_map_nil (A B : Type) (f : A -> list B) (l : list A) :
  Forall (fun x => f x = []) l -> flat_map f l = [].
Proof.
  induction 1 as [|x l Hx _ IH]; simpl; [reflexivity|].
  now rewrite Hx, IH.
Qed.

Lemma ruleUnmatchedControlFlow_none (r : ParseResult.t) :
  Forall (fun e => In (StackEntry.keyword e) (keys BLOCK_PAIRS ++ sectionKeywords))
         (ParseResult.unmatchedOpens r) ->
  Forall (fun e => In (StackEntry.keyword e) (keys BLOCK_END_TO_OPEN ++ varClosers))
         (ParseResult.unmatchedCloses r) ->
  ruleUnmatchedControlFlow r = [].
Proof.
  intros Ho Hc. unfold ruleUnmatchedControlFlow.
  rewrite !flat_map_nil; [reflexivity | |].
  - eapply Forall_impl; [|exact Hc]. intros [k ln cl] Hk. simpl in Hk.
    repeat destruct Hk as [<-|Hk]; try contradiction; vm_compute; reflexivity.
  - eapply Forall_impl; [|exact Ho]. intros [k ln cl] Hk. simpl in Hk.
    repeat destruct Hk as [<-|Hk]; try contradiction; vm_compute; reflexivity.
Qed.

Lemma Forall_other_code (c : str) (ds : list LintDiagnostic.t) :
  Forall (fun d => LintDiagnostic.code d = c) ds ->
  existsb (streq c) controlFlowCodes = false ->
  Forall (fun d => ~ In (LintDiagnostic.code d) controlFlowCodes) ds.
Proof.
  intros H Hc. eapply Forall_impl; [|exact H]. intros d -> Hin.
  assert (Ht : existsb (streq c) controlFlowCodes = true).
  { apply existsb_exists. exists c. split; [exact Hin | apply streq_refl]. }
  congruence.
Qed.

(** X28: for a text in which no line is scanned as a BEGIN line, the
    engine produces no diagnostic on control flow or on the BEGIN section:
    no unmatched control-flow construct, no stray EXIT, no CASE without
    ELSE and no empty BEGIN section, whatever control-flow keywords the
    text holds. *)
Theorem no_control_flow_diagnostics_without_begin (text : str) :
  noBeginLine text = true ->
  Forall (fun d => ~ In (LintDiagnostic.code d) controlFlowCodes)
         (runRules (parse text)).
Proof.
  intros Hno.
  pose proof (scanLines_beforeBegin (splitLines text) 0 initState Hno) as Hbb.
  assert (Hinit : beforeBegin initState).
  { unfold beforeBegin. simpl. repeat split; constructor. }
  specialize (Hbb Hinit). destruct Hbb as (Ha & Hc & He & Hb & Hu).
  destruct (stateInv_final text) as (_ & (Hbs & Hvs & _ & _ & _ & Ho & _) & _).
  assert (E1 : ruleUnmatchedControlFlow (parse text) = []).
  { apply ruleUnmatchedControlFlow_none.
    - rewrite parse_unmatchedOpens, Ho, Hc. cbn [app]. rewrite app_nil_r.
      apply Forall_app. split.
      + eapply Forall_impl; [|exact Hbs]. intros e (H & _).
        apply in_or_app. now left.
      + eapply Forall_impl; [|exact Hvs]. intros e (H & _).
        apply in_or_app. now right.
    - rewrite parse_unmatchedCloses. exact Hu. }
  assert (E5 : ruleExitOutsideLoop (parse text) = []).
  { unfold ruleExitOutsideLoop. rewrite parse_exitOutsideLoop, He. reflexivity. }
  assert (E104 : ruleCaseWithoutElse (parse text) = []).
  { unfold ruleCaseWithoutElse. rewrite parse_blocks. apply flat_map_nil.
    eapply Forall_impl; [|exact Hb]. intros b [-> _]. reflexivity. }
  assert (E105 : ruleEmptyBlock (parse text) = []).
  { unfold ruleEmptyBlock. rewrite parse_blocks. apply flat_map_nil.
    eapply Forall_impl; [|exact Hb]. intros b [_ ->].
    destruct (_ || _); reflexivity. }
  unfold runRules. rewrite E1, E5, E104, E105. cbn [app].
  apply Forall_app; split;
    [exact (Forall_other_code _ _ (ruleUnmatchedVarSections_code _) eq_refl)|].
  apply Forall_app; split;
    [exact (Forall_other_code _ _ (ruleUnmatchedBlocks_code _) eq_refl)|].
  apply Forall_app; split;
    [exact (Forall_other_code _ _ (ruleDuplicateVariables_code _) eq_refl)|].
  apply Forall_app; split;
    [exact (Forall_other_code _ _ (ruleUnusedVariables_code _) eq_refl)|].
  apply Forall_app; split;
    [exact (Forall_other_code _ _ (ruleMissingVersion_code _) eq_refl)|].
  apply Forall_app; split;
    [exact (Forall_other_code _ _ (ruleMissingPragma_code _) eq_refl)|].
  exact (Forall_other_code _ _ (ruleNamingConvention_code _) eq_refl).
Qed.

Lemma no_control_flow_diagnostics_without_begin_witness :
  noBeginLine Texts.noBeginText = true
  /\ Forall (fun d => ~ In (LintDiagnostic.code d) controlFlowCodes)
            (runRules (parse Texts.noBeginText)).
Proof.
  split; [vm_compute; reflexivity|].
  apply (no_control_flow_diagnostics_without_begin Texts.noBeginText).
  vm_compute. reflexivity.
Defined.

(** ** Pragma and VERSION lines *)

Lemma blockStep_flag_kept (flag : BlockDecl.t -> bool) (idx : nat) (st st' : State)
      (j : nat) :
  (forall b b', flagsKept b b' -> flag b = true -> flag b' = true) ->
  (forall v b, flag (BlockDecl.setEndLine v b) = flag b) ->
  blockStep idx st st' ->
  (exists b, nth_error (ParseResult.blocks (result st)) j = Some b /\ flag b = true) ->
  exists b, nth_error (ParseResult.blocks (result st')) j = Some b /\ flag b = true.
Proof.
  intros Hk Hend Hstep (b & Hj & Hf). unfold blockStep in Hstep.
  destruct Hstep as [[Eb _]|[(n & _ & Eb & _)|[(c & f & _ & Eb & He & _)
                                               |(c & _ & Eb & _)]]];
    rewrite Eb.
  - exists b. auto.
  - exists b. split; [|exact Hf].
    rewrite nth_error_app1; [exact Hj|]. apply nth_error_Some. congruence.
  - rewrite nth_error_updAt, Hj. destruct (c =? j); [|eauto].
    exists (f b). split; [reflexivity|].
    destruct (He b) as (_ & _ & Hfl & _). eapply Hk; eauto.
  - rewrite nth_error_updAt, Hj. destruct (c =? j); [|eauto].
    eexists. split; [reflexivity|]. now rewrite Hend.
Qed.

Lemma scanLines_flag_kept (flag : BlockDecl.t -> bool) (j : nat) :
  (forall b b', flagsKept b b' -> flag b = true -> flag b' = true) ->
  (forall v b, flag (BlockDecl.setEndLine v b) = flag b) ->
  forall (lines : list str) (idx : nat) (st : State),
    (exists b, nth_error (ParseResult.blocks (result st)) j = Some b /\ flag b = true) ->
    exists b, nth_error (ParseResult.blocks (result (scanLines idx lines st))) j = Some b
              /\ flag b = true.
Proof.
  intros Hk Hend. induction lines as [|l lines IH]; intros idx st H; [exact H|].
  cbn [scanLines]. apply IH.
  eapply blockStep_flag_kept; eauto. apply processLine_blockStep.
Qed.

Lemma increasing_nth_unique (A : Type) (line : A -> nat) :
  forall (l : list A) (j : nat) (b b' : A),
    increasing (map line l) -> nth_error l j = Some b -> In b' l ->
    line b' = line b -> b' = b.
Proof.
  induction l as [|x l IH]; intros j b b' Hinc Hj Hin Hl; [contradiction|].
  simpl in Hinc. destruct Hinc as [Hx Hinc].
  rewrite Forall_map, Forall_forall in Hx.
  destruct j as [|j]; simpl in Hj.
  - inversion Hj; subst x. destruct Hin as [->|Hin]; [reflexivity|].
    specialize (Hx b' Hin). lia.
  - destruct Hin as [->|Hin].
    + apply nth_error_In in Hj. specialize (Hx b Hj). lia.
    + eapply IH; eauto.
Qed.

Lemma version_is_no_pragma (t : str) :
  startsWith (toUpperCase t) (lit "VERSION") = true -> startsWith t (lit "{") = false.
Proof.
  destruct t as [|c t]; [discriminate|].
  intros H. apply startsWith_app in H as [r Hr].
  destruct (startsWith (c :: t) (lit "{")) eqn:E; [|reflexivity].
  apply startsWith_app in E as [r' Hr']. inversion Hr'; subst.
  discriminate.
Qed.

Lemma current_block_exists (text : str) (L j : nat) :
  currentBlock (stateBefore text L) = Some j ->
  exists b, nth_error (ParseResult.blocks (result (stateBefore text L))) j = Some b.
Proof.
  intros Hc. destruct (stateInv_stateBefore text L) as ((_ & _ & Hcur & _) & _).
  destruct (Hcur j Hc) as (b & Hb & _). eauto.
Qed.

Lemma flagged_at_line (flag : BlockDecl.t -> bool) (f : BlockDecl.t -> BlockDecl.t)
      (text : str) (L j : nat) (line o t u : str) :
  (forall b b', flagsKept b b' -> flag b = true -> flag b' = true) ->
  (forall v b, flag (BlockDecl.setEndLine v b) = flag b) ->
  (forall b, flag (f b) = true) ->
  nth_error (splitLines text) L = Some line ->
  currentBlock (stateBefore text L) = Some j ->
  processLine L line (stateBefore text L)
  = mutateCurrent f (trackUsage o (setInBlockComment
                                     (commentAfter (inBlockComment (stateBefore text L)) line)
                                     (stateBefore text L))) ->
  exists b, nth_error (ParseResult.blocks (parse text)) j = Some b /\ flag b = true.
Proof.
  intros Hk Hend Hf Hline Hcur Hstep.
  rewrite parse_blocks, (scan_cut text L line Hline).
  apply scanLines_flag_kept; [exact Hk | exact Hend |].
  rewrite Hstep.
  destruct (current_block_exists text L j Hcur) as (b & Hb).
  exists (f b). split; [|apply Hf].
  rewrite (mutateCurrent_some f _ j) by (autorewrite with scan; exact Hcur).
  autorewrite with scan. simpl. rewrite nth_error_updAt, Nat.eqb_refl, Hb. reflexivity.
Qed.

(** X29: a line scanned as a VERSION line while a block is current sets
    the VERSION flag of that block for good, so the engine reports no
    missing VERSION on the opening line of that block. *)
Theorem version_line_silences_the_warning (text : str) (L j : nat) (line u : str) :
  nth_error (splitLines text) L = Some line ->
  activeUpper (inBlockComment (stateBefore text L)) line = Some u ->
  startsWith u (lit "VERSION") = true ->
  currentBlock (stateBefore text L) = Some j ->
  exists b, nth_error (ParseResult.blocks (parse text)) j = Some b
            /\ BlockDecl.hasVersion b = true
            /\ ~ In (BlockDecl.line b)
                    (map LintDiagnostic.line (ruleMissingVersion (parse text))).
Proof.
  intros Hline Hu Hv Hcur.
  destruct (processLine_active L line _ u Hu) as (o & t & _ & Ht & Eu & _ & Hp).
  assert (Hstep : processLine L line (stateBefore text L)
                  = mutateCurrent (BlockDecl.setHasVersion true)
                      (trackUsage o (setInBlockComment
                         (commentAfter (inBlockComment (stateBefore text L)) line)
                         (stateBefore text L)))).
  { rewrite Hp. unfold classify.
    rewrite (version_is_no_pragma t) by (rewrite <- Eu; exact Hv).
    rewrite Hv. autorewrite with scan. simpl. rewrite Hcur. reflexivity. }
  destruct (flagged_at_line BlockDecl.hasVersion (BlockDecl.setHasVersion true)
              text L j line o t u) as (b & Hb & Hf); auto.
  { intros b b' (H & _). exact H. }
  exists b. split; [exact Hb|]. split; [exact Hf|].
  intros Hin. apply in_map_iff in Hin as (d & Hd & Hin).
  unfold ruleMissingVersion in Hin. apply in_flat_map in Hin as (b' & Hb' & Hin).
  destruct (BlockDecl.hasVersion b') eqn:E; simpl in Hin; [contradiction|].
  destruct Hin as [<-|[]]. simpl in Hd.
  rewrite parse_blocks in Hb, Hb'.
  destruct (stateInv_final text) as ((_ & Hinc & _) & _).
  assert (b' = b) by (eapply increasing_nth_unique; eauto).
  subst. congruence.
Qed.

Lemma version_line_silences_the_warning_witness :
  exists b, nth_error (ParseResult.blocks (parse Texts.headerText)) 0 = Some b
            /\ BlockDecl.hasVersion b = true
            /\ ~ In (BlockDecl.line b)
                    (map LintDiagnostic.line (ruleMissingVersion (parse Texts.headerText))).
Proof.
  apply (version_line_silences_the_warning
           Texts.headerText 2 0 (lit "Version : 0.1") (lit "VERSION : 0.1"));
    vm_compute; reflexivity.
Defined.

(** X30: a line that starts with an opening brace while a block is
    current sets the pragma flag of that block for good, so the engine
    reports no missing pragma on the opening line of that block. *)
Theorem pragma_line_silences_the_warning (text : str) (L j : nat) (line t : str) :
  nth_error (splitLines text) L = Some line ->
  activeTrimmed (inBlockComment (stateBefore text L)) line = Some t ->
  startsWith t (lit "{") = true ->
  currentBlock (stateBefore text L) = Some j ->
  exists b, nth_error (ParseResult.blocks (parse text)) j = Some b
            /\ BlockDecl.hasPragma b = true
            /\ ~ In (BlockDecl.line b)
                    (map LintDiagnostic.line (ruleMissingPragma (parse text))).
Proof.
  intros Hline Ht Hv Hcur.
  assert (Hu : activeUpper (inBlockComment (stateBefore text L)) line
               = Some (toUpperCase t)).
  { unfold activeTrimmed in Ht. unfold activeUpper.
    destruct (stripComments _ line) as [[c o]|]; [|discriminate].
    destruct (nonEmpty _); [|discriminate]. inversion Ht. reflexivity. }
  destruct (processLine_active L line _ _ Hu) as (o & t' & Hs & Ht' & Eu & _ & Hp).
  assert (Et : t' = t).
  { unfold activeTrimmed in Ht. rewrite Hs in Ht.
    destruct (nonEmpty _); [|discriminate]. inversion Ht. congruence. }
  rewrite Et in Hp. clear Eu Et Ht' t'.
  assert (Hstep : processLine L line (stateBefore text L)
                  = mutateCurrent (BlockDecl.setHasPragma true)
                      (trackUsage o (setInBlockComment
                         (commentAfter (inBlockComment (stateBefore text L)) line)
                         (stateBefore text L)))).
  { rewrite Hp. unfold classify.
    rewrite Hv. autorewrite with scan. simpl. rewrite Hcur. reflexivity. }
  destruct (flagged_at_line BlockDecl.hasPragma (BlockDecl.setHasPragma true)
              text L j line o t (toUpperCase t)) as (b & Hb & Hf); auto.
  { intros b b' (_ & H & _). exact H. }
  exists b. split; [exact Hb|]. split; [exact Hf|].
  intros Hin. apply in_map_iff in Hin as (d & Hd & Hin).
  unfold ruleMissingPragma in Hin. apply in_flat_map in Hin as (b' & Hb' & Hin).
  destruct (streq (BlockDecl.type b') (lit "TYPE")); [contradiction|].
  destruct (BlockDecl.hasPragma b') eqn:E; simpl in Hin; [contradiction|].
  destruct Hin as [<-|[]]. simpl in Hd.
  rewrite parse_blocks in Hb, Hb'.
  destruct (stateInv_final text) as ((_ & Hinc & _) & _).
  assert (b' = b) by (eapply increasing_nth_unique; eauto).
  subst. congruence.
Qed.

Lemma pragma_line_silences_the_warning_witness :
  exists b, nth_error (ParseResult.blocks (parse Texts.headerText)) 0 = Some b
            /\ BlockDecl.hasPragma b = true
            /\ ~ In (BlockDecl.line b)
                    (map LintDiagnostic.line (ruleMissingPragma (parse Texts.headerText))).
Proof.
  apply (pragma_line_silences_the_warning
           Texts.headerText 1 0 (lit "{ S7_Optimized_Access := 'TRUE' }")
           (lit "{ S7_Optimized_Access := '    ' }"));
    vm_compute; reflexivity.
Defined.

(** ** The reader and the scanner *)

Import Reader.

(** *** The two cuts, one character at a time *)

Lemma indexOfFrom_shift (sub : str) :
  forall (s : str) (i : nat),
    indexOfFrom (S i) s sub = option_map S (indexOfFrom i s sub).
Proof.
  induction s as [|c s IH]; intros i; cbn [indexOfFrom].
  - destruct (startsWith [] sub); reflexivity.
  - destruct (startsWith (c :: s) sub); [reflexivity | apply IH].
Qed.

Lemma includes_cons (c : ascii) (s sub : str) :
  includes (c :: s) sub = startsWith (c :: s) sub || includes s sub.
Proof.
  unfold includes, indexOf. cbn [indexOfFrom].
  destruct (startsWith (c :: s) sub); [reflexivity|].
  rewrite indexOfFrom_shift. destruct (indexOfFrom 0 s sub); reflexivity.
Qed.

Lemma cutOpen_cons (x : ascii) (X : str) :
  startsWith (x :: X) (lit "(*") = false ->
  cutOpen (x :: X) = (fst (cutOpen X), x :: snd (cutOpen X)).
Proof.
  intros H. unfold cutOpen, indexOf.
  rewrite indexOfFrom_miss by exact H. rewrite indexOfFrom_shift.
  destruct (indexOfFrom 0 X (lit "(*")); reflexivity.
Qed.

Lemma cutOpen_hit (X : str) :
  startsWith X (lit "(*") = true -> cutOpen X = (true, []).
Proof.
  intros H. unfold cutOpen, indexOf. rewrite indexOfFrom_hit by exact H.
  reflexivity.
Qed.

Lemma cutOpen_none (X : str) :
  includes X (lit "(*") = false -> cutOpen X = (false, X).
Proof.
  unfold cutOpen, includes. destruct (indexOf X (lit "(*")); [discriminate | reflexivity].
Qed.

Lemma cutLine_short (b : bool) (sc : option ascii) (x : ascii) :
  cutLine b sc [x] = [x].
Proof. reflexivity. Qed.

Lemma cutLine_step (b : bool) (sc : option ascii) (x : ascii) (Y : str)
      (b' : bool) (sc' : option ascii) :
  (forall n r, Y = n :: r ->
     lineCommentLoop b sc 0 (x :: Y) = lineCommentLoop b' sc' 1 Y) ->
  cutLine b sc (x :: Y) = x :: cutLine b' sc' Y.
Proof.
  intros H. destruct Y as [|n r]; [reflexivity|].
  unfold cutLine. rewrite (H n r eq_refl).
  rewrite (lineCommentLoop_shift (n :: r) b' sc' 1).
  destruct (lineCommentLoop b' sc' 0 (n :: r)); reflexivity.
Qed.

Lemma cutLine_cons_literal (q x : ascii) (Y : str) :
  cutLine true (Some q) (x :: Y) = x :: cutLine (negb (Ascii.eqb x q)) (Some q) Y.
Proof.
  apply cutLine_step. intros n r ->. rewrite lineCommentLoop_step.
  destruct (Ascii.eqb x q); reflexivity.
Qed.

Lemma cutLine_cons_quote (sc : option ascii) (x : ascii) (Y : str) :
  quoteChar x = true -> cutLine false sc (x :: Y) = x :: cutLine true (Some x) Y.
Proof.
  intros Hq. apply cutLine_step. intros n r ->. rewrite lineCommentLoop_step.
  unfold quoteChar in Hq. rewrite Hq. reflexivity.
Qed.

Lemma cutLine_cons_code (sc : option ascii) (x : ascii) (Y : str) :
  quoteChar x = false -> startsWith (x :: Y) (lit "//") = false ->
  cutLine false sc (x :: Y) = x :: cutLine false sc Y.
Proof.
  intros Hq Hm. apply cutLine_step. intros n r ->. rewrite lineCommentLoop_step.
  unfold quoteChar in Hq. rewrite Hq.
  rewrite startsWith_marker_cons in Hm. rewrite Hm. reflexivity.
Qed.

Lemma startsWith_two (x y : ascii) (X : str) (a b : ascii) :
  startsWith (x :: y :: X) [a; b] = Ascii.eqb a x && Ascii.eqb b y.
Proof.
  change (startsWith (x :: y :: X) [a; b])
    with (Ascii.eqb a x && (Ascii.eqb b y && true)).
  now rewrite andb_true_r.
Qed.

Lemma startsWith_one (x : ascii) (a b : ascii) :
  startsWith [x] [a; b] = false.
Proof.
  change (startsWith [x] [a; b]) with (Ascii.eqb a x && false).
  apply andb_false_r.
Qed.

Lemma cutLine_marker (sc : option ascii) (Y : str) :
  startsWith Y (lit "//") = true -> cutLine false sc Y = [].
Proof.
  intros H. destruct Y as [|x [|n r]]; [discriminate | |].
  { change (lit "//") with ["/"%char; "/"%char] in H.
    rewrite startsWith_one in H. discriminate. }
  unfold cutLine. rewrite lineCommentLoop_step.
  rewrite startsWith_marker_cons in H.
  destruct (Ascii.eqb x squote || Ascii.eqb x dquote) eqn:Eq.
  - apply andb_true_iff in H as [H _]. apply Ascii.eqb_eq in H. subst x.
    discriminate.
  - rewrite H. reflexivity.
Qed.

Lemma cutLine_space (sc : option ascii) (Y : str) :
  cutLine false sc (space :: Y) = space :: cutLine false sc Y.
Proof. apply cutLine_cons_code; reflexivity. Qed.

Lemma cutOpen_space (X : str) :
  cutOpen (space :: X) = (fst (cutOpen X), space :: snd (cutOpen X)).
Proof. apply cutOpen_cons. reflexivity. Qed.

(** The first character behind a cut is the first character of the
    line. *)
Lemma cutOpen_head (d : ascii) (rest : str) :
  snd (cutOpen (d :: rest)) = [] \/ exists r, snd (cutOpen (d :: rest)) = d :: r.
Proof.
  unfold cutOpen. destruct (indexOf (d :: rest) (lit "(*")) as [[|i]|]; simpl; eauto.
Qed.

(** A character kept in front of a blanked line starts no opener, and no
    marker in front of the cut line, when it starts none in the line. *)
Lemma opener_blanked (c : ascii) (t : str) :
  startsWith (c :: t) (lit "(*") = false ->
  startsWith (c :: blankComments false t) (lit "(*") = false.
Proof.
  intros H. destruct t as [|c' t']; [exact H|].
  destruct (blankComments_head c' t') as (d & rest & -> & Hd).
  change (lit "(*") with ["("%char; "*"%char] in *.
  rewrite startsWith_two in *.
  destruct Hd as [-> | ->]; [exact H|].
  apply andb_false_r.
Qed.

Lemma marker_blanked (c : ascii) (t : str) :
  startsWith (c :: t) (lit "//") = false ->
  startsWith (c :: snd (cutOpen (blankComments false t))) (lit "//") = false.
Proof.
  intros H. destruct t as [|c' t'].
  - cbn [blankComments]. exact H.
  - destruct (blankComments_head c' t') as (d & rest & -> & Hd).
    change (lit "//") with ["/"%char; "/"%char] in *.
    destruct (cutOpen_head d rest) as [-> | [r ->]].
    + apply startsWith_one.
    + rewrite startsWith_two in *.
      destruct Hd as [-> | ->]; [exact H|].
      apply andb_false_r.
Qed.

Lemma blankComments_no_opener :
  forall s, includes s (lit "(*") = false -> blankComments false s = s.
Proof.
  induction s as [|c s IH]; intros H; [reflexivity|].
  rewrite includes_cons in H. apply orb_false_iff in H as [H1 H2].
  destruct s as [|c' t']; [reflexivity|].
  rewrite blankComments_outside_step.
  rewrite startsWith_opener_cons in H1. rewrite H1.
  f_equal. apply IH. exact H2.
Qed.

(** *** The reader, one character at a time *)

Lemma outside_comment_step (c c' : ascii) (t' : str) :
  outside Comment (c :: c' :: t')
  = if Ascii.eqb c "*"%char && Ascii.eqb c' ")"%char
    then space :: space :: outside Code t'
    else space :: outside Comment (c' :: t').
Proof. reflexivity. Qed.

Lemma leftOpen_comment_step (c c' : ascii) (t' : str) :
  leftOpen Comment (c :: c' :: t')
  = if Ascii.eqb c "*"%char && Ascii.eqb c' ")"%char
    then leftOpen Code t'
    else leftOpen Comment (c' :: t').
Proof. reflexivity. Qed.

Lemma plain_comment_step (c c' : ascii) (t' : str) :
  plain Comment (c :: c' :: t')
  = if Ascii.eqb c "*"%char && Ascii.eqb c' ")"%char
    then plain Code t'
    else plain Comment (c' :: t').
Proof. reflexivity. Qed.

Lemma outside_literal_step (q c : ascii) (t : str) :
  outside (Literal q) (c :: t)
  = c :: outside (if Ascii.eqb c q then Code else Literal q) t.
Proof. reflexivity. Qed.

Lemma leftOpen_literal_step (q c : ascii) (t : str) :
  leftOpen (Literal q) (c :: t)
  = leftOpen (if Ascii.eqb c q then Code else Literal q) t.
Proof. reflexivity. Qed.

Lemma plain_literal_step (q c : ascii) (t : str) :
  plain (Literal q) (c :: t)
  = negb (startsWith (c :: t) (lit "(*"))
    && plain (if Ascii.eqb c q then Code else Literal q) t.
Proof. reflexivity. Qed.

Lemma outside_code_step (c c' : ascii) (t' : str) :
  outside Code (c :: c' :: t')
  = if Ascii.eqb c "("%char && Ascii.eqb c' "*"%char then
      if includes t' (lit "*)") then space :: space :: outside Comment t' else []
    else if Ascii.eqb c "/"%char && Ascii.eqb c' "/"%char then []
    else c :: outside (if quoteChar c then Literal c else Code) (c' :: t').
Proof. reflexivity. Qed.

Lemma leftOpen_code_step (c c' : ascii) (t' : str) :
  leftOpen Code (c :: c' :: t')
  = if Ascii.eqb c "("%char && Ascii.eqb c' "*"%char then
      if includes t' (lit "*)") then leftOpen Comment t' else true
    else if Ascii.eqb c "/"%char && Ascii.eqb c' "/"%char then false
    else leftOpen (if quoteChar c then Literal c else Code) (c' :: t').
Proof. reflexivity. Qed.

Lemma plain_code_step (c c' : ascii) (t' : str) :
  plain Code (c :: c' :: t')
  = if Ascii.eqb c "("%char && Ascii.eqb c' "*"%char then
      if includes t' (lit "*)") then plain Comment t' else true
    else if Ascii.eqb c "/"%char && Ascii.eqb c' "/"%char
    then negb (includes t' (lit "(*"))
    else plain (if quoteChar c then Literal c else Code) (c' :: t').
Proof. reflexivity. Qed.

Lemma startsWith_terminator_cons (c c' : ascii) (t : str) :
  startsWith (c :: c' :: t) (lit "*)")
  = Ascii.eqb c "*"%char && Ascii.eqb c' ")"%char.
Proof.
  change (lit "*)") with ["*"%char; ")"%char]. rewrite startsWith_two.
  now rewrite (Ascii.eqb_sym "*"%char c), (Ascii.eqb_sym ")"%char c').
Qed.

Lemma includes_short (c a b : ascii) : includes [c] [a; b] = false.
Proof.
  rewrite includes_cons, startsWith_one. reflexivity.
Qed.

(** *** The scanner reads a plain line as the reader does *)

(** Both passes of the scanner at once, from any mode of the reader; by
    induction on a bound of the length, since the reader steps over two
    characters at an opener and at a terminator. *)
Lemma read_scan (n : nat) :
  forall (s : str) (m : Mode) (stale : option ascii),
    length s <= n ->
    (m = Comment -> includes s (lit "*)") = true) ->
    plain m s = true ->
    fst (cutOpen (blankComments (inside m) s)) = leftOpen m s
    /\ cutLine (inString m) (stringChar m stale)
               (snd (cutOpen (blankComments (inside m) s)))
       = outside m s.
Proof.
  induction n as [|n IH]; intros s m stale Hlen Hterm Hplain.
  { destruct s; [|simpl in Hlen; lia].
    destruct m; try (split; reflexivity).
    specialize (Hterm eq_refl). discriminate. }
  destruct s as [|c t].
  { destruct m; try (split; reflexivity).
    specialize (Hterm eq_refl). discriminate. }
  simpl in Hlen.
  destruct m as [|q|].
  - (* in code *)
    clear Hterm. destruct t as [|c' t'].
    { cbn [inside blankComments].
      rewrite (cutOpen_none [c]) by (apply (includes_short c "("%char "*"%char)).
      split; reflexivity. }
    cbn [inside inString stringChar] in *.
    rewrite blankComments_outside_step, leftOpen_code_step, outside_code_step.
    rewrite plain_code_step in Hplain.
    destruct (Ascii.eqb c "("%char && Ascii.eqb c' "*"%char) eqn:Eo.
    + destruct (includes t' (lit "*)")) eqn:Et.
      * (* a comment closed on the line *)
        destruct (IH t' Comment stale) as [H1 H2];
          [simpl in Hlen; lia | intros _; exact Et | exact Hplain|].
        cbn [inside inString stringChar] in H1, H2.
        rewrite !cutOpen_space. cbn [fst snd].
        rewrite !cutLine_space, H2. auto.
      * (* a comment left open *)
        rewrite cutOpen_hit by (rewrite startsWith_opener_cons; exact Eo).
        split; reflexivity.
    + destruct (Ascii.eqb c "/"%char && Ascii.eqb c' "/"%char) eqn:Em.
      * (* a line comment *)
        apply negb_true_iff in Hplain.
        assert (Hno' : includes (c' :: t') (lit "(*") = false).
        { rewrite includes_cons.
          apply andb_true_iff in Em as [_ Em]. apply Ascii.eqb_eq in Em. subst c'.
          destruct t' as [|x t'']; [reflexivity|].
          rewrite startsWith_opener_cons. simpl. exact Hplain. }
        assert (Hno : includes (c :: c' :: t') (lit "(*") = false).
        { rewrite includes_cons, startsWith_opener_cons, Eo. exact Hno'. }
        rewrite (blankComments_no_opener _ Hno'), (cutOpen_none _ Hno).
        cbn [fst snd]. rewrite cutLine_marker; [auto|].
        rewrite startsWith_marker_cons. exact Em.
      * (* a character of code *)
        assert (Hso : startsWith (c :: c' :: t') (lit "(*") = false)
          by (rewrite startsWith_opener_cons; exact Eo).
        assert (Hsm : startsWith (c :: c' :: t') (lit "//") = false)
          by (rewrite startsWith_marker_cons; exact Em).
        rewrite cutOpen_cons by (apply opener_blanked; exact Hso).
        cbn [fst snd].
        destruct (quoteChar c) eqn:Eq.
        -- destruct (IH (c' :: t') (Literal c) stale) as [H1 H2];
             [simpl in *; lia | discriminate | exact Hplain|].
           cbn [inside inString stringChar] in H1, H2.
           rewrite cutLine_cons_quote by exact Eq. rewrite H2. auto.
        -- destruct (IH (c' :: t') Code stale) as [H1 H2];
             [simpl in *; lia | discriminate | exact Hplain|].
           cbn [inside inString stringChar] in H1, H2.
           rewrite cutLine_cons_code;
             [rewrite H2; auto | exact Eq | apply marker_blanked; exact Hsm].
  - (* in a string literal *)
    clear Hterm. cbn [inside inString stringChar] in *.
    rewrite plain_literal_step in Hplain.
    apply andb_true_iff in Hplain as [Hso Hplain]. apply negb_true_iff in Hso.
    rewrite leftOpen_literal_step, outside_literal_step.
    assert (Hb : blankComments false (c :: t) = c :: blankComments false t).
    { destruct t as [|c' t']; [reflexivity|].
      rewrite blankComments_outside_step.
      rewrite startsWith_opener_cons in Hso. rewrite Hso. reflexivity. }
    rewrite Hb, cutOpen_cons by (apply opener_blanked; exact Hso).
    cbn [fst snd]. rewrite cutLine_cons_literal.
    destruct (Ascii.eqb c q) eqn:Ec; cbn [negb].
    + destruct (IH t Code (Some q)) as [H1 H2];
        [lia | discriminate | exact Hplain|].
      cbn [inside inString stringChar] in H1, H2. rewrite H2. auto.
    + destruct (IH t (Literal q) stale) as [H1 H2];
        [lia | discriminate | exact Hplain|].
      cbn [inside inString stringChar] in H1, H2. rewrite H2. auto.
  - (* in a comment *)
    specialize (Hterm eq_refl). cbn [inside inString stringChar] in *.
    destruct t as [|c' t'].
    { change (lit "*)") with ["*"%char; ")"%char] in Hterm.
      rewrite includes_short in Hterm. discriminate. }
    rewrite blankComments_inside_step, leftOpen_comment_step, outside_comment_step.
    rewrite plain_comment_step in Hplain.
    rewrite includes_cons, startsWith_terminator_cons in Hterm.
    destruct (Ascii.eqb c "*"%char && Ascii.eqb c' ")"%char) eqn:Et.
    + destruct (IH t' Code stale) as [H1 H2];
        [simpl in Hlen; lia | discriminate | exact Hplain|].
      cbn [inside inString stringChar] in H1, H2.
      rewrite !cutOpen_space. cbn [fst snd].
      rewrite !cutLine_space, H2. auto.
    + simpl in Hterm.
      destruct (IH (c' :: t') Comment stale) as [H1 H2];
        [simpl in *; lia | intros _; exact Hterm | exact Hplain|].
      cbn [inside inString stringChar] in H1, H2.
      rewrite cutOpen_space. cbn [fst snd].
      rewrite cutLine_space, H2. auto.
Qed.

Lemma stripComments_cuts (line : str) :
  stripComments false line
  = Some (fst (cutOpen (blankComments false line)),
          cutLine false None (snd (cutOpen (blankComments false line)))).
Proof.
  unfold stripComments, stripBlockComments, cutOpen, cutLine, lineCommentIndex.
  destruct (indexOf (blankComments false line) (lit "(*")); reflexivity.
Qed.

(** The end of a comment that began on an earlier line: blanking it first,
    as the scanner does, or reading the line from inside the comment. *)
Lemma blankComments_resume :
  forall (line : str) (k e : nat),
    indexOfFrom k line (lit "*)") = Some (k + e) ->
    blankComments false (spaces (e + 2) ++ substringFrom (e + 2) line)
    = blankComments true line.
Proof.
  induction line as [|c line IH]; intros k e H.
  - discriminate.
  - destruct line as [|c' t'].
    + change (lit "*)") with ["*"%char; ")"%char] in H.
      cbn [indexOfFrom] in H. rewrite startsWith_one in H. discriminate.
    + rewrite blankComments_inside_step.
      destruct (Ascii.eqb c "*"%char && Ascii.eqb c' ")"%char) eqn:Et.
      * rewrite indexOfFrom_hit in H
          by (rewrite startsWith_terminator_cons; exact Et).
        inversion H. assert (e = 0) by lia. subst e.
        cbn [Nat.add spaces repeat substringFrom skipn app].
        destruct t' as [|x t''].
        -- reflexivity.
        -- change (blankComments false (space :: space :: x :: t''))
             with (space :: blankComments false (space :: x :: t'')).
           rewrite blankComments_outside_step. reflexivity.
      * rewrite indexOfFrom_miss in H
          by (rewrite startsWith_terminator_cons; exact Et).
        apply indexOfFrom_bound in H as Hb. destruct Hb as [Hle _].
        destruct e as [|e]; [lia|].
        replace (k + S e) with (S k + e) in H by lia.
        specialize (IH (S k) e H).
        cbn [Nat.add spaces repeat substringFrom skipn app].
        change (repeat space (e + 2)) with (spaces (e + 2)).
        change (skipn (e + 2) (c' :: t')) with (substringFrom (e + 2) (c' :: t')).
        rewrite <- IH.
        replace (e + 2) with (S (e + 1)) by lia.
        cbn [spaces repeat app]. rewrite blankComments_outside_step. reflexivity.
Qed.

Lemma stripComments_read (inComment : bool) (line : str) :
  plain (startMode inComment) line = true ->
  stripComments inComment line = readLine inComment line.
Proof.
  intros Hplain. unfold readLine. destruct inComment; cbn [startMode andb] in *.
  - unfold includes.
    destruct (indexOf line (lit "*)")) as [e|] eqn:E; cbn [negb].
    + assert (Hterm : includes line (lit "*)") = true)
        by (unfold includes; rewrite E; reflexivity).
      destruct (read_scan (length line) line Comment None (le_n _)
                          (fun _ => Hterm) Hplain) as [H1 H2].
      cbn [inside inString stringChar] in H1, H2.
      rewrite <- (blankComments_resume line 0 e E) in H1, H2.
      rewrite <- H1, <- H2.
      rewrite <- stripComments_cuts.
      unfold stripComments. rewrite E. reflexivity.
    + unfold stripComments. rewrite E. reflexivity.
  - destruct (read_scan (length line) line Code None (le_n _)
                        (fun H => match H with end) Hplain) as [H1 H2].
    cbn [inside inString stringChar] in H1, H2.
    rewrite <- H1, <- H2. apply stripComments_cuts.
Qed.

Lemma activeUpper_read (inComment : bool) (line : str) :
  plain (startMode inComment) line = true ->
  activeUpper inComment line = upperRead inComment line
  /\ commentAfter inComment line = flagAfter inComment line.
Proof.
  intros H. unfold activeUpper, upperRead, commentAfter, flagAfter.
  rewrite (stripComments_read inComment line H). auto.
Qed.

(** In a text where no block-comment opener stands inside a string
    literal or behind a line-comment marker, the scanner reads the lines
    as the reader does. *)
Lemma activeUppers_read :
  forall (lines : list str) (inComment : bool),
    plainLines inComment lines = true ->
    activeUppers inComment lines = uppers inComment lines.
Proof.
  induction lines as [|l lines IH]; intros c H; [reflexivity|].
  cbn [plainLines] in H. apply andb_true_iff in H as [Hl H].
  destruct (activeUpper_read c l Hl) as [H1 H2].
  cbn [activeUppers uppers]. rewrite H1, H2. f_equal.
  apply IH. exact H.
Qed.

(** ** C1: well-formed text *)




(** ** The scanner follows the nesting of the text *)

Lemma step_plain (n : Nesting.t) (u : str) :
  plainLine u -> Nesting.step n (Some u) = n.
Proof.
  intros (Hb & _ & Hc & Hbeg). unfold Nesting.step.
  rewrite Hb, Hbeg, Hc. destruct (Nesting.executable n); reflexivity.
Qed.

Lemma step_no_control (n : Nesting.t) (u : str) :
  blockToken u = None -> streq u (lit "BEGIN") = false -> controlToken u = None ->
  Nesting.step n (Some u) = n.
Proof.
  intros Hb Hbeg Hc. unfold Nesting.step.
  rewrite Hb, Hbeg, Hc. destruct (Nesting.executable n); reflexivity.
Qed.

Lemma agrees_same (n : Nesting.t) (st st' : State) :
  blockStack st' = blockStack st -> afterBegin st' = afterBegin st ->
  controlStack st' = controlStack st ->
  Nesting.agrees n st -> Nesting.agrees n st'.
Proof. unfold Nesting.agrees. intros -> -> ->. auto. Qed.

(** The designated closer of the innermost frame, as the scanner tests
    it. *)
Lemma closesControl_streq (c x k : str) :
  In c (keys CONTROL_END_TO_OPEN) ->
  lookup c CONTROL_END_TO_OPEN = Some x ->
  closesControl c k = streq k x.
Proof.
  intros Hin Hx. simpl in Hin.
  repeat destruct Hin as [<-|Hin]; try contradiction;
    vm_compute in Hx; injection Hx as <-;
    unfold closesControl; cbn [lookup CONTROL_PAIRS];
    cbv [lit list_ascii_of_string];
    repeat match goal with
           | |- context [streq k ?X] =>
               let E := fresh "E" in
               destruct (streq k X) eqn:E;
               [apply streq_eq in E; subst k; vm_compute; reflexivity|]
           end;
    reflexivity.
Qed.

Lemma top_pending (s : list StackEntry.t) :
  match top s with
  | Some e => pendingOf s = StackEntry.keyword e :: pendingOf (pop s)
  | None => pendingOf s = []
  end.
Proof.
  destruct (top s) as [e|] eqn:E.
  - rewrite (top_Some_snoc _ s e E) at 1. destruct e. apply pendingOf_snoc.
  - apply top_None in E. subst. reflexivity.
Qed.

(** One active line: the stacks of the scanner after the line are the
    nesting after the line. *)
Lemma classify_nesting (idx : nat) (o t u : str) (st : State) (n : Nesting.t) :
  u = toUpperCase t ->
  ifSpelledPlainly (Some u) = true ->
  Nesting.agrees n st ->
  Nesting.agrees (Nesting.step n (Some u)) (classify idx o t u st).
Proof.
  intros Hu Hif Hag.
  pose proof Hag as (Hbs & Hab & Hcs).
  unfold classify.
  (* Pragma detection *)
  destruct (startsWith t (lit "{") && isSome (currentBlock st)) eqn:Epragma.
  { apply andb_true_iff in Epragma as [Hs _].
    apply startsWith_toUpperCase_brace in Hs. rewrite <- Hu in Hs.
    rewrite step_plain by (apply (plainLine_prefix u (lit "{") Hs); reflexivity).
    eapply agrees_same; [| | |exact Hag]; autorewrite with scan; reflexivity. }
  (* VERSION detection *)
  destruct (startsWith u (lit "VERSION") && isSome (currentBlock st)) eqn:Eversion.
  { apply andb_true_iff in Eversion as [Hs _].
    rewrite step_plain by (apply (plainLine_prefix u (lit "VERSION") Hs); reflexivity).
    eapply agrees_same; [| | |exact Hag]; autorewrite with scan; reflexivity. }
  (* Block declarations *)
  destruct (find (matchKeyword u) (keys BLOCK_PAIRS)) as [openKw|] eqn:Eopen.
  { unfold Nesting.step, blockToken. rewrite Eopen.
    unfold Nesting.agrees, openBlock. simpl. rewrite pendingOf_snoc.
    rewrite Hbs, Hcs. auto. }
  (* Block end keywords *)
  destruct (find (matchKeyword u) (keys BLOCK_END_TO_OPEN)) as [closeKw|] eqn:Eclose.
  { unfold Nesting.step, blockToken. rewrite Eopen, Eclose.
    unfold closeBlock, Nesting.closeWith. rewrite <- Hbs.
    pose proof (top_pending (blockStack st)) as Htop.
    destruct (top (blockStack st)) as [e|].
    - rewrite Htop. unfold closesBlock.
      destruct (match lookup (StackEntry.keyword e) BLOCK_PAIRS with
                | Some c => streq c closeKw
                | None => false
                end).
      + unfold Nesting.agrees. simpl. autorewrite with scan. simpl. auto.
      + eapply agrees_same; [| | |exact Hag]; reflexivity.
    - rewrite Htop. eapply agrees_same; [| | |exact Hag]; reflexivity. }
  assert (Hbt : blockToken u = None)
    by (unfold blockToken; rewrite Eopen, Eclose; reflexivity).
  (* BEGIN *)
  destruct (streq u (lit "BEGIN")) eqn:Ebegin.
  { unfold Nesting.step. rewrite Hbt, Ebegin.
    unfold Nesting.agrees. simpl. autorewrite with scan. auto. }
  (* VAR section ends *)
  destruct (matchKeyword u (lit "END_VAR") || matchKeyword u (lit "END_STRUCT"))
    eqn:Evarend.
  { assert (HK : exists K, (K = lit "END_VAR" \/ K = lit "END_STRUCT")
                           /\ matchKeyword u K = true).
    { apply orb_true_iff in Evarend as [H|H]; eauto. }
    destruct HK as (K & HKs & HK).
    assert (Hct : controlToken u = None).
    { unfold controlToken. destruct HKs as [-> | ->]; other_tests HK; reflexivity. }
    rewrite (step_no_control n u Hbt Ebegin Hct).
    eapply agrees_same; [| | |exact Hag];
      unfold closeVarSection; destruct (nonEmpty (varStack st)); reflexivity. }
  (* VAR CONSTANT special case *)
  destruct (startsWith u (lit "VAR") && includes u (lit "CONSTANT")
            && negb (startsWith u (lit "VAR_"))) eqn:Econst.
  { assert (Hs : startsWith u (lit "VAR") = true).
    { apply andb_true_iff in Econst as [H _]. now apply andb_true_iff in H as [H _]. }
    assert (Hct : controlToken u = None).
    { unfold controlToken. prefix_tests Hs. reflexivity. }
    rewrite (step_no_control n u Hbt Ebegin Hct).
    eapply agrees_same; [| | |exact Hag]; reflexivity. }
  (* VAR section opens *)
  destruct (find (matchKeyword u) VAR_OPENS) as [varKw|] eqn:Evar.
  { destruct (find_matchKeyword_some _ _ _ Evar) as [HK Hin].
    assert (Hct : controlToken u = None).
    { unfold controlToken. simpl in Hin.
      repeat (destruct Hin as [<-|Hin]; [other_tests HK; simpl; auto|]).
      contradiction. }
    rewrite (step_no_control n u Hbt Ebegin Hct).
    eapply agrees_same; [| | |exact Hag]; reflexivity. }
  (* Variable declarations *)
  destruct (nonEmpty (currentVarSection st) && negb (afterBegin st)) eqn:Edecl.
  { apply andb_true_iff in Edecl as [_ Hnb]. apply negb_true_iff in Hnb.
    unfold Nesting.step. rewrite Hbt, Ebegin, <- Hab, Hnb.
    eapply agrees_same; [| | |exact Hag]; autorewrite with scan; reflexivity. }
  destruct (afterBegin st) eqn:Hexec.
  2:{ unfold Nesting.step. rewrite Hbt, Ebegin, <- Hab. exact Hag. }
  (* Control flow *)
  unfold Nesting.step. rewrite Hbt, Ebegin, <- Hab.
  assert (Hcf : forall fr,
             pendingOf (controlStack (controlFlow idx t u st)) = fr ->
             Nesting.agrees (Nesting.mk (Nesting.blocks n) true fr)
                            (controlFlow idx t u st)).
  { intros fr Hfr. unfold Nesting.agrees. simpl. autorewrite with scan. auto. }
  assert (Hsame : pendingOf (controlStack (controlFlow idx t u st))
                  = Nesting.frames n ->
                  Nesting.agrees n (controlFlow idx t u st)).
  { intros Hfr. unfold Nesting.agrees. autorewrite with scan.
    rewrite Hexec. auto. }
  unfold controlToken.
  destruct (matchKeyword u (lit "CASE")) eqn:Ecase.
  { rewrite (find_matchKeyword_same u (lit "CASE") (keys CONTROL_PAIRS) Ecase
               eq_refl eq_refl) by (simpl; tauto).
    apply Hcf. unfold controlFlow. rewrite Ecase.
    unfold caseOpen. autorewrite with scan. simpl. autorewrite with scan.
    rewrite pendingOf_snoc, Hcs. reflexivity. }
  destruct (matchKeyword u (lit "ELSE") && nonEmpty (controlStack (markCode t u st)))
    eqn:Eelse.
  { apply andb_true_iff in Eelse as [HK Hne].
    other_tests HK. apply Hsame.
    unfold controlFlow. rewrite Ecase, HK, Hne. cbn [andb].
    autorewrite with scan. exact Hcs. }
  assert (Hflow : controlFlow idx t u st
                  = exitCheck idx u
                      (controlClose idx u
                         (loopOpen idx u (ifOpen idx u (markCode t u st))))).
  { unfold controlFlow. rewrite Ecase, Eelse. reflexivity. }
  destruct (find (matchKeyword u) (keys CONTROL_PAIRS)) as [k|] eqn:Ek.
  { (* an opener *)
    destruct (find_matchKeyword_some _ _ _ Ek) as [HK Hin].
    apply Hcf. rewrite Hflow. clear Hflow.
    simpl in Hin.
    destruct Hin as [<-|Hin].
    { (* IF *)
      change (matchKeyword u (lit "IF") = true) in HK.
      unfold ifSpelledPlainly in Hif. rewrite HK in Hif. cbn [negb orb] in Hif.
      assert (Hpush : ifOpen idx u (markCode t u st)
                      = pushControl (lit "IF") idx (markCode t u st)).
      { unfold ifOpen. rewrite Hif.
        rewrite (startsWith_incompatible u (lit "IF") (lit "ELSIF")
                   (matchKeyword_startsWith _ _ HK) eq_refl).
        reflexivity. }
      rewrite Hpush. unfold exitCheck, controlClose, loopOpen.
      other_tests HK. simpl. autorewrite with scan.
      rewrite pendingOf_snoc, Hcs. reflexivity. }
    assert (Hnoif : ifOpen idx u (markCode t u st) = markCode t u st).
    { unfold ifOpen.
      repeat (destruct Hin as [<-|Hin]; [other_tests HK; reflexivity|]).
      contradiction. }
    rewrite Hnoif.
    assert (Hloop : In k [lit "FOR"; lit "WHILE"; lit "REPEAT"; lit "REGION"]).
    { repeat (destruct Hin as [<-|Hin]; [simpl; tauto|]).
      - destruct Hin as [<-|Hin];
          [change (matchKeyword u (lit "CASE") = true) in HK; congruence|].
        destruct Hin as [<-|Hin]; [simpl; tauto | contradiction]. }
    unfold exitCheck, controlClose, loopOpen.
    rewrite (find_matchKeyword_same
               u k [lit "FOR"; lit "WHILE"; lit "REPEAT"; lit "REGION"] HK)
      by first [exact Hloop | reflexivity
               | simpl in Hloop; repeat (destruct Hloop as [<-|Hloop]; [reflexivity|]);
                 contradiction].
    simpl in Hloop.
    repeat (destruct Hloop as [<-|Hloop];
            [other_tests HK; simpl; autorewrite with scan;
             rewrite pendingOf_snoc, Hcs; reflexivity|]).
    contradiction. }
  (* no opener *)
  assert (Hnoif : ifOpen idx u (markCode t u st) = markCode t u st).
  { unfold ifOpen.
    assert (Hm : matchKeyword u (lit "IF") = false)
      by (apply (find_none _ _ Ek); simpl; tauto).
    apply matchKeyword_false in Hm as [Hm1 Hm2].
    change (lit "IF" ++ lit " ") with (lit "IF ") in Hm2.
    rewrite Hm1, Hm2. reflexivity. }
  assert (Hnoloop : forall s, loopOpen idx u s = s).
  { intros s. unfold loopOpen.
    rewrite (find_none_incl _ _ _ _ Ek); [reflexivity|].
    intros x Hx. simpl in Hx. simpl. tauto. }
  rewrite Hnoif, Hnoloop in Hflow.
  destruct (find (matchKeyword u) (keys CONTROL_END_TO_OPEN)) as [c|] eqn:Ec.
  2:{ apply Hsame. rewrite Hflow. rewrite exitCheck_controlStack.
      unfold controlClose. rewrite Ec. autorewrite with scan. exact Hcs. }
  destruct (find_matchKeyword_some _ _ _ Ec) as [_ Hin].
  assert (Hx : exists x, lookup c CONTROL_END_TO_OPEN = Some x).
  { simpl in Hin.
    repeat (destruct Hin as [<-|Hin]; [eexists; reflexivity|]). contradiction. }
  destruct Hx as [x Hx].
  unfold Nesting.closeWith. rewrite <- Hcs.
  pose proof (top_pending (controlStack st)) as Htop.
  assert (Hclose : controlStack (controlFlow idx t u st)
                   = controlStack (controlClose idx u (markCode t u st))).
  { rewrite Hflow. apply exitCheck_controlStack. }
  unfold controlClose in Hclose. rewrite Ec, Hx in Hclose.
  autorewrite with scan in Hclose.
  destruct (top (controlStack st)) as [e|].
  - rewrite Htop. rewrite (closesControl_streq c x _ Hin Hx).
    destruct (streq (StackEntry.keyword e) x).
    + apply Hcf. rewrite Hclose. simpl. autorewrite with scan. reflexivity.
    + apply Hsame. rewrite Hclose. simpl. autorewrite with scan. exact Hcs.
  - rewrite Htop. apply Hsame. rewrite Hclose. simpl. autorewrite with scan.
    exact Hcs.
Qed.

Lemma processLine_nesting (idx : nat) (l : str) (st : State) (n : Nesting.t) :
  ifSpelledPlainly (activeUpper (inBlockComment st) l) = true ->
  Nesting.agrees n st ->
  Nesting.agrees (Nesting.step n (activeUpper (inBlockComment st) l))
                 (processLine idx l st).
Proof.
  intros Hif Hag.
  destruct (activeUpper (inBlockComment st) l) as [u|] eqn:E.
  - destruct (processLine_active idx l st u E) as (o & t & _ & _ & Hu & _ & ->).
    apply classify_nesting; [exact Hu | exact Hif|].
    eapply agrees_same; [| | |exact Hag]; reflexivity.
  - rewrite (processLine_skipped idx l st E).
    eapply agrees_same; [| | |exact Hag]; reflexivity.
Qed.

Lemma scanLines_nesting :
  forall (lines : list str) (idx : nat) (st : State) (n : Nesting.t),
    forallb ifSpelledPlainly (activeUppers (inBlockComment st) lines) = true ->
    Nesting.agrees n st ->
    Nesting.agrees (fold_left Nesting.step (activeUppers (inBlockComment st) lines) n)
                   (scanLines idx lines st).
Proof.
  induction lines as [|l lines IH]; intros idx st n Hif Hag; [exact Hag|].
  cbn [activeUppers forallb] in Hif. apply andb_true_iff in Hif as [Hif1 Hif].
  cbn [activeUppers fold_left scanLines].
  rewrite <- (processLine_comment idx l st) in *.
  apply IH; [exact Hif|]. now apply processLine_nesting.
Qed.

Lemma activeUppers_firstn :
  forall (lines : list str) (c : bool) (L : nat),
    firstn L (activeUppers c lines) = activeUppers c (firstn L lines).
Proof.
  induction lines as [|l lines IH]; intros c [|L]; try reflexivity.
  cbn [activeUppers firstn]. now rewrite IH.
Qed.

Lemma activeUppers_nth :
  forall (lines : list str) (idx : nat) (st : State) (L : nat),
    nth_error (activeUppers (inBlockComment st) lines) L
    = option_map (activeUpper (inBlockComment (scanLines idx (firstn L lines) st)))
                 (nth_error lines L).
Proof.
  induction lines as [|l lines IH]; intros idx st [|L]; try reflexivity.
  cbn [activeUppers nth_error firstn scanLines].
  rewrite <- (processLine_comment idx l st). apply IH.
Qed.

Lemma forallb_firstn (A : Type) (p : A -> bool) :
  forall (l : list A) (L : nat), forallb p l = true -> forallb p (firstn L l) = true.
Proof.
  induction l as [|x l IH]; intros [|L] H; try reflexivity.
  simpl in *. apply andb_true_iff in H as [H1 H2]. rewrite H1. now apply IH.
Qed.

Lemma existsb_rev (A : Type) (p : A -> bool) (l : list A) :
  existsb p (rev l) = existsb p l.
Proof.
  induction l as [|x l IH]; [reflexivity|].
  simpl. rewrite existsb_app, IH. simpl. rewrite orb_false_r. apply orb_comm.
Qed.

Lemma existsb_pending (s : list StackEntry.t) :
  existsb isLoopFrame s
  = existsb (fun k => setHas k LOOP_KEYWORDS) (pendingOf s).
Proof.
  unfold pendingOf. rewrite existsb_rev.
  induction s as [|e s IH]; [reflexivity|]. simpl. now rewrite IH.
Qed.

(** The state of the scanner in front of a line agrees with the nesting
    in front of that line. *)
Lemma stateBefore_nesting (text : str) (L : nat) :
  plainText text = true -> ifsPlain text = true ->
  Nesting.agrees (Nesting.before text L) (stateBefore text L).
Proof.
  unfold plainText, ifsPlain, Nesting.before, Nesting.after, read, stateBefore.
  intros Hplain Hif.
  rewrite <- (activeUppers_read _ _ Hplain) in *.
  rewrite activeUppers_firstn.
  apply (scanLines_nesting (firstn L (splitLines text)) 0 initState Nesting.start).
  - cbn [inBlockComment initState]. rewrite <- activeUppers_firstn.
    now apply forallb_firstn.
  - repeat split.
Qed.

(** ** C8: EXIT and CONTINUE outside a loop *)

(** C8, as stated, fails: the scan reads one keyword at the start of a
    line.  In the first text an EXIT statement stands behind other text on
    its line, in the executable section of the block and with no loop
    anywhere, and no error is produced for it.  In the second text the loop
    in front of the EXIT line is closed on the line that opens it, so the
    EXIT statement is in no loop, and no error is produced either: the
    END_FOR behind the FOR is not seen and the FOR stays pending. *)
Lemma C8_exits_the_scan_misses :
  (plainText Samples.exitBehindThenText = true
   /\ ifsPlain Samples.exitBehindThenText = true
   /\ nth_error (splitLines Samples.exitBehindThenText) 2
      = Some (lit "  IF #done THEN EXIT; END_IF;")
   /\ Nesting.executable (Nesting.before Samples.exitBehindThenText 2) = true
   /\ Nesting.inLoop (Nesting.before Samples.exitBehindThenText 2) = false
   /\ ParseResult.exitOutsideLoop (parse Samples.exitBehindThenText) = []
   /\ withCode (lit "SCL005") (runRules (parse Samples.exitBehindThenText)) = [])
  /\ (plainText Samples.exitAfterOneLineLoopText = true
      /\ ifsPlain Samples.exitAfterOneLineLoopText = true
      /\ nth_error (splitLines Samples.exitAfterOneLineLoopText) 2
         = Some (lit "  FOR #i := 1 TO 3 DO #x := #i; END_FOR;")
      /\ nth_error (splitLines Samples.exitAfterOneLineLoopText) 3
         = Some (lit "  EXIT;")
      /\ Nesting.frames (Nesting.before Samples.exitAfterOneLineLoopText 3)
         = [lit "FOR"]
      /\ ParseResult.exitOutsideLoop (parse Samples.exitAfterOneLineLoopText) = []
      /\ withCode (lit "SCL005") (runRules (parse Samples.exitAfterOneLineLoopText))
         = []).
Proof. repeat split; vm_compute; reflexivity. Qed.

(** C8, amended: in a text in which no block-comment opener stands inside
    a string literal or behind a line-comment marker and every IF opener is
    IF alone or IF and a space, for every line of executable code that
    begins with EXIT or CONTINUE the rule engine produces exactly one
    exit-outside-loop error at that line when no control-flow opener
    pending in front of the line is FOR, WHILE or REPEAT, and none when one
    is.  Executable code is the lines behind a BEGIN, up to the next block
    opener or the closer of the block.  Openers and closers are the lines
    of executable code that begin with the keyword; a closer closes the
    innermost pending opener when it is its designated closer, and nothing
    otherwise; an opener that is pending at the end of a block stays
    pending in the blocks behind it. *)
Theorem C8_exit_outside_loop_exactly_once (text : str) (L : nat) (kw : str) :
  plainText text = true ->
  ifsPlain text = true ->
  Nesting.exitAt text L = Some kw ->
  diagsAt (lit "SCL005") L (runRules (parse text))
  = if Nesting.inLoop (Nesting.before text L) then [] else [exitError kw L].
Proof.
  intros Hplain Hif Hexit.
  destruct (stateBefore_nesting text L Hplain Hif) as (_ & Hab & Hcs).
  unfold Nesting.exitAt, read in Hexit.
  rewrite <- (activeUppers_read _ _ Hplain) in Hexit.
  pose proof (activeUppers_nth (splitLines text) 0 initState L) as Hn.
  change (inBlockComment initState) with false in Hn at 1.
  fold (stateBefore text L) in Hn. rewrite Hn in Hexit. clear Hn.
  destruct (nth_error (splitLines text) L) as [line|] eqn:Hline; [|discriminate].
  cbn [option_map] in Hexit.
  unfold Nesting.inLoop. rewrite <- Hcs, <- existsb_pending.
  apply (exit_scanned_reports text L line kw Hline).
  unfold exitScanned.
  destruct (activeUpper (inBlockComment (stateBefore text L)) line) as [u|];
    [|discriminate].
  rewrite Hab. exact Hexit.
Qed.

Lemma C8_exit_outside_loop_exactly_once_witness :
  diagsAt (lit "SCL005") 2 (runRules (parse Samples.exitText))
  = [exitError (lit "EXIT") 2]
  /\ diagsAt (lit "SCL005") 4 (runRules (parse Samples.exitText)) = [].
Proof.
  split.
  - apply (C8_exit_outside_loop_exactly_once Samples.exitText 2 (lit "EXIT"));
      vm_compute; reflexivity.
  - apply (C8_exit_outside_loop_exactly_once Samples.exitText 4 (lit "CONTINUE"));
      vm_compute; reflexivity.
Defined.

(** ** Declaration lines and the declaration patterns *)

Import Declarations.

Lemma isSpace_not_word (c : ascii) : isSpace c = true -> isWord c = false.
Proof.
  destruct c as [[] [] [] [] [] [] [] []]; vm_compute; intros H;
    first [reflexivity | discriminate H].
Qed.

Lemma takeWhile_run (p : ascii -> bool) :
  forall (run rest : str),
    forallb p run = true ->
    match rest with [] => True | d :: _ => p d = false end ->
    takeWhile p (run ++ rest) = run.
Proof.
  induction run as [|c run IH]; intros rest Hrun Hrest; simpl.
  - destruct rest as [|d rest]; [reflexivity|]. simpl. now rewrite Hrest.
  - simpl in Hrun. apply andb_true_iff in Hrun as [Hc Hrun].
    rewrite Hc. f_equal. now apply IH.
Qed.

Lemma takeWhile_split (p : ascii -> bool) :
  forall s : str,
    s = takeWhile p s ++ skipn (length (takeWhile p s)) s
    /\ forallb p (takeWhile p s) = true
    /\ match skipn (length (takeWhile p s)) s with
       | [] => True
       | d :: _ => p d = false
       end.
Proof.
  induction s as [|c s (IH1 & IH2 & IH3)]; simpl; [auto|].
  destruct (p c) eqn:Hc; simpl.
  - rewrite Hc. repeat split; [f_equal; exact IH1 | exact IH2 | exact IH3].
  - auto.
Qed.

Lemma trimStart_spaces :
  forall (sp rest : str),
    forallb isSpace sp = true -> trimStart (sp ++ rest) = trimStart rest.
Proof.
  induction sp as [|c sp IH]; intros rest H; [reflexivity|].
  simpl in H. apply andb_true_iff in H as [Hc H].
  simpl. rewrite Hc. now apply IH.
Qed.

Lemma trimStart_split :
  forall s : str,
    exists sp, s = sp ++ trimStart s /\ forallb isSpace sp = true
               /\ match trimStart s with
                  | [] => True
                  | d :: _ => isSpace d = false
                  end.
Proof.
  induction s as [|c s (sp & IH1 & IH2 & IH3)]; simpl.
  - exists []. auto.
  - destruct (isSpace c) eqn:Hc.
    + exists (c :: sp). simpl. rewrite Hc. repeat split; auto.
      f_equal. exact IH1.
    + exists []. auto.
Qed.

Lemma trimStart_nonEmpty (s : str) (c : ascii) :
  In c s -> isSpace c = false -> nonEmpty (trimStart s) = true.
Proof.
  induction s as [|d s IH]; intros Hin Hc; [contradiction|].
  simpl. destruct (isSpace d) eqn:Hd; [|reflexivity].
  destruct Hin as [->|Hin]; [congruence | auto].
Qed.

Section RegexRuns.
Variable A : Type.

Lemma plusG_run (p : ascii -> bool) (k : str -> str -> option A)
      (run rest : str) (r : A) :
  run <> [] -> forallb p run = true ->
  match rest with [] => True | d :: _ => p d = false end ->
  k run rest = Some r ->
  Re.plusG p (run ++ rest) k = Some r.
Proof.
  intros Hne Hrun Hrest Hk. destruct run as [|c run]; [contradiction|].
  simpl in Hrun. apply andb_true_iff in Hrun as [Hc Hrun].
  simpl. rewrite Hc. apply starG_run; assumption.
Qed.

(** A greedy run in front of a continuation that accepts everywhere. *)
Lemma starG_always (p : ascii -> bool) (F : str -> A) :
  forall (s acc : str),
    exists a, Re.starG p acc s (fun a _ => Some (F a)) = Some (F a).
Proof.
  induction s as [|c s IH]; intros acc; simpl.
  - eauto.
  - destruct (p c); [|eauto].
    destruct (IH (acc ++ [c])) as [a ->]. eauto.
Qed.

End RegexRuns.

(** The name captured by either declaration pattern is the name in front
    of the colon. *)
Lemma name_before_colon (run sp r3 : str) (c : ascii) :
  run <> [] -> forallb isWord run = true -> forallb isSpace sp = true ->
  In c r3 -> isSpace c = false ->
  nameBeforeColon (run ++ sp ++ ":"%char :: r3) = Some run.
Proof.
  intros Hne Hrun Hsp Hin Hc. unfold nameBeforeColon.
  assert (Hhead : match sp ++ ":"%char :: r3 with
                  | [] => True
                  | d :: _ => isWord d = false
                  end).
  { destruct sp as [|d sp]; [reflexivity|].
    simpl in Hsp. apply andb_true_iff in Hsp as [Hd _].
    simpl. now apply isSpace_not_word. }
  rewrite (takeWhile_run isWord run _ Hrun Hhead).
  rewrite skipn_app, skipn_all, Nat.sub_diag. cbn [app skipn].
  rewrite (trimStart_spaces sp _ Hsp). cbn [trimStart].
  change (isSpace ":"%char) with false. cbv iota.
  rewrite Ascii.eqb_refl, (trimStart_nonEmpty r3 c Hin Hc).
  destruct run; [contradiction | reflexivity].
Qed.

Lemma varDeclRe_shape (s n g : str) :
  varDeclRe s = Some (n, g) -> nameBeforeColon s = Some n.
Proof.
  unfold varDeclRe. intros H.
  apply plusG_inv in H as (run & rest & -> & Hne & Hrun & H).
  apply starG_inv in H as (sp & rest2 & -> & Hsp & H).
  apply chr_inv in H as (r3 & -> & H).
  assert (E : n = run /\ In ";"%char r3).
  { regex_inv H. apply optG_inv in H as [H|H]; regex_inv H;
      inversion H; subst; (split; [reflexivity|]);
      repeat first [rewrite in_app_iff | progress simpl]; auto 20. }
  destruct E as [-> Hin].
  apply (name_before_colon run sp r3 ";"%char); auto.
Qed.

Lemma simpleDeclRe_shape (s n g : str) :
  simpleDeclRe s = Some (n, g) -> nameBeforeColon s = Some n.
Proof.
  unfold simpleDeclRe. intros H.
  apply plusG_inv in H as (run & rest & -> & Hne & Hrun & H).
  apply starG_inv in H as (sp & rest2 & -> & Hsp & H).
  apply chr_inv in H as (r3 & -> & H).
  apply starG_inv in H as (sp' & r4 & -> & Hsp' & H).
  apply plusG_inv in H as (ty & r5 & -> & Hty & Hns & H).
  inversion H; subst.
  destruct g as [|c g]; [contradiction|].
  simpl in Hns. apply andb_true_iff in Hns as [Hc _].
  apply negb_true_iff in Hc.
  apply (name_before_colon n sp _ c); auto.
  repeat rewrite in_app_iff. simpl. auto.
Qed.

Lemma nameBeforeColon_simple (s n : str) :
  nameBeforeColon s = Some n -> exists g, simpleDeclRe s = Some (n, g).
Proof.
  unfold nameBeforeColon. intros H.
  destruct (takeWhile_split isWord s) as (Es & Hrun & Hrest).
  remember (takeWhile isWord s) as name eqn:En.
  remember (skipn (length name) s) as rest eqn:Erest.
  clear En Erest. subst s.
  destruct (trimStart_split rest) as (sp & Er & Hsp & Hd).
  destruct (trimStart rest) as [|c r]; [discriminate|].
  destruct (Ascii.eqb c ":"%char) eqn:Ec; [|discriminate].
  apply Ascii.eqb_eq in Ec. subst c.
  destruct (nonEmpty name) eqn:Hne; [|discriminate].
  destruct (nonEmpty (trimStart r)) eqn:Hr; [|discriminate].
  simpl in H. inversion H. subst n. clear H.
  destruct (trimStart_split r) as (sp' & Er' & Hsp' & Hd').
  destruct (trimStart r) as [|c' r']; [discriminate|].
  unfold simpleDeclRe. rewrite Er, Er' in *.
  destruct (starG_always (str * str) isNonSpace (fun ty => (name, ty)) r' [c'])
    as [g Hg].
  exists g.
  apply plusG_run; [destruct name; [discriminate|discriminate] | exact Hrun | |].
  { exact Hrest. }
  apply starG_run; [exact Hsp | reflexivity |].
  cbn [app Re.chr]. rewrite Ascii.eqb_refl.
  apply starG_run; [exact Hsp' | exact Hd' |].
  cbn [app Re.plusG]. unfold isNonSpace at 1. rewrite Hd'. cbn [negb].
  exact Hg.
Qed.

Lemma currentBlockName_owner (st : State) : currentBlockName st = ownerName st.
Proof.
  unfold currentBlockName, ownerName, owner.
  destruct (currentBlock st); reflexivity.
Qed.

(** What the declaration step records: the declared name of the line, if
    any, under the current section and block, at column 0. *)
Lemma declareVariable_declares (idx : nat) (o : str) (st : State) :
  exists ty,
    declareVariable idx o st
    = match declaredName o with
      | Some name =>
          pushVariable (VariableDecl.mk name ty (currentVarSection st)
                                        (ownerName st) idx 0) st
      | None => st
      end.
Proof.
  unfold declareVariable, declaredName. rewrite currentBlockName_owner.
  destruct (varDeclRe (trim o)) as [[n g]|] eqn:E.
  - rewrite (varDeclRe_shape _ _ _ E).
    apply varDeclRe_name in E as (_ & _ & rest & Er).
    rewrite Er, indexOfZ_prefix.
    destruct (isKeyword n); simpl; eauto.
  - destruct (simpleDeclRe (trim o)) as [[n g]|] eqn:E'.
    + rewrite (simpleDeclRe_shape _ _ _ E').
      destruct (isKeyword n); simpl; eauto.
    + destruct (nameBeforeColon (trim o)) as [n|] eqn:En; [|exists []; reflexivity].
      destruct (nameBeforeColon_simple _ _ En) as [g Hg]. congruence.
Qed.

(** *** What a line of the scan declares *)

Lemma find_closer_some (u : str) :
  matchKeyword u (lit "END_VAR") || matchKeyword u (lit "END_STRUCT") = true ->
  isToken (varToken u) = true.
Proof.
  intros H. unfold varToken.
  destruct (isConstantSection u); [reflexivity|].
  destruct (find (matchKeyword u) VAR_OPENS); [reflexivity|].
  cbn [find].
  destruct (matchKeyword u (lit "END_VAR")); [reflexivity|].
  destruct (matchKeyword u (lit "END_STRUCT")); [reflexivity | discriminate].
Qed.

Lemma classify_declares (idx : nat) (o t u : str) (st : State) :
  exists ty,
    ParseResult.variables (result (classify idx o t u st))
    = ParseResult.variables (result st)
      ++ (if negb (takenEarlier (isSome (currentBlock st)) t u)
             && nonEmpty (currentVarSection st) && negb (afterBegin st)
          then match declaredName o with
               | Some name =>
                   [VariableDecl.mk name ty (currentVarSection st)
                                    (ownerName st) idx 0]
               | None => []
               end
          else []).
Proof.
  assert (Hkept : forall st',
             ParseResult.variables (result st') = ParseResult.variables (result st) ->
             takenEarlier (isSome (currentBlock st)) t u = true
             \/ nonEmpty (currentVarSection st) && negb (afterBegin st) = false ->
             exists ty : str,
               ParseResult.variables (result st')
               = ParseResult.variables (result st)
                 ++ (if negb (takenEarlier (isSome (currentBlock st)) t u)
                        && nonEmpty (currentVarSection st) && negb (afterBegin st)
                     then match declaredName o with
                          | Some name =>
                              [VariableDecl.mk name ty (currentVarSection st)
                                               (ownerName st) idx 0]
                          | None => []
                          end
                     else [])).
  { intros st' -> [Ht|Hs]; exists [].
    - rewrite Ht. simpl. now rewrite app_nil_r.
    - rewrite <- andb_assoc, Hs, andb_false_r. now rewrite app_nil_r. }
  unfold classify.
  destruct (startsWith t (lit "{") && isSome (currentBlock st)) eqn:Epragma.
  { apply Hkept; [autorewrite with scan; reflexivity|]. left.
    apply andb_true_iff in Epragma as [H1 H2].
    unfold takenEarlier. rewrite H1, H2. reflexivity. }
  destruct (startsWith u (lit "VERSION") && isSome (currentBlock st)) eqn:Eversion.
  { apply Hkept; [autorewrite with scan; reflexivity|]. left.
    apply andb_true_iff in Eversion as [H1 H2].
    unfold takenEarlier. rewrite H1, H2, orb_true_r. reflexivity. }
  destruct (find (matchKeyword u) (keys BLOCK_PAIRS)) as [openKw|] eqn:Eopen.
  { apply Hkept; [reflexivity|]. left.
    unfold takenEarlier, blockToken. rewrite Eopen. simpl.
    now rewrite orb_true_r. }
  destruct (find (matchKeyword u) (keys BLOCK_END_TO_OPEN)) as [closeKw|] eqn:Eclose.
  { apply Hkept; [autorewrite with scan; reflexivity|]. left.
    unfold takenEarlier, blockToken. rewrite Eopen, Eclose. simpl.
    now rewrite orb_true_r. }
  assert (Hbt : blockToken u = None)
    by (unfold blockToken; rewrite Eopen, Eclose; reflexivity).
  destruct (streq u (lit "BEGIN")) eqn:Ebegin.
  { apply Hkept; [cbn [setAfterBegin result]; autorewrite with scan; reflexivity|].
    left.
    unfold takenEarlier. rewrite Ebegin. now rewrite orb_true_r. }
  destruct (matchKeyword u (lit "END_VAR") || matchKeyword u (lit "END_STRUCT"))
    eqn:Evarend.
  { apply Hkept; [autorewrite with scan; reflexivity|]. left.
    unfold takenEarlier. rewrite (find_closer_some u Evarend).
    now rewrite orb_true_r. }
  destruct (startsWith u (lit "VAR") && includes u (lit "CONSTANT")
            && negb (startsWith u (lit "VAR_"))) eqn:Econst.
  { apply Hkept; [reflexivity|]. left.
    unfold takenEarlier, varToken, isConstantSection. rewrite Econst.
    now rewrite orb_true_r. }
  destruct (find (matchKeyword u) VAR_OPENS) as [varKw|] eqn:Evar.
  { apply Hkept; [reflexivity|]. left.
    unfold takenEarlier, varToken, isConstantSection. rewrite Econst, Evar.
    now rewrite orb_true_r. }
  assert (Hfree : takenEarlier (isSome (currentBlock st)) t u = false).
  { unfold takenEarlier, varToken, isConstantSection.
    rewrite Hbt, Ebegin, Econst, Evar. cbn [find].
    apply orb_false_iff in Evarend as [-> ->]. cbn [isToken orb].
    rewrite !orb_false_r.
    destruct (isSome (currentBlock st)); [|now rewrite andb_false_r].
    rewrite !andb_true_r in *. now rewrite Epragma, Eversion. }
  destruct (nonEmpty (currentVarSection st) && negb (afterBegin st)) eqn:Edecl.
  - destruct (declareVariable_declares idx o st) as [ty Hty].
    exists ty. rewrite Hty, Hfree. cbn [negb andb]. rewrite Edecl.
    destruct (declaredName o); [reflexivity | now rewrite app_nil_r].
  - destruct (afterBegin st);
      (apply Hkept; [autorewrite with scan; reflexivity | now right]).
Qed.

Lemma processLine_declares (idx : nat) (l : str) (st : State) :
  exists ty,
    ParseResult.variables (result (processLine idx l st))
    = ParseResult.variables (result st)
      ++ match declarationScanned st l with
         | Some name =>
             [VariableDecl.mk name ty (currentVarSection st) (ownerName st) idx 0]
         | None => []
         end.
Proof.
  unfold processLine, declarationScanned.
  destruct (stripComments (inBlockComment st) l) as [[c o]|];
    [|exists []; now rewrite app_nil_r].
  destruct (nonEmpty (trim (stripStrings o))) eqn:Ene;
    [|exists []; now rewrite app_nil_r].
  destruct (classify_declares idx o (trim (stripStrings o))
              (toUpperCase (trim (stripStrings o)))
              (trackUsage o (setInBlockComment c st))) as [ty Hty].
  exists ty. rewrite Hty.
  assert (Ht : isSome (currentBlock (trackUsage o (setInBlockComment c st)))
               = isSome (currentBlock st))
    by (autorewrite with scan; reflexivity).
  assert (Ho : ownerName (trackUsage o (setInBlockComment c st)) = ownerName st)
    by (unfold ownerName, owner; autorewrite with scan; reflexivity).
  rewrite Ht, Ho. autorewrite with scan. cbn [setInBlockComment currentVarSection afterBegin result andb].
  destruct (negb (takenEarlier (isSome (currentBlock st)) (trim (stripStrings o))
                    (toUpperCase (trim (stripStrings o))))
            && nonEmpty (currentVarSection st) && negb (afterBegin st));
    reflexivity.
Qed.

(** *** The declarations of the model are the lines scanned as declarations *)

Lemma scan_entries (text : str) :
  forall (suffix prefix : list str),
    splitLines text = prefix ++ suffix ->
    map keyLoc (ParseResult.variables
                  (result (scanLines (length prefix) suffix
                                     (scanLines 0 prefix initState))))
    = map keyLoc (ParseResult.variables (result (scanLines 0 prefix initState)))
      ++ flat_map (recordAt text) (seq (length prefix) (length suffix)).
Proof.
  induction suffix as [|l rest IH]; intros prefix E.
  - simpl. now rewrite app_nil_r.
  - cbn [scanLines length seq flat_map].
    assert (Hst : processLine (length prefix) l (scanLines 0 prefix initState)
                  = scanLines 0 (prefix ++ [l]) initState)
      by (rewrite scanLines_app; reflexivity).
    assert (Hlen : S (length prefix) = length (prefix ++ [l]))
      by (rewrite length_app; simpl; lia).
    rewrite Hst, Hlen.
    rewrite IH by (rewrite <- app_assoc; exact E).
    rewrite <- Hst, <- Hlen.
    destruct (processLine_declares (length prefix) l
                (scanLines 0 prefix initState)) as [ty Hty].
    rewrite Hty, map_app, <- app_assoc. f_equal. f_equal.
    unfold recordAt, recordedAt, stateBefore.
    rewrite E, nth_error_app2, Nat.sub_diag by lia. cbn [nth_error].
    rewrite firstn_app, Nat.sub_diag, firstn_all, firstn_O, app_nil_r.
    destruct (declarationScanned (scanLines 0 prefix initState) l); reflexivity.
Qed.

Lemma parse_recorded_entries (text : str) :
  map keyLoc (ParseResult.variables (parse text)) = recordedEntries text.
Proof.
  rewrite parse_variables.
  exact (scan_entries text (splitLines text) [] eq_refl).
Qed.

(** *** Lists *)

Lemma filter_none (A : Type) (p : A -> bool) (l : list A) :
  filter p l = [] -> Forall (fun z => p z = false) l.
Proof.
  induction l as [|y l IH]; simpl; [constructor|].
  destruct (p y) eqn:E; [discriminate|].
  intros H. constructor; auto.
Qed.

Lemma filter_first (A : Type) (p : A -> bool) (x : A) (r : list A) :
  forall l,
    filter p l = x :: r ->
    exists a l', l = a ++ x :: l' /\ Forall (fun z => p z = false) a
                 /\ p x = true /\ filter p l' = r.
Proof.
  induction l as [|y l IH]; simpl; [discriminate|].
  destruct (p y) eqn:E.
  - intros H. injection H as -> <-. exists [], l. auto.
  - intros H. destruct (IH H) as (a & l' & -> & Ha & Hx & Hr).
    exists (y :: a), l'. auto.
Qed.

Lemma filter_all (A : Type) (p : A -> bool) (l : list A) :
  Forall (fun z => p z = true) l -> filter p l = l.
Proof.
  induction 1 as [|y l Hy _ IH]; simpl; [reflexivity|].
  now rewrite Hy, IH.
Qed.

Lemma filter_permutation (A : Type) (p : A -> bool) (l l' : list A) :
  Permutation l l' -> Permutation (filter p l) (filter p l').
Proof.
  induction 1 as [|x l l' _ IH|x y l|l l' l'' _ IH1 _ IH2]; simpl.
  - constructor.
  - destruct (p x); auto.
  - destruct (p x), (p y); auto. apply perm_swap.
  - etransitivity; eauto.
Qed.

Lemma seq_in_order (x y z : list nat) (L1 L2 : nat) :
  forall a n, seq a n = x ++ L1 :: y ++ L2 :: z -> L1 < L2.
Proof.
  induction x as [|x0 x IH]; intros a n E.
  - destruct n as [|n]; [discriminate|]. simpl in E.
    injection E as <- E.
    assert (Hin : In L2 (seq (S a) n))
      by (rewrite E; apply in_or_app; right; now left).
    apply in_seq in Hin. lia.
  - destruct n as [|n]; [discriminate|]. simpl in E.
    injection E as _ E. now apply (IH (S a) n).
Qed.

Lemma keyEqb_eq (k k' : str * str) : keyEqb k k' = true <-> k = k'.
Proof.
  destruct k as [a b], k' as [a' b']. unfold keyEqb. simpl.
  rewrite andb_true_iff. split.
  - intros [H1 H2]. apply streq_eq in H1. apply streq_eq in H2. congruence.
  - intros E. injection E as -> ->. now rewrite !streq_refl.
Qed.

Lemma keyEqb_neq (k k' : str * str) : keyEqb k k' = false <-> k <> k'.
Proof.
  rewrite <- keyEqb_eq. destruct (keyEqb k k'); split; congruence.
Qed.

(** *** The rule, one declaration at a time *)

Lemma duplicatesOf_snoc (n : str) (locs : list Location) (loc : Location) :
  duplicatesOf n (locs ++ [loc])
  = duplicatesOf n locs
    ++ match locs with f :: _ => [duplicateOf n f loc] | [] => [] end.
Proof.
  destruct locs as [|f [|s r]]; try reflexivity.
  unfold duplicatesOf. cbn [app]. change (s :: r ++ [loc]) with ((s :: r) ++ [loc]).
  rewrite map_app. reflexivity.
Qed.

Lemma addLocation_reports (n : str) (loc : Location)
      (bv : list (str * list Location)) :
  Permutation (duplicatesIn (addLocation n loc bv))
              (match find (fun nl => streq n (fst nl)) bv with
               | Some (_, f :: _) => [duplicateOf n f loc]
               | _ => []
               end ++ duplicatesIn bv).
Proof.
  unfold duplicatesIn.
  induction bv as [|[n' locs] bv IH]; cbn [addLocation find flat_map fst snd].
  - reflexivity.
  - destruct (streq n n') eqn:E; cbn [flat_map fst snd].
    + apply streq_eq in E. subst n'. rewrite duplicatesOf_snoc, <- app_assoc.
      destruct locs as [|f locs]; apply Permutation_app_swap_app.
    + etransitivity; [apply Permutation_app_head; exact IH|].
      apply Permutation_app_swap_app.
Qed.

Lemma addToBlock_reports (k n : str) (loc : Location)
      (g : list (str * list (str * list Location))) :
  Permutation (duplicatesOfGroups (addToBlock k n loc g))
              (match locationsOf k n g with
               | Some (f :: _) => [duplicateOf n f loc]
               | _ => []
               end ++ duplicatesOfGroups g).
Proof.
  unfold duplicatesOfGroups, locationsOf.
  induction g as [|[k' bv] g IH]; cbn [addToBlock find flat_map fst snd].
  - reflexivity.
  - destruct (streq k k') eqn:E; cbn [flat_map fst snd].
    + etransitivity; [apply Permutation_app_tail; apply addLocation_reports|].
      rewrite <- app_assoc.
      destruct (find (fun nl => streq n (fst nl)) bv) as [[n' [|f locs]]|];
        reflexivity.
    + etransitivity; [apply Permutation_app_head; exact IH|].
      apply Permutation_app_swap_app.
Qed.

Lemma diagsAt_app (c : str) (L : nat) (a b : list LintDiagnostic.t) :
  diagsAt c L (a ++ b) = diagsAt c L a ++ diagsAt c L b.
Proof. apply filter_app. Qed.

Lemma diagsAt_duplicateOf_other (c : str) (L : nat) (n : str) (f loc : Location) :
  fst loc <> L -> diagsAt c L [duplicateOf n f loc] = [].
Proof.
  intros H. unfold diagsAt. cbn [filter].
  change (LintDiagnostic.line (duplicateOf n f loc)) with (fst loc).
  rewrite (proj2 (Nat.eqb_neq _ _) H), andb_false_r. reflexivity.
Qed.

Lemma diagsAt_duplicateOf_same (n : str) (f loc : Location) :
  diagsAt (lit "SCL004") (fst loc) [duplicateOf n f loc] = [duplicateOf n f loc].
Proof.
  unfold diagsAt. cbn [filter].
  change (LintDiagnostic.line (duplicateOf n f loc)) with (fst loc).
  change (LintDiagnostic.code (duplicateOf n f loc)) with (lit "SCL004").
  rewrite streq_refl, Nat.eqb_refl. reflexivity.
Qed.

Lemma addVariable_reports (c : str) (L : nat) (v : VariableDecl.t)
      (g : list (str * list (str * list Location))) :
  Permutation
    (diagsAt c L (duplicatesOfGroups (addVariable g v)))
    (diagsAt c L
       match locationsOf (VariableDecl.block v) (toLowerCase (VariableDecl.name v)) g with
       | Some (f :: _) =>
           [duplicateOf (toLowerCase (VariableDecl.name v)) f (varLocation v)]
       | _ => []
       end
     ++ diagsAt c L (duplicatesOfGroups g)).
Proof.
  rewrite <- diagsAt_app. apply filter_permutation.
  unfold addVariable. apply addToBlock_reports.
Qed.

Lemma addVariable_elsewhere (c : str) (L : nat) (v : VariableDecl.t)
      (g : list (str * list (str * list Location))) :
  VariableDecl.line v <> L ->
  Permutation (diagsAt c L (duplicatesOfGroups (addVariable g v)))
              (diagsAt c L (duplicatesOfGroups g)).
Proof.
  intros H. etransitivity; [apply addVariable_reports|].
  destruct (locationsOf _ _ g) as [[|f locs]|]; try reflexivity.
  rewrite diagsAt_duplicateOf_other by exact H. reflexivity.
Qed.

Lemma fold_elsewhere (c : str) (L : nat) (vs : list VariableDecl.t) :
  forall g,
    Forall (fun v => VariableDecl.line v <> L) vs ->
    Permutation (diagsAt c L (duplicatesOfGroups (fold_left addVariable vs g)))
                (diagsAt c L (duplicatesOfGroups g)).
Proof.
  induction vs as [|v vs IH]; intros g H; simpl; [reflexivity|].
  inversion H; subst.
  etransitivity; [now apply IH | now apply addVariable_elsewhere].
Qed.

(** *** Two declarations under one key *)

Lemma keys_elsewhere (key : str * str) (vs : list VariableDecl.t) :
  Forall (fun v => varKey v <> key) vs -> ~ In key (map varKey vs).
Proof.
  intros H Hin. apply in_map_iff in Hin as (v & E & Hv).
  rewrite Forall_forall in H. now apply (H v Hv).
Qed.

Lemma addVariable_eq (g : list (str * list (str * list Location)))
      (v : VariableDecl.t) :
  addVariable g v
  = addToBlock (VariableDecl.block v) (toLowerCase (VariableDecl.name v))
               (varLocation v) g.
Proof. reflexivity. Qed.

Lemma two_declarations_reported (A B C : list VariableDecl.t)
      (v1 v2 : VariableDecl.t) (key : str * str) (L1 L2 : nat) :
  keyLoc v1 = (key, (L1, 0%Z)) -> keyLoc v2 = (key, (L2, 0%Z)) -> L1 <> L2 ->
  Forall (fun v => varKey v <> key) (A ++ B ++ C) ->
  Forall (fun v => VariableDecl.line v <> L1) (A ++ B ++ C) ->
  Forall (fun v => VariableDecl.line v <> L2) (A ++ B ++ C) ->
  diagsAt (lit "SCL004") L2
          (duplicatesOfGroups (groupByBlock (A ++ v1 :: B ++ v2 :: C)))
  = [duplicateAt (snd key) L1 L2]
  /\ diagsAt (lit "SCL004") L1
             (duplicatesOfGroups (groupByBlock (A ++ v1 :: B ++ v2 :: C)))
     = [].
Proof.
  intros K1 K2 Hne Hkey Hl1 Hl2.
  apply Forall_app in Hkey as [HkA Hkey]. apply Forall_app in Hkey as [HkB HkC].
  apply Forall_app in Hl1 as [H1A Hl1]. apply Forall_app in Hl1 as [H1B H1C].
  apply Forall_app in Hl2 as [H2A Hl2]. apply Forall_app in Hl2 as [H2B H2C].
  assert (Hkey1 : varKey v1 = key) by (unfold keyLoc in K1; congruence).
  assert (Hloc1 : varLocation v1 = (L1, 0%Z)) by (unfold keyLoc in K1; congruence).
  assert (Hkey2 : varKey v2 = key) by (unfold keyLoc in K2; congruence).
  assert (Hloc2 : varLocation v2 = (L2, 0%Z)) by (unfold keyLoc in K2; congruence).
  clear K1 K2. destruct key as [k n]. cbn [snd].
  assert (Hline1 : VariableDecl.line v1 = L1)
    by (unfold varLocation in Hloc1; congruence).
  assert (Hline2 : VariableDecl.line v2 = L2)
    by (unfold varLocation in Hloc2; congruence).
  assert (Hb1 : VariableDecl.block v1 = k) by (unfold varKey in Hkey1; congruence).
  assert (Hn1 : toLowerCase (VariableDecl.name v1) = n)
    by (unfold varKey in Hkey1; congruence).
  assert (Hb2 : VariableDecl.block v2 = k) by (unfold varKey in Hkey2; congruence).
  assert (Hn2 : toLowerCase (VariableDecl.name v2) = n)
    by (unfold varKey in Hkey2; congruence).
  assert (HlocA : locationsOf k n (fold_left addVariable A []) = None)
    by (rewrite fold_addVariable_other by (now apply keys_elsewhere); reflexivity).
  rewrite groupByBlock_fold. split.
  - replace (A ++ v1 :: B ++ v2 :: C) with ((A ++ v1 :: B) ++ v2 :: C)
      by (rewrite <- app_assoc; reflexivity).
    rewrite fold_left_app. cbn [fold_left].
    remember (fold_left addVariable (A ++ v1 :: B) []) as g3 eqn:Eg3.
    assert (Hloc3 : locationsOf k n g3 = Some [(L1, 0%Z)]).
    { subst g3. rewrite fold_left_app. cbn [fold_left].
      rewrite fold_addVariable_other by (now apply keys_elsewhere).
      rewrite (addVariable_eq _ v1), Hb1, Hn1, locationsOf_add_same, HlocA, Hloc1.
      reflexivity. }
    assert (Hout3 : diagsAt (lit "SCL004") L2 (duplicatesOfGroups g3) = []).
    { apply Permutation_nil. symmetry. subst g3.
      change (@nil LintDiagnostic.t)
        with (diagsAt (lit "SCL004") L2 (duplicatesOfGroups [])).
      apply fold_elsewhere. apply Forall_app. split; [exact H2A|].
      constructor; [congruence | exact H2B]. }
    apply Permutation_length_1_inv. symmetry.
    etransitivity; [apply fold_elsewhere; exact H2C|].
    etransitivity; [apply addVariable_reports|].
    rewrite Hb2, Hn2, Hloc3, Hout3, app_nil_r, Hloc2.
    change L2 with (fst (L2, 0%Z)) at 1.
    rewrite diagsAt_duplicateOf_same. reflexivity.
  - rewrite fold_left_app. cbn [fold_left].
    apply Permutation_nil. symmetry.
    etransitivity;
      [apply fold_elsewhere; apply Forall_app; split; [exact H1B|];
       constructor; [congruence | exact H1C]|].
    etransitivity; [apply addVariable_reports|].
    rewrite Hb1, Hn1, HlocA.
    change (diagsAt (lit "SCL004") L1 []) with (@nil LintDiagnostic.t).
    cbn [app].
    change (@nil LintDiagnostic.t)
      with (diagsAt (lit "SCL004") L1 (duplicatesOfGroups [])).
    apply fold_elsewhere. exact H1A.
Qed.

(** ** The scanner follows the scope of the text *)

Lemma ownerName_names (st : State) :
  ownerName st
  = match currentBlock st with
    | Some i =>
        match nth_error (map BlockDecl.name (ParseResult.blocks (result st))) i with
        | Some name => name
        | None => []
        end
    | None => []
    end.
Proof.
  unfold ownerName, owner. destruct (currentBlock st) as [i|]; [|reflexivity].
  rewrite nth_error_map. destruct (nth_error _ i); reflexivity.
Qed.

Lemma ownerName_kept (st st' : State) :
  currentBlock st' = currentBlock st ->
  map BlockDecl.name (ParseResult.blocks (result st'))
  = map BlockDecl.name (ParseResult.blocks (result st)) ->
  ownerName st' = ownerName st.
Proof. intros Hc Hn. rewrite !ownerName_names, Hc, Hn. reflexivity. Qed.

Lemma mutateCurrent_names (f : BlockDecl.t -> BlockDecl.t) (st : State) :
  (forall b, BlockDecl.name (f b) = BlockDecl.name b) ->
  map BlockDecl.name (ParseResult.blocks (result (mutateCurrent f st)))
  = map BlockDecl.name (ParseResult.blocks (result st)).
Proof.
  intros Hf. unfold mutateCurrent. destruct (currentBlock st); [|reflexivity].
  simpl. now apply map_updAt.
Qed.

Lemma blockStep_names (idx : nat) (st st' : State) :
  blockStep idx st st' ->
  length (ParseResult.blocks (result st')) = length (ParseResult.blocks (result st)) ->
  map BlockDecl.name (ParseResult.blocks (result st'))
  = map BlockDecl.name (ParseResult.blocks (result st)).
Proof.
  unfold blockStep.
  intros [[Eb _]|[(b & _ & Eb & _)|[(c & f & _ & Eb & Hf & _)|(c & _ & Eb & _)]]] Hlen;
    rewrite Eb in *.
  - reflexivity.
  - rewrite length_app in Hlen. simpl in Hlen. lia.
  - apply map_updAt. intros b. destruct (Hf b) as (Hid & _).
    unfold blockId in Hid. congruence.
  - apply map_updAt. reflexivity.
Qed.

Lemma agreesScope_same (n : Scope) (st st' : State) :
  blockStack st' = blockStack st -> afterBegin st' = afterBegin st ->
  currentBlock st' = currentBlock st ->
  map BlockDecl.name (ParseResult.blocks (result st'))
  = map BlockDecl.name (ParseResult.blocks (result st)) ->
  varStack st' = varStack st -> currentVarSection st' = currentVarSection st ->
  agreesScope n st -> agreesScope n st'.
Proof.
  unfold agreesScope. intros E1 E2 E3 E4 E5 E6.
  rewrite (ownerName_kept st st' E3 E4), E1, E2, E3, E5, E6. auto.
Qed.

Ltac same_scope Hag :=
  eapply agreesScope_same; [| | | | | |exact Hag];
  first [reflexivity
        | autorewrite with scan; reflexivity
        | apply mutateCurrent_names; reflexivity
        | cbn [setAfterBegin result]; apply mutateCurrent_names; reflexivity
        | cbn [setAfterBegin result]; autorewrite with scan; reflexivity].

Lemma closer_token (u : str) :
  matchKeyword u (lit "END_VAR") || matchKeyword u (lit "END_STRUCT") = true ->
  exists c, varToken u = Some (Close c).
Proof.
  intros H.
  assert (HK : exists K, (K = lit "END_VAR" \/ K = lit "END_STRUCT")
                         /\ matchKeyword u K = true).
  { apply orb_true_iff in H as [H|H]; eauto. }
  destruct HK as (K & HKs & HK).
  assert (Hc : isConstantSection u = false).
  { unfold isConstantSection.
    pose proof (matchKeyword_startsWith u K HK) as Hs.
    destruct HKs as [-> | ->];
      rewrite (startsWith_incompatible u _ (lit "VAR") Hs eq_refl); reflexivity. }
  assert (Ho : find (matchKeyword u) VAR_OPENS = None).
  { destruct HKs as [-> | ->];
      apply (find_matchKeyword_other u _ VAR_OPENS HK eq_refl eq_refl). }
  unfold varToken. rewrite Hc, Ho. cbn [find].
  destruct (matchKeyword u (lit "END_VAR")); [eauto|].
  destruct (matchKeyword u (lit "END_STRUCT")); [eauto | discriminate].
Qed.

Lemma head_pending (s : list StackEntry.t) :
  match top s with Some e => StackEntry.keyword e | None => [] end
  = match pendingOf s with k :: _ => k | [] => [] end.
Proof.
  pose proof (top_pending s) as H.
  destruct (top s) as [e|]; rewrite H; reflexivity.
Qed.

Lemma tail_pending (s : list StackEntry.t) :
  pendingOf (pop s) = tl (pendingOf s).
Proof.
  pose proof (top_pending s) as H.
  destruct (top s) as [e|] eqn:E.
  - rewrite H. reflexivity.
  - apply top_None in E. subst. reflexivity.
Qed.

Lemma scope_eta (n : Scope) :
  mkScope (pending n) (owning n) (begun n) (sections n) = n.
Proof. destruct n. reflexivity. Qed.

(** One active line: the state of the scanner after the line agrees with
    the scope after the line. *)
Lemma classify_scope (idx : nat) (o t u : str) (st : State) (n : Scope) :
  t = trim (stripStrings o) -> u = toUpperCase t ->
  agreesScope n st ->
  agreesScope (stepScope n (Some o)) (classify idx o t u st).
Proof.
  intros Ht Hu Hag.
  pose proof Hag as (Hbs & Hab & Hcur & Hown & Hvs & Hsec & Hne).
  unfold stepScope, upperOfCode. rewrite <- Ht, <- Hu.
  unfold classify.
  (* Pragma detection *)
  destruct (startsWith t (lit "{") && isSome (currentBlock st)) eqn:Epragma.
  { apply andb_true_iff in Epragma as [Hs _].
    apply startsWith_toUpperCase_brace in Hs. rewrite <- Hu in Hs.
    destruct (plainLine_prefix u (lit "{") Hs eq_refl) as (Hb & Hv & _ & Hbeg).
    rewrite Hb, Hbeg, Hv. same_scope Hag. }
  (* VERSION detection *)
  destruct (startsWith u (lit "VERSION") && isSome (currentBlock st)) eqn:Eversion.
  { apply andb_true_iff in Eversion as [Hs _].
    destruct (plainLine_prefix u (lit "VERSION") Hs eq_refl) as (Hb & Hv & _ & Hbeg).
    rewrite Hb, Hbeg, Hv. same_scope Hag. }
  (* Block declarations *)
  destruct (find (matchKeyword u) (keys BLOCK_PAIRS)) as [openKw|] eqn:Eopen.
  { unfold blockToken. rewrite Eopen.
    unfold agreesScope, openBlock, ownerName, owner, ownerOf.
    cbn [blockStack afterBegin currentBlock varStack currentVarSection result
         setResult setCurrentBlock setBlockStack setAfterBegin
         ParseResult.blocks ParseResult.setBlocks
         pending begun owning sections isSome].
    rewrite pendingOf_snoc, Hbs, nth_error_app2, Nat.sub_diag by lia.
    cbn [nth_error BlockDecl.name]. auto 10. }
  (* Block end keywords *)
  destruct (find (matchKeyword u) (keys BLOCK_END_TO_OPEN)) as [closeKw|] eqn:Eclose.
  { unfold blockToken. rewrite Eopen, Eclose.
    unfold closeBlock, Nesting.closeWith. rewrite <- Hbs.
    pose proof (top_pending (blockStack st)) as Htop.
    destruct (top (blockStack st)) as [e|].
    - rewrite Htop. unfold closesBlock.
      destruct (match lookup (StackEntry.keyword e) BLOCK_PAIRS with
                | Some c => streq c closeKw
                | None => false
                end).
      + unfold agreesScope, ownerName, owner, ownerOf.
        cbn [blockStack afterBegin currentBlock varStack currentVarSection
             setCurrentBlock setAfterBegin pending begun owning sections isSome].
        autorewrite with scan.
        cbn [blockStack afterBegin currentBlock varStack currentVarSection
             setBlockStack].
        auto 10.
      + same_scope Hag.
    - rewrite Htop. same_scope Hag. }
  assert (Hbt : blockToken u = None)
    by (unfold blockToken; rewrite Eopen, Eclose; reflexivity).
  rewrite Hbt.
  (* BEGIN *)
  destruct (streq u (lit "BEGIN")) eqn:Ebegin.
  { unfold agreesScope.
    cbn [setAfterBegin blockStack afterBegin currentBlock varStack
         currentVarSection pending begun owning sections].
    rewrite (ownerName_kept st);
      [| cbn [setAfterBegin currentBlock]; autorewrite with scan; reflexivity
       | cbn [setAfterBegin result]; apply mutateCurrent_names; reflexivity].
    autorewrite with scan. auto 10. }
  (* VAR section ends *)
  destruct (matchKeyword u (lit "END_VAR") || matchKeyword u (lit "END_STRUCT"))
    eqn:Evarend.
  { destruct (closer_token u Evarend) as [c ->].
    unfold closeVarSection.
    destruct (nonEmpty (varStack st)) eqn:Estack.
    - unfold agreesScope, ownerName, owner.
      cbn [setCurrentVarSection setVarStack blockStack afterBegin currentBlock
           varStack currentVarSection result pending begun owning sections].
      fold (owner st). fold (ownerName st).
      rewrite head_pending, tail_pending, Hvs.
      repeat (split; [assumption || reflexivity|]).
      destruct (sections n) as [|k r]; [constructor|].
      now inversion Hne.
    - apply nonEmpty_false in Estack.
      assert (Hs : sections n = []) by (rewrite <- Hvs, Estack; reflexivity).
      rewrite Hs. cbn [tl]. rewrite <- Hs, scope_eta.
      same_scope Hag. }
  (* VAR CONSTANT special case *)
  destruct (startsWith u (lit "VAR") && includes u (lit "CONSTANT")
            && negb (startsWith u (lit "VAR_"))) eqn:Econst.
  { unfold varToken, isConstantSection. rewrite Econst.
    unfold agreesScope, openVarSection, ownerName, owner.
    cbn [setCurrentVarSection setVarStack blockStack afterBegin currentBlock
         varStack currentVarSection result pending begun owning sections].
    fold (owner st). fold (ownerName st).
    rewrite pendingOf_snoc, Hvs.
    repeat (split; [assumption || reflexivity|]).
    constructor; [reflexivity | exact Hne]. }
  (* VAR section opens *)
  destruct (find (matchKeyword u) VAR_OPENS) as [varKw|] eqn:Evar.
  { unfold varToken, isConstantSection. rewrite Econst, Evar.
    unfold agreesScope, openVarSection, ownerName, owner.
    cbn [setCurrentVarSection setVarStack blockStack afterBegin currentBlock
         varStack currentVarSection result pending begun owning sections].
    fold (owner st). fold (ownerName st).
    rewrite pendingOf_snoc, Hvs.
    repeat (split; [assumption || reflexivity|]).
    constructor; [|exact Hne].
    apply find_some in Evar as [Hin _]. simpl in Hin.
    repeat (destruct Hin as [<-|Hin]; [reflexivity|]). contradiction. }
  assert (Hvt : varToken u = None).
  { unfold varToken, isConstantSection. rewrite Econst, Evar. cbn [find].
    apply orb_false_iff in Evarend as [-> ->]. reflexivity. }
  rewrite Hvt.
  (* Variable declarations *)
  destruct (nonEmpty (currentVarSection st) && negb (afterBegin st)).
  { same_scope Hag. }
  destruct (afterBegin st); [|exact Hag].
  (* Control flow *)
  eapply agreesScope_same; [| | | | | |exact Hag];
    try (autorewrite with scan; reflexivity).
  apply (blockStep_names idx); [apply controlFlow_blockStep|].
  autorewrite with scan. reflexivity.
Qed.

Lemma processLine_flag (idx : nat) (l : str) (st : State) :
  plain (startMode (inBlockComment st)) l = true ->
  inBlockComment (processLine idx l st) = flagAfter (inBlockComment st) l.
Proof. intros H. rewrite processLine_comment. apply (activeUpper_read _ _ H). Qed.

Lemma processLine_scope (idx : nat) (l : str) (st : State) (n : Scope) :
  plain (startMode (inBlockComment st)) l = true ->
  agreesScope n st ->
  agreesScope (stepScope n (codeRead (inBlockComment st) l)) (processLine idx l st).
Proof.
  intros Hp Hag. unfold processLine, codeRead.
  rewrite (stripComments_read _ _ Hp).
  destruct (readLine (inBlockComment st) l) as [[c o]|]; [|exact Hag].
  destruct (nonEmpty (trim (stripStrings o))).
  - apply classify_scope; [reflexivity | reflexivity|]. same_scope Hag.
  - cbn [stepScope]. same_scope Hag.
Qed.

(** The key the scanner records for a line is the key the line declares
    in the scope. *)
Lemma declarationScanned_read (l : str) (st : State) (n : Scope) :
  plain (startMode (inBlockComment st)) l = true ->
  agreesScope n st ->
  match declarationScanned st l with
  | Some name => Some (ownerName st, toLowerCase name)
  | None => None
  end
  = match codeRead (inBlockComment st) l with
    | Some code => declaredIn n code
    | None => None
    end.
Proof.
  intros Hp (Hbs & Hab & Hcur & Hown & Hvs & Hsec & Hne).
  unfold declarationScanned, codeRead. rewrite (stripComments_read _ _ Hp).
  destruct (readLine (inBlockComment st) l) as [[c o]|]; [|reflexivity].
  destruct (nonEmpty (trim (stripStrings o))); [|reflexivity]. cbn [andb].
  assert (Hs : nonEmpty (currentVarSection st) = nonEmpty (sections n)).
  { rewrite Hsec. destruct (sections n) as [|k r]; [reflexivity|].
    inversion Hne; subst. assumption. }
  unfold declaredIn. rewrite Hcur, Hab, Hown, Hs.
  destruct (negb (takenEarlier (isSome (owning n)) (trim (stripStrings o))
                    (toUpperCase (trim (stripStrings o))))
            && nonEmpty (sections n) && negb (begun n)); reflexivity.
Qed.

Lemma scope_at :
  forall (lines : list str) (idx : nat) (st : State) (n : Scope) (L : nat) (line : str),
    plainLines (inBlockComment st) lines = true ->
    agreesScope n st ->
    nth_error lines L = Some line ->
    agreesScope (fold_left stepScope (firstn L (codes (inBlockComment st) lines)) n)
                (scanLines idx (firstn L lines) st)
    /\ plain (startMode (inBlockComment (scanLines idx (firstn L lines) st))) line = true
    /\ nth_error (codes (inBlockComment st) lines) L
       = Some (codeRead (inBlockComment (scanLines idx (firstn L lines) st)) line).
Proof.
  induction lines as [|l lines IH]; intros idx st n [|L] line Hp Hag Hn;
    try discriminate.
  - cbn [nth_error] in Hn. injection Hn as ->.
    cbn [plainLines] in Hp. apply andb_true_iff in Hp as [Hp1 _].
    cbn [firstn fold_left scanLines codes nth_error]. auto.
  - cbn [plainLines] in Hp. apply andb_true_iff in Hp as [Hp1 Hp2].
    cbn [nth_error] in Hn.
    cbn [firstn codes fold_left scanLines nth_error].
    rewrite <- (processLine_flag idx l st Hp1) in *.
    apply IH; [exact Hp2 | now apply processLine_scope | exact Hn].
Qed.

Lemma codes_length :
  forall (lines : list str) (c : bool), length (codes c lines) = length lines.
Proof.
  induction lines as [|l lines IH]; intros c; [reflexivity|].
  cbn [codes length]. now rewrite IH.
Qed.

Lemma agreesScope_start : agreesScope noScope initState.
Proof. unfold agreesScope. cbn. auto 10. Qed.

(** In a text where no block-comment opener stands inside a string
    literal or behind a line-comment marker, the scanner records for a
    line what the line declares. *)
Lemma declaredAt_recorded (text : str) (L : nat) :
  plainText text = true -> declaredAt text L = recordedAt text L.
Proof.
  intros Hp. unfold declaredAt, recordedAt, scopeBefore, readCode, stateBefore.
  destruct (nth_error (splitLines text) L) as [line|] eqn:Hn.
  - destruct (scope_at (splitLines text) 0 initState noScope L line
                       Hp agreesScope_start Hn) as (Hag & Hpl & Hc).
    cbn [inBlockComment initState] in Hc, Hag. rewrite Hc.
    rewrite (declarationScanned_read line _ _ Hpl Hag).
    destruct (codeRead _ line); reflexivity.
  - apply nth_error_None in Hn.
    rewrite (proj2 (nth_error_None _ _)) by (rewrite codes_length; exact Hn).
    reflexivity.
Qed.

(** The declarations of the model are the declarations of the text. *)
Lemma parse_entries_declared (text : str) :
  plainText text = true ->
  map keyLoc (ParseResult.variables (parse text)) = declaredEntries text.
Proof.
  intros Hp. rewrite parse_recorded_entries.
  unfold recordedEntries, declaredEntries. apply flat_map_ext.
  intros L. unfold recordAt, entryAt. now rewrite (declaredAt_recorded text L Hp).
Qed.

(** ** The declarations of a text *)

Lemma entries_elsewhere (text : str) (key : str * str) (L1 L2 : nat) :
  forall (l : list nat) (vs : list VariableDecl.t),
    Forall (fun L => declares text key L = false) l ->
    ~ In L1 l -> ~ In L2 l ->
    map keyLoc vs = flat_map (entryAt text) l ->
    Forall (fun v => varKey v <> key) vs
    /\ Forall (fun v => VariableDecl.line v <> L1) vs
    /\ Forall (fun v => VariableDecl.line v <> L2) vs.
Proof.
  induction l as [|L l IH]; intros vs Hl H1 H2 E.
  - apply map_eq_nil in E. subst vs. auto.
  - inversion Hl as [|? ? HL Hl']; subst.
    assert (H1' : ~ In L1 l) by (intros Hin; apply H1; now right).
    assert (H2' : ~ In L2 l) by (intros Hin; apply H2; now right).
    cbn [flat_map] in E. unfold entryAt at 1 in E. unfold declares in HL.
    destruct (declaredAt text L) as [k|].
    + cbn [app] in E. destruct vs as [|v vs]; [discriminate|].
      cbn [map] in E.
      assert (Ev : keyLoc v = (k, (L, 0%Z))) by congruence.
      assert (E' : map keyLoc vs = flat_map (entryAt text) l) by congruence.
      destruct (IH vs Hl' H1' H2' E') as (Ha & Hb & Hc).
      assert (Hk : varKey v = k) by (unfold keyLoc in Ev; congruence).
      assert (Hline : VariableDecl.line v = L)
        by (unfold keyLoc, varLocation in Ev; congruence).
      split; [|split]; constructor; auto.
      * rewrite Hk. now apply keyEqb_neq.
      * rewrite Hline. intros ->. apply H1. now left.
      * rewrite Hline. intros ->. apply H2. now left.
    + now apply IH.
Qed.

Lemma declares_entry (text : str) (key : str * str) (L : nat) :
  declares text key L = true -> entryAt text L = [(key, (L, 0%Z))].
Proof.
  unfold declares, entryAt. destruct (declaredAt text L) as [k|]; [|discriminate].
  intros H. apply keyEqb_eq in H. now subst k.
Qed.

(** A text in which exactly the lines [L1] and [L2] declare under [key]:
    the variables of its model. *)
Lemma two_lines_declare (text : str) (key : str * str) (L1 L2 : nat) :
  plainText text = true ->
  linesDeclaring text key = [L1; L2] ->
  L1 < L2
  /\ exists A v1 B v2 C,
       ParseResult.variables (parse text) = A ++ v1 :: B ++ v2 :: C
       /\ keyLoc v1 = (key, (L1, 0%Z)) /\ keyLoc v2 = (key, (L2, 0%Z))
       /\ Forall (fun v => varKey v <> key) (A ++ B ++ C)
       /\ Forall (fun v => VariableDecl.line v <> L1) (A ++ B ++ C)
       /\ Forall (fun v => VariableDecl.line v <> L2) (A ++ B ++ C).
Proof.
  unfold linesDeclaring. intros Hplain H.
  destruct (filter_first _ _ _ _ _ H) as (a & l' & Eseq & Ha & P1 & H').
  destruct (filter_first _ _ _ _ _ H') as (b & c & -> & Hb & P2 & Hc).
  apply filter_none in Hc.
  pose proof (seq_in_order _ _ _ _ _ _ _ Eseq) as Hlt.
  split; [exact Hlt|].
  pose proof (seq_NoDup (length (splitLines text)) 0) as Hnd.
  rewrite Eseq in Hnd.
  assert (Hin : forall L, In L (a ++ b ++ c) -> L <> L1 /\ L <> L2).
  { intros L HL.
    apply NoDup_remove_2 in Hnd as Hno1.
    apply NoDup_remove_1 in Hnd as Hnd'.
    rewrite app_assoc in Hnd'. apply NoDup_remove_2 in Hnd' as Hno2.
    rewrite <- app_assoc in Hno2.
    split; intros ->.
    - apply Hno1. rewrite !in_app_iff in *. simpl. tauto.
    - apply Hno2. exact HL. }
  pose proof (parse_entries_declared text Hplain) as Hmap.
  unfold declaredEntries in Hmap.
  rewrite Eseq, flat_map_app in Hmap. cbn [flat_map] in Hmap.
  rewrite flat_map_app in Hmap. cbn [flat_map] in Hmap.
  rewrite (declares_entry _ _ _ P1), (declares_entry _ _ _ P2) in Hmap.
  cbn [app] in Hmap.
  apply map_eq_app in Hmap as (A & R1 & Evars & HA & HR1).
  apply map_eq_cons in HR1 as (v1 & R2 & -> & Hv1 & HR2).
  apply map_eq_app in HR2 as (B & R3 & -> & HB & HR3).
  apply map_eq_cons in HR3 as (v2 & C & -> & Hv2 & HC).
  exists A, v1, B, v2, C.
  assert (HinA : forall L, In L a -> L <> L1 /\ L <> L2)
    by (intros L HL; apply Hin; rewrite !in_app_iff; tauto).
  assert (HinB : forall L, In L b -> L <> L1 /\ L <> L2)
    by (intros L HL; apply Hin; rewrite !in_app_iff; tauto).
  assert (HinC : forall L, In L c -> L <> L1 /\ L <> L2)
    by (intros L HL; apply Hin; rewrite !in_app_iff; tauto).
  destruct (entries_elsewhere text key L1 L2 a A Ha) as (A1 & A2 & A3);
    [intros Hx; destruct (HinA L1 Hx) as [N _]; now apply N
    |intros Hx; destruct (HinA L2 Hx) as [_ N]; now apply N | exact HA |].
  destruct (entries_elsewhere text key L1 L2 b B Hb) as (B1 & B2 & B3);
    [intros Hx; destruct (HinB L1 Hx) as [N _]; now apply N
    |intros Hx; destruct (HinB L2 Hx) as [_ N]; now apply N | exact HB |].
  destruct (entries_elsewhere text key L1 L2 c C Hc) as (C1 & C2 & C3);
    [intros Hx; destruct (HinC L1 Hx) as [N _]; now apply N
    |intros Hx; destruct (HinC L2 Hx) as [_ N]; now apply N | exact HC |].
  split; [exact Evars|]. split; [exact Hv1|]. split; [exact Hv2|].
  rewrite !Forall_app. auto 10.
Qed.

Lemma filter_other_keys (key : str * str) (vs : list VariableDecl.t) :
  Forall (fun v => varKey v <> key) vs ->
  filter (fun k => negb (keyEqb k key)) (map varKey vs) = map varKey vs.
Proof.
  intros H. apply filter_all. apply Forall_map.
  eapply Forall_impl; [|exact H]. intros v Hv. cbv beta.
  apply keyEqb_neq in Hv. now rewrite Hv.
Qed.

Lemma otherKeys_split (text : str) (key : str * str)
      (A B C : list VariableDecl.t) (v1 v2 : VariableDecl.t) :
  plainText text = true ->
  ParseResult.variables (parse text) = A ++ v1 :: B ++ v2 :: C ->
  varKey v1 = key -> varKey v2 = key ->
  Forall (fun v => varKey v <> key) (A ++ B ++ C) ->
  otherKeys text key = map varKey (A ++ B ++ C).
Proof.
  intros Hplain Evars K1 K2 Hkey. unfold otherKeys.
  rewrite <- (parse_entries_declared text Hplain), map_map.
  change (map (fun x => fst (keyLoc x))) with (map varKey).
  rewrite Evars.
  apply Forall_app in Hkey as [HA Hkey]. apply Forall_app in Hkey as [HB HC].
  rewrite !map_app. cbn [map]. rewrite map_app. cbn [map].
  rewrite filter_app. cbn [filter]. rewrite filter_app. cbn [filter].
  rewrite K1, K2, (proj2 (keyEqb_eq key key) eq_refl). cbn [negb].
  now rewrite !filter_other_keys.
Qed.

Lemma NoDup_insert (A : Type) (x : A) (a b : list A) :
  ~ In x (a ++ b) -> NoDup (a ++ b) -> NoDup (a ++ x :: b).
Proof.
  intros Hx Hnd. apply (Permutation_NoDup (l := x :: a ++ b)).
  - apply Permutation_middle.
  - now constructor.
Qed.

(** ** C6: duplicate variables *)



